(** * Class linking and resolution: field layout, dispatch tables, class table
    and initialization status, embedded from [class_linker.cc]
    (the class-linker part of [src/runtime/mem_map.h]). *)

From Stdlib Require Import Ascii.
From stdpp Require Import base list strings sorting gmap.

Local Open Scope Z_scope.

(** ** Machine integers and small helpers *)

(** [uint32_t] arithmetic: values are kept as [Z], the wrap-around is explicit. *)
Definition wrap32 (x : Z) : Z := x mod 2 ^ 32.

(** [MemberOffset::Uint32Value]. *)
Definition Uint32Value (off : Z) : Z := wrap32 off.

(** Modelled from the spec: [IsAligned<n>] of utils.h is not among the sources;
    "8-byte aligned" is read as divisibility of the offset by the alignment. *)
Definition IsAligned (n x : Z) : bool := x mod n =? 0.

(** Modelled from the spec: [RoundDown]/[RoundUp] of utils.h are not among the
    sources; rounding to the alignment is done in [uint32_t]. *)
Definition RoundDown (x n : Z) : Z := n * (x / n).
Definition RoundUp (x n : Z) : Z := RoundDown (wrap32 (x + n - 1)) n.

(** Modelled from the spec: [IsUint(N, value)] of utils.h is not among the
    sources; "must fit a 16-bit index space" is read as [0 <= value < 2^N]. *)
Definition IsUint (n value : Z) : bool := (0 <=? value) && (value <? 2 ^ n).

(** [strcmp]: only the sign of the result is ever inspected. *)
Definition strcmp (s1 s2 : string) : Z :=
  match String.compare s1 s2 with
  | Lt => -1
  | Eq => 0
  | Gt => 1
  end.

(** Modelled from the spec: the class status enumeration of mirror/class.h is
    not among the sources; the states are the ones named by the linker, in
    the strict order of the lifecycle, [kStatusError] below all of them. *)
Inductive Status :=
| kStatusError
| kStatusNotReady
| kStatusIdx
| kStatusLoaded
| kStatusResolved
| kStatusVerifying
| kStatusRetryVerificationAtRuntime
| kStatusVerifyingAtRuntime
| kStatusVerified
| kStatusInitializing
| kStatusInitialized.

Definition status_value (s : Status) : Z :=
  match s with
  | kStatusError => -1
  | kStatusNotReady => 0
  | kStatusIdx => 1
  | kStatusLoaded => 2
  | kStatusResolved => 3
  | kStatusVerifying => 4
  | kStatusRetryVerificationAtRuntime => 5
  | kStatusVerifyingAtRuntime => 6
  | kStatusVerified => 7
  | kStatusInitializing => 8
  | kStatusInitialized => 9
  end.

Global Instance Status_eq_dec : EqDecision Status.
Proof. solve_decision. Defined.

Definition status_IsErroneous (s : Status) : bool := bool_decide (s = kStatusError).
Definition status_IsLoaded (s : Status) : bool := status_value kStatusLoaded <=? status_value s.
Definition status_IsResolved (s : Status) : bool := status_value kStatusResolved <=? status_value s.
Definition status_IsVerified (s : Status) : bool := status_value kStatusVerified <=? status_value s.
Definition status_IsInitialized (s : Status) : bool := bool_decide (s = kStatusInitialized).

(** ** Field layout: [LinkFieldsComparator], [LinkFields], [SizeOfClass] *)

Module FieldLayout.

(** Modelled from the spec: [Primitive::Type] and [Primitive::GetType] of
    primitive.h are not among the sources; the kinds are "object-reference,
    64-bit primitive, 32-bit primitive", read off the first character of the
    type descriptor, everything that is no primitive code being a reference. *)
Inductive PrimType :=
| kPrimNot
| kPrimBoolean
| kPrimByte
| kPrimChar
| kPrimShort
| kPrimInt
| kPrimLong
| kPrimFloat
| kPrimDouble
| kPrimVoid.

Global Instance PrimType_eq_dec : EqDecision PrimType.
Proof. solve_decision. Defined.

Definition GetType (c : ascii) : PrimType :=
  if decide (c = "B"%char) then kPrimByte
  else if decide (c = "C"%char) then kPrimChar
  else if decide (c = "D"%char) then kPrimDouble
  else if decide (c = "F"%char) then kPrimFloat
  else if decide (c = "I"%char) then kPrimInt
  else if decide (c = "J"%char) then kPrimLong
  else if decide (c = "S"%char) then kPrimShort
  else if decide (c = "Z"%char) then kPrimBoolean
  else if decide (c = "V"%char) then kPrimVoid
  else kPrimNot.

(** First character of a C string ([s[0]], the terminating NUL when empty). *)
Definition first_char (s : string) : ascii :=
  match s with
  | String c _ => c
  | EmptyString => "000"%char
  end.

(** [mirror::ArtField] as seen through [FieldHelper]: the dex field index
    identifies the field, name and type descriptor are what the helper looks
    up for it, the offset is the word [SetOffset] writes. *)
Record ArtField := mkArtField {
  dex_field_index : Z;
  field_name : string;
  type_descriptor : string;
  offset : Z
}.

Global Instance ArtField_eq_dec : EqDecision ArtField.
Proof. solve_decision. Defined.

Definition GetTypeAsPrimitiveType (f : ArtField) : PrimType :=
  GetType (first_char (type_descriptor f)).

Definition SetOffset (f : ArtField) (num_bytes : Z) : ArtField :=
  {| dex_field_index := dex_field_index f;
     field_name := field_name f;
     type_descriptor := type_descriptor f;
     offset := Uint32Value num_bytes |}.

Definition is64bit_type (t : PrimType) : bool :=
  bool_decide (t = kPrimLong) || bool_decide (t = kPrimDouble).

(** [order1]/[order2] of the comparator: 0 references, 1 64-bit, 2 32-bit. *)
Definition field_order (t : PrimType) : Z :=
  let is_primitive := negb (bool_decide (t = kPrimNot)) in
  let is64bit := is_primitive && is64bit_type t in
  if negb is_primitive then 0 else if is64bit then 1 else 2.

Definition LinkFieldsComparator (field1 field2 : ArtField) : bool :=
  let type1 := GetTypeAsPrimitiveType field1 in
  let type2 := GetTypeAsPrimitiveType field2 in
  let order1 := field_order type1 in
  let order2 := field_order type2 in
  if negb (bool_decide (type1 = type2)) && negb (order1 =? order2)
  then order1 <? order2
  else strcmp (field_name field1) (field_name field2) <? 0.

(** What [std::sort] leaves behind for a comparator [comp]: neighbours are
    never out of order. *)
Definition comp_le (f g : ArtField) : Prop := LinkFieldsComparator g f = false.

Global Instance comp_le_dec f g : Decision (comp_le f g).
Proof. unfold comp_le. apply _. Defined.

(** The contract of [std::sort(first, last, comp)]: the range is permuted and
    ends up sorted with respect to [comp]; the relative order of equivalent
    elements is left open. *)
Definition std_sort_contract (sort : list ArtField → list ArtField) : Prop :=
  ∀ l, sort l ≡ₚ l ∧ Sorted comp_le (sort l).

(** The part of [mirror::Class] read and written by field linking. *)
#[local] Unset Elimination Schemes.
Inductive Class := mkClass {
  descriptor : string;
  status : Status;
  super_class : option Class;
  is_variable_size : bool;
  sfields : list ArtField;
  ifields : list ArtField;
  class_size : Z;
  object_size : Z;
  num_reference_static_fields : Z;
  num_reference_instance_fields : Z
}.

#[local] Set Elimination Schemes.

Definition IsResolved (c : Class) : bool := status_IsResolved (status c).

(** First loop of [LinkFields]: references are popped off the front of the
    deque and given consecutive words.  Result: the fields placed, the rest of
    the deque, the running offset. *)
Fixpoint link_reference_fields (deque : list ArtField) (field_offset : Z)
  : list ArtField * list ArtField * Z :=
  match deque with
  | [] => ([], [], field_offset)
  | field :: rest =>
      if negb (bool_decide (GetTypeAsPrimitiveType field = kPrimNot))
      then ([], deque, field_offset)
      else
        let '(placed, deque', off') :=
          link_reference_fields rest (Uint32Value field_offset + 4) in
        (SetOffset field field_offset :: placed, deque', off')
  end.

(** Second loop: the first field of the deque that is not double-wide is
    taken out to fill the alignment gap.  [None]: a [CHECK] failed (a
    reference among the remaining fields); [Some None]: no such field. *)
Fixpoint take_padding_field (deque : list ArtField)
  : option (option (ArtField * list ArtField)) :=
  match deque with
  | [] => Some None
  | field :: rest =>
      let type := GetTypeAsPrimitiveType field in
      if bool_decide (type = kPrimNot) then None
      else if is64bit_type type then
        match take_padding_field rest with
        | None => None
        | Some None => Some None
        | Some (Some (pad, rest')) => Some (Some (pad, field :: rest'))
        end
      else Some (Some (field, rest))
  end.

(** Third loop: the remaining fields in deque order, 8 or 4 bytes each. *)
Fixpoint link_remaining_fields (deque : list ArtField) (field_offset : Z)
  : option (list ArtField * Z) :=
  match deque with
  | [] => Some ([], field_offset)
  | field :: rest =>
      let type := GetTypeAsPrimitiveType field in
      if bool_decide (type = kPrimNot) then None
      else
        match link_remaining_fields rest
                (Uint32Value field_offset + (if is64bit_type type then 8 else 4)) with
        | None => None
        | Some (placed, off') => Some (SetOffset field field_offset :: placed, off')
        end
  end.

Section LinkFields.
(** [mirror::Class::FieldsOffset()], the offset of the first static field in
    a class object, and [sizeof(mirror::Class)]: both come from
    mirror/class.h, which is not among the sources. *)
Variable FieldsOffset : Z.
Variable sizeof_Class : Z.
(** The sorting routine of the C++ library. *)
Variable sort : list ArtField → list ArtField.

(** Start of [LinkFields]: "Initialize size and field_offset", with the
    [CHECK] that the superclass is resolved. *)
Definition initial_field_offset (klass : Class) (is_static : bool) : option Z :=
  if is_static then Some FieldsOffset
  else match super_class klass with
       | Some super =>
           if IsResolved super then Some (object_size super) else None
       | None => Some 0
       end.

(** "We lie to the GC about the java.lang.ref.Reference.referent field":
    the two [CHECK]s and the decrement of the reference count. *)
Definition lie_about_referent (klass : Class) (is_static : bool)
    (fields : list ArtField) (num_reference_fields : Z) : option Z :=
  if negb is_static
     && bool_decide (descriptor klass = "Ljava/lang/ref/Reference;"%string)
  then
    if bool_decide (num_reference_fields = Z.of_nat (length fields)) then
      match last fields with
      | Some f =>
          if bool_decide (field_name f = "referent"%string)
          then Some (num_reference_fields - 1)
          else None
      | None => None
      end
    else None
  else Some num_reference_fields.

(** "Update klass": the field array, the reference count and the size. *)
Definition update_klass (klass : Class) (is_static : bool)
    (fields : list ArtField) (num_reference_fields size : Z) : option Class :=
  if is_static then
    Some {| descriptor := descriptor klass; status := status klass;
            super_class := super_class klass;
            is_variable_size := is_variable_size klass;
            sfields := fields; ifields := ifields klass;
            class_size := size; object_size := object_size klass;
            num_reference_static_fields := num_reference_fields;
            num_reference_instance_fields := num_reference_instance_fields klass |}
  else if negb (is_variable_size klass) then
    let previous_size := object_size klass in
    if negb (previous_size =? 0) && negb (previous_size =? size) then None
    else
      Some {| descriptor := descriptor klass; status := status klass;
              super_class := super_class klass;
              is_variable_size := is_variable_size klass;
              sfields := sfields klass; ifields := fields;
              class_size := class_size klass; object_size := size;
              num_reference_static_fields := num_reference_static_fields klass;
              num_reference_instance_fields := num_reference_fields |}
  else
    Some {| descriptor := descriptor klass; status := status klass;
            super_class := super_class klass;
            is_variable_size := is_variable_size klass;
            sfields := sfields klass; ifields := fields;
            class_size := class_size klass; object_size := object_size klass;
            num_reference_static_fields := num_reference_static_fields klass;
            num_reference_instance_fields := num_reference_fields |}.

Definition LinkFields (klass : Class) (is_static : bool) : option Class :=
  let fields := if is_static then sfields klass else ifields klass in
  (* Initialize size and field_offset *)
  field_offset ← initial_field_offset klass is_static;
  let grouped_and_sorted_fields := sort fields in
  (* References should be at the front. *)
  let '(refs, deque, field_offset) :=
    link_reference_fields grouped_and_sorted_fields field_offset in
  let num_reference_fields := Z.of_nat (length refs) in
  (* Shuffle one 32-bit field into place when not aligned, or pad. *)
  '(padding, deque, field_offset) ←
    (if negb (bool_decide (deque = [])) && negb (IsAligned 8 (Uint32Value field_offset))
     then
       match take_padding_field deque with
       | None => None
       | Some None => Some ([], deque, Uint32Value field_offset + 4)
       | Some (Some (field, deque')) =>
           Some ([SetOffset field field_offset], deque', Uint32Value field_offset + 4)
       end
     else Some ([], deque, field_offset));
  (* Double-wide fields forward, then the rest. *)
  '(rest, field_offset) ← link_remaining_fields deque field_offset;
  let fields := refs ++ padding ++ rest in
  num_reference_fields ← lie_about_referent klass is_static fields num_reference_fields;
  let size := Uint32Value field_offset in
  update_klass klass is_static fields num_reference_fields size.

Definition LinkInstanceFields (klass : Class) : option Class :=
  LinkFields klass false.

(** [CHECK_EQ(allocated_class_size, klass->GetClassSize())]. *)
Definition LinkStaticFields (klass : Class) : option Class :=
  let allocated_class_size := class_size klass in
  klass' ← LinkFields klass true;
  if allocated_class_size =? class_size klass' then Some klass' else None.

(** The static-field part of a class-data blob, each item with the
    [DexFile::FieldId] its member index selects. *)
Record EncodedField := mkEncodedField {
  member_index : Z;
  field_id_name : string;
  field_id_type : string
}.

Record ClassData := mkClassData {
  static_fields : list EncodedField;
  instance_fields : list EncodedField
}.

(** The counting loop of [SizeOfClass]: [(num_ref, num_32, num_64)]. *)
Fixpoint count_static_fields (it : list EncodedField) (num_ref num_32 num_64 : Z)
  : Z * Z * Z :=
  match it with
  | [] => (num_ref, num_32, num_64)
  | field :: it' =>
      let c := first_char (field_id_type field) in
      if bool_decide (c = "L"%char) || bool_decide (c = "["%char)
      then count_static_fields it' (num_ref + 1) num_32 num_64
      else if bool_decide (c = "J"%char) || bool_decide (c = "D"%char)
      then count_static_fields it' num_ref num_32 (num_64 + 1)
      else count_static_fields it' num_ref (num_32 + 1) num_64
  end.

(** Precomputes size that will be needed for Class, matching LinkStaticFields. *)
Definition SizeOfClass (class_data : option ClassData) : Z :=
  let '(num_ref, num_32, num_64) :=
    match class_data with
    | Some data => count_static_fields (static_fields data) 0 0 0
    | None => (0, 0, 0)
    end in
  (* start with generic class data *)
  let size := wrap32 sizeof_Class in
  (* follow with reference fields which must be contiguous at start *)
  let size := wrap32 (size + num_ref * 4) in
  (* if there are 64-bit fields to add, make sure they are aligned *)
  let '(num_32, size) :=
    if negb (num_64 =? 0) && negb (size =? RoundUp size 8)
    then ((if negb (num_32 =? 0) then num_32 - 1 else num_32), wrap32 (size + 4))
    else (num_32, size) in
  (* tack on any 64-bit fields now that alignment is assured *)
  let size := wrap32 (size + num_64 * 8) in
  (* tack on any remaining 32-bit fields *)
  wrap32 (size + num_32 * 4).

(** [LoadField] on a freshly allocated (zeroed) [ArtField]. *)
Definition LoadField (it : EncodedField) : ArtField :=
  {| dex_field_index := member_index it;
     field_name := field_id_name it;
     type_descriptor := field_id_type it;
     offset := 0 |}.

End LinkFields.

(** *** The layout in the words of the specification *)

Definition is_reference (f : ArtField) : bool :=
  bool_decide (GetTypeAsPrimitiveType f = kPrimNot).
Definition is_wide (f : ArtField) : bool :=
  negb (is_reference f) && is64bit_type (GetTypeAsPrimitiveType f).
Definition is_narrow (f : ArtField) : bool :=
  negb (is_reference f) && negb (is64bit_type (GetTypeAsPrimitiveType f)).

(** Lexicographic order of field names. *)
Definition name_le (f g : ArtField) : Prop :=
  (strcmp (field_name g) (field_name f) <? 0) = false.

Definition field_size (f : ArtField) : Z :=
  if is64bit_type (GetTypeAsPrimitiveType f) then 8 else 4.

(** Consecutive slots from [off] on, each field as wide as its kind. *)
Fixpoint assign_offsets (off : Z) (fs : list ArtField) : list ArtField :=
  match fs with
  | [] => []
  | f :: fs' => SetOffset f off :: assign_offsets (off + field_size f) fs'
  end.

(** References from the base offset; when primitives remain and the offset
    is not 8-byte aligned, one 32-bit field out of order (or a pad word);
    then the 64-bit fields; then the remaining 32-bit fields.  The second
    component is the end of the last field. *)
Definition spec_layout (base : Z) (refs w64 w32 : list ArtField)
  : list ArtField * Z :=
  let off := base + 4 * Z.of_nat (length refs) in
  if negb (bool_decide (w64 ++ w32 = [])) && negb (off mod 8 =? 0) then
    match w32 with
    | pad :: w32' =>
        (assign_offsets base refs ++ [SetOffset pad off]
           ++ assign_offsets (off + 4) (w64 ++ w32'),
         off + 4 + 8 * Z.of_nat (length w64) + 4 * Z.of_nat (length w32'))
    | [] =>
        (assign_offsets base refs ++ assign_offsets (off + 4) w64,
         off + 4 + 8 * Z.of_nat (length w64))
    end
  else
    (assign_offsets base refs ++ assign_offsets off (w64 ++ w32),
     off + 8 * Z.of_nat (length w64) + 4 * Z.of_nat (length w32)).

(** [n] consecutive slots of [width] bytes from [off] on. *)
Fixpoint slots (off width : Z) (n : nat) : list Z :=
  match n with
  | O => []
  | S n' => off :: slots (off + width) width n'
  end.

(** The same layout as plain data: the order in which the fields are
    emitted, and the offset of the slot each of them is given (before the cut
    to [uint32_t]).  The references take consecutive 4-byte slots from the
    base offset; over an alignment gap, the first 32-bit field of its bucket
    is emitted at once, or 4 bytes are skipped; the 64-bit fields take
    consecutive 8-byte slots, the remaining 32-bit fields consecutive 4-byte
    slots. *)
Definition emission_order (base : Z) (refs w64 w32 : list ArtField) : list ArtField :=
  let off := base + 4 * Z.of_nat (length refs) in
  if negb (bool_decide (w64 ++ w32 = [])) && negb (off mod 8 =? 0) then
    match w32 with
    | pad :: w32' => refs ++ [pad] ++ w64 ++ w32'
    | [] => refs ++ w64
    end
  else refs ++ w64 ++ w32.

Definition emission_offsets (base : Z) (refs w64 w32 : list ArtField) : list Z :=
  let off := base + 4 * Z.of_nat (length refs) in
  if negb (bool_decide (w64 ++ w32 = [])) && negb (off mod 8 =? 0) then
    match w32 with
    | pad :: w32' =>
        slots base 4 (length refs) ++ [off]
          ++ slots (off + 4) 8 (length w64)
          ++ slots (off + 4 + 8 * Z.of_nat (length w64)) 4 (length w32')
    | [] => slots base 4 (length refs) ++ slots (off + 4) 8 (length w64)
    end
  else
    slots base 4 (length refs)
      ++ slots off 8 (length w64)
      ++ slots (off + 8 * Z.of_nat (length w64)) 4 (length w32).

(** The base offset [LinkFields] starts from. *)
Definition base_offset (FieldsOffset : Z) (klass : Class) (is_static : bool) : Z :=
  if is_static then FieldsOffset
  else match super_class klass with
       | Some super => object_size super
       | None => 0
       end.

Definition fields_of (klass : Class) (is_static : bool) : list ArtField :=
  if is_static then sfields klass else ifields klass.

Definition size_of (klass : Class) (is_static : bool) : Z :=
  if is_static then class_size klass else object_size klass.

Definition num_reference_fields_of (klass : Class) (is_static : bool) : Z :=
  if is_static then num_reference_static_fields klass
  else num_reference_instance_fields klass.

(** The three [CHECK]s an instance layout can trip over, for the laid-out
    field array [fields] with [num_refs] references and end offset [size]. *)
Definition instance_CHECK_fails (klass : Class) (fields : list ArtField)
    (num_refs : nat) (size : Z) : Prop :=
  (∃ super, super_class klass = Some super ∧ IsResolved super = false)
  ∨ (descriptor klass = "Ljava/lang/ref/Reference;"%string
     ∧ ¬ (num_refs = length fields
          ∧ ∃ f, last fields = Some f ∧ field_name f = "referent"%string))
  ∨ (is_variable_size klass = false
     ∧ object_size klass ≠ 0 ∧ object_size klass ≠ size).

(** What the comparator looks at: the bucket and the name. *)
Definition sort_key (f : ArtField) : Z * string :=
  (field_order (GetTypeAsPrimitiveType f), field_name f).

(** A field declaration: everything but the offset. *)
Definition declaration (f : ArtField) : Z * string * string :=
  (dex_field_index f, field_name f, type_descriptor f).



(** The order of the comparator, on what it looks at. *)
Definition key_le (k1 k2 : Z * string) : Prop :=
  k1.1 < k2.1 ∨ (k1.1 = k2.1 ∧ (strcmp k2.2 k1.2 <? 0) = false).

(** *** Auxiliary notions of the proofs *)

(** The bucket of a field. *)
Definition order_of (f : ArtField) : Z := field_order (GetTypeAsPrimitiveType f).

(** Bytes taken by a run of fields. *)
Definition total_size (fs : list ArtField) : Z := foldr (λ f acc, field_size f + acc) 0 fs.

(** A deque whose front is no reference. *)
Definition starts_primitive (deque : list ArtField) : Prop :=
  match deque with
  | [] => True
  | f :: _ => is_reference f = false
  end.

(** A field with its offset forgotten. *)
Definition erase (f : ArtField) : ArtField := SetOffset f 0.

(** The layout computed by a run, as a function of the sorting routine. *)
Definition laid_out (FieldsOffset : Z) (sort : list ArtField → list ArtField)
    (klass : Class) (is_static : bool) : list ArtField * Z :=
  let sorted := sort (fields_of klass is_static) in
  spec_layout (base_offset FieldsOffset klass is_static)
    (filter (λ f, is_reference f = true) sorted)
    (filter (λ f, is_wide f = true) sorted)
    (filter (λ f, is_narrow f = true) sorted).


(** A conforming sorting routine: stdpp's merge sort on the comparator. *)
Definition merge_sort_fields (l : list ArtField) : list ArtField :=
  merge_sort comp_le l.


(** A static field whose type descriptor is no primitive code is an object
    ('L') or an array ('['): on such descriptors [SizeOfClass] and
    [Primitive::GetType] sort a field into the same bucket. *)
Definition well_formed_type (e : EncodedField) : Prop :=
  let c := first_char (field_id_type e) in
  GetType c = kPrimNot → c = "L"%char ∨ c = "["%char.

(** *** A small class: the field set {refField, longField, intField,
    refField2}, declared in that order, as static and as instance fields. *)

Definition refField : ArtField := mkArtField 1 "refField" "Ljava/lang/Object;" 0.
Definition longField : ArtField := mkArtField 2 "longField" "J" 0.
Definition intField : ArtField := mkArtField 3 "intField" "I" 0.
Definition refField2 : ArtField := mkArtField 4 "refField2" "[I" 0.

Definition java_lang_Object : Class :=
  {| descriptor := "Ljava/lang/Object;"; status := kStatusInitialized;
     super_class := None; is_variable_size := false;
     sfields := []; ifields := [];
     class_size := 128; object_size := 8;
     num_reference_static_fields := 0; num_reference_instance_fields := 0 |}.

Definition four_fields_data : ClassData :=
  {| static_fields :=
       [mkEncodedField 1 "refField" "Ljava/lang/Object;";
        mkEncodedField 2 "longField" "J";
        mkEncodedField 3 "intField" "I";
        mkEncodedField 4 "refField2" "[I"];
     instance_fields := [] |}.

Definition four_fields_class : Class :=
  {| descriptor := "LFour;"; status := kStatusLoaded;
     super_class := Some java_lang_Object; is_variable_size := false;
     sfields := LoadField <$> static_fields four_fields_data;
     ifields := [refField; longField; intField; refField2];
     class_size := SizeOfClass 132 (Some four_fields_data); object_size := 0;
     num_reference_static_fields := 0; num_reference_instance_fields := 0 |}.

(** *** A class with two static fields of one name, an [int] and a [float] *)



End FieldLayout.

(** ** Class table, resolution and initialization:
    [InsertClass], [LookupClass], [EnsureResolved], [DefineClass],
    [InitializeClass] *)

Module Resolution.

(** An object address; a nullable pointer is an [option Addr]. *)
Definition Addr := N.

(** How a call ends: it returns; the process is brought down by a failed
    [CHECK] or [LOG(FATAL)] (or a wild pointer); or, within the steps the
    model was given, it is still running or waiting. *)
Inductive Exec (A : Type) :=
| Done (a : A)
| Fatal
| Stuck.
Arguments Done {A} a.
Arguments Fatal {A}.
Arguments Stuck {A}.

Definition exec_bind {A B} (m : Exec A) (k : A → Exec B) : Exec B :=
  match m with
  | Done a => k a
  | Fatal => Fatal
  | Stuck => Stuck
  end.

Notation "'let!' p := m 'in' k" := (exec_bind m (λ p, k))
  (at level 10, p pattern, m at level 100, k at level 200,
   format "'[v' 'let!'  p  :=  m  'in' '/' k ']'").

(** [CHECK(cond)]. *)
Definition CHECK (cond : bool) : Exec unit := if cond then Done () else Fatal.

(** An exception object: its class, detail message and cause. *)
#[local] Unset Elimination Schemes.
Inductive Throwable := mkThrowable {
  exception_class : string;
  detail_message : option string;
  cause : option Throwable
}.
#[local] Set Elimination Schemes.

(** The calling thread: its id and its pending exception. *)
Record Thread := mkThread {
  tid : Z;
  exception_ : option Throwable
}.

Definition IsExceptionPending (self : Thread) : bool := bool_decide (exception_ self ≠ None).

Definition SetException (self : Thread) (e : option Throwable) : Thread :=
  {| tid := tid self; exception_ := e |}.

(** [Thread::AssertNoPendingException]. *)
Definition AssertNoPendingException (self : Thread) : Exec unit :=
  CHECK (negb (IsExceptionPending self)).

(** Modelled from the spec: [Thread::ThrowNewWrappedException] of thread.cc is
    not among the sources; the new exception object "wraps" the pending one,
    which becomes its cause, and is the thread's pending exception. *)
Definition ThrowNewWrappedException (self : Thread)
    (exception_class_descriptor : string) (msg : option string) : Thread :=
  SetException self
    (Some {| exception_class := exception_class_descriptor;
             detail_message := msg;
             cause := exception_ self |}).

(** Modelled from the spec: [Thread::ThrowNewException] of thread.cc is not
    among the sources; it "synthesizes a fresh" exception of the named class,
    no exception being pending when it is called. *)
Definition ThrowNewException (self : Thread)
    (exception_class_descriptor : string) (msg : string) : Exec Thread :=
  let! _ := AssertNoPendingException self in
  Done (ThrowNewWrappedException self exception_class_descriptor (Some msg)).

(** The part of [mirror::Class] the resolution state machine looks at. *)
Record Class := mkClass {
  descriptor : string;
  class_loader : option Addr;
  status : Status;
  clinit_thread_id : Z;
  verify_error_class : option Addr;
  super_class : option Addr;
  is_interface : bool;
  (* FindClassInitializer() != NULL *)
  has_class_initializer : bool;
  num_static_fields : Z;
  (* ClassDef::static_values_off_ *)
  static_values_off_ : Z;
  (* EncodedStaticFieldValueIterator::HasNext() on a fresh iterator *)
  has_encoded_static_values : bool
}.

Definition SetStatus (c : Class) (new_status : Status) : Class :=
  {| descriptor := descriptor c; class_loader := class_loader c;
     status := new_status; clinit_thread_id := clinit_thread_id c;
     verify_error_class := verify_error_class c; super_class := super_class c;
     is_interface := is_interface c;
     has_class_initializer := has_class_initializer c;
     num_static_fields := num_static_fields c;
     static_values_off_ := static_values_off_ c;
     has_encoded_static_values := has_encoded_static_values c |}.

Definition SetClinitThreadId (c : Class) (new_clinit_thread_id : Z) : Class :=
  {| descriptor := descriptor c; class_loader := class_loader c;
     status := status c; clinit_thread_id := new_clinit_thread_id;
     verify_error_class := verify_error_class c; super_class := super_class c;
     is_interface := is_interface c;
     has_class_initializer := has_class_initializer c;
     num_static_fields := num_static_fields c;
     static_values_off_ := static_values_off_ c;
     has_encoded_static_values := has_encoded_static_values c |}.

Definition IsErroneous (c : Class) : bool := status_IsErroneous (status c).
Definition IsLoaded (c : Class) : bool := status_IsLoaded (status c).
Definition IsResolved (c : Class) : bool := status_IsResolved (status c).
Definition IsVerified (c : Class) : bool := status_IsVerified (status c).
Definition IsInitialized (c : Class) : bool := status_IsInitialized (status c).

(** The class objects, by address. *)
Abbreviation Heap := (gmap Addr Class).

(** Dereference of a class pointer. *)
Definition deref (heap : Heap) (klass : Addr) : Exec Class :=
  match heap !! klass with
  | Some c => Done c
  | None => Fatal
  end.

(** [static size_t Hash(const char* s)], [size_t] taken as 32 bits wide. *)
Fixpoint Hash_loop (s : string) (hash : Z) : Z :=
  match s with
  | EmptyString => hash
  | String c s' => Hash_loop s' (wrap32 (hash * 31 + Z.of_N (N_of_ascii c)))
  end.

Definition Hash (s : string) : Z := Hash_loop s 0.

(** A [DexCache] of the boot image with the type ids of its dex file:
    [type_ids] lists the descriptor of every type id in index order,
    [resolved_types] is the array [GetResolvedTypes()]. *)
Record DexCache := mkDexCache {
  type_ids : list string;
  resolved_types : list (option Addr)
}.

(** The linker's own fields.  [class_table_] is a
    [std::multimap<size_t, mirror::Class*>]: per hash, the classes in the
    order of their insertion. *)
Record ClassLinker := mkClassLinker {
  class_table_ : gmap Z (list Addr);
  new_class_roots_ : list (Z * Addr);
  log_new_class_table_roots_ : bool;
  dex_cache_image_class_lookup_required_ : bool;
  failed_dex_cache_class_lookups_ : Z;
  (* GetImageDexCaches() *)
  image_dex_caches : list DexCache
}.

(** [class_table_.lower_bound(hash)] up to the end of the equal keys. *)
Definition equal_range (table : gmap Z (list Addr)) (hash : Z) : list Addr :=
  default [] (table !! hash).

(** [class_table_.insert(std::make_pair(hash, klass))]. *)
Definition multimap_insert (table : gmap Z (list Addr)) (hash : Z) (klass : Addr)
  : gmap Z (list Addr) :=
  <[hash := equal_range table hash ++ [klass]]> table.

(** [class_table_.insert] together with the logging of the new root. *)
Definition table_insert (linker : ClassLinker) (hash : Z) (klass : Addr) : ClassLinker :=
  {| class_table_ := multimap_insert (class_table_ linker) hash klass;
     new_class_roots_ :=
       if log_new_class_table_roots_ linker
       then new_class_roots_ linker ++ [(hash, klass)]
       else new_class_roots_ linker;
     log_new_class_table_roots_ := log_new_class_table_roots_ linker;
     dex_cache_image_class_lookup_required_ :=
       dex_cache_image_class_lookup_required_ linker;
     failed_dex_cache_class_lookups_ := failed_dex_cache_class_lookups_ linker;
     image_dex_caches := image_dex_caches linker |}.

Definition set_failed_lookups (linker : ClassLinker) (n : Z) : ClassLinker :=
  {| class_table_ := class_table_ linker;
     new_class_roots_ := new_class_roots_ linker;
     log_new_class_table_roots_ := log_new_class_table_roots_ linker;
     dex_cache_image_class_lookup_required_ :=
       dex_cache_image_class_lookup_required_ linker;
     failed_dex_cache_class_lookups_ := n;
     image_dex_caches := image_dex_caches linker |}.

Definition set_lookup_required (linker : ClassLinker) (b : bool) : ClassLinker :=
  {| class_table_ := class_table_ linker;
     new_class_roots_ := new_class_roots_ linker;
     log_new_class_table_roots_ := log_new_class_table_roots_ linker;
     dex_cache_image_class_lookup_required_ := b;
     failed_dex_cache_class_lookups_ := failed_dex_cache_class_lookups_ linker;
     image_dex_caches := image_dex_caches linker |}.

(** The test both table walks apply to an entry. *)
Definition matches (c : Class) (descriptor_ : string) (class_loader_ : option Addr) : bool :=
  bool_decide (class_loader c = class_loader_)
  && (strcmp descriptor_ (descriptor c) =? 0).

(** [GetResolvedType(type_idx)] for the type id of [descriptor] in one dex
    cache, when the dex file knows the descriptor. *)
Definition resolved_type_of (dex_cache : DexCache) (descriptor_ : string) : option Addr :=
  match list_find (λ d, d = descriptor_) (type_ids dex_cache) with
  | Some (type_idx, _) => mjoin (resolved_types dex_cache !! type_idx)
  | None => None
  end.

Fixpoint LookupClassFromImage_loop (dex_caches : list DexCache) (descriptor_ : string)
  : option Addr :=
  match dex_caches with
  | [] => None
  | dex_cache :: rest =>
      match resolved_type_of dex_cache descriptor_ with
      | Some klass => Some klass
      | None => LookupClassFromImage_loop rest descriptor_
      end
  end.

Definition LookupClassFromImage (linker : ClassLinker) (descriptor_ : string)
  : option Addr :=
  LookupClassFromImage_loop (image_dex_caches linker) descriptor_.

Section Linker.
(** Build and runtime constants, and the helpers that are not among the
    sources. *)
Variable kIsDebugBuild : bool.
Variable IsCompiler : bool.
Variable PrettyDescriptor : string → string.
(** [env->IsInstanceOf(cause, WellKnownClasses::java_lang_Error)]. *)
Variable IsInstanceOf_java_lang_Error : Throwable → bool.

(** The debug-build walk over the rest of the range: "Check for duplicates
    in the table". *)
Fixpoint check_no_duplicates (heap : Heap) (range : list Addr)
    (descriptor_ : string) (class_loader_ : option Addr) : Exec unit :=
  match range with
  | [] => Done ()
  | klass2 :: rest =>
      let! c2 := deref heap klass2 in
      let! _ := CHECK (negb (matches c2 descriptor_ class_loader_)) in
      check_no_duplicates heap rest descriptor_ class_loader_
  end.

Fixpoint lookup_in_range (heap : Heap) (range : list Addr)
    (descriptor_ : string) (class_loader_ : option Addr) : Exec (option Addr) :=
  match range with
  | [] => Done None
  | klass :: rest =>
      let! c := deref heap klass in
      if matches c descriptor_ class_loader_ then
        let! _ := (if kIsDebugBuild
                   then check_no_duplicates heap rest descriptor_ class_loader_
                   else Done ()) in
        Done (Some klass)
      else lookup_in_range heap rest descriptor_ class_loader_
  end.

Definition LookupClassFromTableLocked (heap : Heap) (linker : ClassLinker)
    (descriptor_ : string) (class_loader_ : option Addr) (hash : Z)
  : Exec (option Addr) :=
  lookup_in_range heap (equal_range (class_table_ linker) hash) descriptor_ class_loader_.

Definition InsertClass (heap : Heap) (linker : ClassLinker)
    (descriptor_ : string) (klass : Addr) (hash : Z)
  : Exec (option Addr * ClassLinker) :=
  let! c := deref heap klass in
  let! existing := LookupClassFromTableLocked heap linker descriptor_ (class_loader c) hash in
  match existing with
  | Some existing => Done (Some existing, linker)
  | None =>
      let! _ :=
          (if kIsDebugBuild && bool_decide (class_loader c = None)
              && dex_cache_image_class_lookup_required_ linker
           then
             (* Check a class loaded with the system class loader matches one
                in the image if the class is in the image. *)
             match LookupClassFromImage linker descriptor_ with
             | Some existing => CHECK (bool_decide (klass = existing))
             | None => Done ()
             end
           else Done ()) in
      Done (None, table_insert linker hash klass)
  end.

(** The two nested loops of [MoveImageClassesToClassTable], over the
    resolved types of one dex cache and over the dex caches. *)
Fixpoint move_types (heap : Heap) (types : list (option Addr)) (linker : ClassLinker)
  : Exec ClassLinker :=
  match types with
  | [] => Done linker
  | None :: rest => move_types heap rest linker
  | Some klass :: rest =>
      let! c := deref heap klass in
      let descriptor_ := descriptor c in
      let hash := Hash descriptor_ in
      let! existing := LookupClassFromTableLocked heap linker descriptor_ None hash in
      match existing with
      | Some existing =>
          let! _ := CHECK (bool_decide (existing = klass)) in
          move_types heap rest linker
      | None => move_types heap rest (table_insert linker hash klass)
      end
  end.

Fixpoint move_dex_caches (heap : Heap) (dex_caches : list DexCache) (linker : ClassLinker)
  : Exec ClassLinker :=
  match dex_caches with
  | [] => Done linker
  | dex_cache :: rest =>
      let! linker' := move_types heap (resolved_types dex_cache) linker in
      move_dex_caches heap rest linker'
  end.

Definition MoveImageClassesToClassTable (heap : Heap) (linker : ClassLinker)
  : Exec ClassLinker :=
  if negb (dex_cache_image_class_lookup_required_ linker) then
    Done linker  (* All dex cache classes are already in the class table. *)
  else
    let! linker' := move_dex_caches heap (image_dex_caches linker) linker in
    Done (set_lookup_required linker' false).

Definition kMaxFailedDexCacheLookups : Z := 1000.

Definition LookupClass (heap : Heap) (linker : ClassLinker)
    (descriptor_ : string) (class_loader_ : option Addr)
  : Exec (option Addr * ClassLinker) :=
  let hash := Hash descriptor_ in
  let! result := LookupClassFromTableLocked heap linker descriptor_ class_loader_ hash in
  match result with
  | Some result => Done (Some result, linker)
  | None =>
      if negb (bool_decide (class_loader_ = None))
         || negb (dex_cache_image_class_lookup_required_ linker)
      then Done (None, linker)
      else
        (* Lookup failed but need to search dex_caches_. *)
        match LookupClassFromImage linker descriptor_ with
        | Some result =>
            let! (_, linker') := InsertClass heap linker descriptor_ result hash in
            Done (Some result, linker')
        | None =>
            let linker' :=
              set_failed_lookups linker (failed_dex_cache_class_lookups_ linker + 1) in
            if kMaxFailedDexCacheLookups <? failed_dex_cache_class_lookups_ linker'
            then
              let! linker'' := MoveImageClassesToClassTable heap linker' in
              Done (None, linker'')
            else Done (None, linker')
        end
  end.


(** [ThrowNoClassDefFoundError(fmt, ...)], the message already formatted. *)
Definition ThrowNoClassDefFoundError (self : Thread) (msg : string) : Exec Thread :=
  ThrowNewException self "Ljava/lang/NoClassDefFoundError;" msg.

Definition ThrowEarlierClassFailure (heap : Heap) (self : Thread) (c : Addr)
  : Exec Thread :=
  let! klass := deref heap c in
  let! _ := CHECK (IsErroneous klass) in
  match verify_error_class klass with
  | Some ve =>
      let! ve_class := deref heap ve in
      ThrowNewException self (descriptor ve_class) (PrettyDescriptor (descriptor klass))
  | None =>
      ThrowNewException self "Ljava/lang/NoClassDefFoundError;"
        (PrettyDescriptor (descriptor klass))
  end.

Definition WrapExceptionInInitializer (self : Thread) : Exec Thread :=
  match exception_ self with
  | None => Fatal  (* CHECK(cause.get() != NULL) *)
  | Some cause_ =>
      let self := SetException self None in            (* ExceptionClear *)
      let is_error := IsInstanceOf_java_lang_Error cause_ in
      let self := SetException self (Some cause_) in    (* Throw(cause) *)
      (* We only wrap non-Error exceptions; an Error can just be used as-is. *)
      if negb is_error
      then Done (ThrowNewWrappedException self
                   "Ljava/lang/ExceptionInInitializerError;" None)
      else Done self
  end.

Definition store (heap : Heap) (klass : Addr) (c : Class) : Heap := <[klass := c]> heap.

(** The wait loop of [EnsureResolved].  Each element of [wakeups] is the
    status another thread has left in the class when the waiter wakes up. *)
Fixpoint wait_until_resolved (heap : Heap) (klass : Addr) (wakeups : list Status)
  : Exec Heap :=
  let! c := deref heap klass in
  if negb (IsResolved c) && negb (IsErroneous c) then
    match wakeups with
    | [] => Stuck
    | seen :: wakeups' =>
        wait_until_resolved (store heap klass (SetStatus c seen)) klass wakeups'
    end
  else Done heap.

Definition ThrowClassCircularityError (self : Thread) (c : Class) : Exec Thread :=
  ThrowNewException self "Ljava/lang/ClassCircularityError;"
    (PrettyDescriptor (descriptor c)).

Definition EnsureResolved (heap : Heap) (self : Thread) (klass : Addr)
    (wakeups : list Status) : Exec (option Addr * Heap * Thread) :=
  let! c := deref heap klass in
  (* Wait for the class if it has not already been linked. *)
  let! r :=
      (if negb (IsResolved c) && negb (IsErroneous c) then
         (* Check for circular dependencies between classes. *)
         if negb (IsResolved c) && (clinit_thread_id c =? tid self) then
           let! self' := ThrowClassCircularityError self c in
           Done (inl (store heap klass (SetStatus c kStatusError), self'))
         else
           (* Wait for the pending initialization to complete. *)
           let! heap' := wait_until_resolved heap klass wakeups in
           Done (inr heap')
       else Done (inr heap)) in
  match r with
  | inl (heap, self) => Done (None, heap, self)
  | inr heap =>
      let! c := deref heap klass in
      if IsErroneous c then
        let! self' := ThrowEarlierClassFailure heap self klass in
        Done (None, heap, self')
      else
        (* Return the loaded class.  No exceptions should be pending. *)
        let! _ := CHECK (IsResolved c) in
        let! _ := AssertNoPendingException self in
        Done (Some klass, heap, self)
  end.

(** The collaborators of [DefineClass] after the class table: loading of
    superclass and interfaces, and linking, each with its verdict. *)
Variable LoadSuperAndInterfaces : Heap → Thread → Addr → bool * Heap * Thread.
Variable LinkClass : Heap → Thread → Addr → bool * Heap * Thread.

(** [DefineClass] from the point where [klass] has been allocated and
    [LoadClass] has returned. *)
Definition DefineClass (heap : Heap) (linker : ClassLinker) (self : Thread)
    (descriptor_ : string) (klass : Addr) (wakeups : list Status)
  : Exec (option Addr * Heap * ClassLinker * Thread) :=
  let! c := deref heap klass in
  (* Check for a pending exception during load *)
  if IsExceptionPending self then
    Done (None, store heap klass (SetStatus c kStatusError), linker, self)
  else
    let c := SetClinitThreadId c (tid self) in
    let heap := store heap klass c in
    (* Add the newly loaded class to the loaded classes table. *)
    let! (existing, linker) := InsertClass heap linker descriptor_ klass (Hash descriptor_) in
    match existing with
    | Some existing =>
        (* We failed to insert because we raced with another thread. *)
        let! (result, heap, self) := EnsureResolved heap self existing wakeups in
        Done (result, heap, linker, self)
    | None =>
        (* Finish loading (if necessary) by finding parents *)
        let! _ := CHECK (negb (IsLoaded c)) in
        let '(loaded, heap, self) := LoadSuperAndInterfaces heap self klass in
        let! c := deref heap klass in
        if negb loaded then
          Done (None, store heap klass (SetStatus c kStatusError), linker, self)
        else
          let! _ := CHECK (IsLoaded c) in
          (* Link the class (if necessary) *)
          let! _ := CHECK (negb (IsResolved c)) in
          let '(linked, heap, self) := LinkClass heap self klass in
          let! c := deref heap klass in
          if negb linked then
            Done (None, store heap klass (SetStatus c kStatusError), linker, self)
          else
            let! _ := CHECK (IsResolved c) in
            Done (Some klass, heap, linker, self)
    end.

(** The collaborators of [InitializeClass]: the verifier, the check of the
    inherited signatures, and the code run for the class (the encoded static
    values, then [<clinit>]). *)
Variable VerifyClass : Heap → Thread → Addr → Heap * Thread.
Variable ValidateSuperClassDescriptors : Heap → Thread → Addr → bool * Thread.
Variable ReadStaticValues : Heap → Thread → Addr → Heap * Thread.
Variable Invoke_clinit : Heap → Thread → Addr → Heap * Thread.

(** [depth] bounds the walk up the superclass chain. *)
Fixpoint CanWeInitializeClass (depth : nat) (heap : Heap) (klass : Addr)
    (can_init_statics can_init_parents : bool) : Exec bool :=
  if can_init_statics && can_init_parents then Done true
  else
    let! c := deref heap klass in
    if negb can_init_statics && has_class_initializer c then Done false
    else if negb can_init_statics && negb (num_static_fields c =? 0)
            && negb (static_values_off_ c =? 0) then Done false
    else if negb (is_interface c) then
      match super_class c with
      | Some super =>
          let! super_c := deref heap super in
          if negb can_init_parents && negb (IsInitialized super_c) then Done false
          else
            match depth with
            | O => Stuck
            | S depth' =>
                let! can :=
                  CanWeInitializeClass depth' heap super can_init_statics can_init_parents in
                if negb can then Done false else Done true
            end
      | None => Done true
      end
    else Done true.

(** The loop of [WaitForInitializeClass]; [wakeups] as in [EnsureResolved]. *)
Fixpoint WaitForInitializeClass (heap : Heap) (self : Thread) (klass : Addr)
    (wakeups : list Status) : Exec (bool * Heap * Thread) :=
  let! _ := AssertNoPendingException self in
  let! c := deref heap klass in
  let! _ := CHECK (negb (IsInitialized c)) in
  match wakeups with
  | [] => Stuck
  | seen :: wakeups' =>
      let c := SetStatus c seen in
      let heap := store heap klass c in
      if IsExceptionPending self then
        let! self := WrapExceptionInInitializer self in
        Done (false, store heap klass (SetStatus c kStatusError), self)
      else if bool_decide (status c = kStatusInitializing) then
        (* Spurious wakeup? Go back to waiting. *)
        WaitForInitializeClass heap self klass wakeups'
      else if bool_decide (status c = kStatusVerified) && IsCompiler then
        (* Compile time initialization failed. *)
        Done (false, heap, self)
      else if IsErroneous c then
        let! self :=
          ThrowNoClassDefFoundError self
            ("<clinit> failed for class " +:+ PrettyDescriptor (descriptor c)
               +:+ "; see exception in other thread") in
        Done (false, heap, self)
      else if IsInitialized c then Done (true, heap, self)
      else Fatal
  end.

(** The middle of [InitializeClass]: the encoded static field values are
    written, then the class initializer is invoked. *)
Definition run_static_initializers (heap : Heap) (self : Thread) (klass : Addr)
    (can_init_statics : bool) : Exec (Heap * Thread) :=
  let! c := deref heap klass in
  let! (heap, self) :=
    (if (0 <? num_static_fields c) && has_encoded_static_values c then
       let! _ := CHECK can_init_statics in
       Done (ReadStaticValues heap self klass)
     else Done (heap, self)) in
  let! (heap, self) :=
    (if has_class_initializer c then
       let! _ := CHECK can_init_statics in
       Done (Invoke_clinit heap self klass)
     else Done (heap, self)) in
  Done (heap, self).

(** The end of [InitializeClass], under the lock again: the verdict. *)
Definition finish_initialization (heap : Heap) (self : Thread) (klass : Addr)
  : Exec (bool * Heap * Thread) :=
  let! c := deref heap klass in
  if IsExceptionPending self then
    let! self := WrapExceptionInInitializer self in
    Done (false, store heap klass (SetStatus c kStatusError), self)
  else
    (* Set the class as initialized except if failed to initialize static fields. *)
    Done (true, store heap klass (SetStatus c kStatusInitialized), self).

(** [depth] bounds the recursion into the superclasses; [wakeups] gives, per
    class, what a waiter on it gets to see. *)
Fixpoint InitializeClass (depth : nat) (heap : Heap) (self : Thread) (klass : Addr)
    (can_init_statics can_init_parents : bool) (wakeups : Addr → list Status)
  : Exec (bool * Heap * Thread) :=
  match depth with
  | O => Stuck
  | S depth' =>
  let! c := deref heap klass in
  (* Are we already initialized and therefore done? *)
  if IsInitialized c then Done (true, heap, self) else
  (* Fast fail if initialization requires a full runtime. Not part of the JLS. *)
  let! can := CanWeInitializeClass depth heap klass can_init_statics can_init_parents in
  if negb can then Done (false, heap, self) else
  (* Re-check under the lock in case another thread initialized ahead of us. *)
  if IsInitialized c then Done (true, heap, self) else
  (* Was the class already found to be erroneous? *)
  if IsErroneous c then
    let! self := ThrowEarlierClassFailure heap self klass in
    Done (false, heap, self)
  else
  let! _ := CHECK (IsResolved c) in
  let! verified :=
    (if negb (IsVerified c) then
       let '(heap, self) := VerifyClass heap self klass in
       let! c := deref heap klass in
       if negb (IsVerified c) then
         let! _ :=
           (if IsErroneous c then CHECK (IsExceptionPending self)
            else
              let! _ := CHECK IsCompiler in
              CHECK (bool_decide (status c = kStatusRetryVerificationAtRuntime))) in
         Done (inl (heap, self))
       else Done (inr (heap, self))
     else Done (inr (heap, self))) in
  match verified with
  | inl (heap, self) => Done (false, heap, self)
  | inr (heap, self) =>
  let! c := deref heap klass in
  if bool_decide (status c = kStatusInitializing) then
    (* We caught somebody else in the act; was it us? *)
    if clinit_thread_id c =? tid self then Done (true, heap, self)
    else WaitForInitializeClass heap self klass (wakeups klass)
  else
  let '(valid, self) := ValidateSuperClassDescriptors heap self klass in
  if negb valid then
    Done (false, store heap klass (SetStatus c kStatusError), self)
  else
  let! _ := CHECK (bool_decide (status c = kStatusVerified)) in
  let c := SetStatus (SetClinitThreadId c (tid self)) kStatusInitializing in
  let heap := store heap klass c in
  (* Initialize super classes, must be done while initializing for the JLS. *)
  let! supers :=
    (if negb (is_interface c) then
       match super_class c with
       | Some super =>
           let! super_c := deref heap super in
           if negb (IsInitialized super_c) then
             let! _ := CHECK (negb (is_interface super_c)) in
             let! _ := CHECK can_init_parents in
             let! (super_initialized, heap, self) :=
               InitializeClass depth' heap self super can_init_statics true wakeups in
             if negb super_initialized then
               let! super_c := deref heap super in
               let! _ := CHECK (IsErroneous super_c && IsExceptionPending self) in
               let! c := deref heap klass in
               (* Initialization failed because the super-class is erroneous. *)
               Done (inl (store heap klass (SetStatus c kStatusError), self))
             else Done (inr (heap, self))
           else Done (inr (heap, self))
       | None => Done (inr (heap, self))
       end
     else Done (inr (heap, self))) in
  match supers with
  | inl (heap, self) => Done (false, heap, self)
  | inr (heap, self) =>
  let! (heap, self) := run_static_initializers heap self klass can_init_statics in
  finish_initialization heap self klass
  end
  end
  end.

End Linker.

(** The class of the exception an earlier failure of [c] is reported with:
    the recorded verify-error class, else [NoClassDefFoundError]. *)
Definition earlier_failure_class (heap : Heap) (c : Class) : option string :=
  match verify_error_class c with
  | Some ve => descriptor <$> heap !! ve
  | None => Some "Ljava/lang/NoClassDefFoundError;"%string
  end.

(** The exception object [WrapExceptionInInitializer] leaves pending for an
    exception [e] that escaped the initializer. *)
Definition initializer_failure (IsInstanceOf_java_lang_Error : Throwable → bool)
    (e : Throwable) : Throwable :=
  if IsInstanceOf_java_lang_Error e then e
  else {| exception_class := "Ljava/lang/ExceptionInInitializerError;";
          detail_message := None;
          cause := Some e |}.

(** *** Notions for the statements about the class table *)

(** The entry at [klass] has the descriptor and the loader looked for. *)
Definition entry_matches (heap : Heap) (descriptor_ : string)
    (class_loader_ : option Addr) (klass : Addr) : Prop :=
  ∃ c, heap !! klass = Some c ∧ matches c descriptor_ class_loader_ = true.

(** Every entry of [range] is a class object, none of them the one looked for. *)
Definition no_entry_matches (heap : Heap) (descriptor_ : string)
    (class_loader_ : option Addr) (range : list Addr) : Prop :=
  ∀ klass, klass ∈ range →
    ∃ c, heap !! klass = Some c ∧ matches c descriptor_ class_loader_ = false.

(** The debug-build [CHECK] of [InsertClass]: a bootstrap class that is in
    the image under [descriptor_] is the class being inserted. *)
Definition image_check_passes (kIsDebugBuild : bool) (linker : ClassLinker)
    (descriptor_ : string) (c : Class) (klass : Addr) : Prop :=
  kIsDebugBuild = true → class_loader c = None →
  dex_cache_image_class_lookup_required_ linker = true →
  ∀ existing, LookupClassFromImage linker descriptor_ = Some existing → klass = existing.

(** Descriptor and defining loader of a class object never change: a later
    heap shows every class of an earlier one with the same two. *)
Definition same_identity (heap heap2 : Heap) : Prop :=
  ∀ klass c, heap !! klass = Some c →
    ∃ c2, heap2 !! klass = Some c2
          ∧ descriptor c2 = descriptor c ∧ class_loader c2 = class_loader c.

(** The entries of [range] that are the class looked for. *)
Definition matching_entries (heap : Heap) (descriptor_ : string)
    (class_loader_ : option Addr) (range : list Addr) : list Addr :=
  filter (λ klass, from_option (λ c, matches c descriptor_ class_loader_) false
                     (heap !! klass) = true) range.

(** A status seen by a waiter that keeps it waiting in [EnsureResolved]. *)
Definition in_flight (st : Status) : Prop :=
  status_IsResolved st = false ∧ status_IsErroneous st = false.






(** A lookup that finds its descriptor neither in the table nor in the image. *)
Definition fallback_miss (heap : Heap) (linker : ClassLinker) (descriptor_ : string)
  : Prop :=
  no_entry_matches heap descriptor_ None
    (equal_range (class_table_ linker) (Hash descriptor_))
  ∧ LookupClassFromImage linker descriptor_ = None.

(** *** A small world: class [X] with a class initializer that throws *)

Definition class_X (st : Status) : Class :=
  {| descriptor := "LX;"; class_loader := None; status := st;
     clinit_thread_id := 0; verify_error_class := None; super_class := None;
     is_interface := false; has_class_initializer := true;
     num_static_fields := 0; static_values_off_ := 0;
     has_encoded_static_values := false |}.

Definition heap_X (st : Status) : Heap := {[ 1%N := class_X st ]}.

Definition main_thread : Thread := {| tid := 7; exception_ := None |}.

Definition runtime_exception : Throwable :=
  {| exception_class := "Ljava/lang/IllegalStateException;";
     detail_message := Some "boom"%string; cause := None |}.

Definition out_of_memory_error : Throwable :=
  {| exception_class := "Ljava/lang/OutOfMemoryError;";
     detail_message := None; cause := None |}.

(** Subtype test against [java.lang.Error] for the two exceptions above. *)
Definition is_error (e : Throwable) : bool :=
  bool_decide (exception_class e = "Ljava/lang/OutOfMemoryError;"%string).

Definition no_verifier (heap : Heap) (self : Thread) (klass : Addr) : Heap * Thread :=
  (heap, self).
Definition signatures_valid (heap : Heap) (self : Thread) (klass : Addr) : bool * Thread :=
  (true, self).
Definition no_values (heap : Heap) (self : Thread) (klass : Addr) : Heap * Thread :=
  (heap, self).
Definition clinit_throws (e : Throwable) (heap : Heap) (self : Thread) (klass : Addr)
  : Heap * Thread :=
  (heap, SetException self (Some e)).

(** *** Two class objects for one descriptor: the winner's, resolved by now,
    and the one a second definer has just loaded *)

Definition heap_two_X : Heap :=
  {[ 1%N := class_X kStatusResolved; 2%N := class_X kStatusIdx ]}.

Definition empty_linker : ClassLinker :=
  {| class_table_ := ∅; new_class_roots_ := [];
     log_new_class_table_roots_ := false;
     dex_cache_image_class_lookup_required_ := false;
     failed_dex_cache_class_lookups_ := 0;
     image_dex_caches := [] |}.

Definition collaborator_succeeds (heap : Heap) (self : Thread) (klass : Addr)
  : bool * Heap * Thread :=
  (true, heap, self).

(** *** A small boot image: [java.lang.Object] in the one dex cache *)

Definition class_Object : Class :=
  {| descriptor := "Ljava/lang/Object;"; class_loader := None;
     status := kStatusInitialized; clinit_thread_id := 0;
     verify_error_class := None; super_class := None;
     is_interface := false; has_class_initializer := false;
     num_static_fields := 0; static_values_off_ := 0;
     has_encoded_static_values := false |}.

Definition heap_boot : Heap := {[ 3%N := class_Object ]}.

(** A linker just started from the image, with [failed] lookups so far. *)
Definition linker_boot (failed : Z) : ClassLinker :=
  {| class_table_ := ∅; new_class_roots_ := [];
     log_new_class_table_roots_ := false;
     dex_cache_image_class_lookup_required_ := true;
     failed_dex_cache_class_lookups_ := failed;
     image_dex_caches :=
       [ {| type_ids := ["Ljava/lang/Object;"%string];
            resolved_types := [Some 3%N] |} ] |}.

End Resolution.

(** ** Method tables: [LinkVirtualMethods], [LinkInterfaceMethods] *)

Module MethodTables.

(** An object address: an index into the store of its kind. *)
Abbreviation Addr := nat.

(** How linking ends: with a result; with [false] and an exception of the
    given class pending; or with the process brought down (a failed [CHECK],
    a null or wild pointer). *)
Inductive Outcome (A : Type) :=
| Ok (a : A)
| Throws (exception_class : string)
| Fatal.
Arguments Ok {A} a.
Arguments Throws {A} exception_class.
Arguments Fatal {A}.

Definition outcome_bind {A B} (m : Outcome A) (k : A → Outcome B) : Outcome B :=
  match m with
  | Ok a => k a
  | Throws e => Throws e
  | Fatal => Fatal
  end.

Notation "'let!' p := m 'in' k" := (outcome_bind m (λ p, k))
  (at level 10, p pattern, m at level 100, k at level 200,
   format "'[v' 'let!'  p  :=  m  'in' '/' k ']'").

Definition CHECK (cond : bool) : Outcome unit := if cond then Ok () else Fatal.

(** [mirror::ArtMethod] as seen through [MethodHelper]: name and signature
    are what the helper looks up, [method_index] is the word
    [SetMethodIndex] writes, [dex_method_index] the one [GetDexMethodIndex]
    reads. *)
Record ArtMethod := mkArtMethod {
  name : string;
  signature : string;
  declaring_class : Addr;
  access_flags : Z;
  method_index : Z;
  dex_method_index : Z
}.

Global Instance ArtMethod_eq_dec : EqDecision ArtMethod.
Proof. solve_decision. Defined.

Definition SetMethodIndex_ (new_method_index : Z) (m : ArtMethod) : ArtMethod :=
  {| name := name m; signature := signature m; declaring_class := declaring_class m;
     access_flags := access_flags m; method_index := new_method_index;
     dex_method_index := dex_method_index m |}.

Definition SetAccessFlags_ (new_access_flags : Z) (m : ArtMethod) : ArtMethod :=
  {| name := name m; signature := signature m; declaring_class := declaring_class m;
     access_flags := new_access_flags; method_index := method_index m;
     dex_method_index := dex_method_index m |}.

(** Modelled from the spec: [MethodHelper::HasSameNameAndSignature] of
    object_utils.h is not among the sources; it is the "name+signature
    match" of two methods. *)
Definition HasSameNameAndSignature (m1 m2 : ArtMethod) : bool :=
  bool_decide (name m1 = name m2) && bool_decide (signature m1 = signature m2).

(** Modelled from the spec: the access flags of modifiers.h are not among
    the sources; public, final and abstract are the flags of the class file
    format. *)
Definition kAccPublic : Z := 0x0001.
Definition kAccFinal : Z := 0x0010.
Definition kAccAbstract : Z := 0x0400.

(** Modelled from the spec: the flag tests of mirror/art_method.h are not
    among the sources; a method "is final" (public, abstract) when the bit of
    the flag is set in its access flags. *)
Definition IsPublic (m : ArtMethod) : bool := negb (Z.land (access_flags m) kAccPublic =? 0).
Definition IsFinal (m : ArtMethod) : bool := negb (Z.land (access_flags m) kAccFinal =? 0).
Definition IsAbstract (m : ArtMethod) : bool :=
  negb (Z.land (access_flags m) kAccAbstract =? 0).

(** The store of the method objects. *)
Abbreviation Methods := (list ArtMethod).

Definition deref_method (methods : Methods) (m : Addr) : Outcome ArtMethod :=
  match methods !! m with
  | Some am => Ok am
  | None => Fatal
  end.

(** A read through a possibly null pointer. *)
Definition deref_entry (methods : Methods) (entry : option Addr) : Outcome ArtMethod :=
  match entry with
  | Some m => deref_method methods m
  | None => Fatal
  end.

Definition SetMethodIndex (methods : Methods) (m : Addr) (new_method_index : Z) : Methods :=
  alter (SetMethodIndex_ new_method_index) m methods.

Definition SetAccessFlags (methods : Methods) (m : Addr) (new_access_flags : Z) : Methods :=
  alter (SetAccessFlags_ new_access_flags) m methods.

(** One row of a [mirror::IfTable]: the interface and its method array. *)
Record IfTableEntry := mkIfTableEntry {
  interface : option Addr;
  method_array : option (list (option Addr))
}.

(** The part of [mirror::Class] read and written by method linking. *)
Record Class := mkClass {
  is_interface : bool;
  super_class : option Addr;
  (* ClassHelper::GetDirectInterface *)
  direct_interfaces : list Addr;
  virtual_methods : list Addr;
  vtable : option (list (option Addr));
  iftable : option (list IfTableEntry);
  imtable : list (option Addr)
}.

Definition SetVTable (c : Class) (new_vtable : list (option Addr)) : Class :=
  {| is_interface := is_interface c; super_class := super_class c;
     direct_interfaces := direct_interfaces c; virtual_methods := virtual_methods c;
     vtable := Some new_vtable; iftable := iftable c; imtable := imtable c |}.

Definition SetIfTable (c : Class) (new_iftable : option (list IfTableEntry)) : Class :=
  {| is_interface := is_interface c; super_class := super_class c;
     direct_interfaces := direct_interfaces c; virtual_methods := virtual_methods c;
     vtable := vtable c; iftable := new_iftable; imtable := imtable c |}.

Definition SetImTable (c : Class) (new_imtable : list (option Addr)) : Class :=
  {| is_interface := is_interface c; super_class := super_class c;
     direct_interfaces := direct_interfaces c; virtual_methods := virtual_methods c;
     vtable := vtable c; iftable := iftable c; imtable := new_imtable |}.

Definition SetVirtualMethods (c : Class) (new_virtual_methods : list Addr) : Class :=
  {| is_interface := is_interface c; super_class := super_class c;
     direct_interfaces := direct_interfaces c; virtual_methods := new_virtual_methods;
     vtable := vtable c; iftable := iftable c; imtable := imtable c |}.

(** The store of the other class objects (superclass, interfaces); method
    linking only reads them. *)
Abbreviation Classes := (list Class).

Definition deref_class (classes : Classes) (c : Addr) : Outcome Class :=
  match classes !! c with
  | Some cl => Ok cl
  | None => Fatal
  end.

Definition GetIfTableCount (c : Class) : nat :=
  match iftable c with
  | Some t => length t
  | None => 0%nat
  end.

Definition GetMethodArrayCount (e : IfTableEntry) : nat :=
  match method_array e with
  | Some a => length a
  | None => 0%nat
  end.

(** Modelled from the spec: [ObjectArray::CopyOf] of mirror/object_array.h is
    not among the sources; "copying the superclass's vtable" into an array of
    the new length keeps the elements that fit and leaves nulls after them. *)
Definition CopyOf {A} (array : list (option A)) (new_length : nat) : list (option A) :=
  take new_length array ++ replicate (new_length - length array) None.

Section Linker.
(** [Class::CanAccessMember] of [klass], [GetClassRoot(kJavaLangObject)],
    [kImtSize], [kAccMiranda], and the runtime's default interface method table
    and conflict method: none of them is among the sources. *)
Variable CanAccessMember : Addr → Addr → Z → bool.
Variable java_lang_Object : Addr.
Variable kImtSize : nat.
Variable kAccMiranda : Z.
Variable default_imt : list (option Addr).
Variable imt_conflict_method : Addr.

(** The inner loop of [LinkVirtualMethods] over the slots [j, actual_count):
    the slot of the first access-permitted match, if there is one. *)
Fixpoint scan_vtable (methods : Methods) (klass : Addr) (local_method : ArtMethod)
    (slots : list (option Addr)) (j : nat) : Outcome (option nat) :=
  match slots with
  | [] => Ok None
  | entry :: rest =>
      let! super_method := deref_entry methods entry in
      if HasSameNameAndSignature local_method super_method then
        if CanAccessMember klass (declaring_class super_method) (access_flags super_method)
        then
          if IsFinal super_method then Throws "Ljava/lang/LinkageError;"
          else Ok (Some j)
        else
          (* "would have incorrectly overridden the package-private method" *)
          scan_vtable methods klass local_method rest (S j)
      else scan_vtable methods klass local_method rest (S j)
  end.

(** One turn of the outer loop: the method overrides the slot found, or is
    appended at [actual_count]. *)
Definition link_virtual_method (klass : Addr) (local_method : Addr)
    (vtable : list (option Addr)) (actual_count : nat) (methods : Methods)
  : Outcome (list (option Addr) * nat * Methods) :=
  let! local_mh := deref_method methods local_method in
  let! found := scan_vtable methods klass local_mh (take actual_count vtable) 0 in
  match found with
  | Some j =>
      Ok (<[j := Some local_method]> vtable, actual_count,
          SetMethodIndex methods local_method (Z.of_nat j))
  | None =>
      (* Not overriding, append. *)
      Ok (<[actual_count := Some local_method]> vtable, S actual_count,
          SetMethodIndex methods local_method (Z.of_nat actual_count))
  end.

Fixpoint link_virtual_methods (klass : Addr) (locals : list Addr)
    (vtable : list (option Addr)) (actual_count : nat) (methods : Methods)
  : Outcome (list (option Addr) * nat * Methods) :=
  match locals with
  | [] => Ok (vtable, actual_count, methods)
  | local_method :: rest =>
      let! (vtable, actual_count, methods) :=
        link_virtual_method klass local_method vtable actual_count methods in
      link_virtual_methods klass rest vtable actual_count methods
  end.

(** The loop of the root class: slot [i] for the [i]-th virtual method. *)
Fixpoint link_root_methods (locals : list Addr) (i : nat)
    (vtable : list (option Addr)) (methods : Methods)
  : Outcome (list (option Addr) * Methods) :=
  match locals with
  | [] => Ok (vtable, methods)
  | virtual_method :: rest =>
      let! _ := deref_method methods virtual_method in
      link_root_methods rest (S i) (<[i := Some virtual_method]> vtable)
        (SetMethodIndex methods virtual_method (Z.land (Z.of_nat i) 0xFFFF))
  end.

Definition LinkVirtualMethods (classes : Classes) (methods : Methods)
    (klass_addr : Addr) (klass : Class) : Outcome (Class * Methods) :=
  match super_class klass with
  | Some super =>
      let! super_c := deref_class classes super in
      let! super_vtable :=
        (match vtable super_c with Some v => Ok v | None => Fatal end) in
      let max_count := (length (virtual_methods klass) + length super_vtable)%nat in
      let actual_count := length super_vtable in
      let! _ := CHECK (actual_count <=? max_count)%nat in
      let vtable := CopyOf super_vtable max_count in
      (* See if any of our virtual methods override the superclass. *)
      let! (vtable, actual_count, methods) :=
        link_virtual_methods klass_addr (virtual_methods klass) vtable actual_count
          methods in
      if negb (IsUint 16 (Z.of_nat actual_count)) then
        Throws "Ljava/lang/ClassFormatError;"
      else
        (* Shrink vtable if possible *)
        let! _ := CHECK (actual_count <=? max_count)%nat in
        let vtable :=
          if (actual_count <? max_count)%nat then CopyOf vtable actual_count else vtable in
        Ok (SetVTable klass vtable, methods)
  | None =>
      let! _ := CHECK (bool_decide (klass_addr = java_lang_Object)) in
      let num_virtual_methods := length (virtual_methods klass) in
      if negb (IsUint 16 (Z.of_nat num_virtual_methods)) then
        Throws "Ljava/lang/ClassFormatError;"
      else
        let vtable := replicate num_virtual_methods None in
        let! (vtable, methods) :=
          link_root_methods (virtual_methods klass) 0 vtable methods in
        Ok (SetVTable klass vtable, methods)
  end.

(** [iftable->SetInterface(i, x)] and [iftable->SetMethodArray(i, a)]. *)
Definition SetInterface (iftable : list IfTableEntry) (i : nat) (x : option Addr)
  : list IfTableEntry :=
  alter (λ e, {| interface := x; method_array := method_array e |}) i iftable.

Definition SetMethodArray (e : IfTableEntry) (a : list (option Addr)) : IfTableEntry :=
  {| interface := interface e; method_array := Some a |}.

(** "Check if interface is already in iftable": pointer equality with one of
    the first [idx] rows. *)
Definition already_in_iftable (iftable : list IfTableEntry) (idx : nat) (x : option Addr)
  : bool :=
  existsb (λ e, bool_decide (interface e = x)) (take idx iftable).

(** "Add this interface's non-duplicate super-interfaces." *)
Fixpoint add_super_interfaces (supers : list IfTableEntry) (iftable : list IfTableEntry)
    (idx : nat) : list IfTableEntry * nat :=
  match supers with
  | [] => (iftable, idx)
  | e :: rest =>
      let super_interface := interface e in
      if already_in_iftable iftable idx super_interface
      then add_super_interfaces rest iftable idx
      else add_super_interfaces rest (SetInterface iftable idx super_interface) (S idx)
  end.

(** "Flatten the interface inheritance hierarchy." *)
Fixpoint flatten_interfaces (classes : Classes) (interfaces : list Addr)
    (table : list IfTableEntry) (idx : nat) : Outcome (list IfTableEntry * nat) :=
  match interfaces with
  | [] => Ok (table, idx)
  | interface :: rest =>
      let! interface_c := deref_class classes interface in
      if negb (is_interface interface_c) then
        Throws "Ljava/lang/IncompatibleClassChangeError;"
      else if already_in_iftable table idx (Some interface) then
        flatten_interfaces classes rest table idx
      else
        let table := SetInterface table idx (Some interface) in
        let '(table, idx) :=
          add_super_interfaces (default [] (iftable interface_c)) table (S idx) in
        flatten_interfaces classes rest table idx
  end.

(** The sum of [interface->GetIfTableCount()] over the direct interfaces. *)
Fixpoint count_super_interfaces (classes : Classes) (interfaces : list Addr)
  : Outcome nat :=
  match interfaces with
  | [] => Ok 0%nat
  | interface :: rest =>
      let! interface_c := deref_class classes interface in
      let! n := count_super_interfaces classes rest in
      Ok (GetIfTableCount interface_c + n)%nat
  end.

(** The walk "back from the end of the vtable" for the method implementing
    an interface method; [slots] is the vtable reversed. *)
Fixpoint search_vtable_backward (methods : Methods) (interface_method : ArtMethod)
    (slots : list (option Addr)) : Outcome (option Addr) :=
  match slots with
  | [] => Ok None
  | entry :: rest =>
      let! vtable_mh := deref_entry methods entry in
      if HasSameNameAndSignature interface_method vtable_mh then
        if negb (IsAbstract vtable_mh) && negb (IsPublic vtable_mh) then
          Throws "Ljava/lang/IllegalAccessError;"
        else Ok entry
      else search_vtable_backward methods interface_method rest
  end.

(** The search of [miranda_list] for a clone made earlier. *)
Fixpoint find_miranda (methods : Methods) (interface_method : ArtMethod)
    (miranda_list : list Addr) : Outcome (option Addr) :=
  match miranda_list with
  | [] => Ok None
  | mir_method :: rest =>
      let! vtable_mh := deref_method methods mir_method in
      if HasSameNameAndSignature interface_method vtable_mh then Ok (Some mir_method)
      else find_miranda methods interface_method rest
  end.

(** "Place method in imt if entry is empty, place conflict otherwise."
    Returns the table and whether the entry was empty. *)
Definition imt_install (imtable : list (option Addr)) (imt_index : nat)
    (vtable_method : Addr) : Outcome (list (option Addr) * bool) :=
  match imtable !! imt_index with
  | Some None => Ok (<[imt_index := Some vtable_method]> imtable, true)
  | Some (Some _) => Ok (<[imt_index := Some imt_conflict_method]> imtable, false)
  | None => Fatal
  end.

Definition imt_index_of (interface_method : ArtMethod) : nat :=
  Z.to_nat (dex_method_index interface_method `mod` Z.of_nat kImtSize).

(** What the loops over the iftable carry along. *)
Record LinkState := mkLinkState {
  imtable_ : list (option Addr);
  imtable_changed : bool;
  miranda_list : list Addr;
  methods_ : Methods
}.

(** The body of the loop over the methods of one interface: the [j]-th one. *)
Definition link_interface_method (vtable : list (option Addr)) (interface_method : Addr)
    (j : nat) (method_array : list (option Addr)) (st : LinkState)
  : Outcome (list (option Addr) * LinkState) :=
  let! interface_mh := deref_method (methods_ st) interface_method in
  let! found := search_vtable_backward (methods_ st) interface_mh (reverse vtable) in
  match found with
  | Some vtable_method =>
      let! (imtable, was_empty) :=
        imt_install (imtable_ st) (imt_index_of interface_mh) vtable_method in
      Ok (<[j := Some vtable_method]> method_array,
          {| imtable_ := imtable; imtable_changed := was_empty || imtable_changed st;
             miranda_list := miranda_list st; methods_ := methods_ st |})
  | None =>
      let! miranda_method := find_miranda (methods_ st) interface_mh (miranda_list st) in
      match miranda_method with
      | Some miranda_method => Ok (<[j := Some miranda_method]> method_array, st)
      | None =>
          (* Point the interface table at a phantom slot. *)
          let miranda_method := length (methods_ st) in
          Ok (<[j := Some miranda_method]> method_array,
              {| imtable_ := imtable_ st; imtable_changed := imtable_changed st;
                 miranda_list := miranda_list st ++ [miranda_method];
                 methods_ := methods_ st ++ [interface_mh] |})
      end
  end.

Fixpoint link_interface (vtable : list (option Addr)) (interface_methods : list Addr)
    (j : nat) (method_array : list (option Addr)) (st : LinkState)
  : Outcome (list (option Addr) * LinkState) :=
  match interface_methods with
  | [] => Ok (method_array, st)
  | interface_method :: rest =>
      let! (method_array, st) :=
        link_interface_method vtable interface_method j method_array st in
      link_interface vtable rest (S j) method_array st
  end.

(** The loop over the rows of the iftable. *)
Fixpoint link_iftable (classes : Classes) (vtable : option (list (option Addr)))
    (rows : list IfTableEntry) (st : LinkState) : Outcome (list IfTableEntry * LinkState) :=
  match rows with
  | [] => Ok ([], st)
  | row :: rest =>
      let! interface :=
        (match interface row with Some i => deref_class classes i | None => Fatal end) in
      let num_methods := length (virtual_methods interface) in
      if (0 <? num_methods)%nat then
        let! vtable_ := (match vtable with Some v => Ok v | None => Fatal end) in
        let! (method_array, st) :=
          link_interface vtable_ (virtual_methods interface) 0
            (replicate num_methods None) st in
        let! (rest, st) := link_iftable classes vtable rest st in
        Ok (SetMethodArray row method_array :: rest, st)
      else
        let! (rest, st) := link_iftable classes vtable rest st in
        Ok (row :: rest, st)
  end.

(** "Fill in empty entries in interface method table with conflict." *)
Definition fill_imt (imtable : list (option Addr)) : list (option Addr) :=
  (λ e, match e with None => Some imt_conflict_method | Some m => Some m end) <$> imtable.

(** The loop that gives the miranda methods their flag, index and slots. *)
Fixpoint install_mirandas (mirandas : list Addr) (i : nat) (old_vtable_count : nat)
    (virtuals : list Addr) (vtable : list (option Addr)) (methods : Methods)
  : Outcome (list Addr * list (option Addr) * Methods) :=
  match mirandas with
  | [] => Ok (virtuals, vtable, methods)
  | method :: rest =>
      let! m := deref_method methods method in
      let methods := SetAccessFlags methods method (Z.lor (access_flags m) kAccMiranda) in
      let methods :=
        SetMethodIndex methods method (Z.land 0xFFFF (Z.of_nat (old_vtable_count + i))) in
      install_mirandas rest (S i) old_vtable_count (virtuals ++ [method])
        (<[(old_vtable_count + i)%nat := Some method]> vtable) methods
  end.

Definition LinkInterfaceMethods (classes : Classes) (methods : Methods) (klass : Class)
    (interfaces : option (list Addr)) : Outcome (Class * Methods) :=
  (* Set the imt table to be all conflicts by default. *)
  let klass := SetImTable klass default_imt in
  let! super_c :=
    (match super_class klass with
     | Some super => let! c := deref_class classes super in Ok (Some c)
     | None => Ok None
     end) in
  let super_iftable := default [] (super_c ≫= iftable) in
  let super_ifcount := length super_iftable in
  let interfaces := default (direct_interfaces klass) interfaces in
  let num_interfaces := length interfaces in
  let! inherited := count_super_interfaces classes interfaces in
  let ifcount := (super_ifcount + num_interfaces + inherited)%nat in
  if (ifcount =? 0)%nat then
    (* Class implements no interfaces. *)
    Ok (klass, methods)
  else if (ifcount =? super_ifcount)%nat
          && negb (existsb (λ e, (0 <? GetMethodArrayCount e)%nat) super_iftable) then
    (* Class just inherits marker interfaces from parent so recycle parent's
       iftable. *)
    Ok (SetIfTable klass (super_c ≫= iftable), methods)
  else
    let iftable := replicate ifcount (mkIfTableEntry None None) in
    let iftable :=
      foldl (λ t '(i, e), SetInterface t i (interface e)) iftable
        (imap (λ i e, (i, e)) super_iftable) in
    let! (iftable, idx) := flatten_interfaces classes interfaces iftable super_ifcount in
    (* Shrink iftable in case duplicates were found *)
    let! _ := CHECK (idx <=? ifcount)%nat in
    let iftable := take idx iftable in
    let klass := SetIfTable klass (Some iftable) in
    (* If we're an interface, we don't need the vtable pointers, so we're
       done. *)
    if is_interface klass then Ok (klass, methods)
    else
      let imtable := replicate kImtSize None in
      let! (iftable, st) :=
        link_iftable classes (vtable klass) iftable
          {| imtable_ := imtable; imtable_changed := false; miranda_list := [];
             methods_ := methods |} in
      let klass := SetIfTable klass (Some iftable) in
      let klass :=
        if imtable_changed st then SetImTable klass (fill_imt (imtable_ st)) else klass in
      let! (klass, methods) :=
        (match miranda_list st with
         | [] => Ok (klass, methods_ st)
         | _ :: _ =>
             let! vtable := (match vtable klass with Some v => Ok v | None => Fatal end) in
             let old_vtable_count := length vtable in
             let new_vtable_count := (old_vtable_count + length (miranda_list st))%nat in
             let vtable := CopyOf vtable new_vtable_count in
             let! (virtuals, vtable, methods) :=
               install_mirandas (miranda_list st) 0 old_vtable_count
                 (virtual_methods klass) vtable (methods_ st) in
             Ok (SetVTable (SetVirtualMethods klass virtuals) vtable, methods)
         end) in
      let! vtable := (match vtable klass with Some v => Ok v | None => Fatal end) in
      let! _ := CHECK (forallb (λ e, bool_decide (is_Some e)) vtable) in
      Ok (klass, methods).

(** The loop of [LinkMethods] over the methods of an interface. *)
Fixpoint index_interface_methods (locals : list Addr) (i : nat) (methods : Methods)
  : Outcome Methods :=
  match locals with
  | [] => Ok methods
  | virtual_method :: rest =>
      let! _ := deref_method methods virtual_method in
      index_interface_methods rest (S i)
        (SetMethodIndex methods virtual_method (Z.of_nat i))
  end.

(** "Populate the class vtable and itable." *)
Definition LinkMethods (classes : Classes) (methods : Methods) (klass_addr : Addr)
    (klass : Class) (interfaces : option (list Addr)) : Outcome (Class * Methods) :=
  if is_interface klass then
    (* No vtable. *)
    let count := length (virtual_methods klass) in
    if negb (IsUint 16 (Z.of_nat count)) then Throws "Ljava/lang/ClassFormatError;"
    else
      let! methods := index_interface_methods (virtual_methods klass) 0 methods in
      LinkInterfaceMethods classes methods klass interfaces
  else
    let! (klass, methods) := LinkVirtualMethods classes methods klass_addr klass in
    LinkInterfaceMethods classes methods klass interfaces.

(** *** What the theorems speak of *)

(** The slot's method has the name and signature of [local_method] and
    [klass] may access it. *)
Definition permitted_match (methods : Methods) (klass : Addr) (local_method : ArtMethod)
    (entry : option Addr) : bool :=
  match entry ≫= (methods !!.) with
  | Some super_method =>
      HasSameNameAndSignature local_method super_method
      && CanAccessMember klass (declaring_class super_method) (access_flags super_method)
  | None => false
  end.

(** The scan in the words of the specification: the inherited table is
    walked from its end, and the first permitted match met decides. *)
Definition override_slot_from_end (methods : Methods) (klass : Addr)
    (local_method : ArtMethod) (inherited : list (option Addr)) : option nat :=
  (λ found, length inherited - 1 - found.1)%nat
    <$> list_find (λ e, permitted_match methods klass local_method e = true)
          (reverse inherited).

(** The slot holds a method of the store. *)
Definition in_store (methods : Methods) (entry : option Addr) : bool :=
  match entry with
  | Some m => bool_decide (m < length methods)%nat
  | None => false
  end.

(** The slot [i] of an inherited vtable holds a method of the store that the
    class does not declare itself, with [i], cut to 16 bits, as its index. *)
Definition inherited_slot_ok (methods : Methods) (locals : list Addr) (i : nat)
    (entry : option Addr) : bool :=
  match entry with
  | Some m =>
      bool_decide (m ∉ locals)
      && match methods !! m with
         | Some am => bool_decide (method_index am = Z.land (Z.of_nat i) 0xFFFF)
         | None => false
         end
  | None => false
  end.

Definition inherited_vtable_ok (classes : Classes) (methods : Methods) (klass : Class)
  : bool :=
  match (super_class klass ≫= (classes !!.)) ≫= vtable with
  | Some super_vtable =>
      forallb (λ ie, inherited_slot_ok methods (virtual_methods klass) ie.1 ie.2)
        (imap (λ i e, (i, e)) super_vtable)
  | None => true
  end.

(** Slot [i] of the vtable holds a method of the store whose method index
    is [expected]. *)
Definition slot_indexed (methods : Methods) (vtable : list (option Addr)) (i : nat)
    (expected : Z) : Prop :=
  ∃ m am, vtable !! i = Some (Some m) ∧ methods !! m = Some am
          ∧ method_index am = expected.

(** The method found for an interface method by the backward walk of the
    vtable, with the slot of the interface method table that the dex method
    index of the interface method selects. *)
Definition implementation_of (methods : Methods) (vtable : list (option Addr))
    (interface_method : Addr) : option (nat * Addr) :=
  match methods !! interface_method with
  | Some interface_mh =>
      match search_vtable_backward methods interface_mh (reverse vtable) with
      | Ok (Some vtable_method) =>
          Some (Z.to_nat (dex_method_index interface_mh `mod` Z.of_nat kImtSize),
                vtable_method)
      | _ => None
      end
  | None => None
  end.

(** The implemented interface methods in the order of the loops: row by row
    of the iftable, method by method of the row's interface. *)
Definition imt_writes (classes : Classes) (methods : Methods)
    (vtable : list (option Addr)) (rows : list IfTableEntry) : list (nat * Addr) :=
  row ← rows;
  interface ← option_list (interface row ≫= (classes !!.));
  interface_method ← virtual_methods interface;
  option_list (implementation_of methods vtable interface_method).

Definition writes_to (slot : nat) (writes : list (nat * Addr)) : list (nat * Addr) :=
  filter (λ w, w.1 = slot) writes.

(** What a slot of the table holds while the writes are made: nothing
    before the first write, the method of the first write after it, the
    conflict method from the second write on. *)
Definition imt_slot_during (writes : list (nat * Addr)) (slot : nat) : option Addr :=
  match writes_to slot writes with
  | [] => None
  | [w] => Some w.2
  | _ :: _ :: _ => Some imt_conflict_method
  end.

(** What a slot of the table holds once all writes are made and the empty
    slots are filled. *)
Definition imt_entry (writes : list (nat * Addr)) (slot : nat) : Addr :=
  match writes_to slot writes with
  | [w] => w.2
  | _ => imt_conflict_method
  end.

(** The table has [kImtSize] slots and holds what the writes put there. *)
Definition imt_holds (writes : list (nat * Addr)) (imtable : list (option Addr)) : Prop :=
  length imtable = kImtSize
  ∧ ∀ slot, (slot < kImtSize)%nat → imtable !! slot = Some (imt_slot_during writes slot).

(** The state in which the loops over the iftable start. *)
Definition initial_link_state (methods : Methods) : LinkState :=
  {| imtable_ := replicate kImtSize None; imtable_changed := false;
     miranda_list := []; methods_ := methods |}.

(** The interface methods of the rows are methods of the store. *)
Definition interface_methods_in_store (classes : Classes) (methods : Methods)
    (rows : list IfTableEntry) : bool :=
  forallb (λ row,
    match interface row ≫= (classes !!.) with
    | Some interface =>
        forallb (λ m, bool_decide (m < length methods)%nat) (virtual_methods interface)
    | None => true
    end) rows.

(** A row whose interface declares methods has a method array: what
    [link_iftable] leaves behind in a linked class. *)
Definition rows_have_method_arrays (classes : Classes) (rows : list IfTableEntry) : bool :=
  forallb (λ row,
    match interface row ≫= (classes !!.) with
    | Some interface =>
        bool_decide (virtual_methods interface = []) || (0 <? GetMethodArrayCount row)%nat
    | None => true
    end) rows.

Definition super_iftable_linked (classes : Classes) (klass : Class) : bool :=
  match (super_class klass ≫= (classes !!.)) ≫= iftable with
  | Some rows => rows_have_method_arrays classes rows
  | None => true
  end.

End Linker.

(** *** A small world

    [A] (package p) declares a package-private [foo]; [B] (package q) extends
    [A] and declares a public [foo], which cannot override [A.foo] and sits
    in a slot of its own; [C] (package p) extends [B] and declares [foo] and
    [bar]. *)
Definition addr_A : Addr := 1%nat.
Definition addr_B : Addr := 2%nat.
Definition addr_C : Addr := 3%nat.

Definition A_foo : Addr := 0%nat.
Definition B_foo : Addr := 1%nat.
Definition C_foo : Addr := 2%nat.
Definition C_bar : Addr := 3%nat.

Definition example_methods : Methods :=
  [ mkArtMethod "foo" "()V" addr_A 0 0 10;
    mkArtMethod "foo" "()V" addr_B kAccPublic 1 11;
    mkArtMethod "foo" "()V" addr_C kAccPublic 0 12;
    mkArtMethod "bar" "()V" addr_C kAccPublic 0 13 ].

Definition same_package (c1 c2 : Addr) : bool :=
  bool_decide (c1 = c2)
  || (bool_decide (c1 = addr_A) && bool_decide (c2 = addr_C))
  || (bool_decide (c1 = addr_C) && bool_decide (c2 = addr_A)).

(** The access check of the example, for methods that are public or
    package-private: own and public members, and the members of classes of
    the same package. *)
Definition example_access (klass access_to : Addr) (member_flags : Z) : bool :=
  bool_decide (klass = access_to)
  || negb (Z.land member_flags kAccPublic =? 0)
  || same_package klass access_to.

Definition class_root : Class :=
  mkClass false None [] [] (Some []) None [].
Definition class_A : Class :=
  mkClass false (Some 0%nat) [] [A_foo] (Some [Some A_foo]) None [].
Definition class_B : Class :=
  mkClass false (Some addr_A) [] [B_foo] (Some [Some A_foo; Some B_foo]) None [].
Definition class_C : Class :=
  mkClass false (Some addr_B) [] [C_foo; C_bar] None None [].

Definition example_classes : Classes := [class_root; class_A; class_B].

(** *** Scenario 1 of the specification

    [Base] has the virtual methods [a], [b], [c] and [foo], in the slots 0 to
    3; [Sub] declares [foo]. *)
Definition addr_Base : Addr := 1%nat.
Definition addr_Sub : Addr := 2%nat.
Definition Base_foo : Addr := 3%nat.
Definition Sub_foo : Addr := 4%nat.

Definition scenario_1_methods : Methods :=
  [ mkArtMethod "a" "()V" addr_Base kAccPublic 0 0;
    mkArtMethod "b" "()V" addr_Base kAccPublic 1 1;
    mkArtMethod "c" "()V" addr_Base kAccPublic 2 2;
    mkArtMethod "foo" "()V" addr_Base kAccPublic 3 3;
    mkArtMethod "foo" "()V" addr_Sub kAccPublic 0 4 ].

Definition class_Base : Class :=
  mkClass false (Some 0%nat) [] [0%nat; 1%nat; 2%nat; Base_foo]
    (Some [Some 0%nat; Some 1%nat; Some 2%nat; Some Base_foo]) None [].
Definition class_Sub : Class :=
  mkClass false (Some addr_Base) [] [Sub_foo] None None [].

Definition scenario_1_classes : Classes := [class_root; class_Base].

(** *** A class and an interface

    The interface [I] declares [run], [stop], [size] and [close]; the class
    [K] declares public [run], [stop] and [close] and leaves [size] to a
    miranda method. With a table of four slots, [run] (dex index 4) and
    [close] (dex index 8) meet in slot 0, and [stop] (dex index 6) has slot
    2 to itself. *)
Definition addr_I : Addr := 1%nat.
Definition addr_K : Addr := 2%nat.

Definition I_run : Addr := 0%nat.
Definition I_stop : Addr := 1%nat.
Definition I_size : Addr := 2%nat.
Definition I_close : Addr := 3%nat.
Definition K_run : Addr := 4%nat.
Definition K_stop : Addr := 5%nat.
Definition K_close : Addr := 6%nat.
Definition conflict_method : Addr := 7%nat.

Definition interface_world_methods : Methods :=
  [ mkArtMethod "run" "()V" addr_I (Z.lor kAccPublic kAccAbstract) 0 4;
    mkArtMethod "stop" "()V" addr_I (Z.lor kAccPublic kAccAbstract) 1 6;
    mkArtMethod "size" "()I" addr_I (Z.lor kAccPublic kAccAbstract) 2 7;
    mkArtMethod "close" "()V" addr_I (Z.lor kAccPublic kAccAbstract) 3 8;
    mkArtMethod "run" "()V" addr_K kAccPublic 0 20;
    mkArtMethod "stop" "()V" addr_K kAccPublic 1 21;
    mkArtMethod "close" "()V" addr_K kAccPublic 2 22;
    mkArtMethod "<conflict>" "" 0%nat 0 0 0 ].

Definition class_I : Class :=
  mkClass true None [] [I_run; I_stop; I_size; I_close] None None [].
Definition class_K : Class :=
  mkClass false (Some 0%nat) [addr_I] [K_run; K_stop; K_close] None None [].

(** [K] with the vtable [LinkVirtualMethods] gives it. *)
Definition class_K_virtual : Class :=
  SetVTable class_K [Some K_run; Some K_stop; Some K_close].

Definition interface_world_classes : Classes := [class_root; class_I].

Definition example_kImtSize : nat := 4.
Definition example_kAccMiranda : Z := 0x8000.
Definition all_conflicts : list (option Addr) :=
  replicate example_kImtSize (Some conflict_method).

End MethodTables.

(** ** More about the field layout: the bytes of the fields *)

Module FieldRanges.
Import FieldLayout.

(** Two fields the comparator puts in neither order. *)
Definition incomparable (f g : ArtField) : Prop :=
  LinkFieldsComparator f g = false ∧ LinkFieldsComparator g f = false.

(** The first byte after the field. *)
Definition field_end (f : ArtField) : Z := offset f + field_size f.

(** The bytes of the two fields do not meet. *)
Definition fields_disjoint (f g : ArtField) : Prop :=
  field_end f ≤ offset g ∨ field_end g ≤ offset f.

Definition num_references (fields : list ArtField) : Z :=
  Z.of_nat (length (filter (λ f, is_reference f = true) fields)).

(** There are 64-bit fields, no 32-bit field to put before them, and the
    references end off an 8-byte boundary. *)
Definition needs_pad_word (base : Z) (fields : list ArtField) : bool :=
  negb (bool_decide (filter (λ f, is_wide f = true) fields = []))
  && bool_decide (filter (λ f, is_narrow f = true) fields = [])
  && negb ((base + 4 * num_references fields) mod 8 =? 0).

(** The three counts of [SizeOfClass], read off the first characters. *)
Definition counts_as_reference (e : EncodedField) : Prop :=
  first_char (field_id_type e) = "L"%char ∨ first_char (field_id_type e) = "["%char.

Definition counts_as_wide (e : EncodedField) : Prop :=
  first_char (field_id_type e) = "J"%char ∨ first_char (field_id_type e) = "D"%char.

(** A class with a 64-bit field and no 32-bit field, after the root class
    of the field-layout example. *)
Definition one_long_class : Class :=
  {| descriptor := "LOne;"; status := kStatusLoaded;
     super_class := Some java_lang_Object; is_variable_size := false;
     sfields := [refField; longField];
     ifields := [refField; longField];
     class_size := 148; object_size := 0;
     num_reference_static_fields := 0; num_reference_instance_fields := 0 |}.

End FieldRanges.

(** ** More about the class table and initialization:
    [RemoveClass], [LookupClasses], [EnsureInitialized] *)

Module TableMaintenance.
Import Resolution.

Definition set_class_table (linker : ClassLinker) (table : gmap Z (list Addr))
  : ClassLinker :=
  {| class_table_ := table;
     new_class_roots_ := new_class_roots_ linker;
     log_new_class_table_roots_ := log_new_class_table_roots_ linker;
     dex_cache_image_class_lookup_required_ :=
       dex_cache_image_class_lookup_required_ linker;
     failed_dex_cache_class_lookups_ := failed_dex_cache_class_lookups_ linker;
     image_dex_caches := image_dex_caches linker |}.

(** The walk of [RemoveClass] over the entries of one hash: the range
    without the first entry that matches, if there is one. *)
Fixpoint erase_first_match (heap : Heap) (range : list Addr)
    (descriptor_ : string) (class_loader_ : option Addr) : Exec (option (list Addr)) :=
  match range with
  | [] => Done None
  | klass :: rest =>
      let! c := deref heap klass in
      if matches c descriptor_ class_loader_ then Done (Some rest)
      else
        let! erased := erase_first_match heap rest descriptor_ class_loader_ in
        Done ((klass ::.) <$> erased)
  end.

(** [class_table_.erase(it)] for an entry of the range of [hash], given
    what the range is without it. *)
Definition multimap_erase (table : gmap Z (list Addr)) (hash : Z) (range : list Addr)
  : gmap Z (list Addr) :=
  match range with
  | [] => delete hash table
  | _ :: _ => <[hash := range]> table
  end.

Definition RemoveClass (heap : Heap) (linker : ClassLinker)
    (descriptor_ : string) (class_loader_ : option Addr) : Exec (bool * ClassLinker) :=
  let hash := Hash descriptor_ in
  let! erased :=
    erase_first_match heap (equal_range (class_table_ linker) hash)
      descriptor_ class_loader_ in
  match erased with
  | Some range => Done (true, set_class_table linker
                                (multimap_erase (class_table_ linker) hash range))
  | None => Done (false, linker)
  end.



Section Initialization.
Variable kIsDebugBuild : bool.
Variable IsCompiler : bool.
Variable PrettyDescriptor : string → string.
Variable IsInstanceOf_java_lang_Error : Throwable → bool.
Variable VerifyClass : Heap → Thread → Addr → Heap * Thread.
Variable ValidateSuperClassDescriptors : Heap → Thread → Addr → bool * Thread.
Variable ReadStaticValues : Heap → Thread → Addr → Heap * Thread.
Variable Invoke_clinit : Heap → Thread → Addr → Heap * Thread.

Definition EnsureInitialized (depth : nat) (heap : Heap) (self : Thread) (c : Addr)
    (can_init_fields can_init_parents : bool) (wakeups : Addr → list Status)
  : Exec (bool * Heap * Thread) :=
  let! klass := deref heap c in
  if IsInitialized klass then Done (true, heap, self)
  else
    let! (success, heap, self) :=
      InitializeClass IsCompiler PrettyDescriptor IsInstanceOf_java_lang_Error
        VerifyClass ValidateSuperClassDescriptors ReadStaticValues Invoke_clinit
        depth heap self c can_init_fields can_init_parents wakeups in
    let! _ :=
      (if negb success && (can_init_fields && can_init_parents)
       then CHECK (IsExceptionPending self)
       else Done ()) in
    Done (success, heap, self).

End Initialization.


(** The class is initialized, or is being initialized by the thread. *)
Definition initialized_for (heap : Heap) (self : Thread) (klass : Addr) : Prop :=
  ∃ c, heap !! klass = Some c
       ∧ (status c = kStatusInitialized
          ∨ status c = kStatusInitializing ∧ clinit_thread_id c = tid self).

(** A class another thread is initializing. *)
Definition class_Y (owner : Z) : Class :=
  {| descriptor := "LY;"; class_loader := None; status := kStatusInitializing;
     clinit_thread_id := owner; verify_error_class := None; super_class := None;
     is_interface := false; has_class_initializer := true;
     num_static_fields := 0; static_values_off_ := 0;
     has_encoded_static_values := false |}.

Definition heap_Y (owner : Z) : Heap := {[ 5%N := class_Y owner ]}.

(** A loader that finds no superclass for the class. *)
Definition loading_fails (heap : Heap) (self : Thread) (klass : Addr)
  : bool * Heap * Thread :=
  (false, heap, self).

End TableMaintenance.

(** ** More about the method tables: what dispatch relies on *)

Module Dispatch.
Import MethodTables.

(** Name and signature of the method object at an address of the store. *)
Definition method_signature (methods : Methods) (m : Addr) : option (string * string) :=
  (λ am, (name am, signature am)) <$> methods !! m.

(** The interfaces of the rows of the iftable of a class, in order. *)
Definition interfaces_of (c : Class) : list (option Addr) :=
  interface <$> default [] (iftable c).

(** The interfaces a direct interface brings along: itself and the rows of
    its own iftable. *)
Definition brought_by (classes : Classes) (i : Addr) : list (option Addr) :=
  Some i :: from_option interfaces_of [] (classes !! i).

(** The store [ms] shows the methods of [methods] with nothing changed but
    the method index, and that of the methods of [locals] only. *)
Definition indices_only (methods : Methods) (locals : list Addr) (ms : Methods) : Prop :=
  length ms = length methods
  ∧ (∀ a am, methods !! a = Some am → ∃ idx, ms !! a = Some (SetMethodIndex_ idx am))
  ∧ (∀ a, a ∉ locals → ms !! a = methods !! a).

(** With every interface of the list, the list has the interfaces of that
    interface's own iftable. *)
Definition closed_under_super_interfaces (classes : Classes) (l : list (option Addr))
  : Prop :=
  ∀ i ic x, Some i ∈ l → classes !! i = Some ic → x ∈ interfaces_of ic → x ∈ l.

(** The methods declared by the interfaces of the rows of an iftable, row by
    row. *)
Definition interface_methods_of (classes : Classes) (rows : list IfTableEntry)
  : list Addr :=
  row ← rows;
  ic ← option_list (interface row ≫= (classes !!.));
  virtual_methods ic.

(** The method [m] stands in for the interface method [im]: it is in the
    vtable or among the clones, and has the name and signature of [im]. *)
Definition stands_in (vt : list (option Addr)) (st : LinkState) (m im : Addr) : Prop :=
  (Some m ∈ vt ∨ m ∈ miranda_list st)
  ∧ (m < length (methods_ st))%nat ∧ (im < length (methods_ st))%nat
  ∧ method_signature (methods_ st) m = method_signature (methods_ st) im.

(** The row has a method array with, for every method of its interface, a
    method that stands in for it. *)
Definition row_filled (classes : Classes) (vt : list (option Addr)) (st : LinkState)
    (row : IfTableEntry) : Prop :=
  ∀ i ic, interface row = Some i → classes !! i = Some ic →
    ∃ arr, (virtual_methods ic ≠ [] → method_array row = Some arr)
           ∧ (virtual_methods ic ≠ [] → length arr = length (virtual_methods ic))
           ∧ ∀ j im, virtual_methods ic !! j = Some im →
               ∃ m, arr !! j = Some (Some m) ∧ stands_in vt st m im.

(** "Flatten the interface inheritance hierarchy", on the list of the
    interfaces of the rows: an interface that is not in the list yet goes to
    its end. *)
Definition add_interface (l : list (option Addr)) (x : option Addr) : list (option Addr) :=
  if decide (x ∈ l) then l else l ++ [x].

(** A direct interface that is in the list already adds nothing; one that
    is not goes to the end, followed by the interfaces of its own iftable
    that are not in the list yet. *)
Definition add_direct_interface (classes : Classes) (l : list (option Addr)) (i : Addr)
  : list (option Addr) :=
  if decide (Some i ∈ l) then l
  else foldl add_interface (l ++ [Some i]) (from_option interfaces_of [] (classes !! i)).

(** The interfaces of the superclass, then what the direct interfaces add,
    one after the other. *)
Definition flattened_interfaces (classes : Classes) (supers : list (option Addr))
    (direct : list Addr) : list (option Addr) :=
  foldl (add_direct_interface classes) supers direct.

(** Rows with these interfaces and no method arrays yet. *)
Definition rows_of (interfaces : list (option Addr)) : list IfTableEntry :=
  (λ x, mkIfTableEntry x None) <$> interfaces.

End Dispatch.

(** ** The registry of dex files: [RegisterDexFile], [FindDexCache] *)

Module DexRegistry.
Import Resolution.

(** A [DexFile] object, as far as the registry reads it. *)
Record DexFile := mkDexFile {
  (* GetLocation() *)
  dex_location : string
}.

(** A [mirror::DexCache] object, as far as the registry reads and writes it. *)
Record DexCache := mkDexCache {
  (* GetLocation() *)
  location : string;
  (* GetDexFile(), SetDexFile() *)
  dex_file_ : option Addr
}.

Definition SetDexFile (c : DexCache) (dex_file : Addr) : DexCache :=
  {| location := location c; dex_file_ := Some dex_file |}.

(** [std::map<const DexFile*, mirror::DexCache*>]: the entries in the order
    of their keys, one entry per key. *)
Abbreviation DexCacheMap := (list (Addr * Addr)).

(** [dex_caches_.find(&dex_file)]. *)
Fixpoint map_find (m : DexCacheMap) (key : Addr) : option Addr :=
  match m with
  | [] => None
  | (k, v) :: rest => if bool_decide (k = key) then Some v else map_find rest key
  end.

(** [dex_caches_.insert(std::make_pair(key, value))]: a map that has the key
    stays as it is. *)
Fixpoint map_insert (m : DexCacheMap) (key value : Addr) : DexCacheMap :=
  match m with
  | [] => [(key, value)]
  | (k, v) :: rest =>
      if bool_decide (k = key) then m
      else if (key <? k)%N then (key, value) :: m
      else (k, v) :: map_insert rest key value
  end.

(** The dex file objects, the dex cache objects, and the linker's fields for
    them. *)
Record Registry := mkRegistry {
  dex_files : gmap Addr DexFile;
  dex_cache_objects : gmap Addr DexCache;
  dex_caches_ : DexCacheMap;
  new_dex_cache_roots_ : list Addr;
  log_new_dex_caches_roots_ : bool
}.

(** A reference to a dex file, and a pointer to a dex cache. *)
Definition deref_dex_file (r : Registry) (dex_file : Addr) : Exec DexFile :=
  match dex_files r !! dex_file with
  | Some f => Done f
  | None => Fatal
  end.

Definition deref_dex_cache (r : Registry) (dex_cache : option Addr) : Exec DexCache :=
  match dex_cache ≫= (dex_cache_objects r !!.) with
  | Some c => Done c
  | None => Fatal
  end.

Definition IsDexFileRegisteredLocked (r : Registry) (dex_file : Addr) : bool :=
  bool_decide (is_Some (map_find (dex_caches_ r) dex_file)).

Definition IsDexFileRegistered (r : Registry) (dex_file : Addr) : bool :=
  IsDexFileRegisteredLocked r dex_file.

Definition RegisterDexFileLocked (r : Registry) (dex_file : Addr) (dex_cache : option Addr)
  : Exec Registry :=
  match dex_cache with
  | None => Fatal  (* CHECK(dex_cache.get() != NULL) *)
  | Some cache =>
      let! f := deref_dex_file r dex_file in
      let! c := deref_dex_cache r dex_cache in
      let! _ := CHECK (bool_decide (location c = dex_location f)) in
      Done {| dex_files := dex_files r;
              dex_cache_objects := <[cache := SetDexFile c dex_file]> (dex_cache_objects r);
              dex_caches_ := map_insert (dex_caches_ r) dex_file cache;
              new_dex_cache_roots_ :=
                if log_new_dex_caches_roots_ r
                then new_dex_cache_roots_ r ++ [dex_file]
                else new_dex_cache_roots_ r;
              log_new_dex_caches_roots_ := log_new_dex_caches_roots_ r |}
  end.

(** [RegisterDexFile(dex_file, dex_cache)]. *)
Definition RegisterDexFile_with (r : Registry) (dex_file : Addr) (dex_cache : option Addr)
  : Exec Registry :=
  RegisterDexFileLocked r dex_file dex_cache.

Section Registry.
(** [AllocDexCache] allocates; it answers null when the heap is full. *)
Variable AllocDexCache : Registry → Addr → option Addr * Registry.

(** [RegisterDexFile(dex_file)]. *)
Definition RegisterDexFile (r : Registry) (dex_file : Addr) : Exec Registry :=
  if IsDexFileRegisteredLocked r dex_file then Done r
  else
    let '(dex_cache, r) := AllocDexCache r dex_file in
    let! _ := CHECK (bool_decide (is_Some dex_cache)) in
    if IsDexFileRegisteredLocked r dex_file then Done r
    else RegisterDexFileLocked r dex_file dex_cache.

End Registry.

(** "Search matching by location name": the loop over the map. *)
Fixpoint find_by_location (r : Registry) (entries : DexCacheMap) (location_ : string)
  : Exec (option Addr) :=
  match entries with
  | [] => Done None
  | (_, cache) :: rest =>
      let! c := deref_dex_cache r (Some cache) in
      let! f := (match dex_file_ c with
                 | Some f => deref_dex_file r f
                 | None => Fatal
                 end) in
      if bool_decide (dex_location f = location_) then Done (Some cache)
      else find_by_location r rest location_
  end.

Definition FindDexCache (r : Registry) (dex_file : Addr) : Exec Addr :=
  (* Search assuming unique-ness of dex file. *)
  match map_find (dex_caches_ r) dex_file with
  | Some cache => Done cache
  | None =>
      (* Search matching by location name. *)
      let! f := deref_dex_file r dex_file in
      let! found := find_by_location r (dex_caches_ r) (dex_location f) in
      match found with
      | Some cache => Done cache
      | None => Fatal  (* LOG(FATAL) << "Failed to find DexCache for DexFile " *)
      end
  end.

(** *** What the theorems speak of *)

(** The keys of the map are in ascending order. *)
Definition keys_ascending (m : DexCacheMap) : Prop :=
  StronglySorted N.lt (fst <$> m).

(** Every registered cache is an object whose dex file is an object. *)
Definition caches_valid (r : Registry) : Prop :=
  ∀ k cache, (k, cache) ∈ dex_caches_ r →
    ∃ c f file, dex_cache_objects r !! cache = Some c ∧ dex_file_ c = Some f
                ∧ dex_files r !! f = Some file.

(** The cache is registered and the file it points to has the location. *)
Definition registered_at (r : Registry) (location_ : string) (cache : Addr) : Prop :=
  ∃ k c f file, (k, cache) ∈ dex_caches_ r
                ∧ dex_cache_objects r !! cache = Some c ∧ dex_file_ c = Some f
                ∧ dex_files r !! f = Some file ∧ dex_location file = location_.

(** *** A small registry *)

Definition core_jar : DexFile := {| dex_location := "/system/framework/core.jar" |}.
Definition app_apk : DexFile := {| dex_location := "/data/app/app.apk" |}.

(** Two dex file objects for [core.jar], at 10 and 12, and one for the
    application, at 11; a fresh cache for each of the first two. *)
Definition small_registry : Registry :=
  {| dex_files := {[ 10%N := core_jar; 11%N := app_apk; 12%N := core_jar ]};
     dex_cache_objects :=
       {[ 20%N := {| location := "/system/framework/core.jar"; dex_file_ := None |};
          21%N := {| location := "/data/app/app.apk"; dex_file_ := None |} ]};
     dex_caches_ := [];
     new_dex_cache_roots_ := [];
     log_new_dex_caches_roots_ := false |}.

(** The registry after [core.jar] at 10 has been registered with the cache
    at 20. *)
Definition core_registered : Registry :=
  {| dex_files := {[ 10%N := core_jar; 11%N := app_apk; 12%N := core_jar ]};
     dex_cache_objects :=
       {[ 20%N := {| location := "/system/framework/core.jar"; dex_file_ := Some 10%N |};
          21%N := {| location := "/data/app/app.apk"; dex_file_ := None |} ]};
     dex_caches_ := [(10%N, 20%N)];
     new_dex_cache_roots_ := [];
     log_new_dex_caches_roots_ := false |}.

(** An allocator that is out of memory. *)
Definition alloc_fails (r : Registry) (dex_file : Addr) : option Addr * Registry :=
  (None, r).

End DexRegistry.

(** ** [ResolveType]: the resolved types of a dex cache *)

Module TypeResolution.
Import Resolution.

(** [dex_cache->GetResolvedType(type_idx)], [SetResolvedType] and
    [dex_file.StringByTypeIdx(type_idx)]; an index out of range ends the
    process. *)
Definition GetResolvedType (dex_cache : DexCache) (type_idx : nat) : Exec (option Addr) :=
  match resolved_types dex_cache !! type_idx with
  | Some resolved => Done resolved
  | None => Fatal
  end.

Definition SetResolvedType (dex_cache : DexCache) (type_idx : nat) (resolved : Addr)
  : DexCache :=
  {| type_ids := type_ids dex_cache;
     resolved_types := <[type_idx := Some resolved]> (resolved_types dex_cache) |}.

Definition StringByTypeIdx (dex_cache : DexCache) (type_idx : nat) : Exec string :=
  match type_ids dex_cache !! type_idx with
  | Some descriptor_ => Done descriptor_
  | None => Fatal
  end.

(** [self->GetException(NULL)->SetCause(cause)]. *)
Definition SetCause (self : Thread) (cause_ : Throwable) : Thread :=
  SetException self
    ((λ e, {| exception_class := exception_class e;
              detail_message := detail_message e;
              cause := Some cause_ |}) <$> exception_ self).

Section ResolveType.
Variable kIsDebugBuild : bool.
(** [FindClass(self, descriptor, class_loader)], and
    [cause->InstanceOf(GetClassRoot(kJavaLangClassNotFoundException))]. *)
Variable FindClass : Heap → Thread → string → option Addr → option Addr * Heap * Thread.
Variable IsInstanceOf_ClassNotFoundException : Throwable → bool.

Definition ResolveType (dex_cache : DexCache) (type_idx : nat) (class_loader : option Addr)
    (heap : Heap) (self : Thread) : Exec (option Addr * DexCache * Heap * Thread) :=
  let! resolved := GetResolvedType dex_cache type_idx in
  let! (resolved, dex_cache, heap, self) :=
    (match resolved with
     | Some resolved => Done (Some resolved, dex_cache, heap, self)
     | None =>
         let! descriptor_ := StringByTypeIdx dex_cache type_idx in
         let '(resolved, heap, self) := FindClass heap self descriptor_ class_loader in
         match resolved with
         | Some resolved =>
             Done (Some resolved, SetResolvedType dex_cache type_idx resolved, heap, self)
         | None =>
             let! _ := CHECK (IsExceptionPending self) in
             (* Convert a ClassNotFoundException to a NoClassDefFoundError. *)
             match exception_ self with
             | Some cause_ =>
                 if IsInstanceOf_ClassNotFoundException cause_ then
                   let self := SetException self None in
                   let! self :=
                     ThrowNoClassDefFoundError self
                       ("Failed resolution of: " +:+ descriptor_) in
                   Done (None, dex_cache, heap, SetCause self cause_)
                 else Done (None, dex_cache, heap, self)
             | None => Fatal
             end
         end
     end) in
  let! _ :=
    (if kIsDebugBuild then
       match resolved with
       | Some resolved =>
           let! c := deref heap resolved in
           CHECK (IsResolved c || IsErroneous c)
       | None => Done ()
       end
     else Done ()) in
  Done (resolved, dex_cache, heap, self).

End ResolveType.

(** *** What the theorems speak of *)

(** The class is resolved or erroneous: what the debug build asks of a
    resolved type. *)
Definition settled (heap : Heap) (klass : Addr) : Prop :=
  ∃ c, heap !! klass = Some c ∧ (IsResolved c || IsErroneous c) = true.

(** *** A dex cache with two type ids, none of them resolved yet *)
Definition cold_cache : DexCache :=
  {| type_ids := ["LX;"%string; "LMissing;"%string]; resolved_types := [None; None] |}.

(** A [FindClass] that knows [LX;] at address 1 and nothing else. *)
Definition finds_X (heap : Heap) (self : Thread) (descriptor_ : string)
    (class_loader_ : option Addr) : option Addr * Heap * Thread :=
  if bool_decide (descriptor_ = "LX;"%string) then (Some 1%N, heap, self)
  else (None, heap,
        SetException self
          (Some {| exception_class := "Ljava/lang/ClassNotFoundException;";
                   detail_message := Some descriptor_; cause := None |})).

Definition is_class_not_found (e : Throwable) : bool :=
  bool_decide (exception_class e = "Ljava/lang/ClassNotFoundException;"%string).

End TypeResolution.

(** ** [VerifyClass] *)

Module Verification.
Import Resolution TypeResolution.

(** The verdict of the bytecode verifier. *)
Inductive FailureKind := kNoFailure | kSoftFailure | kHardFailure.

Global Instance FailureKind_eq_dec : EqDecision FailureKind.
Proof. solve_decision. Defined.

(** What [VerifyClass] does to objects outside the class objects. *)
Inductive Event :=
| ClassRejected (klass : Addr)
| SetPreverifiedFlagOnAllMethods (klass : Addr).

(** Modelled from the spec: [Class::IsCompileTimeVerified] of mirror/class.h
    is not among the sources; it is the status "Verified[RetryAtRuntime]" or
    better. *)
Definition IsCompileTimeVerified (c : Class) : bool :=
  status_value kStatusRetryVerificationAtRuntime <=? status_value (status c).

(** Modelled from the spec: [ThrowVerifyError] of common_throws.cc is not
    among the sources; it "throws [VerifyError]" with the message. *)
Definition ThrowVerifyError (self : Thread) (msg : string) : Exec Thread :=
  ThrowNewException self "Ljava/lang/VerifyError;" msg.

(** [klass->SetStatus(new_status, self)] on the class object as the heap has
    it now. *)
Definition set_status (heap : Heap) (klass : Addr) (new_status : Status) : Exec Heap :=
  let! c := deref heap klass in
  Done (store heap klass (SetStatus c new_status)).

Section VerifyClass.
Variable IsCompiler : bool.
Variable IsVerificationEnabled : bool.
Variable PrettyDescriptor : string → string.
(** The verification status recorded in the oat file, the bytecode
    verifier, and the resolution of the types of the catch blocks. *)
Variable VerifyClassUsingOatFile : Heap → Addr → bool * Status.
Variable MethodVerifier_VerifyClass : Heap → Addr → bool → FailureKind * string.
Variable ResolveClassExceptionHandlerTypes : Heap → Thread → Addr → Heap * Thread.

(** [depth] bounds the recursion into the superclasses; [log] collects the
    events. *)
Fixpoint VerifyClass (depth : nat) (heap : Heap) (self : Thread) (klass : Addr)
    (log : list Event) : Exec (Heap * Thread * list Event) :=
  match depth with
  | O => Stuck
  | S depth' =>
  let! c := deref heap klass in
  (* Don't attempt to re-verify if already sufficiently verified. *)
  if IsVerified c || (IsCompileTimeVerified c && IsCompiler) then Done (heap, self, log)
  else
  (* The class might already be erroneous. *)
  if IsErroneous c then
    let! self := ThrowEarlierClassFailure PrettyDescriptor heap self klass in
    Done (heap, self, log)
  else
  let! heap :=
    (if bool_decide (status c = kStatusResolved)
     then set_status heap klass kStatusVerifying
     else
       let! _ := CHECK (bool_decide (status c = kStatusRetryVerificationAtRuntime)) in
       let! _ := CHECK (negb IsCompiler) in
       set_status heap klass kStatusVerifyingAtRuntime) in
  (* Skip verification if disabled. *)
  if negb IsVerificationEnabled then
    let! heap := set_status heap klass kStatusVerified in
    Done (heap, self, log)
  else
  (* Verify super class. *)
  let! c := deref heap klass in
  let super := super_class c in
  let! checked :=
    (match super with
     | Some super =>
         let! super_c := deref heap super in
         let! (heap, self, log) :=
           (if negb (IsVerified super_c) && negb (IsErroneous super_c)
            then VerifyClass depth' heap self super log
            else Done (heap, self, log)) in
         let! super_c := deref heap super in
         if negb (IsCompileTimeVerified super_c) then
           let! c := deref heap klass in
           let error_msg :=
             "Rejecting class " +:+ PrettyDescriptor (descriptor c)
               +:+ " that attempts to sub-class erroneous class "
               +:+ PrettyDescriptor (descriptor super_c) in
           let cause_ := exception_ self in
           let self := match cause_ with
                       | Some _ => SetException self None
                       | None => self
                       end in
           let! self := ThrowVerifyError self error_msg in
           let self := match cause_ with
                       | Some cause_ => SetCause self cause_
                       | None => self
                       end in
           let log := if IsCompiler then log ++ [ClassRejected klass] else log in
           let! heap := set_status heap klass kStatusError in
           Done (inl (heap, self, log))
         else Done (inr (heap, self, log))
     | None => Done (inr (heap, self, log))
     end) in
  match checked with
  | inl (heap, self, log) => Done (heap, self, log)
  | inr (heap, self, log) =>
  (* Try to use verification information from the oat file, otherwise do
     runtime verification. *)
  let '(preverified, oat_file_class_status) := VerifyClassUsingOatFile heap klass in
  if bool_decide (oat_file_class_status = kStatusError) then
    let! c := deref heap klass in
    let! self :=
      ThrowVerifyError self
        ("Rejecting class " +:+ PrettyDescriptor (descriptor c)
           +:+ " because it failed compile-time verification") in
    let! heap := set_status heap klass kStatusError in
    Done (heap, self, log)
  else
  let '(verifier_failure, error_msg) :=
    (if negb preverified then MethodVerifier_VerifyClass heap klass IsCompiler
     else (kNoFailure, EmptyString)) in
  let! (heap, self, verifier_failure) :=
    (if preverified || negb (bool_decide (verifier_failure = kHardFailure)) then
       let! _ := AssertNoPendingException self in
       (* Make sure all classes referenced by catch blocks are resolved. *)
       let '(heap, self) := ResolveClassExceptionHandlerTypes heap self klass in
       if bool_decide (verifier_failure = kNoFailure) then
         (* Even though there were no verifier failures we need to respect
            whether the super-class was verified or requiring runtime
            reverification. *)
         let! super_verified :=
           (match super with
            | Some super =>
                let! super_c := deref heap super in
                if IsVerified super_c then Done true
                else
                  let! _ :=
                    CHECK (bool_decide
                             (status super_c = kStatusRetryVerificationAtRuntime)) in
                  Done false
            | None => Done true
            end) in
         if (super_verified : bool) then
           let! heap := set_status heap klass kStatusVerified in
           Done (heap, self, verifier_failure)
         else
           let! heap := set_status heap klass kStatusRetryVerificationAtRuntime in
           (* Pretend a soft failure occured so that we don't consider the
              class verified below. *)
           Done (heap, self, kSoftFailure)
       else
         let! _ := CHECK (bool_decide (verifier_failure = kSoftFailure)) in
         (* Soft failures at compile time should be retried at runtime. *)
         let! heap :=
           set_status heap klass
             (if IsCompiler then kStatusRetryVerificationAtRuntime
              else kStatusVerified) in
         Done (heap, self, verifier_failure)
     else
       let! _ := AssertNoPendingException self in
       let! self := ThrowVerifyError self error_msg in
       let! heap := set_status heap klass kStatusError in
       Done (heap, self, verifier_failure)) in
  let log :=
    if preverified || bool_decide (verifier_failure = kNoFailure)
    then log ++ [SetPreverifiedFlagOnAllMethods klass]
    else log in
  Done (heap, self, log)
  end
  end.

End VerifyClass.

(** *** What the theorems speak of *)

(** The collaborator leaves every class object in the status it had. *)
Definition keeps_statuses (f : Heap → Thread → Addr → Heap * Thread) : Prop :=
  ∀ heap self klass a c, heap !! a = Some c →
    ∃ c', (f heap self klass).1 !! a = Some c' ∧ status c' = status c.

(** What [InitializeClass] expects of the class after [VerifyClass], when it
    is not the compiler that runs: verified, or erroneous with the exception
    pending. *)
Definition verified_or_failed (heap : Heap) (self : Thread) (klass : Addr) : Prop :=
  ∃ c, heap !! klass = Some c
       ∧ (IsVerified c = true
          ∨ status c = kStatusError ∧ IsExceptionPending self = true).



Definition oat_knows_nothing (heap : Heap) (klass : Addr) : bool * Status :=
  (false, kStatusNotReady).
Definition verifier_passes (heap : Heap) (klass : Addr) (allow_soft_failures : bool)
  : FailureKind * string :=
  (kNoFailure, EmptyString).

End Verification.

(*#DEFINITIONS-END#*)

(** * Proofs *)

(** ** Order of strings *)

Lemma ascii_compare_lt_trans (a b c : ascii) :
  Ascii.compare a b = Lt → Ascii.compare b c = Lt → Ascii.compare a c = Lt.
Proof.
  unfold Ascii.compare. rewrite !N.compare_lt_iff. apply N.lt_trans.
Qed.

Lemma string_compare_lt_trans (s1 s2 s3 : string) :
  String.compare s1 s2 = Lt → String.compare s2 s3 = Lt → String.compare s1 s3 = Lt.
Proof.
  revert s2 s3. induction s1 as [|c1 s1 IH]; intros [|c2 s2] [|c3 s3]; simpl; try done.
  destruct (Ascii.compare c1 c2) eqn:E12; try done.
  - apply Ascii.compare_eq_iff in E12 as ->.
    destruct (Ascii.compare c2 c3); try done. apply IH.
  - destruct (Ascii.compare c2 c3) eqn:E23; try done.
    + apply Ascii.compare_eq_iff in E23 as <-. by rewrite E12.
    + by rewrite (ascii_compare_lt_trans _ _ _ E12 E23).
Qed.

Lemma strcmp_lt_iff s1 s2 : (strcmp s1 s2 <? 0) = true ↔ String.compare s1 s2 = Lt.
Proof. unfold strcmp. destruct (String.compare s1 s2); simpl; split; done. Qed.

Lemma strcmp_flip s1 s2 :
  (strcmp s1 s2 <? 0) = false → (strcmp s2 s1 <? 0) = false → s1 = s2.
Proof.
  unfold strcmp. rewrite (String.compare_antisym s2 s1).
  destruct (String.compare s1 s2) eqn:E; simpl; try done.
  intros _ _. by apply String.compare_eq_iff.
Qed.



Lemma strcmp_asym s1 s2 : (strcmp s1 s2 <? 0) = true → (strcmp s2 s1 <? 0) = false.
Proof.
  unfold strcmp. rewrite (String.compare_antisym s2 s1).
  destruct (String.compare s1 s2); simpl; done.
Qed.

Lemma strcmp_ge_trans s1 s2 s3 :
  (strcmp s2 s1 <? 0) = false → (strcmp s3 s2 <? 0) = false → (strcmp s3 s1 <? 0) = false.
Proof.
  intros H12 H23. destruct (strcmp s3 s1 <? 0) eqn:E31; [|done].
  apply strcmp_lt_iff in E31.
  destruct (String.compare s1 s2) eqn:E12.
  - apply String.compare_eq_iff in E12 as ->.
    apply strcmp_lt_iff in E31. congruence.
  - pose proof (string_compare_lt_trans _ _ _ E31 E12) as H.
    apply strcmp_lt_iff in H. congruence.
  - rewrite String.compare_antisym in E12.
    destruct (String.compare s2 s1) eqn:E21; try done.
    apply strcmp_lt_iff in E21. congruence.
Qed.

(** ** Field layout *)

Module FieldLayoutProofs.
Import FieldLayout.

Lemma field_order_range t : field_order t = 0 ∨ field_order t = 1 ∨ field_order t = 2.
Proof. destruct t; vm_compute; auto. Qed.

Lemma is_reference_order f : is_reference f = true ↔ order_of f = 0.
Proof.
  unfold is_reference, order_of. destruct (GetTypeAsPrimitiveType f); vm_compute; split; done.
Qed.

Lemma is_wide_order f : is_wide f = true ↔ order_of f = 1.
Proof.
  unfold is_wide, is_reference, order_of.
  destruct (GetTypeAsPrimitiveType f); vm_compute; split; done.
Qed.

Lemma is_narrow_order f : is_narrow f = true ↔ order_of f = 2.
Proof.
  unfold is_narrow, is_reference, order_of.
  destruct (GetTypeAsPrimitiveType f); vm_compute; split; done.
Qed.

(** The comparator is the lexicographic order on (bucket, name). *)
Lemma comp_le_iff f g :
  comp_le f g ↔ order_of f < order_of g ∨ (order_of f = order_of g ∧ name_le f g).
Proof.
  unfold comp_le, LinkFieldsComparator, name_le, order_of.
  destruct (decide (GetTypeAsPrimitiveType g = GetTypeAsPrimitiveType f)) as [E|NE].
  - rewrite E, bool_decide_eq_true_2 by done. simpl. split; [auto|].
    intros [?|[_ ?]]; [lia|done].
  - rewrite bool_decide_eq_false_2 by done. simpl.
    destruct (Z.eqb_spec (field_order (GetTypeAsPrimitiveType g))
                (field_order (GetTypeAsPrimitiveType f))) as [E|NEo]; simpl.
    + rewrite E. split; [auto|]. intros [?|[_ ?]]; [lia|done].
    + rewrite Z.ltb_ge. split; [intros; left; lia|]. intros [?|[? _]]; lia.
Qed.

Global Instance comp_le_trans : Transitive comp_le.
Proof.
  intros f g h. rewrite !comp_le_iff. unfold name_le.
  intros [?|[? Hfg]] [?|[? Hgh]]; try (left; lia).
  right. split; [lia|]. eapply strcmp_ge_trans; eauto.
Qed.

Global Instance comp_le_total : Total comp_le.
Proof.
  intros f g. rewrite !comp_le_iff. unfold name_le.
  destruct (Z.lt_trichotomy (order_of f) (order_of g)) as [?|[E|?]]; [auto| |auto].
  destruct (strcmp (field_name g) (field_name f) <? 0) eqn:Hgf.
  - right. right. split; [done|]. by apply strcmp_asym.
  - left. right. done.
Qed.

(** Two fields the comparator cannot tell apart share bucket and name. *)
Lemma comp_le_antisym_key f g : comp_le f g → comp_le g f → sort_key f = sort_key g.
Proof.
  rewrite !comp_le_iff. unfold name_le, sort_key. fold (order_of f) (order_of g).
  intros [?|[E Hfg]] [?|[E' Hgf]]; try (exfalso; lia).
  rewrite E. f_equal. by apply strcmp_flip.
Qed.

Lemma merge_sort_fields_contract : std_sort_contract merge_sort_fields.
Proof.
  intros l. split.
  - apply merge_sort_Permutation.
  - apply Sorted_merge_sort, _.
Qed.

(** *** A sorted deque is the three buckets in a row *)

Lemma filter_none {A} (P : A → Prop) `{∀ x, Decision (P x)} (l : list A) :
  Forall (λ x, ¬ P x) l → filter P l = [].
Proof.
  induction 1 as [|x l Hx _ IH]; [done|].
  by rewrite filter_cons, decide_False.
Qed.

Lemma Forall_filter_self {A} (P : A → Prop) `{∀ x, Decision (P x)} (l : list A) :
  Forall P (filter P l).
Proof.
  induction l as [|x l IH]; [constructor|].
  rewrite filter_cons. destruct (decide (P x)); [by constructor|done].
Qed.

Lemma filter_all {A} (P : A → Prop) `{∀ x, Decision (P x)} (l : list A) :
  Forall P l → filter P l = l.
Proof.
  induction 1 as [|x l Hx _ IH]; [done|].
  by rewrite filter_cons, decide_True, IH.
Qed.

Lemma sorted_buckets l :
  Sorted comp_le l →
  l = filter (λ f, is_reference f = true) l
        ++ filter (λ f, is_wide f = true) l
        ++ filter (λ f, is_narrow f = true) l.
Proof.
  intros Hs. apply (Sorted_StronglySorted _) in Hs.
  induction Hs as [|x l Hs IH Hall]; [done|].
  assert (Hge : Forall (λ y, order_of x ≤ order_of y) l).
  { eapply Forall_impl; [exact Hall|]. intros y. rewrite comp_le_iff. lia. }
  rewrite !filter_cons.
  destruct (field_order_range (GetTypeAsPrimitiveType x)) as [E|[E|E]];
    fold (order_of x) in E.
  - rewrite decide_True by (by apply is_reference_order).
    rewrite decide_False by (rewrite is_wide_order; lia).
    rewrite decide_False by (rewrite is_narrow_order; lia).
    simpl. by rewrite <- IH.
  - rewrite decide_False by (rewrite is_reference_order; lia).
    rewrite decide_True by (by apply is_wide_order).
    rewrite decide_False by (rewrite is_narrow_order; lia).
    assert (filter (λ f, is_reference f = true) l = []) as Hnil.
    { apply filter_none. eapply Forall_impl; [exact Hge|].
      intros y Hy. cbv beta in Hy. rewrite is_reference_order. lia. }
    rewrite Hnil in *. simpl in *. by rewrite <- IH.
  - rewrite decide_False by (rewrite is_reference_order; lia).
    rewrite decide_False by (rewrite is_wide_order; lia).
    rewrite decide_True by (by apply is_narrow_order).
    assert (filter (λ f, is_reference f = true) l = []) as Hnil.
    { apply filter_none. eapply Forall_impl; [exact Hge|].
      intros y Hy. cbv beta in Hy. rewrite is_reference_order. lia. }
    assert (filter (λ f, is_wide f = true) l = []) as Hnil'.
    { apply filter_none. eapply Forall_impl; [exact Hge|].
      intros y Hy. cbv beta in Hy. rewrite is_wide_order. lia. }
    rewrite Hnil, Hnil' in *. simpl in *. by rewrite <- IH.
Qed.

(** *** The three loops on a bucketed deque *)

Lemma wrap32_idemp x : wrap32 (wrap32 x) = wrap32 x.
Proof. unfold wrap32. by rewrite Z.mod_mod. Qed.

Lemma wrap32_add_l x y : wrap32 (wrap32 x + y) = wrap32 (x + y).
Proof. unfold wrap32. by rewrite Zplus_mod_idemp_l. Qed.

Lemma wrap32_congr_add x y d : wrap32 x = wrap32 y → wrap32 (x + d) = wrap32 (y + d).
Proof. intros H. by rewrite <- (wrap32_add_l x), H, wrap32_add_l. Qed.

Lemma wrap32_mod8 x : wrap32 x mod 8 = x mod 8.
Proof.
  unfold wrap32. apply Z.mod_mod_divide. exists 536870912. lia.
Qed.

Ltac unwrap32 :=
  repeat (rewrite wrap32_add_l || rewrite <- Z.add_assoc); f_equal; lia.

Lemma SetOffset_congr f x y : wrap32 x = wrap32 y → SetOffset f x = SetOffset f y.
Proof. intros H. unfold SetOffset, Uint32Value. by rewrite H. Qed.

Lemma total_size_app l1 l2 : total_size (l1 ++ l2) = total_size l1 + total_size l2.
Proof. induction l1 as [|f l1 IH]; simpl; [done|]. rewrite IH. lia. Qed.

Lemma field_size_reference f : is_reference f = true → field_size f = 4.
Proof.
  unfold is_reference, field_size. intros H%bool_decide_eq_true. by rewrite H.
Qed.

Lemma field_size_wide f : is_wide f = true → field_size f = 8.
Proof.
  unfold is_wide, field_size. intros [_ H]%andb_true_iff. by rewrite H.
Qed.

Lemma field_size_narrow f : is_narrow f = true → field_size f = 4.
Proof.
  unfold is_narrow, field_size. intros [_ H%negb_true_iff]%andb_true_iff. by rewrite H.
Qed.

Lemma total_size_const (P : ArtField → bool) n l :
  (∀ f, P f = true → field_size f = n) →
  Forall (λ f, P f = true) l → total_size l = n * Z.of_nat (length l).
Proof.
  intros HP. induction 1 as [|f l Hf _ IH]; simpl; [lia|].
  rewrite IH, (HP f Hf). lia.
Qed.

Lemma assign_offsets_app off l1 l2 :
  assign_offsets off (l1 ++ l2)
  = assign_offsets off l1 ++ assign_offsets (off + total_size l1) l2.
Proof.
  revert off. induction l1 as [|f l1 IH]; intros off; simpl.
  - by rewrite Z.add_0_r.
  - rewrite IH. do 3 f_equal. lia.
Qed.

Lemma assign_offsets_length off l : length (assign_offsets off l) = length l.
Proof. revert off. induction l; intros; simpl; auto. Qed.

Lemma assign_offsets_congr l x y :
  wrap32 x = wrap32 y → assign_offsets x l = assign_offsets y l.
Proof.
  revert x y. induction l as [|f l IH]; intros x y H; simpl; [done|].
  rewrite (SetOffset_congr f x y H). f_equal. apply IH. by apply wrap32_congr_add.
Qed.

Lemma link_reference_fields_spec refs rest off off0 :
  Forall (λ f, is_reference f = true) refs →
  starts_primitive rest →
  wrap32 off = wrap32 off0 →
  ∃ off', link_reference_fields (refs ++ rest) off = (assign_offsets off0 refs, rest, off')
          ∧ wrap32 off' = wrap32 (off0 + 4 * Z.of_nat (length refs)).
Proof.
  intros Hrefs Hrest. revert off off0.
  induction Hrefs as [|f refs Hf _ IH]; intros off off0 Hoff.
  - exists off. simpl. rewrite Z.add_0_r. split; [|done].
    destruct rest as [|g rest]; [done|]. simpl in *.
    unfold is_reference in Hrest. by rewrite Hrest.
  - simpl. fold (is_reference f). rewrite Hf. simpl.
    destruct (IH (Uint32Value off + 4) (off0 + 4)) as (off' & -> & Hoff').
    { unfold Uint32Value. rewrite wrap32_add_l. by apply wrap32_congr_add. }
    exists off'. rewrite (field_size_reference f Hf), (SetOffset_congr f off off0 Hoff).
    split; [done|]. rewrite Hoff'. f_equal. lia.
Qed.

Lemma take_padding_field_spec w64 w32 :
  Forall (λ f, is_wide f = true) w64 →
  Forall (λ f, is_narrow f = true) w32 →
  take_padding_field (w64 ++ w32)
  = Some (match w32 with
          | [] => None
          | pad :: w32' => Some (pad, w64 ++ w32')
          end).
Proof.
  intros H64 H32. induction H64 as [|f w64 Hf _ IH]; simpl.
  - destruct H32 as [|g w32 Hg _]; [done|]. simpl.
    unfold is_narrow, is_reference in Hg.
    apply andb_true_iff in Hg as [Hr%negb_true_iff Hw%negb_true_iff].
    by rewrite Hr, Hw.
  - unfold is_wide, is_reference in Hf.
    apply andb_true_iff in Hf as [Hr%negb_true_iff Hw].
    rewrite Hr, Hw, IH. by destruct w32.
Qed.

Lemma link_remaining_fields_spec l off off0 :
  Forall (λ f, is_reference f = false) l →
  wrap32 off = wrap32 off0 →
  ∃ off', link_remaining_fields l off = Some (assign_offsets off0 l, off')
          ∧ wrap32 off' = wrap32 (off0 + total_size l).
Proof.
  intros Hl. revert off off0. induction Hl as [|f l Hf _ IH]; intros off off0 Hoff.
  - exists off. simpl. by rewrite Z.add_0_r.
  - simpl. unfold is_reference in Hf. rewrite Hf.
    destruct (IH (Uint32Value off + field_size f) (off0 + field_size f)) as (off' & E & Hoff').
    { unfold Uint32Value. rewrite wrap32_add_l. by apply wrap32_congr_add. }
    unfold field_size in E at 1. rewrite E.
    exists off'. rewrite (SetOffset_congr f off off0 Hoff). split; [done|].
    rewrite Hoff'. f_equal. lia.
Qed.

Lemma wide_not_reference f : is_wide f = true → is_reference f = false.
Proof. unfold is_wide. intros [H _]%andb_true_iff. by apply negb_true_iff. Qed.

Lemma narrow_not_reference f : is_narrow f = true → is_reference f = false.
Proof. unfold is_narrow. intros [H _]%andb_true_iff. by apply negb_true_iff. Qed.

Section LinkFields_run.
Variable FieldsOffset : Z.
Variable sort : list ArtField → list ArtField.
Hypothesis sort_ok : std_sort_contract sort.

(** [LinkFields] is the layout of the specification applied to the buckets
    of the sorted deque, between the entry [CHECK] and the update. *)
Lemma LinkFields_run klass is_static :
  let sorted := sort (fields_of klass is_static) in
  let refs := filter (λ f, is_reference f = true) sorted in
  let w64 := filter (λ f, is_wide f = true) sorted in
  let w32 := filter (λ f, is_narrow f = true) sorted in
  let base := base_offset FieldsOffset klass is_static in
  LinkFields FieldsOffset sort klass is_static
  = (_ ← initial_field_offset FieldsOffset klass is_static;
     n ← lie_about_referent klass is_static (spec_layout base refs w64 w32).1
           (Z.of_nat (length refs));
     update_klass klass is_static (spec_layout base refs w64 w32).1 n
       (wrap32 (spec_layout base refs w64 w32).2)).
Proof.
  intros sorted refs w64 w32 base.
  assert (Hrefs : Forall (λ f, is_reference f = true) refs) by apply Forall_filter_self.
  assert (H64 : Forall (λ f, is_wide f = true) w64) by apply Forall_filter_self.
  assert (H32 : Forall (λ f, is_narrow f = true) w32) by apply Forall_filter_self.
  assert (Hprim : Forall (λ f, is_reference f = false) (w64 ++ w32)).
  { apply Forall_app. split; (eapply Forall_impl; [eassumption|]);
      auto using wide_not_reference, narrow_not_reference. }
  assert (Hsorted : sorted = refs ++ w64 ++ w32).
  { apply sorted_buckets, sort_ok. }
  unfold LinkFields. fold (fields_of klass is_static). fold sorted.
  assert (Hinit : initial_field_offset FieldsOffset klass is_static = None
                  ∨ initial_field_offset FieldsOffset klass is_static = Some base).
  { unfold base, initial_field_offset, base_offset.
    destruct is_static; [auto|]. destruct (super_class klass) as [super|]; [|auto].
    destruct (IsResolved super); auto. }
  destruct Hinit as [->| ->]; [done|]. simpl.
  rewrite Hsorted.
  destruct (link_reference_fields_spec refs (w64 ++ w32) base base Hrefs) as (off1 & -> & Hoff1).
  { unfold starts_primitive. destruct (w64 ++ w32) eqn:E; [done|].
    by apply Forall_inv in Hprim. }
  { done. }
  rewrite assign_offsets_length.
  unfold IsAligned, Uint32Value. rewrite wrap32_mod8.
  assert (Hmod : off1 mod 8 = (base + 4 * Z.of_nat (length refs)) mod 8).
  { by rewrite <- (wrap32_mod8 off1), Hoff1, wrap32_mod8. }
  rewrite Hmod. unfold spec_layout.
  set (off := base + 4 * Z.of_nat (length refs)) in *.
  destruct (negb (bool_decide (w64 ++ w32 = [])) && negb (off mod 8 =? 0)) eqn:Hpad.
  - rewrite (take_padding_field_spec w64 w32 H64 H32).
    destruct w32 as [|pad w32'].
    + rewrite app_nil_r in *.
      destruct (link_remaining_fields_spec w64 (wrap32 off1 + 4) (off + 4)) as (off2 & E & Hoff2).
      { done. } { rewrite wrap32_add_l. by apply wrap32_congr_add. }
      simpl. rewrite E. simpl. unfold Uint32Value. rewrite Hoff2.
      rewrite (total_size_const is_wide 8 w64 field_size_wide H64).
      by rewrite ?Z.add_assoc.
    + apply Forall_inv_tail in H32 as H32'.
      assert (Hprim' : Forall (λ f, is_reference f = false) (w64 ++ w32')).
      { apply Forall_app in Hprim as [? Hp]. apply Forall_app. split; [done|].
        by apply Forall_inv_tail in Hp. }
      destruct (link_remaining_fields_spec (w64 ++ w32') (wrap32 off1 + 4) (off + 4))
        as (off2 & E & Hoff2).
      { done. } { rewrite wrap32_add_l. by apply wrap32_congr_add. }
      simpl. rewrite E. simpl. unfold Uint32Value. rewrite Hoff2.
      rewrite (SetOffset_congr pad off1 off Hoff1).
      rewrite total_size_app, (total_size_const is_wide 8 w64 field_size_wide H64),
        (total_size_const is_narrow 4 w32' field_size_narrow H32').
      by rewrite ?Z.add_assoc.
  - destruct (link_remaining_fields_spec (w64 ++ w32) off1 off Hprim Hoff1) as (off2 & E & Hoff2).
    simpl. rewrite E. simpl. unfold Uint32Value. rewrite Hoff2.
    rewrite total_size_app, (total_size_const is_wide 8 w64 field_size_wide H64),
      (total_size_const is_narrow 4 w32 field_size_narrow H32).
    by rewrite ?Z.add_assoc.
Qed.

End LinkFields_run.

(** *** Buckets of the sorted deque *)

Lemma StronglySorted_filter {A} (R : relation A) (P : A → Prop)
    `{∀ x, Decision (P x)} (l : list A) :
  StronglySorted R l → StronglySorted R (filter P l).
Proof.
  induction 1 as [|x l Hs IH Hall]; [constructor|].
  rewrite filter_cons. destruct (decide (P x)); [|done].
  constructor; [done|]. apply Forall_forall. intros y [_ Hy]%list_elem_of_filter.
  by eapply Forall_forall in Hall.
Qed.

Lemma bucket_sorted_by_name (P : ArtField → bool) n l :
  (∀ f, P f = true → order_of f = n) →
  Sorted comp_le l → Sorted name_le (filter (λ f, P f = true) l).
Proof.
  intros HP Hs. apply (Sorted_StronglySorted _) in Hs.
  apply StronglySorted_Sorted.
  pose proof (Forall_filter_self (λ f, P f = true) l) as Hall.
  apply (StronglySorted_filter _ (λ f, P f = true)) in Hs.
  induction Hs as [|x l' Hs IH Hx]; [constructor|].
  apply Forall_cons in Hall as [Hpx Hall].
  constructor; [by apply IH|].
  apply Forall_forall. intros y Hy.
  pose proof (proj1 (Forall_forall _ _) Hx y Hy) as Hxy.
  pose proof (proj1 (Forall_forall _ _) Hall y Hy) as Hpy. cbv beta in Hpy.
  apply comp_le_iff in Hxy as [Hlt|[_ Hle]]; [|done].
  rewrite (HP x Hpx), (HP y Hpy) in Hlt. lia.
Qed.

(** Where [LinkFields] stops without a result, one of the instance [CHECK]s
    has failed. *)
Lemma LinkFields_finish_None FieldsOffset klass is_static fields (num_refs : nat) size :
  (_ ← initial_field_offset FieldsOffset klass is_static;
   n ← lie_about_referent klass is_static fields (Z.of_nat num_refs);
   update_klass klass is_static fields n size) = None →
  is_static = false ∧ instance_CHECK_fails klass fields num_refs size.
Proof.
  unfold initial_field_offset, lie_about_referent, update_klass, instance_CHECK_fails.
  destruct is_static; simpl; [done|]. intros H. split; [done|].
  destruct (super_class klass) as [super|] eqn:Hsuper.
  - destruct (IsResolved super) eqn:Hres; [|left; eauto]. simpl in H. right.
    case_bool_decide as Hd; simpl in H.
    + case_bool_decide as Hn; simpl in H.
      * destruct (last fields) as [f|] eqn:Hlast; simpl in H.
        -- case_bool_decide as Hname; simpl in H.
           ++ right. destruct (is_variable_size klass); simpl in H; [done|].
              destruct (Z.eqb_spec (object_size klass) 0); simpl in H; [done|].
              destruct (Z.eqb_spec (object_size klass) size); simpl in H; done.
           ++ left. split; [done|]. intros (_ & f' & ? & ?). congruence.
        -- left. split; [done|]. intros (_ & f' & ? & ?). congruence.
      * left. split; [done|]. intros (? & _). lia.
    + right. destruct (is_variable_size klass); simpl in H; [done|].
      destruct (Z.eqb_spec (object_size klass) 0); simpl in H; [done|].
      destruct (Z.eqb_spec (object_size klass) size); simpl in H; done.
  - simpl in H. right.
    case_bool_decide as Hd; simpl in H.
    + case_bool_decide as Hn; simpl in H.
      * destruct (last fields) as [f|] eqn:Hlast; simpl in H.
        -- case_bool_decide as Hname; simpl in H.
           ++ right. destruct (is_variable_size klass); simpl in H; [done|].
              destruct (Z.eqb_spec (object_size klass) 0); simpl in H; [done|].
              destruct (Z.eqb_spec (object_size klass) size); simpl in H; done.
           ++ left. split; [done|]. intros (_ & f' & ? & ?). congruence.
        -- left. split; [done|]. intros (_ & f' & ? & ?). congruence.
      * left. split; [done|]. intros (? & _). lia.
    + right. destruct (is_variable_size klass); simpl in H; [done|].
      destruct (Z.eqb_spec (object_size klass) 0); simpl in H; [done|].
      destruct (Z.eqb_spec (object_size klass) size); simpl in H; done.
Qed.

Lemma LinkFields_finish_Some FieldsOffset klass is_static fields num_refs size klass' :
  (_ ← initial_field_offset FieldsOffset klass is_static;
   n ← lie_about_referent klass is_static fields num_refs;
   update_klass klass is_static fields n size) = Some klass' →
  fields_of klass' is_static = fields
  ∧ (is_static || negb (is_variable_size klass) = true → size_of klass' is_static = size).
Proof.
  intros H.
  destruct (initial_field_offset FieldsOffset klass is_static); [|done]. simpl in H.
  destruct (lie_about_referent klass is_static fields num_refs); [|done]. simpl in H.
  unfold update_klass in H. destruct is_static; simpl in *.
  - by inversion H.
  - destruct (is_variable_size klass); simpl in *; [by inversion H|].
    destruct (negb (object_size klass =? 0) && negb (object_size klass =? size));
      [done|]. by inversion H.
Qed.

(** *** The layout, field by field *)

Lemma assign_offsets_declaration off l :
  declaration <$> assign_offsets off l = declaration <$> l.
Proof. revert off. induction l as [|f l IH]; intros off; simpl; [done|]. by rewrite IH. Qed.

Lemma assign_offsets_slots (P : ArtField → bool) w off l :
  (∀ f, P f = true → field_size f = w) →
  Forall (λ f, P f = true) l →
  offset <$> assign_offsets off l = wrap32 <$> slots off w (length l).
Proof.
  intros HP Hl. revert off. induction Hl as [|f l Hf _ IH]; intros off; simpl; [done|].
  by rewrite IH, (HP f Hf).
Qed.

Lemma spec_layout_emission base refs w64 w32 :
  Forall (λ f, is_reference f = true) refs →
  Forall (λ f, is_wide f = true) w64 →
  Forall (λ f, is_narrow f = true) w32 →
  declaration <$> (spec_layout base refs w64 w32).1
  = declaration <$> emission_order base refs w64 w32
  ∧ offset <$> (spec_layout base refs w64 w32).1
    = wrap32 <$> emission_offsets base refs w64 w32.
Proof.
  intros Hr H64 H32. unfold spec_layout, emission_order, emission_offsets.
  pose proof (assign_offsets_slots is_reference 4 base _ field_size_reference Hr) as Hrefs.
  pose proof (λ off, assign_offsets_slots is_wide 8 off _ field_size_wide H64) as Hw64.
  pose proof (total_size_const is_wide 8 w64 field_size_wide H64) as Hsize.
  destruct (_ && _).
  - destruct H32 as [|pad w32' Hpad H32']; simpl fst.
    + split.
      * by rewrite !fmap_app, !assign_offsets_declaration.
      * by rewrite !fmap_app, Hrefs, Hw64.
    + pose proof (λ off, assign_offsets_slots is_narrow 4 off _ field_size_narrow H32')
        as Hw32.
      split.
      * repeat (rewrite fmap_app || rewrite fmap_cons
                || rewrite assign_offsets_declaration). done.
      * rewrite assign_offsets_app, Hsize.
        repeat (rewrite fmap_app || rewrite fmap_cons).
        by rewrite Hrefs, Hw64, Hw32.
  - pose proof (λ off, assign_offsets_slots is_narrow 4 off _ field_size_narrow H32)
      as Hw32.
    simpl fst. split.
    + by rewrite !fmap_app, !assign_offsets_declaration, !fmap_app.
    + rewrite assign_offsets_app, Hsize, !fmap_app.
      by rewrite Hrefs, Hw64, Hw32.
Qed.

(** C2: [LinkFields] lays the fields out in three buckets (references, 64-bit,
    32-bit), each bucket in lexicographic order of the field names: the
    references in consecutive 4-byte slots from the base offset; then, when
    primitives remain and the offset is not 8-byte aligned, one 32-bit field
    out of order (a 4-byte pad when there is none); then the 64-bit fields;
    then the remaining 32-bit fields.  The field array of the class holds the
    declarations in this order, and the offset written into each field is the
    offset of its slot, as a [uint32_t].  It stops without a result only when
    an instance [CHECK] fails. *)
Theorem LinkFields_three_bucket_layout
    (FieldsOffset : Z) (sort : list ArtField → list ArtField)
    (klass : Class) (is_static : bool) :
  std_sort_contract sort →
  ∃ refs w64 w32 : list ArtField,
    sort (fields_of klass is_static) = refs ++ w64 ++ w32
    ∧ refs ≡ₚ filter (λ f, is_reference f = true) (fields_of klass is_static)
    ∧ w64 ≡ₚ filter (λ f, is_wide f = true) (fields_of klass is_static)
    ∧ w32 ≡ₚ filter (λ f, is_narrow f = true) (fields_of klass is_static)
    ∧ Sorted name_le refs ∧ Sorted name_le w64 ∧ Sorted name_le w32
    ∧ let base := base_offset FieldsOffset klass is_static in
      let laid_out := spec_layout base refs w64 w32 in
      match LinkFields FieldsOffset sort klass is_static with
      | Some klass' =>
          fields_of klass' is_static = laid_out.1
          ∧ (is_static || negb (is_variable_size klass) = true →
             size_of klass' is_static = wrap32 laid_out.2)
          (* field by field: the declaration, and the offset written *)
          ∧ declaration <$> fields_of klass' is_static
            = declaration <$> emission_order base refs w64 w32
          ∧ offset <$> fields_of klass' is_static
            = wrap32 <$> emission_offsets base refs w64 w32
      | None =>
          is_static = false
          ∧ instance_CHECK_fails klass laid_out.1 (length refs) (wrap32 laid_out.2)
      end.
Proof.
  intros Hsort.
  set (sorted := sort (fields_of klass is_static)).
  exists (filter (λ f, is_reference f = true) sorted),
         (filter (λ f, is_wide f = true) sorted),
         (filter (λ f, is_narrow f = true) sorted).
  destruct (Hsort (fields_of klass is_static)) as [Hperm Hsorted]. fold sorted in Hperm, Hsorted.
  split; [by apply sorted_buckets|].
  split; [by rewrite Hperm|]. split; [by rewrite Hperm|]. split; [by rewrite Hperm|].
  split; [apply (bucket_sorted_by_name is_reference 0); [apply is_reference_order|done]|].
  split; [apply (bucket_sorted_by_name is_wide 1); [apply is_wide_order|done]|].
  split; [apply (bucket_sorted_by_name is_narrow 2); [apply is_narrow_order|done]|].
  intros base laid_out.
  pose proof (LinkFields_run FieldsOffset sort Hsort klass is_static) as Hrun.
  cbv zeta in Hrun. fold sorted base in Hrun. fold laid_out in Hrun.
  destruct (LinkFields FieldsOffset sort klass is_static) as [klass'|].
  - symmetry in Hrun. apply LinkFields_finish_Some in Hrun as [Hfields Hsize].
    split; [done|]. split; [done|]. rewrite Hfields.
    apply spec_layout_emission; apply Forall_filter_self.
  - symmetry in Hrun. by apply LinkFields_finish_None in Hrun.
Qed.

(** *** The layout depends on the declarations only *)







Lemma comp_le_erase f g : comp_le (erase f) (erase g) ↔ comp_le f g.
Proof. done. Qed.

Lemma sort_key_erase f : sort_key (erase f) = sort_key f.
Proof. done. Qed.












(** *** Two runs, and a second run on the result of the first *)





(** *** Up to ties *)



Lemma key_le_trans k1 k2 k3 : key_le k1 k2 → key_le k2 k3 → key_le k1 k3.
Proof.
  unfold key_le. intros [?|[? H12]] [?|[? H23]]; try (left; lia).
  right. split; [lia|]. eapply strcmp_ge_trans; eauto.
Qed.



















(** *** The precomputed class size *)

Lemma RoundUp_8_aligned x :
  0 ≤ x < 2 ^ 32 → (x =? RoundUp x 8) = (x mod 8 =? 0).
Proof.
  intros Hx. unfold RoundUp, RoundDown, wrap32.
  pose proof (Z.div_mod x 8 ltac:(lia)) as Hdm.
  pose proof (Z.mod_pos_bound x 8 ltac:(lia)) as Hb.
  destruct (Z.eqb_spec (x mod 8) 0) as [E|NE].
  - apply Z.eqb_eq.
    assert (x + 8 - 1 < 2 ^ 32) by lia.
    rewrite Z.mod_small by lia.
    replace (x + 8 - 1) with (7 + x / 8 * 8) by lia.
    rewrite Z.div_add by lia. change (7 / 8) with 0. lia.
  - apply Z.eqb_neq. intros Heq.
    apply NE. rewrite Heq. by rewrite Z.mul_comm, Z.mod_mul.
Qed.

Lemma is_wide_LoadField e :
  is_wide (LoadField e)
  = bool_decide (first_char (field_id_type e) = "J"%char)
    || bool_decide (first_char (field_id_type e) = "D"%char).
Proof.
  unfold is_wide, is_reference, GetTypeAsPrimitiveType. simpl.
  generalize (first_char (field_id_type e)). intros c.
  destruct (decide (c = "J"%char)) as [->|HJ]; [done|].
  destruct (decide (c = "D"%char)) as [->|HD]; [done|].
  rewrite (bool_decide_eq_false_2 _ HJ), (bool_decide_eq_false_2 _ HD).
  unfold GetType. repeat case_decide; done.
Qed.

Lemma is_reference_LoadField e :
  well_formed_type e →
  is_reference (LoadField e)
  = bool_decide (first_char (field_id_type e) = "L"%char)
    || bool_decide (first_char (field_id_type e) = "["%char).
Proof.
  unfold well_formed_type, is_reference, GetTypeAsPrimitiveType. simpl.
  generalize (first_char (field_id_type e)). intros c Hwf.
  destruct (decide (c = "L"%char)) as [->|HL]; [done|].
  destruct (decide (c = "["%char)) as [->|HA]; [done|].
  rewrite (bool_decide_eq_false_2 _ HL), (bool_decide_eq_false_2 _ HA).
  apply bool_decide_eq_false_2. intros E. destruct (Hwf E); done.
Qed.

Lemma count_static_fields_spec it num_ref num_32 num_64 :
  Forall well_formed_type it →
  count_static_fields it num_ref num_32 num_64
  = (num_ref + Z.of_nat (length (filter (λ f, is_reference f = true) (LoadField <$> it))),
     num_32 + Z.of_nat (length (filter (λ f, is_narrow f = true) (LoadField <$> it))),
     num_64 + Z.of_nat (length (filter (λ f, is_wide f = true) (LoadField <$> it)))).
Proof.
  intros Hwf. revert num_ref num_32 num_64.
  induction Hwf as [|e it He _ IH]; intros num_ref num_32 num_64.
  - simpl. by rewrite !Z.add_0_r.
  - rewrite fmap_cons, !filter_cons.
    assert (Hn : is_narrow (LoadField e)
                 = negb (is_reference (LoadField e)) && negb (is_wide (LoadField e))).
    { unfold is_narrow, is_wide. by destruct (is_reference (LoadField e)). }
    rewrite Hn, is_wide_LoadField, (is_reference_LoadField e He).
    cbn [count_static_fields].
    generalize (first_char (field_id_type e)). intros c.
    destruct (decide (c = "L"%char)) as [->|HL].
    { simpl. rewrite IH, ?Zpos_P_of_succ_nat. repeat apply (f_equal2 pair); lia. }
    destruct (decide (c = "["%char)) as [->|HA].
    { simpl. rewrite IH, ?Zpos_P_of_succ_nat. repeat apply (f_equal2 pair); lia. }
    rewrite (bool_decide_eq_false_2 _ HL), (bool_decide_eq_false_2 _ HA).
    destruct (decide (c = "J"%char)) as [->|HJ].
    { simpl. rewrite IH, ?Zpos_P_of_succ_nat. repeat apply (f_equal2 pair); lia. }
    destruct (decide (c = "D"%char)) as [->|HD].
    { simpl. rewrite IH, ?Zpos_P_of_succ_nat. repeat apply (f_equal2 pair); lia. }
    rewrite (bool_decide_eq_false_2 _ HJ), (bool_decide_eq_false_2 _ HD).
    simpl. rewrite IH, ?Zpos_P_of_succ_nat. repeat apply (f_equal2 pair); lia.
Qed.

Lemma filter_length_sort sort (P : ArtField → Prop) `{∀ f, Decision (P f)} l :
  std_sort_contract sort → length (filter P (sort l)) = length (filter P l).
Proof. intros Hsort. destruct (Hsort l) as [Hperm _]. by rewrite Hperm. Qed.

Lemma spec_layout_end base (refs w64 w32 : list ArtField) :
  let r := Z.of_nat (length refs) in
  let a := Z.of_nat (length w64) in
  let b := Z.of_nat (length w32) in
  (spec_layout base refs w64 w32).2
  = if negb ((a =? 0) && (b =? 0)) && negb ((base + 4 * r) mod 8 =? 0)
    then base + 4 * r + 4 + 8 * a + 4 * (if b =? 0 then 0 else b - 1)
    else base + 4 * r + 8 * a + 4 * b.
Proof.
  intros r a b. unfold spec_layout. fold r.
  assert (bool_decide (w64 ++ w32 = []) = (a =? 0) && (b =? 0)) as ->.
  { unfold a, b. destruct w64, w32; simpl; try done. }
  destruct (negb _ && negb _); [|done].
  unfold b. destruct w32 as [|pad w32']; simpl length; simpl snd.
  - simpl. fold a. lia.
  - fold a. replace (Z.of_nat (S (length w32')) =? 0) with false by (symmetry; apply Z.eqb_neq; lia).
    lia.
Qed.

(** C9: the class size precomputed by [SizeOfClass] from the static fields
    of the class data is the class size [LinkFields(klass, true)] arrives at
    by laying the same fields out, so the [CHECK_EQ] of [LinkStaticFields]
    holds for a class object allocated with the precomputed size. *)
Theorem SizeOfClass_matches_LinkStaticFields
    (FieldsOffset sizeof_Class : Z) (sort : list ArtField → list ArtField)
    (class_data : option ClassData) (klass : Class) :
  std_sort_contract sort →
  FieldsOffset = sizeof_Class →
  sfields klass = LoadField <$> from_option static_fields [] class_data →
  Forall well_formed_type (from_option static_fields [] class_data) →
  ∃ klass' : Class,
    LinkFields FieldsOffset sort klass true = Some klass'
    ∧ class_size klass' = SizeOfClass sizeof_Class class_data
    ∧ (class_size klass = SizeOfClass sizeof_Class class_data →
       LinkStaticFields FieldsOffset sort klass = Some klass').
Proof.
  intros Hsort -> Hload Hwf.
  pose proof (LinkFields_run sizeof_Class sort Hsort klass true) as Hrun.
  cbv zeta in Hrun. simpl in Hrun.
  set (sorted := sort (sfields klass)) in *.
  set (refs := filter (λ f, is_reference f = true) sorted) in *.
  set (w64 := filter (λ f, is_wide f = true) sorted) in *.
  set (w32 := filter (λ f, is_narrow f = true) sorted) in *.
  eexists. split; [exact Hrun|].
  assert (Hsize : wrap32 (spec_layout sizeof_Class refs w64 w32).2
                  = SizeOfClass sizeof_Class class_data).
  { rewrite spec_layout_end. unfold SizeOfClass.
    assert (Hcount : match class_data with
                     | Some data => count_static_fields (static_fields data) 0 0 0
                     | None => (0, 0, 0)
                     end
                     = (Z.of_nat (length refs), Z.of_nat (length w32), Z.of_nat (length w64))).
    { unfold refs, w64, w32, sorted. rewrite !(filter_length_sort sort _ _ Hsort), Hload.
      destruct class_data as [data|]; simpl in *; [|done].
      by rewrite (count_static_fields_spec _ 0 0 0 Hwf). }
    rewrite Hcount.
    set (r := Z.of_nat (length refs)). set (a := Z.of_nat (length w64)).
    set (b := Z.of_nat (length w32)).
    assert (0 ≤ r ∧ 0 ≤ a ∧ 0 ≤ b) as (Hr & Ha & Hb) by (unfold r, a, b; lia).
    rewrite wrap32_add_l.
    rewrite RoundUp_8_aligned by (unfold wrap32; apply Z.mod_pos_bound; lia).
    rewrite wrap32_mod8. replace (r * 4) with (4 * r) by lia.
    destruct (Z.eqb_spec ((sizeof_Class + 4 * r) mod 8) 0) as [Hal|Hal]; simpl.
    - rewrite !andb_false_r. unwrap32.
    - rewrite !andb_true_r.
      destruct (Z.eqb_spec a 0) as [Ha0|Ha0]; simpl.
      + destruct (Z.eqb_spec b 0) as [Hb0|Hb0]; simpl.
        * unwrap32.
        * unwrap32.
      + destruct (Z.eqb_spec b 0) as [Hb0|Hb0]; simpl.
        * unwrap32.
        * unwrap32. }
  split; [simpl; exact Hsize|].
  intros Halloc. unfold LinkStaticFields. rewrite Hrun. simpl.
  by rewrite Hsize, Halloc, Z.eqb_refl.
Qed.

(** *** The small class, run *)

(** Instance fields after an 8-byte superclass: the two references first, in
    name order, then the 64-bit field on an aligned offset, then the 32-bit
    field. *)
Example four_fields_instance_layout :
  (λ k, (ifields k, object_size k, num_reference_instance_fields k))
    <$> LinkFields 132 merge_sort_fields four_fields_class false
  = Some ([mkArtField 1 "refField" "Ljava/lang/Object;" 8;
           mkArtField 4 "refField2" "[I" 12;
           mkArtField 2 "longField" "J" 16;
           mkArtField 3 "intField" "I" 24], 28, 2).
Proof. vm_compute. reflexivity. Qed.

(** Static fields after a 132-byte class header: the 32-bit field is pulled
    forward to fill the word before the 64-bit field. *)
Example four_fields_static_layout :
  (λ k, (sfields k, class_size k, num_reference_static_fields k))
    <$> LinkFields 132 merge_sort_fields four_fields_class true
  = Some ([mkArtField 1 "refField" "Ljava/lang/Object;" 132;
           mkArtField 4 "refField2" "[I" 136;
           mkArtField 3 "intField" "I" 140;
           mkArtField 2 "longField" "J" 144], 152, 2).
Proof. vm_compute. reflexivity. Qed.

Example four_fields_SizeOfClass : SizeOfClass 132 (Some four_fields_data) = 152.
Proof. vm_compute. reflexivity. Qed.


Lemma four_fields_well_formed :
  Forall well_formed_type (from_option static_fields [] (Some four_fields_data)).
Proof.
  simpl. repeat apply Forall_cons_2; try apply Forall_nil_2;
    unfold well_formed_type; simpl; intros H;
    first [by left | by right | discriminate H].
Qed.

Lemma LinkFields_three_bucket_layout_witness :
  std_sort_contract merge_sort_fields
  ∧ ∃ refs w64 w32 : list ArtField,
      merge_sort_fields (fields_of four_fields_class false) = refs ++ w64 ++ w32
      ∧ refs ≡ₚ filter (λ f, is_reference f = true) (fields_of four_fields_class false)
      ∧ w64 ≡ₚ filter (λ f, is_wide f = true) (fields_of four_fields_class false)
      ∧ w32 ≡ₚ filter (λ f, is_narrow f = true) (fields_of four_fields_class false)
      ∧ Sorted name_le refs ∧ Sorted name_le w64 ∧ Sorted name_le w32
      ∧ let base := base_offset 132 four_fields_class false in
        let laid_out := spec_layout base refs w64 w32 in
        match LinkFields 132 merge_sort_fields four_fields_class false with
        | Some klass' =>
            fields_of klass' false = laid_out.1
            ∧ (false || negb (is_variable_size four_fields_class) = true →
               size_of klass' false = wrap32 laid_out.2)
            ∧ declaration <$> fields_of klass' false
              = declaration <$> emission_order base refs w64 w32
            ∧ offset <$> fields_of klass' false
              = wrap32 <$> emission_offsets base refs w64 w32
        | None =>
            false = false
            ∧ instance_CHECK_fails four_fields_class laid_out.1 (length refs)
                (wrap32 laid_out.2)
        end.
Proof.
  split; [exact merge_sort_fields_contract|].
  exact (LinkFields_three_bucket_layout 132 merge_sort_fields four_fields_class false
           merge_sort_fields_contract).
Defined.




Lemma SizeOfClass_matches_LinkStaticFields_witness :
  std_sort_contract merge_sort_fields
  ∧ sfields four_fields_class
    = LoadField <$> from_option static_fields [] (Some four_fields_data)
  ∧ Forall well_formed_type (from_option static_fields [] (Some four_fields_data))
  ∧ ∃ klass' : Class,
      LinkFields 132 merge_sort_fields four_fields_class true = Some klass'
      ∧ class_size klass' = SizeOfClass 132 (Some four_fields_data)
      ∧ (class_size four_fields_class = SizeOfClass 132 (Some four_fields_data) →
         LinkStaticFields 132 merge_sort_fields four_fields_class = Some klass').
Proof.
  split; [exact merge_sort_fields_contract|].
  split; [reflexivity|].
  split; [exact four_fields_well_formed|].
  exact (SizeOfClass_matches_LinkStaticFields 132 132 merge_sort_fields
           (Some four_fields_data) four_fields_class merge_sort_fields_contract
           eq_refl eq_refl four_fields_well_formed).
Defined.

End FieldLayoutProofs.

(** ** Resolution and initialization *)

Module ResolutionProofs.
Import Resolution.

Lemma deref_Some (heap : Heap) klass c : heap !! klass = Some c → deref heap klass = Done c.
Proof. unfold deref. by intros ->. Qed.

Lemma IsExceptionPending_None self : exception_ self = None → IsExceptionPending self = false.
Proof. unfold IsExceptionPending. intros ->. by apply bool_decide_eq_false_2; intros []. Qed.

Lemma IsExceptionPending_Some self e :
  exception_ self = Some e → IsExceptionPending self = true.
Proof. unfold IsExceptionPending. intros ->. by apply bool_decide_eq_true_2. Qed.

Lemma ThrowNewException_fresh self class_descriptor msg :
  exception_ self = None →
  ThrowNewException self class_descriptor msg
  = Done (SetException self
            (Some {| exception_class := class_descriptor;
                     detail_message := Some msg; cause := None |})).
Proof.
  intros H. unfold ThrowNewException, AssertNoPendingException, ThrowNewWrappedException.
  rewrite (IsExceptionPending_None _ H). simpl. by rewrite H.
Qed.

Lemma ThrowEarlierClassFailure_fresh PrettyDescriptor (heap : Heap) self klass c exc_class :
  heap !! klass = Some c → status c = kStatusError → exception_ self = None →
  earlier_failure_class heap c = Some exc_class →
  ThrowEarlierClassFailure PrettyDescriptor heap self klass
  = Done (SetException self
            (Some {| exception_class := exc_class;
                     detail_message := Some (PrettyDescriptor (descriptor c));
                     cause := None |})).
Proof.
  intros Hc Hst Hexc Hcls. unfold ThrowEarlierClassFailure, earlier_failure_class in *.
  rewrite (deref_Some _ _ _ Hc). simpl.
  unfold IsErroneous, status_IsErroneous. rewrite Hst. simpl.
  destruct (verify_error_class c) as [ve|].
  - destruct (heap !! ve) as [vc|] eqn:Hve; [|done]. simpl in Hcls. injection Hcls as <-.
    rewrite (deref_Some _ _ _ Hve). simpl. by apply ThrowNewException_fresh.
  - injection Hcls as <-. by apply ThrowNewException_fresh.
Qed.

(** C5 (amended): a class in status Error stays there.  [EnsureResolved]
    returns null and [InitializeClass], when its fast-fail test lets the call
    through, returns false, each leaving pending a fresh exception of the
    recorded verify-error class, or of [NoClassDefFoundError] when none is
    recorded; when the fast-fail test of [InitializeClass] says no, the call
    returns false and raises nothing.  In every case no collaborator (verifier,
    loader, linker, initializer) is consulted and no class object changes. *)
Theorem erroneous_class_rethrows
    (kIsDebugBuild IsCompiler : bool) (PrettyDescriptor : string → string)
    (IsInstanceOf_java_lang_Error : Throwable → bool)
    (VerifyClass : Heap → Thread → Addr → Heap * Thread)
    (ValidateSuperClassDescriptors : Heap → Thread → Addr → bool * Thread)
    (ReadStaticValues Invoke_clinit : Heap → Thread → Addr → Heap * Thread)
    (heap : Heap) (self : Thread) (klass : Addr) (c : Class) (exc_class : string)
    (depth : nat) (can_init_statics can_init_parents : bool)
    (wakeups : list Status) (class_wakeups : Addr → list Status) :
  heap !! klass = Some c →
  status c = kStatusError →
  exception_ self = None →
  earlier_failure_class heap c = Some exc_class →
  let thrown := {| exception_class := exc_class;
                   detail_message := Some (PrettyDescriptor (descriptor c));
                   cause := None |} in
  EnsureResolved PrettyDescriptor heap self klass wakeups
  = Done (None, heap, SetException self (Some thrown))
  ∧ (CanWeInitializeClass (S depth) heap klass can_init_statics can_init_parents
     = Done true →
     InitializeClass IsCompiler PrettyDescriptor IsInstanceOf_java_lang_Error
       VerifyClass ValidateSuperClassDescriptors ReadStaticValues Invoke_clinit
       (S depth) heap self klass can_init_statics can_init_parents class_wakeups
     = Done (false, heap, SetException self (Some thrown)))
  ∧ (CanWeInitializeClass (S depth) heap klass can_init_statics can_init_parents
     = Done false →
     InitializeClass IsCompiler PrettyDescriptor IsInstanceOf_java_lang_Error
       VerifyClass ValidateSuperClassDescriptors ReadStaticValues Invoke_clinit
       (S depth) heap self klass can_init_statics can_init_parents class_wakeups
     = Done (false, heap, self)).
Proof.
  intros Hc Hst Hexc Hcls thrown.
  assert (Herr : IsErroneous c = true) by (unfold IsErroneous; by rewrite Hst).
  assert (Hres : IsResolved c = false) by (unfold IsResolved; by rewrite Hst).
  assert (Hini : IsInitialized c = false) by (unfold IsInitialized; by rewrite Hst).
  pose proof (ThrowEarlierClassFailure_fresh PrettyDescriptor heap self klass c exc_class
                Hc Hst Hexc Hcls) as Hthrow.
  split; [|split].
  - unfold EnsureResolved. rewrite (deref_Some _ _ _ Hc). simpl.
    rewrite Hres, Herr. simpl. rewrite (deref_Some _ _ _ Hc). simpl.
    rewrite Herr, Hthrow. done.
  - intros Hcan. cbn [InitializeClass]. rewrite (deref_Some _ _ _ Hc).
    cbn [exec_bind]. rewrite Hini, Hcan. cbn [exec_bind negb].
    rewrite Herr, Hthrow. done.
  - intros Hcan. cbn [InitializeClass]. rewrite (deref_Some _ _ _ Hc).
    cbn [exec_bind]. rewrite Hini, Hcan. done.
Qed.

Lemma heap_X_lookup st : heap_X st !! 1%N = Some (class_X st).
Proof. unfold heap_X. apply lookup_singleton_eq. Qed.

(** The fast-fail exit of [InitializeClass]: at compile time
    ([can_init_statics] false) an erroneous class with a class initializer is
    turned away with [false] and nothing pending. *)
Lemma erroneous_class_fast_fail_raises_nothing :
  ∃ self' : Thread,
    InitializeClass false id is_error no_verifier signatures_valid no_values
      (clinit_throws runtime_exception)
      1 (heap_X kStatusError) main_thread 1%N false true (λ _, [])
    = Done (false, heap_X kStatusError, self')
    ∧ exception_ self' = None
    ∧ status <$> heap_X kStatusError !! 1%N = Some kStatusError.
Proof.
  exists main_thread. split; [|split; [done|by rewrite heap_X_lookup]].
  cbn [InitializeClass CanWeInitializeClass andb].
  by rewrite (deref_Some _ _ _ (heap_X_lookup kStatusError)).
Qed.

Lemma erroneous_class_rethrows_witness :
  heap_X kStatusError !! 1%N = Some (class_X kStatusError)
  ∧ status (class_X kStatusError) = kStatusError
  ∧ exception_ main_thread = None
  ∧ earlier_failure_class (heap_X kStatusError) (class_X kStatusError)
    = Some "Ljava/lang/NoClassDefFoundError;"%string
  ∧ let thrown := {| exception_class := "Ljava/lang/NoClassDefFoundError;";
                     detail_message := Some (id (descriptor (class_X kStatusError)));
                     cause := None |} in
    EnsureResolved id (heap_X kStatusError) main_thread 1%N []
    = Done (None, heap_X kStatusError, SetException main_thread (Some thrown))
    ∧ (CanWeInitializeClass 1 (heap_X kStatusError) 1%N true true = Done true →
       InitializeClass false id is_error no_verifier signatures_valid no_values
         (clinit_throws runtime_exception)
         1 (heap_X kStatusError) main_thread 1%N true true (λ _, [])
       = Done (false, heap_X kStatusError, SetException main_thread (Some thrown)))
    ∧ (CanWeInitializeClass 1 (heap_X kStatusError) 1%N true true = Done false →
       InitializeClass false id is_error no_verifier signatures_valid no_values
         (clinit_throws runtime_exception)
         1 (heap_X kStatusError) main_thread 1%N true true (λ _, [])
       = Done (false, heap_X kStatusError, main_thread)).
Proof.
  split; [exact (heap_X_lookup kStatusError)|].
  split; [reflexivity|]. split; [reflexivity|]. split; [reflexivity|].
  exact (erroneous_class_rethrows false false id is_error no_verifier signatures_valid
           no_values (clinit_throws runtime_exception)
           (heap_X kStatusError) main_thread 1%N (class_X kStatusError)
           "Ljava/lang/NoClassDefFoundError;" 0 true true [] (λ _, [])
           (heap_X_lookup kStatusError) eq_refl eq_refl eq_refl).
Defined.

(** *** Exceptions escaping the initializers *)

Lemma WrapExceptionInInitializer_spec IsInstanceOf_java_lang_Error self e :
  exception_ self = Some e →
  WrapExceptionInInitializer IsInstanceOf_java_lang_Error self
  = Done (SetException self (Some (initializer_failure IsInstanceOf_java_lang_Error e))).
Proof.
  intros H. unfold WrapExceptionInInitializer, initializer_failure. rewrite H.
  destruct (IsInstanceOf_java_lang_Error e); simpl; [done|].
  by unfold ThrowNewWrappedException, SetException.
Qed.

Lemma lookup_store_eq (heap : Heap) klass c : store heap klass c !! klass = Some c.
Proof. unfold store. apply lookup_insert_eq. Qed.

Lemma lookup_store_ne (heap : Heap) klass klass' c :
  klass ≠ klass' → store heap klass c !! klass' = heap !! klass'.
Proof. unfold store. by apply lookup_insert_ne. Qed.

(** C6: an exception [e] left pending by the static initializers makes
    [InitializeClass] fail: the class goes to status Error, the call reports
    false, and the pending exception is [e] itself when [e] is an instance of
    [java.lang.Error], else an [ExceptionInInitializerError] with [e] as its
    cause.  First for the verdict taken after the initializers, from any
    state; then for a whole run on a verified class whose superclass needs no
    initialization. *)
Theorem initializer_exception_wrapped
    (IsCompiler : bool) (PrettyDescriptor : string → string)
    (IsInstanceOf_java_lang_Error : Throwable → bool)
    (VerifyClass : Heap → Thread → Addr → Heap * Thread)
    (ValidateSuperClassDescriptors : Heap → Thread → Addr → bool * Thread)
    (ReadStaticValues Invoke_clinit : Heap → Thread → Addr → Heap * Thread)
    (heap heap' : Heap) (self self' : Thread) (klass : Addr) (c c' : Class)
    (e : Throwable) (depth : nat) (can_init_statics can_init_parents : bool)
    (wakeups : Addr → list Status) :
  heap !! klass = Some c →
  status c = kStatusVerified →
  CanWeInitializeClass (S depth) heap klass can_init_statics can_init_parents = Done true →
  ValidateSuperClassDescriptors heap self klass = (true, self) →
  (is_interface c = true ∨ super_class c = None
   ∨ ∃ super super_c, super_class c = Some super ∧ super ≠ klass
                      ∧ heap !! super = Some super_c
                      ∧ status super_c = kStatusInitialized) →
  run_static_initializers ReadStaticValues Invoke_clinit
    (store heap klass (SetStatus (SetClinitThreadId c (tid self)) kStatusInitializing))
    self klass can_init_statics
  = Done (heap', self') →
  exception_ self' = Some e →
  heap' !! klass = Some c' →
  let failure := initializer_failure IsInstanceOf_java_lang_Error e in
  let heap'' := store heap' klass (SetStatus c' kStatusError) in
  let self'' := SetException self' (Some failure) in
  finish_initialization IsInstanceOf_java_lang_Error heap' self' klass
  = Done (false, store heap' klass (SetStatus c' kStatusError),
          SetException self' (Some failure))
  ∧ InitializeClass IsCompiler PrettyDescriptor IsInstanceOf_java_lang_Error
      VerifyClass ValidateSuperClassDescriptors ReadStaticValues Invoke_clinit
      (S depth) heap self klass can_init_statics can_init_parents wakeups
    = Done (false, store heap' klass (SetStatus c' kStatusError),
            SetException self' (Some failure))
  (* the class as the call leaves it: status Error, nothing else changed *)
  ∧ (∃ c'', heap'' !! klass = Some c''
            ∧ status c'' = kStatusError
            ∧ descriptor c'' = descriptor c'
            ∧ clinit_thread_id c'' = clinit_thread_id c'
            ∧ super_class c'' = super_class c')
  ∧ (∀ other, other ≠ klass → heap'' !! other = heap' !! other)
  (* the exception the caller finds pending *)
  ∧ tid self'' = tid self'
  ∧ (IsInstanceOf_java_lang_Error e = true → exception_ self'' = Some e)
  ∧ (IsInstanceOf_java_lang_Error e = false →
     ∃ wrapper, exception_ self'' = Some wrapper
                ∧ exception_class wrapper = "Ljava/lang/ExceptionInInitializerError;"%string
                ∧ cause wrapper = Some e).
Proof.
  intros Hc Hst Hcan Hvalid Hsuper Hrun Hexc Hc' failure heap'' self''.
  assert (Hafter :
    (∃ c'', heap'' !! klass = Some c''
            ∧ status c'' = kStatusError
            ∧ descriptor c'' = descriptor c'
            ∧ clinit_thread_id c'' = clinit_thread_id c'
            ∧ super_class c'' = super_class c')
    ∧ (∀ other, other ≠ klass → heap'' !! other = heap' !! other)
    ∧ tid self'' = tid self'
    ∧ (IsInstanceOf_java_lang_Error e = true → exception_ self'' = Some e)
    ∧ (IsInstanceOf_java_lang_Error e = false →
       ∃ wrapper, exception_ self'' = Some wrapper
                  ∧ exception_class wrapper
                    = "Ljava/lang/ExceptionInInitializerError;"%string
                  ∧ cause wrapper = Some e)).
  { split_and!.
    - exists (SetStatus c' kStatusError). split; [apply lookup_store_eq|done].
    - intros other Hne. by apply lookup_store_ne.
    - done.
    - intros Herr. unfold self'', failure, initializer_failure. by rewrite Herr.
    - intros Herr. unfold self'', failure, initializer_failure. rewrite Herr.
      eexists. by split_and!. }
  assert (Hfinish :
    finish_initialization IsInstanceOf_java_lang_Error heap' self' klass
    = Done (false, store heap' klass (SetStatus c' kStatusError),
            SetException self' (Some failure))).
  { unfold finish_initialization. rewrite (deref_Some _ _ _ Hc'). simpl.
    rewrite (IsExceptionPending_Some _ _ Hexc).
    by rewrite (WrapExceptionInInitializer_spec _ _ _ Hexc). }
  split; [exact Hfinish|]. split; [|exact Hafter].
  cbn [InitializeClass]. rewrite (deref_Some _ _ _ Hc). cbn [exec_bind].
  unfold IsInitialized, IsErroneous, IsResolved, IsVerified. rewrite Hst.
  cbn -[CanWeInitializeClass InitializeClass run_static_initializers finish_initialization]. rewrite Hcan.
  cbn -[CanWeInitializeClass InitializeClass run_static_initializers finish_initialization].
  rewrite (deref_Some _ _ _ Hc). cbn -[CanWeInitializeClass InitializeClass run_static_initializers finish_initialization].
  rewrite Hst. cbn -[CanWeInitializeClass InitializeClass run_static_initializers finish_initialization]. rewrite Hvalid.
  cbn -[CanWeInitializeClass InitializeClass run_static_initializers finish_initialization].
  set (c_init := SetStatus (SetClinitThreadId c (tid self)) kStatusInitializing) in *.
  change (is_interface c_init) with (is_interface c).
  change (super_class c_init) with (super_class c).
  change (status_IsInitialized kStatusVerified) with false.
  change (status_IsErroneous kStatusVerified) with false.
  change (bool_decide (kStatusVerified = kStatusInitializing)) with false.
  change (bool_decide (kStatusVerified = kStatusVerified)) with true.
  cbn [CHECK exec_bind].
  destruct Hsuper as [Hi|[Hn|(super & super_c & Hsc & Hne & Hs & Hsst)]].
  - rewrite Hi. cbn [negb exec_bind].
    rewrite Hrun. exact Hfinish.
  - rewrite Hn. destruct (is_interface c); cbn [negb exec_bind];
      rewrite Hrun; exact Hfinish.
  - rewrite Hsc. destruct (is_interface c); cbn [negb exec_bind].
    + rewrite Hrun. exact Hfinish.
    + rewrite (deref_Some _ super super_c) by (by rewrite lookup_store_ne).
      cbn [exec_bind].
      unfold IsInitialized. rewrite Hsst.
      change (status_IsInitialized kStatusInitialized) with true.
      cbn [negb exec_bind].
      rewrite Hrun. exact Hfinish.
Qed.

Lemma class_X_initializers_run (e : Throwable) :
  run_static_initializers no_values (clinit_throws e)
    (store (heap_X kStatusVerified) 1%N
       (SetStatus (SetClinitThreadId (class_X kStatusVerified) (tid main_thread))
          kStatusInitializing))
    main_thread 1%N true
  = Done (store (heap_X kStatusVerified) 1%N
            (SetStatus (SetClinitThreadId (class_X kStatusVerified) (tid main_thread))
               kStatusInitializing),
          SetException main_thread (Some e)).
Proof.
  unfold run_static_initializers.
  by rewrite (deref_Some _ _ _ (lookup_store_eq _ _ _)).
Qed.

Lemma initializer_exception_wrapped_witness :
  let c_init := SetStatus (SetClinitThreadId (class_X kStatusVerified) (tid main_thread))
                  kStatusInitializing in
  let heap' := store (heap_X kStatusVerified) 1%N c_init in
  let self' := SetException main_thread (Some runtime_exception) in
  let failure := initializer_failure is_error runtime_exception in
  let heap'' := store heap' 1%N (SetStatus c_init kStatusError) in
  let self'' := SetException self' (Some failure) in
  InitializeClass false id is_error no_verifier signatures_valid no_values
    (clinit_throws runtime_exception)
    1 (heap_X kStatusVerified) main_thread 1%N true true (λ _, [])
  = Done (false, heap'', self'')
  ∧ (∃ c'', heap'' !! 1%N = Some c'' ∧ status c'' = kStatusError)
  ∧ ∃ wrapper, exception_ self'' = Some wrapper
               ∧ exception_class wrapper = "Ljava/lang/ExceptionInInitializerError;"%string
               ∧ cause wrapper = Some runtime_exception.
Proof.
  intros c_init heap' self' failure heap'' self''.
  destruct (initializer_exception_wrapped false id is_error no_verifier signatures_valid
              no_values (clinit_throws runtime_exception)
              (heap_X kStatusVerified) heap' main_thread self' 1%N
              (class_X kStatusVerified) c_init
              runtime_exception 0 true true (λ _, [])
              (heap_X_lookup kStatusVerified) eq_refl eq_refl eq_refl
              (or_intror (or_introl eq_refl))
              (class_X_initializers_run runtime_exception) eq_refl
              (lookup_store_eq _ _ _))
    as (_ & Hrun & (c'' & Hc'' & Hst & _) & _ & _ & _ & Hwrapped).
  split; [exact Hrun|]. split; [by exists c''|].
  exact (Hwrapped eq_refl).
Defined.

(** The wrapper around a plain runtime exception, and an [Error] passing
    through as it is. *)
Example runtime_exception_is_wrapped :
  initializer_failure is_error runtime_exception
  = {| exception_class := "Ljava/lang/ExceptionInInitializerError;";
       detail_message := None;
       cause := Some runtime_exception |}.
Proof. reflexivity. Qed.

Example error_passes_through :
  initializer_failure is_error out_of_memory_error = out_of_memory_error.
Proof. reflexivity. Qed.

(** *** The class table *)

Section table.
Variable kIsDebugBuild : bool.

Lemma check_no_duplicates_miss (heap : Heap) range d cl :
  no_entry_matches heap d cl range →
  check_no_duplicates heap range d cl = Done ().
Proof.
  induction range as [|k range IH]; intros Hno; [done|]. simpl.
  destruct (Hno k) as (c & Hc & Hm); [by left|].
  rewrite (deref_Some _ _ _ Hc). simpl. rewrite Hm. simpl.
  apply IH. intros k' Hk'. apply Hno. by right.
Qed.

Lemma lookup_in_range_miss (heap : Heap) range d cl :
  no_entry_matches heap d cl range →
  lookup_in_range kIsDebugBuild heap range d cl = Done None.
Proof.
  induction range as [|k range IH]; intros Hno; [done|]. simpl.
  destruct (Hno k) as (c & Hc & Hm); [by left|].
  rewrite (deref_Some _ _ _ Hc). simpl. rewrite Hm.
  apply IH. intros k' Hk'. apply Hno. by right.
Qed.

Lemma lookup_in_range_hit (heap : Heap) before existing after d cl :
  no_entry_matches heap d cl before →
  entry_matches heap d cl existing →
  no_entry_matches heap d cl after →
  lookup_in_range kIsDebugBuild heap (before ++ existing :: after) d cl
  = Done (Some existing).
Proof.
  intros Hb (c & Hc & Hm) Ha.
  induction before as [|k before IH]; simpl.
  - rewrite (deref_Some _ _ _ Hc). simpl. rewrite Hm.
    destruct kIsDebugBuild; [|done]. by rewrite (check_no_duplicates_miss _ _ _ _ Ha).
  - destruct (Hb k) as (ck & Hck & Hmk); [by left|].
    rewrite (deref_Some _ _ _ Hck). simpl. rewrite Hmk.
    apply IH. intros k' Hk'. apply Hb. by right.
Qed.


Lemma no_entry_matches_same_identity (heap heap2 : Heap) range d cl :
  same_identity heap heap2 →
  no_entry_matches heap d cl range → no_entry_matches heap2 d cl range.
Proof.
  intros Hsame Hno k Hk. destruct (Hno k Hk) as (c & Hc & Hm).
  destruct (Hsame k c Hc) as (c2 & Hc2 & Hd & Hl).
  exists c2. split; [done|]. unfold matches in *. by rewrite Hd, Hl.
Qed.

Lemma entry_matches_same_identity (heap heap2 : Heap) k d cl :
  same_identity heap heap2 →
  entry_matches heap d cl k → entry_matches heap2 d cl k.
Proof.
  intros Hsame (c & Hc & Hm).
  destruct (Hsame k c Hc) as (c2 & Hc2 & Hd & Hl).
  exists c2. split; [done|]. unfold matches in *. by rewrite Hd, Hl.
Qed.

Lemma same_identity_refl (heap : Heap) : same_identity heap heap.
Proof. intros k c Hc. by exists c. Qed.

Lemma same_identity_trans (h1 h2 h3 : Heap) :
  same_identity h1 h2 → same_identity h2 h3 → same_identity h1 h3.
Proof.
  intros H12 H23 k c Hc. destruct (H12 k c Hc) as (c2 & Hc2 & Hd & Hl).
  destruct (H23 k c2 Hc2) as (c3 & Hc3 & Hd3 & Hl3).
  exists c3. split; [done|]. by rewrite Hd3, Hl3.
Qed.

Lemma same_identity_store (heap : Heap) k c c' :
  heap !! k = Some c → descriptor c' = descriptor c → class_loader c' = class_loader c →
  same_identity heap (store heap k c').
Proof.
  intros Hc Hd Hl k0 c0 Hc0. destruct (decide (k = k0)) as [<-|Hne].
  - rewrite lookup_store_eq. exists c'. by simplify_eq.
  - rewrite lookup_store_ne by done. by exists c0.
Qed.

Lemma equal_range_insert linker hash klass :
  equal_range (class_table_ (table_insert linker hash klass)) hash
  = equal_range (class_table_ linker) hash ++ [klass].
Proof. unfold table_insert, multimap_insert, equal_range. simpl. by rewrite lookup_insert_eq. Qed.


Lemma InsertClass_hit (heap : Heap) linker d klass hash c before existing after :
  heap !! klass = Some c →
  equal_range (class_table_ linker) hash = before ++ existing :: after →
  no_entry_matches heap d (class_loader c) before →
  entry_matches heap d (class_loader c) existing →
  no_entry_matches heap d (class_loader c) after →
  InsertClass kIsDebugBuild heap linker d klass hash = Done (Some existing, linker).
Proof.
  intros Hc Hrange Hb He Ha. unfold InsertClass, LookupClassFromTableLocked.
  rewrite (deref_Some _ _ _ Hc). simpl.
  by rewrite Hrange, (lookup_in_range_hit _ _ _ _ _ _ Hb He Ha).
Qed.

Lemma InsertClass_miss (heap : Heap) linker d klass hash c :
  heap !! klass = Some c →
  no_entry_matches heap d (class_loader c) (equal_range (class_table_ linker) hash) →
  image_check_passes kIsDebugBuild linker d c klass →
  InsertClass kIsDebugBuild heap linker d klass hash
  = Done (None, table_insert linker hash klass).
Proof.
  intros Hc Hno Himg. unfold InsertClass, LookupClassFromTableLocked.
  rewrite (deref_Some _ _ _ Hc). simpl.
  rewrite (lookup_in_range_miss _ _ _ _ Hno). simpl.
  unfold image_check_passes in Himg.
  destruct kIsDebugBuild; [|done]. simpl.
  case_bool_decide as Hl; [|done]. simpl.
  destruct (dex_cache_image_class_lookup_required_ linker); [|done]. simpl.
  destruct (LookupClassFromImage linker d) as [existing|] eqn:Himage; [|done].
  rewrite (Himg eq_refl Hl eq_refl existing eq_refl). simpl.
  by rewrite bool_decide_eq_true_2.
Qed.

End table.

(** *** [EnsureResolved] *)

Lemma store_store (heap : Heap) k c1 c2 : store (store heap k c1) k c2 = store heap k c2.
Proof. unfold store. apply insert_insert_eq. Qed.

Lemma EnsureResolved_result PrettyDescriptor (heap heap' : Heap) self self' klass wakeups r :
  EnsureResolved PrettyDescriptor heap self klass wakeups = Done (Some r, heap', self') →
  r = klass ∧ ∃ c', heap' !! klass = Some c' ∧ IsResolved c' = true.
Proof.
  unfold EnsureResolved.
  destruct (heap !! klass) as [c|] eqn:Hc; [|by unfold deref; rewrite Hc].
  rewrite (deref_Some _ _ _ Hc). cbn [exec_bind].
  destruct (if negb (IsResolved c) && negb (IsErroneous c) then _ else _)
    as [[[h s]|h]| |]; cbn [exec_bind]; try done.
  destruct (h !! klass) as [c'|] eqn:Hc'; [|by unfold deref; rewrite Hc'].
  rewrite (deref_Some _ _ _ Hc'). cbn [exec_bind].
  destruct (IsErroneous c').
  - destruct (ThrowEarlierClassFailure _ _ _ _); cbn [exec_bind]; done.
  - destruct (IsResolved c') eqn:Hres; cbn [CHECK exec_bind]; [|done].
    destruct (AssertNoPendingException self); cbn [exec_bind]; [|done..].
    intros [= <- <- <-]. split; [done|]. by exists c'.
Qed.

Lemma EnsureResolved_resolved PrettyDescriptor (heap : Heap) self klass c wakeups :
  heap !! klass = Some c → IsResolved c = true → exception_ self = None →
  EnsureResolved PrettyDescriptor heap self klass wakeups = Done (Some klass, heap, self).
Proof.
  intros Hc Hres Hexc. unfold EnsureResolved.
  rewrite (deref_Some _ _ _ Hc). cbn [exec_bind]. rewrite Hres. cbn [negb andb exec_bind].
  rewrite (deref_Some _ _ _ Hc). cbn [exec_bind].
  assert (IsErroneous c = false) as ->.
  { unfold IsErroneous, IsResolved in *. by destruct (status c). }
  rewrite Hres. unfold AssertNoPendingException.
  by rewrite (IsExceptionPending_None _ Hexc).
Qed.

Lemma wait_until_resolved_spec (heap : Heap) klass c waiting seen rest :
  heap !! klass = Some c →
  in_flight (status c) →
  Forall in_flight waiting →
  ¬ in_flight seen →
  wait_until_resolved heap klass (waiting ++ seen :: rest)
  = Done (store heap klass (SetStatus c seen)).
Proof.
  intros Hc Hfl Hwaiting Hseen. revert heap c Hc Hfl.
  induction Hwaiting as [|st waiting Hst _ IH]; intros heap c Hc [Hres Herr].
  - cbn [app wait_until_resolved]. rewrite (deref_Some _ _ _ Hc). cbn [exec_bind].
    unfold IsResolved, IsErroneous. rewrite Hres, Herr. cbn [negb andb].
    assert (Hstop : negb (status_IsResolved seen) && negb (status_IsErroneous seen) = false).
    { destruct (status_IsResolved seen) eqn:E1; [done|].
      destruct (status_IsErroneous seen) eqn:E2; [done|]. by destruct Hseen. }
    destruct rest; cbn [wait_until_resolved];
      rewrite (deref_Some _ _ _ (lookup_store_eq _ _ _)); cbn [exec_bind];
      unfold IsResolved, IsErroneous; cbn [status SetStatus]; by rewrite Hstop.
  - cbn [app wait_until_resolved]. rewrite (deref_Some _ _ _ Hc). cbn [exec_bind].
    unfold IsResolved, IsErroneous. rewrite Hres, Herr. cbn [negb andb].
    rewrite (IH (store heap klass (SetStatus c st)) (SetStatus c st)
               (lookup_store_eq _ _ _) Hst).
    by rewrite store_store.
Qed.

Lemma EnsureResolved_after_wait PrettyDescriptor (heap : Heap) self klass c
    waiting seen rest :
  heap !! klass = Some c →
  in_flight (status c) →
  clinit_thread_id c ≠ tid self →
  exception_ self = None →
  Forall in_flight waiting →
  status_IsResolved seen = true →
  EnsureResolved PrettyDescriptor heap self klass (waiting ++ seen :: rest)
  = Done (Some klass, store heap klass (SetStatus c seen), self).
Proof.
  intros Hc [Hres Herr] Htid Hexc Hwaiting Hseen. unfold EnsureResolved.
  rewrite (deref_Some _ _ _ Hc). cbn [exec_bind].
  unfold IsResolved, IsErroneous. rewrite Hres, Herr. cbn [negb andb].
  rewrite (proj2 (Z.eqb_neq _ _) Htid).
  rewrite (wait_until_resolved_spec heap klass c waiting seen rest Hc); try done.
  - cbn [exec_bind]. rewrite (deref_Some _ _ _ (lookup_store_eq _ _ _)).
    cbn [exec_bind status SetStatus]. rewrite Hseen.
    assert (status_IsErroneous seen = false) as -> by (by destruct seen).
    unfold AssertNoPendingException. by rewrite (IsExceptionPending_None _ Hexc).
  - intros [Hr _]. congruence.
Qed.

(** *** Two definers of one class *)

Lemma matching_entries_none (heap : Heap) d cl range :
  no_entry_matches heap d cl range → matching_entries heap d cl range = [].
Proof.
  intros Hno. unfold matching_entries. induction range as [|k range IH]; [done|].
  destruct (Hno k) as (c & Hc & Hm); [by left|].
  rewrite filter_cons, Hc. simpl. rewrite Hm.
  rewrite decide_False by done. apply IH. intros k' Hk'. apply Hno. by right.
Qed.

Lemma matching_entries_one (heap : Heap) d cl range klass :
  no_entry_matches heap d cl range → entry_matches heap d cl klass →
  matching_entries heap d cl (range ++ [klass]) = [klass].
Proof.
  intros Hno (c & Hc & Hm). unfold matching_entries.
  rewrite filter_app. fold (matching_entries heap d cl range).
  rewrite (matching_entries_none _ _ _ _ Hno). simpl.
  rewrite filter_cons, Hc. simpl. rewrite Hm. by rewrite decide_True.
Qed.

(** C4: [InsertClass] is an insert-if-absent.  When the range of the hash
    holds an entry with the descriptor and the loader of the new class, that
    entry is returned and the linker is left as it was; when no entry does,
    the class is inserted and null is returned.  A second definer of the same
    descriptor and loader then finds the first one's class: the table holds
    exactly one class for them, and the second [DefineClass] returns what
    [EnsureResolved] makes of the first one's class -- that class once it is
    resolved, never the second definer's own. *)
Theorem InsertClass_deduplicates
    (kIsDebugBuild : bool) (PrettyDescriptor : string → string)
    (LoadSuperAndInterfaces LinkClass : Heap → Thread → Addr → bool * Heap * Thread)
    (heap : Heap) (linker : ClassLinker) (descriptor_ : string)
    (klass : Addr) (c : Class) :
  heap !! klass = Some c →
  let hash := Hash descriptor_ in
  let range := equal_range (class_table_ linker) hash in
  (* an entry is there already *)
  (∀ before existing after,
     range = before ++ existing :: after →
     no_entry_matches heap descriptor_ (class_loader c) before →
     entry_matches heap descriptor_ (class_loader c) existing →
     no_entry_matches heap descriptor_ (class_loader c) after →
     InsertClass kIsDebugBuild heap linker descriptor_ klass hash
     = Done (Some existing, linker))
  (* no entry is there *)
  ∧ (no_entry_matches heap descriptor_ (class_loader c) range →
     image_check_passes kIsDebugBuild linker descriptor_ c klass →
     let linker1 := table_insert linker hash klass in
     InsertClass kIsDebugBuild heap linker descriptor_ klass hash = Done (None, linker1)
     (* a second definer, of class object [klass2], later on *)
     ∧ ∀ (heap2 : Heap) (self2 : Thread) (klass2 : Addr) (c2 : Class)
         (wakeups : list Status),
         matches c descriptor_ (class_loader c) = true →
         same_identity heap heap2 →
         klass2 ≠ klass →
         heap2 !! klass2 = Some c2 →
         class_loader c2 = class_loader c →
         exception_ self2 = None →
         let heap2' := store heap2 klass2 (SetClinitThreadId c2 (tid self2)) in
         InsertClass kIsDebugBuild heap2' linker1 descriptor_ klass2 hash
         = Done (Some klass, linker1)
         ∧ matching_entries heap2' descriptor_ (class_loader c)
             (equal_range (class_table_ linker1) hash) = [klass]
         ∧ DefineClass kIsDebugBuild PrettyDescriptor LoadSuperAndInterfaces LinkClass
             heap2 linker1 self2 descriptor_ klass2 wakeups
           = (let! (result, heap3, self3) :=
                EnsureResolved PrettyDescriptor heap2' self2 klass wakeups in
              Done (result, heap3, linker1, self3))
         ∧ (∀ result heap3 linker3 self3,
              DefineClass kIsDebugBuild PrettyDescriptor LoadSuperAndInterfaces LinkClass
                heap2 linker1 self2 descriptor_ klass2 wakeups
              = Done (result, heap3, linker3, self3) →
              linker3 = linker1 ∧ result ≠ Some klass2
              ∧ (result = None ∨ result = Some klass))
         ∧ (∀ c1, heap2 !! klass = Some c1 → IsResolved c1 = true →
              DefineClass kIsDebugBuild PrettyDescriptor LoadSuperAndInterfaces LinkClass
                heap2 linker1 self2 descriptor_ klass2 wakeups
              = Done (Some klass, heap2', linker1, self2))
         ∧ (∀ c1 waiting seen rest,
              heap2 !! klass = Some c1 → in_flight (status c1) →
              clinit_thread_id c1 ≠ tid self2 →
              wakeups = waiting ++ seen :: rest →
              Forall in_flight waiting → status_IsResolved seen = true →
              DefineClass kIsDebugBuild PrettyDescriptor LoadSuperAndInterfaces LinkClass
                heap2 linker1 self2 descriptor_ klass2 wakeups
              = Done (Some klass, store heap2' klass (SetStatus c1 seen), linker1, self2))).
Proof.
  intros Hc hash range. split.
  { intros before existing after Hrange Hb He Ha.
    by eapply InsertClass_hit. }
  intros Hno Himg linker1. split; [by apply (InsertClass_miss _ _ _ _ _ _ c)|].
  intros heap2 self2 klass2 c2 wakeups Hm Hsame Hne Hc2 Hl Hexc heap2'.
  assert (Hsame' : same_identity heap heap2').
  { apply (same_identity_trans heap heap2 heap2' Hsame).
    unfold heap2'. by apply (same_identity_store heap2 klass2 c2). }
  assert (Hc2' : heap2' !! klass2 = Some (SetClinitThreadId c2 (tid self2)))
    by apply lookup_store_eq.
  assert (Hrange1 : equal_range (class_table_ linker1) hash = range ++ [klass])
    by apply equal_range_insert.
  assert (Hno' : no_entry_matches heap2' descriptor_ (class_loader c) range)
    by (by eapply no_entry_matches_same_identity).
  assert (He' : entry_matches heap2' descriptor_ (class_loader c) klass).
  { eapply entry_matches_same_identity; [exact Hsame'|]. by exists c. }
  assert (Hinsert : InsertClass kIsDebugBuild heap2' linker1 descriptor_ klass2 hash
                    = Done (Some klass, linker1)).
  { eapply (InsertClass_hit _ _ _ _ _ _ _ range klass []); [exact Hc2'|exact Hrange1|..].
    - simpl. by rewrite Hl.
    - simpl. by rewrite Hl.
    - intros k Hk. by apply elem_of_nil in Hk. }
  assert (Hdefine :
    DefineClass kIsDebugBuild PrettyDescriptor LoadSuperAndInterfaces LinkClass
      heap2 linker1 self2 descriptor_ klass2 wakeups
    = (let! (result, heap3, self3) :=
         EnsureResolved PrettyDescriptor heap2' self2 klass wakeups in
       Done (result, heap3, linker1, self3))).
  { unfold DefineClass. rewrite (deref_Some _ _ _ Hc2). cbn [exec_bind].
    rewrite (IsExceptionPending_None _ Hexc). fold heap2'. fold hash.
    by rewrite Hinsert. }
  split; [exact Hinsert|]. split; [rewrite Hrange1; by apply matching_entries_one|].
  split; [exact Hdefine|]. split; [|split].
  - intros result heap3 linker3 self3. rewrite Hdefine.
    destruct (EnsureResolved PrettyDescriptor heap2' self2 klass wakeups)
      as [[[r h] t]| |] eqn:Hensure; cbn [exec_bind]; try done.
    intros [= <- <- <- <-]. split; [done|].
    destruct r as [r|].
    + apply EnsureResolved_result in Hensure as [-> _].
      split; [congruence|by right].
    + split; [done|by left].
  - intros c1 Hc1 Hres. rewrite Hdefine.
    rewrite (EnsureResolved_resolved PrettyDescriptor heap2' self2 klass c1); try done.
    unfold heap2'. by rewrite lookup_store_ne.
  - intros c1 waiting seen rest Hc1 Hfl Htid -> Hwaiting Hseen. rewrite Hdefine.
    rewrite (EnsureResolved_after_wait PrettyDescriptor heap2' self2 klass c1); try done.
    unfold heap2'. by rewrite lookup_store_ne.
Qed.

Lemma InsertClass_deduplicates_witness :
  InsertClass false heap_two_X empty_linker "LX;" 1%N (Hash "LX;")
  = Done (None, table_insert empty_linker (Hash "LX;") 1%N)
  ∧ DefineClass false id collaborator_succeeds collaborator_succeeds
      heap_two_X (table_insert empty_linker (Hash "LX;") 1%N) main_thread "LX;" 2%N []
    = Done (Some 1%N,
            store heap_two_X 2%N (SetClinitThreadId (class_X kStatusIdx) (tid main_thread)),
            table_insert empty_linker (Hash "LX;") 1%N, main_thread).
Proof.
  assert (H1 : heap_two_X !! 1%N = Some (class_X kStatusResolved)).
  { unfold heap_two_X. apply lookup_insert_eq. }
  assert (H2 : heap_two_X !! 2%N = Some (class_X kStatusIdx)).
  { unfold heap_two_X. rewrite lookup_insert_ne by done. apply lookup_singleton_eq. }
  destruct (InsertClass_deduplicates false id collaborator_succeeds collaborator_succeeds
              heap_two_X empty_linker "LX;" 1%N (class_X kStatusResolved) H1)
    as [_ Hmiss].
  destruct Hmiss as [Hinsert Hsecond].
  { simpl. unfold equal_range. rewrite lookup_empty. intros k Hk.
    by apply elem_of_nil in Hk. }
  { intros Hdebug. discriminate Hdebug. }
  split; [exact Hinsert|].
  destruct (Hsecond heap_two_X main_thread 2%N (class_X kStatusIdx) [])
    as (_ & _ & _ & _ & Hresolved & _).
  { reflexivity. }
  { intros k c Hc. by exists c. }
  { done. }
  { exact H2. }
  { reflexivity. }
  { reflexivity. }
  exact (Hresolved (class_X kStatusResolved) H1 eq_refl).
Defined.

(** *** [LookupClass] and the boot image *)

Section lookup.
Variable kIsDebugBuild : bool.

Lemma LookupClass_hit (heap : Heap) linker d cl before existing after :
  equal_range (class_table_ linker) (Hash d) = before ++ existing :: after →
  no_entry_matches heap d cl before →
  entry_matches heap d cl existing →
  no_entry_matches heap d cl after →
  LookupClass kIsDebugBuild heap linker d cl = Done (Some existing, linker).
Proof.
  intros Hrange Hb He Ha. unfold LookupClass, LookupClassFromTableLocked.
  by rewrite Hrange, (lookup_in_range_hit _ _ _ _ _ _ _ Hb He Ha).
Qed.



Lemma LookupClass_image_miss (heap : Heap) linker d :
  fallback_miss heap linker d →
  dex_cache_image_class_lookup_required_ linker = true →
  let linker' :=
    set_failed_lookups linker (failed_dex_cache_class_lookups_ linker + 1) in
  LookupClass kIsDebugBuild heap linker d None
  = if kMaxFailedDexCacheLookups <? failed_dex_cache_class_lookups_ linker + 1
    then let! moved := MoveImageClassesToClassTable kIsDebugBuild heap linker' in
         Done (None, moved)
    else Done (None, linker').
Proof.
  intros [Hno Himage] Hreq linker'. unfold LookupClass, LookupClassFromTableLocked.
  rewrite (lookup_in_range_miss _ _ _ _ _ Hno). cbn [exec_bind].
  by rewrite Hreq, Himage.
Qed.










End lookup.

(** *** The scan of the image *)






Lemma equal_range_empty hash : equal_range ∅ hash = [].
Proof. unfold equal_range. by rewrite lookup_empty. Qed.

Lemma linker_boot_miss failed :
  fallback_miss heap_boot (linker_boot failed) "LMissing;".
Proof.
  split; [|reflexivity]. simpl. rewrite equal_range_empty.
  intros k Hk. by apply elem_of_nil in Hk.
Qed.




(** After the 1001st miss the image class is in the primary table under the
    hash of its descriptor, and the image is not searched again. *)
Example boot_image_migrated :
  ∃ moved,
    LookupClass false heap_boot (linker_boot 1000) "LMissing;" None = Done (None, moved)
    ∧ equal_range (class_table_ moved) (Hash "Ljava/lang/Object;") = [3%N]
    ∧ dex_cache_image_class_lookup_required_ moved = false
    ∧ failed_dex_cache_class_lookups_ moved = 1001.
Proof.
  eexists. split.
  - rewrite (LookupClass_image_miss false _ _ _ (linker_boot_miss 1000) eq_refl).
    cbv zeta. change (kMaxFailedDexCacheLookups <? _) with true. cbv iota.
    unfold MoveImageClassesToClassTable. cbn [negb dex_cache_image_class_lookup_required_
      set_failed_lookups linker_boot image_dex_caches move_dex_caches resolved_types
      move_types].
    unfold heap_boot. rewrite (deref_Some _ _ _ (lookup_singleton_eq _ _)).
    cbn [exec_bind]. unfold LookupClassFromTableLocked.
    cbn [class_table_ set_failed_lookups linker_boot].
    rewrite equal_range_empty. cbn [lookup_in_range exec_bind move_types]. reflexivity.
  - split; [|split; reflexivity]. cbn [class_table_ set_lookup_required table_insert].
    unfold multimap_insert. cbn [class_table_ set_failed_lookups linker_boot].
    rewrite equal_range_empty. unfold equal_range. by rewrite lookup_insert_eq.
Qed.

End ResolutionProofs.

(** ** Method tables *)

Module MethodTablesProofs.
Import MethodTables.

Lemma outcome_bind_Ok {A B} (m : Outcome A) (k : A → Outcome B) (b : B) :
  outcome_bind m k = Ok b → ∃ a, m = Ok a ∧ k a = Ok b.
Proof. destruct m; simpl; [eauto | done | done]. Qed.

Lemma in_store_lookup (methods : Methods) (entry : option Addr) :
  in_store methods entry = true → ∃ m am, entry = Some m ∧ methods !! m = Some am.
Proof.
  destruct entry as [m|]; simpl; [|done].
  intros H%bool_decide_eq_true.
  destruct (lookup_lt_is_Some_2 methods m H) as [am Ham]. eauto.
Qed.

Lemma forallb_lookup {A} (f : A → bool) (l : list A) (i : nat) (x : A) :
  forallb f l = true → l !! i = Some x → f x = true.
Proof.
  intros H Hi. rewrite forallb_forall in H.
  apply H, list_elem_of_In. by eapply list_elem_of_lookup_2.
Qed.

Lemma SetMethodIndex_length methods m idx :
  length (SetMethodIndex methods m idx) = length methods.
Proof. unfold SetMethodIndex. by rewrite length_alter. Qed.

Lemma SetMethodIndex_eq methods m idx am :
  methods !! m = Some am →
  SetMethodIndex methods m idx !! m = Some (SetMethodIndex_ idx am).
Proof.
  intros H. unfold SetMethodIndex.
  rewrite list_lookup_alter, decide_True by done. by rewrite H.
Qed.

Lemma SetMethodIndex_ne methods m idx a :
  a ≠ m → SetMethodIndex methods m idx !! a = methods !! a.
Proof.
  intros H. unfold SetMethodIndex.
  by rewrite list_lookup_alter, decide_False by done.
Qed.

Section virtual_methods.
Context (CanAccessMember : Addr → Addr → Z → bool) (java_lang_Object : Addr).

Local Abbreviation scan_vtable := (scan_vtable CanAccessMember).
Local Abbreviation link_virtual_method := (link_virtual_method CanAccessMember).
Local Abbreviation link_virtual_methods := (link_virtual_methods CanAccessMember).
Local Abbreviation LinkVirtualMethods := (LinkVirtualMethods CanAccessMember java_lang_Object).
Local Abbreviation permitted_match := (permitted_match CanAccessMember).

(** The scan passes over a slot that is no permitted match. *)
Lemma scan_vtable_skip methods klass local_mh entry rest j :
  in_store methods entry = true →
  permitted_match methods klass local_mh entry = false →
  scan_vtable methods klass local_mh (entry :: rest) j
  = scan_vtable methods klass local_mh rest (S j).
Proof.
  intros (a & am & -> & Ham)%in_store_lookup Hp.
  unfold permitted_match in Hp. simpl in Hp. rewrite Ham in Hp.
  simpl. unfold deref_method. rewrite Ham. simpl.
  destruct (HasSameNameAndSignature local_mh am); [|done].
  simpl in Hp. by rewrite Hp.
Qed.

Lemma scan_vtable_none methods klass local_mh slots j :
  forallb (in_store methods) slots = true →
  (∀ i e, slots !! i = Some e → permitted_match methods klass local_mh e = false) →
  scan_vtable methods klass local_mh slots j = Ok None.
Proof.
  revert j. induction slots as [|entry rest IH]; intros j Hv Hp; [done|].
  apply andb_prop in Hv as [Hv1 Hv2].
  rewrite scan_vtable_skip; [|done|by apply (Hp 0%nat)].
  apply IH; [done|]. intros i e Hi. by apply (Hp (S i)).
Qed.

Lemma scan_vtable_first methods klass local_mh pre a post super_method j :
  forallb (in_store methods) pre = true →
  (∀ i e, pre !! i = Some e → permitted_match methods klass local_mh e = false) →
  methods !! a = Some super_method →
  permitted_match methods klass local_mh (Some a) = true →
  scan_vtable methods klass local_mh (pre ++ Some a :: post) j
  = if IsFinal super_method then Throws "Ljava/lang/LinkageError;"
    else Ok (Some (j + length pre)%nat).
Proof.
  revert j. induction pre as [|entry rest IH]; intros j Hv Hp Ha Hm.
  - unfold permitted_match in Hm. simpl in Hm. rewrite Ha in Hm.
    apply andb_prop in Hm as [Hs Hc].
    simpl. unfold deref_method. rewrite Ha. simpl. rewrite Hs, Hc.
    by rewrite Nat.add_0_r.
  - apply andb_prop in Hv as [Hv1 Hv2].
    change ((entry :: rest) ++ Some a :: post) with (entry :: (rest ++ Some a :: post)).
    rewrite scan_vtable_skip; [|done|by apply (Hp 0%nat)].
    rewrite IH; [|done| |done|done].
    + simpl. by rewrite Nat.add_succ_r.
    + intros i e Hi. by apply (Hp (S i)).
Qed.

Lemma link_virtual_methods_app klass l1 l2 vt n ms :
  link_virtual_methods klass (l1 ++ l2) vt n ms
  = let! (vt, n, ms) := link_virtual_methods klass l1 vt n ms in
    link_virtual_methods klass l2 vt n ms.
Proof.
  revert vt n ms. induction l1 as [|m l1 IH]; intros; [done|].
  simpl. destruct (link_virtual_method klass m vt n ms)
    as [[[vt1 n1] ms1]| |]; simpl; [apply IH|done|done].
Qed.

(** What a turn of the loop leaves as it was. *)
Lemma link_virtual_method_frame klass m vt0 n0 ms0 vt n ms :
  link_virtual_method klass m vt0 n0 ms0 = Ok (vt, n, ms) →
  length vt = length vt0 ∧ length ms = length ms0 ∧ (n0 ≤ n ≤ S n0)%nat.
Proof.
  unfold link_virtual_method.
  intros (lm & Hlm & H)%outcome_bind_Ok.
  apply outcome_bind_Ok in H as ([j|] & Hj & H); simplify_eq.
  - rewrite length_insert, SetMethodIndex_length. lia.
  - rewrite length_insert, SetMethodIndex_length. lia.
Qed.

Lemma link_virtual_methods_frame klass locals vt0 n0 ms0 vt n ms :
  link_virtual_methods klass locals vt0 n0 ms0 = Ok (vt, n, ms) →
  length vt = length vt0 ∧ length ms = length ms0
  ∧ (n0 ≤ n ≤ n0 + length locals)%nat.
Proof.
  revert vt0 n0 ms0.
  induction locals as [|m locals IH]; intros vt0 n0 ms0 H.
  - simpl in H. simplify_eq. simpl. lia.
  - simpl in H. apply outcome_bind_Ok in H as ([[vt1 n1] ms1] & H1 & H).
    apply link_virtual_method_frame in H1 as (? & ? & ?).
    apply IH in H as (? & ? & ?). simpl. split_and!; [congruence|congruence|lia|lia].
Qed.

Lemma CopyOf_length {A} (array : list (option A)) n : length (CopyOf array n) = n.
Proof. unfold CopyOf. rewrite length_app, length_take, length_replicate. lia. Qed.

Lemma CopyOf_lookup_lt {A} (array : list (option A)) n i :
  (i < length array)%nat → (i < n)%nat → CopyOf array n !! i = array !! i.
Proof.
  intros. unfold CopyOf. rewrite lookup_app_l by (rewrite length_take; lia).
  by rewrite lookup_take_lt.
Qed.

Lemma CopyOf_shrink {A} (array : list (option A)) n :
  (n ≤ length array)%nat → CopyOf array n = take n array.
Proof.
  intros. unfold CopyOf. replace (n - length array)%nat with 0%nat by lia.
  simpl. by rewrite app_nil_r.
Qed.

(** C1 (amended): [LinkVirtualMethods] on a class with a superclass takes the
    declared virtual methods in order; when it comes to the method [m], with
    the table [vt] of [n] slots built so far (the inherited slots and those
    appended for the methods before [m]), it walks the slots from 0 upward.
    At the first slot [j] that holds a method with the name and signature of
    [m] which the class may access: if that method is final, linking fails
    with [LinkageError]; otherwise [m] takes slot [j], nothing else changes
    in the table, the count stays [n], and the method index of [m] is [j].
    If no slot is such a match, [m] takes the fresh slot [n], the count
    becomes [n + 1], and the method index of [m] is [n]. *)
Theorem LinkVirtualMethods_first_permitted_match
    classes methods klass_addr klass super super_c super_vtable
    before m after vt n ms local_mh :
  super_class klass = Some super →
  classes !! super = Some super_c →
  vtable super_c = Some super_vtable →
  virtual_methods klass = before ++ m :: after →
  link_virtual_methods klass_addr before
    (CopyOf super_vtable (length (virtual_methods klass) + length super_vtable))
    (length super_vtable) methods = Ok (vt, n, ms) →
  ms !! m = Some local_mh →
  forallb (in_store ms) (take n vt) = true →
  (∀ j a super_method,
     (j < n)%nat → vt !! j = Some (Some a) → ms !! a = Some super_method →
     permitted_match ms klass_addr local_mh (Some a) = true →
     (∀ i e, (i < j)%nat → vt !! i = Some e →
             permitted_match ms klass_addr local_mh e = false) →
     if IsFinal super_method then
       LinkVirtualMethods classes methods klass_addr klass
       = Throws "Ljava/lang/LinkageError;"
     else
       link_virtual_methods klass_addr (before ++ [m])
         (CopyOf super_vtable (length (virtual_methods klass) + length super_vtable))
         (length super_vtable) methods
       = Ok (<[j := Some m]> vt, n, SetMethodIndex ms m (Z.of_nat j))
       ∧ <[j := Some m]> vt !! j = Some (Some m)
       ∧ method_index <$> SetMethodIndex ms m (Z.of_nat j) !! m = Some (Z.of_nat j))
  ∧ ((∀ i e, (i < n)%nat → vt !! i = Some e →
             permitted_match ms klass_addr local_mh e = false) →
     link_virtual_methods klass_addr (before ++ [m])
       (CopyOf super_vtable (length (virtual_methods klass) + length super_vtable))
       (length super_vtable) methods
     = Ok (<[n := Some m]> vt, S n, SetMethodIndex ms m (Z.of_nat n))
     ∧ <[n := Some m]> vt !! n = Some (Some m)
     ∧ method_index <$> SetMethodIndex ms m (Z.of_nat n) !! m = Some (Z.of_nat n)).
Proof.
  intros Hsuper Hsc Hsvt Hlocals Hbefore Hm Hstore.
  pose proof (link_virtual_methods_frame _ _ _ _ _ _ _ _ Hbefore) as (Hlen & _ & Hn).
  rewrite CopyOf_length, Hlocals, length_app in Hlen. simpl in Hlen.
  unfold MethodTables.LinkVirtualMethods.
  rewrite Hlocals in Hbefore |- *.
  split.
  - intros j a super_method Hj Hslot Ha Hperm Hfirst.
    assert (Hscan : scan_vtable ms klass_addr local_mh (take n vt) 0
                    = if IsFinal super_method then Throws "Ljava/lang/LinkageError;"
                      else Ok (Some j)).
    { assert (Htake : take n vt !! j = Some (Some a)) by by rewrite lookup_take_lt.
      rewrite <- (take_drop_middle _ _ _ Htake) in Hstore |- *.
      rewrite forallb_app in Hstore. apply andb_prop in Hstore as [Hpre _].
      rewrite (scan_vtable_first _ _ _ _ _ _ super_method); [|done| |done|done].
      - rewrite length_take, length_take. simpl.
        by replace (j `min` (n `min` length vt))%nat with j by lia.
      - intros i e Hi.
        assert (i < j)%nat.
        { apply lookup_lt_Some in Hi. rewrite length_take in Hi. lia. }
        rewrite lookup_take_lt in Hi by done.
        rewrite lookup_take_lt in Hi by lia. by eapply Hfirst. }
    destruct (IsFinal super_method).
    + rewrite Hsuper. unfold deref_class. rewrite Hsc. simpl. rewrite Hsvt. simpl.
      replace (length super_vtable <=? length (before ++ m :: after) + length super_vtable)%nat
        with true by (symmetry; apply Nat.leb_le; lia).
      simpl. rewrite link_virtual_methods_app, Hbefore. simpl.
      unfold MethodTables.link_virtual_method, deref_method. rewrite Hm. simpl.
      by rewrite Hscan.
    + split_and!.
      * rewrite link_virtual_methods_app, Hbefore. simpl.
        unfold MethodTables.link_virtual_method, deref_method. rewrite Hm. simpl.
        by rewrite Hscan.
      * apply list_lookup_insert_eq. lia.
      * by rewrite (SetMethodIndex_eq _ _ _ _ Hm).
  - intros Hnone.
    assert (Hscan : scan_vtable ms klass_addr local_mh (take n vt) 0 = Ok None).
    { apply scan_vtable_none; [done|]. intros i e Hi.
      assert (i < n)%nat.
      { apply lookup_lt_Some in Hi. rewrite length_take in Hi. lia. }
      rewrite lookup_take_lt in Hi by done. by eapply Hnone. }
    split_and!.
    + rewrite link_virtual_methods_app, Hbefore. simpl.
      unfold MethodTables.link_virtual_method, deref_method. rewrite Hm. simpl.
      by rewrite Hscan.
    + apply list_lookup_insert_eq. lia.
    + by rewrite (SetMethodIndex_eq _ _ _ _ Hm).
Qed.

Lemma scan_vtable_bound methods klass local_mh slots j0 j :
  scan_vtable methods klass local_mh slots j0 = Ok (Some j) →
  (j0 ≤ j < j0 + length slots)%nat.
Proof.
  revert j0. induction slots as [|entry rest IH]; intros j0 H; [done|].
  simpl in H. apply outcome_bind_Ok in H as (sm & _ & H).
  destruct (HasSameNameAndSignature local_mh sm).
  - destruct (CanAccessMember klass (declaring_class sm) (access_flags sm)).
    + destruct (IsFinal sm); simplify_eq. simpl. lia.
    + apply IH in H. simpl. lia.
  - apply IH in H. simpl. lia.
Qed.

Lemma land_0xFFFF_small (i : nat) :
  (Z.of_nat i < 2 ^ 16) → Z.land (Z.of_nat i) 0xFFFF = Z.of_nat i.
Proof.
  intros. change 0xFFFF with (Z.ones 16).
  rewrite Z.land_ones by lia. apply Z.mod_small. lia.
Qed.

Lemma IsUint_16_lt (n : nat) : IsUint 16 (Z.of_nat n) = true → Z.of_nat n < 2 ^ 16.
Proof. unfold IsUint. intros [_ H]%andb_prop. by apply Z.ltb_lt in H. Qed.

(** One turn of the loop keeps the filled slots indexed by themselves. *)
Lemma link_virtual_method_indexed klass m rest vt0 n0 ms0 vt n ms :
  link_virtual_method klass m vt0 n0 ms0 = Ok (vt, n, ms) →
  NoDup (m :: rest) →
  (n0 + length (m :: rest) ≤ length vt0)%nat →
  (∀ i, (i < n0)%nat → slot_indexed ms0 vt0 i (Z.of_nat i)) →
  (∀ i a, (i < n0)%nat → vt0 !! i = Some (Some a) → a ∉ m :: rest) →
  (n + length rest ≤ length vt)%nat
  ∧ (∀ i, (i < n)%nat → slot_indexed ms vt i (Z.of_nat i))
  ∧ (∀ i a, (i < n)%nat → vt !! i = Some (Some a) → a ∉ rest).
Proof.
  intros H Hnodup Hlen Hidx Hfresh.
  apply NoDup_cons in Hnodup as [Hm Hnodup]. simpl in Hlen.
  unfold MethodTables.link_virtual_method in H.
  apply outcome_bind_Ok in H as (lm & Hlm & H).
  unfold deref_method in Hlm. destruct (ms0 !! m) as [lm'|] eqn:Hm0; simplify_eq.
  apply outcome_bind_Ok in H as (found & Hscan & H).
  assert (Hplace : ∀ j, (j ≤ n0)%nat → (j < length vt0)%nat →
    (∀ i, (i < n0 `max` S j)%nat →
          slot_indexed (SetMethodIndex ms0 m (Z.of_nat j)) (<[j := Some m]> vt0) i
            (Z.of_nat i))
    ∧ (∀ i a, (i < n0 `max` S j)%nat → <[j := Some m]> vt0 !! i = Some (Some a) →
              a ∉ rest)).
  { intros j Hj Hjlen. split.
    - intros i Hi. destruct (decide (i = j)) as [->|Hne].
      + exists m, (SetMethodIndex_ (Z.of_nat j) lm).
        split_and!; [by apply list_lookup_insert_eq|by apply SetMethodIndex_eq|done].
      + destruct (Hidx i) as (a & am & Ha & Ham & Hindex); [lia|].
        exists a, am. rewrite list_lookup_insert_ne by done.
        split_and!; [done| |done].
        rewrite SetMethodIndex_ne; [done|].
        intros ->. eapply Hfresh; [|done|left]. lia.
    - intros i a Hi Ha. destruct (decide (i = j)) as [->|Hne].
      + rewrite list_lookup_insert_eq in Ha by done. by simplify_eq.
      + rewrite list_lookup_insert_ne in Ha by done.
        intros Hin. eapply Hfresh; [|done|by right]. lia. }
  destruct found as [j|]; simplify_eq.
  - apply scan_vtable_bound in Hscan. rewrite length_take in Hscan.
    destruct (Hplace j) as [H1 H2]; [lia|lia|].
    rewrite length_insert. split_and!; [lia| |].
    + intros i Hi. apply H1. lia.
    + intros i a Hi. apply H2. lia.
  - destruct (Hplace n0) as [H1 H2]; [lia|lia|].
    rewrite length_insert. split_and!; [lia| |].
    + intros i Hi. apply H1. lia.
    + intros i a Hi. apply H2. lia.
Qed.

Lemma link_virtual_methods_indexed klass locals vt0 n0 ms0 vt n ms :
  link_virtual_methods klass locals vt0 n0 ms0 = Ok (vt, n, ms) →
  NoDup locals →
  (n0 + length locals ≤ length vt0)%nat →
  (∀ i, (i < n0)%nat → slot_indexed ms0 vt0 i (Z.of_nat i)) →
  (∀ i a, (i < n0)%nat → vt0 !! i = Some (Some a) → a ∉ locals) →
  (n ≤ length vt)%nat ∧ ∀ i, (i < n)%nat → slot_indexed ms vt i (Z.of_nat i).
Proof.
  revert vt0 n0 ms0.
  induction locals as [|m rest IH]; intros vt0 n0 ms0 H Hnodup Hlen Hidx Hfresh.
  - simpl in *. simplify_eq. split; [lia|done].
  - simpl in H. apply outcome_bind_Ok in H as ([[vt1 n1] ms1] & H1 & H).
    destruct (link_virtual_method_indexed _ _ _ _ _ _ _ _ _ H1 Hnodup Hlen Hidx Hfresh)
      as (Hlen1 & Hidx1 & Hfresh1).
    apply NoDup_cons in Hnodup as [_ Hnodup].
    by apply (IH _ _ _ H).
Qed.

(** The loop of the root class. *)
Lemma link_root_methods_indexed locals i0 vt0 ms0 vt ms :
  link_root_methods locals i0 vt0 ms0 = Ok (vt, ms) →
  NoDup locals →
  (i0 + length locals ≤ length vt0)%nat →
  Z.of_nat (length vt0) < 2 ^ 16 →
  (∀ i, (i < i0)%nat → slot_indexed ms0 vt0 i (Z.of_nat i)) →
  (∀ i a, (i < i0)%nat → vt0 !! i = Some (Some a) → a ∉ locals) →
  length vt = length vt0 ∧ length ms = length ms0
  ∧ ∀ i, (i < i0 + length locals)%nat → slot_indexed ms vt i (Z.of_nat i).
Proof.
  revert i0 vt0 ms0.
  induction locals as [|m rest IH]; intros i0 vt0 ms0 H Hnodup Hlen Hsmall Hidx Hfresh.
  - simpl in *. simplify_eq. split_and!; [done|done|].
    intros i Hi. apply Hidx. lia.
  - simpl in H. apply outcome_bind_Ok in H as (lm & Hlm & H).
    unfold deref_method in Hlm. destruct (ms0 !! m) as [lm'|] eqn:Hm0; simplify_eq.
    apply NoDup_cons in Hnodup as [Hm Hnodup]. simpl in Hlen.
    rewrite land_0xFFFF_small in H by lia.
    apply IH in H as (Hl1 & Hl2 & H); [|done|rewrite length_insert; lia
                                        |by rewrite length_insert| |].
    + rewrite length_insert in Hl1. rewrite SetMethodIndex_length in Hl2.
      split_and!; [done|done|].
      intros i Hi. apply H. simpl in Hi. lia.
    + intros i Hi. destruct (decide (i = i0)) as [->|Hne].
      * exists m, (SetMethodIndex_ (Z.of_nat i0) lm).
        split_and!; [apply list_lookup_insert_eq; lia|by apply SetMethodIndex_eq|done].
      * destruct (Hidx i) as (a & am & Ha & Ham & Hindex); [lia|].
        exists a, am. rewrite list_lookup_insert_ne by done.
        split_and!; [done| |done].
        rewrite SetMethodIndex_ne; [done|].
        intros ->. eapply Hfresh; [|done|left]. lia.
    + intros i a Hi Ha. destruct (decide (i = i0)) as [->|Hne].
      * rewrite list_lookup_insert_eq in Ha by lia. by simplify_eq.
      * rewrite list_lookup_insert_ne in Ha by done.
        intros Hin. eapply Hfresh; [|done|by right]. lia.
Qed.

Lemma inherited_vtable_ok_lookup classes methods klass super super_c super_vtable i :
  inherited_vtable_ok classes methods klass = true →
  super_class klass = Some super →
  classes !! super = Some super_c →
  vtable super_c = Some super_vtable →
  (i < length super_vtable)%nat →
  ∃ a am, super_vtable !! i = Some (Some a) ∧ (a ∉ virtual_methods klass)
          ∧ methods !! a = Some am
          ∧ method_index am = Z.land (Z.of_nat i) 0xFFFF.
Proof.
  unfold inherited_vtable_ok. intros H Hs Hc Hv Hi.
  rewrite Hs in H. simpl in H. rewrite Hc in H. simpl in H. rewrite Hv in H.
  destruct (lookup_lt_is_Some_2 super_vtable i Hi) as [e He].
  eapply (forallb_lookup _ _ i (i, e)) in H; [|by rewrite list_lookup_imap, He].
  simpl in H. unfold inherited_slot_ok in H.
  destruct e as [a|]; [|done]. apply andb_prop in H as [H1 H2].
  apply bool_decide_eq_true in H1.
  destruct (methods !! a) as [am|] eqn:Ha; [|done].
  apply bool_decide_eq_true in H2. by exists a, am.
Qed.

(** [LinkVirtualMethods] leaves a vtable in which every slot holds a method
    whose index is the slot. *)
Lemma LinkVirtualMethods_indexed classes methods klass_addr klass klass' methods' :
  LinkVirtualMethods classes methods klass_addr klass = Ok (klass', methods') →
  NoDup (virtual_methods klass) →
  inherited_vtable_ok classes methods klass = true →
  ∃ vt, klass' = SetVTable klass vt ∧ length methods' = length methods
        ∧ ∀ i, (i < length vt)%nat → slot_indexed methods' vt i (Z.of_nat i).
Proof.
  intros H Hnodup Hinh. unfold MethodTables.LinkVirtualMethods in H.
  destruct (super_class klass) as [super|] eqn:Hsuper.
  - apply outcome_bind_Ok in H as (super_c & Hsc & H).
    unfold deref_class in Hsc.
    destruct (classes !! super) as [super_c'|] eqn:Hc; simplify_eq.
    apply outcome_bind_Ok in H as (svt & Hsvt & H).
    destruct (vtable super_c) as [svt'|] eqn:Hv; simplify_eq.
    apply outcome_bind_Ok in H as ([] & _ & H).
    apply outcome_bind_Ok in H as ([[vt n] ms] & Hlink & H).
    destruct (IsUint 16 (Z.of_nat n)) eqn:Huint; [|done]. simpl in H.
    apply outcome_bind_Ok in H as ([] & _ & H).
    pose proof (link_virtual_methods_frame _ _ _ _ _ _ _ _ Hlink) as (Hlen & Hms & Hn).
    rewrite CopyOf_length in Hlen.
    apply IsUint_16_lt in Huint.
    apply link_virtual_methods_indexed in Hlink as [Hnlen Hidx];
      [|done|rewrite CopyOf_length; lia| |].
    + exists (take n vt).
      assert (Htake : (if (n <? length (virtual_methods klass) + length svt)%nat
                       then CopyOf vt n else vt) = take n vt).
      { destruct (n <? _)%nat eqn:Hlt.
        - apply CopyOf_shrink. lia.
        - apply Nat.ltb_ge in Hlt. rewrite take_ge; [done|lia]. }
      rewrite Htake in H. simplify_eq. split_and!; [done|done|].
      intros i Hi. rewrite length_take in Hi.
      destruct (Hidx i) as (a & am & Ha & Ham & Hindex); [lia|].
      exists a, am. rewrite lookup_take_lt by lia. done.
    + intros i Hi.
      destruct (inherited_vtable_ok_lookup _ _ _ _ _ _ i Hinh Hsuper Hc Hv Hi)
        as (a & am & Ha & _ & Ham & Hindex).
      exists a, am. rewrite CopyOf_lookup_lt by lia.
      split_and!; [done|done|]. rewrite Hindex. apply land_0xFFFF_small. lia.
    + intros i a Hi Ha. rewrite CopyOf_lookup_lt in Ha by lia.
      destruct (inherited_vtable_ok_lookup _ _ _ _ _ _ i Hinh Hsuper Hc Hv Hi)
        as (a' & am & Ha' & Hfresh & _). by simplify_eq.
  - apply outcome_bind_Ok in H as ([] & _ & H).
    destruct (IsUint 16 (Z.of_nat (length (virtual_methods klass)))) eqn:Huint; [|done].
    simpl in H. apply outcome_bind_Ok in H as ([vt ms] & Hlink & H). simplify_eq.
    apply IsUint_16_lt in Huint.
    apply link_root_methods_indexed in Hlink as (Hlen & Hms & Hidx);
      [|done|by rewrite length_replicate|by rewrite length_replicate
       |intros; lia|intros; lia].
    exists vt. split_and!; [done|done|].
    intros i Hi. apply Hidx. rewrite Hlen, length_replicate in Hi. simpl. lia.
Qed.

End virtual_methods.

Section interface_methods.
Context (CanAccessMember : Addr → Addr → Z → bool) (java_lang_Object : Addr).
Context (kImtSize : nat) (kAccMiranda : Z).
Context (default_imt : list (option Addr)) (imt_conflict_method : Addr).

Local Abbreviation imt_install := (imt_install imt_conflict_method).
Local Abbreviation imt_index_of := (imt_index_of kImtSize).
Local Abbreviation link_interface_method :=
  (link_interface_method kImtSize imt_conflict_method).
Local Abbreviation link_interface := (link_interface kImtSize imt_conflict_method).
Local Abbreviation link_iftable := (link_iftable kImtSize imt_conflict_method).
Local Abbreviation fill_imt := (fill_imt imt_conflict_method).
Local Abbreviation install_mirandas := (install_mirandas kAccMiranda).
Local Abbreviation LinkInterfaceMethods :=
  (LinkInterfaceMethods kImtSize kAccMiranda default_imt imt_conflict_method).
Local Abbreviation LinkMethods :=
  (LinkMethods CanAccessMember java_lang_Object kImtSize kAccMiranda default_imt
     imt_conflict_method).
Local Abbreviation implementation_of := (implementation_of kImtSize).
Local Abbreviation imt_writes := (imt_writes kImtSize).
Local Abbreviation imt_slot_during := (imt_slot_during imt_conflict_method).
Local Abbreviation imt_entry := (imt_entry imt_conflict_method).
Local Abbreviation imt_holds := (imt_holds kImtSize imt_conflict_method).
Local Abbreviation initial_link_state := (initial_link_state kImtSize).

(** *** The store only grows, by the clones *)

(** From [st] to [st'] methods were cloned, each to the end of the store and
    of the miranda list. *)
Lemma link_interface_method_allocates vt im j arr st arr' st' :
  link_interface_method vt im j arr st = Ok (arr', st') →
  ∃ extra, methods_ st' = methods_ st ++ extra
           ∧ miranda_list st'
             = miranda_list st ++ seq (length (methods_ st)) (length extra).
Proof.
  unfold MethodTables.link_interface_method.
  intros (imh & _ & H)%outcome_bind_Ok.
  apply outcome_bind_Ok in H as ([vm|] & _ & H).
  - apply outcome_bind_Ok in H as ([t e] & _ & H). simplify_eq. simpl.
    exists []. by rewrite !app_nil_r.
  - apply outcome_bind_Ok in H as ([mir|] & _ & H); simplify_eq; simpl.
    + exists []. by rewrite !app_nil_r.
    + by exists [imh].
Qed.

Lemma allocates_trans (st1 st2 st3 : LinkState) :
  (∃ extra, methods_ st2 = methods_ st1 ++ extra
            ∧ miranda_list st2
              = miranda_list st1 ++ seq (length (methods_ st1)) (length extra)) →
  (∃ extra, methods_ st3 = methods_ st2 ++ extra
            ∧ miranda_list st3
              = miranda_list st2 ++ seq (length (methods_ st2)) (length extra)) →
  ∃ extra, methods_ st3 = methods_ st1 ++ extra
           ∧ miranda_list st3
             = miranda_list st1 ++ seq (length (methods_ st1)) (length extra).
Proof.
  intros (e1 & Hm1 & Hl1) (e2 & Hm2 & Hl2). exists (e1 ++ e2).
  rewrite Hm2, Hl2, Hm1, Hl1, length_app, <- !app_assoc. split; [done|].
  f_equal. by rewrite length_app, seq_app.
Qed.

Lemma link_interface_allocates vt ims j arr st arr' st' :
  link_interface vt ims j arr st = Ok (arr', st') →
  ∃ extra, methods_ st' = methods_ st ++ extra
           ∧ miranda_list st'
             = miranda_list st ++ seq (length (methods_ st)) (length extra).
Proof.
  revert j arr st. induction ims as [|im ims IH]; intros j arr st H.
  - simpl in H. simplify_eq. exists []. by rewrite !app_nil_r.
  - simpl in H. apply outcome_bind_Ok in H as ([arr1 st1] & H1 & H).
    eapply allocates_trans; [by eapply link_interface_method_allocates|by eapply IH].
Qed.

Lemma link_iftable_allocates classes vto rows st rows' st' :
  link_iftable classes vto rows st = Ok (rows', st') →
  ∃ extra, methods_ st' = methods_ st ++ extra
           ∧ miranda_list st'
             = miranda_list st ++ seq (length (methods_ st)) (length extra).
Proof.
  revert st rows' st'. induction rows as [|row rows IH]; intros st rows' st' H.
  - simpl in H. simplify_eq. exists []. by rewrite !app_nil_r.
  - simpl in H. apply outcome_bind_Ok in H as (ic & _ & H).
    destruct (0 <? length (virtual_methods ic))%nat.
    + apply outcome_bind_Ok in H as (vt & _ & H).
      apply outcome_bind_Ok in H as ([arr st1] & H1 & H).
      apply outcome_bind_Ok in H as ([rest st2] & H2 & H). simplify_eq.
      eapply allocates_trans; [by eapply link_interface_allocates|by eapply IH].
    + apply outcome_bind_Ok in H as ([rest st2] & H2 & H). simplify_eq.
      by eapply IH.
Qed.

(** *** The miranda methods get the slots after the old table *)

Lemma SetAccessFlags_length methods m flags :
  length (SetAccessFlags methods m flags) = length methods.
Proof. unfold SetAccessFlags. by rewrite length_alter. Qed.

Lemma SetAccessFlags_eq methods m flags am :
  methods !! m = Some am →
  SetAccessFlags methods m flags !! m = Some (SetAccessFlags_ flags am).
Proof.
  intros H. unfold SetAccessFlags.
  rewrite list_lookup_alter, decide_True by done. by rewrite H.
Qed.

Lemma SetAccessFlags_ne methods m flags a :
  a ≠ m → SetAccessFlags methods m flags !! a = methods !! a.
Proof.
  intros H. unfold SetAccessFlags.
  by rewrite list_lookup_alter, decide_False by done.
Qed.

Lemma install_mirandas_slots k b i old virtuals vt ms virtuals' vt' ms' :
  install_mirandas (seq b k) i old virtuals vt ms = Ok (virtuals', vt', ms') →
  (old + i + k ≤ length vt)%nat →
  length vt' = length vt
  ∧ (∀ a, (a < b)%nat → ms' !! a = ms !! a)
  ∧ (∀ p, (p < old + i)%nat → vt' !! p = vt !! p)
  ∧ (∀ j, (j < k)%nat →
       ∃ am, vt' !! (old + i + j)%nat = Some (Some (b + j)%nat)
             ∧ ms' !! (b + j)%nat = Some am
             ∧ method_index am = Z.land 0xFFFF (Z.of_nat (old + i + j))).
Proof.
  revert b i virtuals vt ms.
  induction k as [|k IH]; intros b i virtuals vt ms H Hlen.
  - simpl in H. simplify_eq. split_and!; [done|done|done|]. intros; lia.
  - simpl in H. apply outcome_bind_Ok in H as (m & Hm & H).
    unfold deref_method in Hm. destruct (ms !! b) as [m'|] eqn:Hb; simplify_eq.
    apply IH in H as (Hl & Hms & Hvt & Hslots); [|rewrite length_insert; lia].
    rewrite length_insert in Hl. split_and!; [done| | |].
    + intros a Ha. rewrite Hms by lia.
      rewrite SetMethodIndex_ne, SetAccessFlags_ne by lia. done.
    + intros p Hp. rewrite Hvt by lia. by rewrite list_lookup_insert_ne by lia.
    + intros j Hj. destruct j as [|j].
      * rewrite !Nat.add_0_r. rewrite Hvt, Hms by lia.
        rewrite list_lookup_insert_eq by lia.
        erewrite SetMethodIndex_eq; [|by apply SetAccessFlags_eq].
        eexists. split_and!; [done|done|done].
      * destruct (Hslots j) as (am & H1 & H2 & H3); [lia|].
        exists am.
        replace (old + i + S j)%nat with (old + S i + j)%nat by lia.
        replace (b + S j)%nat with (S b + j)%nat by lia. done.
Qed.

(** *** The ways through [LinkInterfaceMethods] *)

(** A successful call for a class that is no interface either ends early,
    with the default table and nothing else changed but the iftable, or
    runs the loops over the rows of a new iftable and then gives the miranda
    methods their slots. *)
Lemma LinkInterfaceMethods_inv classes methods klass interfaces klass' methods' :
  LinkInterfaceMethods classes methods klass interfaces = Ok (klass', methods') →
  is_interface klass = false →
  (methods' = methods ∧ vtable klass' = vtable klass ∧ imtable klass' = default_imt
   ∧ (iftable klass' = iftable klass
      ∨ iftable klass' = (super_class klass ≫= (classes !!.)) ≫= iftable
        ∧ existsb (λ e, (0 <? GetMethodArrayCount e)%nat) (default [] (iftable klass'))
          = false))
  ∨ ∃ rows rows' st vt,
      vtable klass = Some vt
      ∧ link_iftable classes (Some vt) rows (initial_link_state methods) = Ok (rows', st)
      ∧ iftable klass' = Some rows'
      ∧ imtable klass'
        = (if imtable_changed st then fill_imt (imtable_ st) else default_imt)
      ∧ (miranda_list st = [] ∧ methods' = methods_ st ∧ vtable klass' = Some vt
         ∨ ∃ virtuals vt',
             install_mirandas (miranda_list st) 0 (length vt) (virtual_methods klass)
               (CopyOf vt (length vt + length (miranda_list st))) (methods_ st)
             = Ok (virtuals, vt', methods')
             ∧ vtable klass' = Some vt').
Proof.
  intros H Hni. unfold MethodTables.LinkInterfaceMethods in H.
  apply outcome_bind_Ok in H as (super_c & Hsc & H).
  assert (Hsuper : super_c = super_class klass ≫= (classes !!.)).
  { simpl in Hsc. destruct (super_class klass) as [super|]; simpl in *; [|by simplify_eq].
    apply outcome_bind_Ok in Hsc as (c & Hc & Hsc). unfold deref_class in Hc.
    destruct (classes !! super); by simplify_eq. }
  apply outcome_bind_Ok in H as (inherited & _ & H).
  destruct (_ =? 0)%nat; [left; simplify_eq; simpl; by eauto|].
  destruct (_ && _) eqn:Hmarker.
  { left. simplify_eq. simpl. split_and!; [done|done|done|]. right.
    apply andb_prop in Hmarker as [_ Hmarker]. apply negb_true_iff in Hmarker.
    by split. }
  apply outcome_bind_Ok in H as ([rows idx] & _ & H).
  apply outcome_bind_Ok in H as ([] & _ & H).
  simpl in H. rewrite Hni in H.
  apply outcome_bind_Ok in H as ([rows' st] & Hlink & H).
  apply outcome_bind_Ok in H as ([klass1 methods1] & Hmir & H).
  apply outcome_bind_Ok in H as (vt' & Hvt' & H).
  apply outcome_bind_Ok in H as ([] & _ & H). simplify_eq.
  right. exists (take idx rows), rows', st.
  destruct (vtable klass) as [vt|] eqn:Hvt.
  - exists vt. split; [done|]. split; [done|].
    destruct (miranda_list st) as [|mir mirs] eqn:Hlist.
    + simplify_eq. destruct (imtable_changed st); simpl; eauto 10.
    + apply outcome_bind_Ok in Hmir as (vt1 & Hvt1 & Hmir).
      assert (vt1 = vt) as ->.
      { destruct (imtable_changed st); simpl in Hvt1; rewrite Hvt in Hvt1;
          by simplify_eq. }
      apply outcome_bind_Ok in Hmir as ([[virtuals vt2] ms2] & Hinst & Hmir).
      simplify_eq. simpl.
      split_and!; [by destruct (imtable_changed st)|by destruct (imtable_changed st)|].
      right. exists virtuals, vt2. split; [|done].
      rewrite <- Hinst. by destruct (imtable_changed st).
  - exfalso. destruct (miranda_list st) as [|mir mirs].
    + simplify_eq. destruct (imtable_changed st); simpl in Hvt'; rewrite Hvt in Hvt';
        done.
    + apply outcome_bind_Ok in Hmir as (vt1 & Hvt1 & Hmir).
      destruct (imtable_changed st); simpl in Hvt1; rewrite Hvt in Hvt1; done.
Qed.

(** C10: after [LinkVirtualMethods] and [LinkInterfaceMethods] have succeeded
    on a class (one that is no interface, whose declared virtual methods are
    distinct objects, and whose superclass, if any, has a vtable with the
    property), every slot [i] of the vtable of the class holds a method of
    the store whose method index is [i]; for a miranda method, cloned
    during the call and so not in the store before, it is [i] cut to 16
    bits. *)
Theorem LinkMethods_slot_is_method_index
    classes methods klass_addr klass interfaces klass' methods' :
  is_interface klass = false →
  NoDup (virtual_methods klass) →
  inherited_vtable_ok classes methods klass = true →
  LinkMethods classes methods klass_addr klass interfaces = Ok (klass', methods') →
  ∃ vt, vtable klass' = Some vt
        ∧ ∀ i, (i < length vt)%nat →
            ∃ m am, vt !! i = Some (Some m) ∧ methods' !! m = Some am
                    ∧ method_index am
                      = if decide (m < length methods)%nat then Z.of_nat i
                        else Z.land 0xFFFF (Z.of_nat i).
Proof.
  intros Hni Hnodup Hinh H. unfold MethodTables.LinkMethods in H. rewrite Hni in H.
  apply outcome_bind_Ok in H as ([klass1 ms1] & Hvirtual & H).
  apply LinkVirtualMethods_indexed in Hvirtual as (vt1 & -> & Hlen & Hidx);
    [|done|done].
  apply LinkInterfaceMethods_inv in H
    as [(-> & Hvt & _)|(rows & rows' & st & vt & Hvt & Hlink & _ & _ & Hmir)];
    [| |done].
  - exists vt1. split; [done|]. intros i Hi.
    destruct (Hidx i Hi) as (m & am & Hm & Ham & Hindex). exists m, am.
    rewrite decide_True by (rewrite <- Hlen; by eapply lookup_lt_Some). done.
  - simpl in Hvt. simplify_eq.
    apply link_iftable_allocates in Hlink as (extra & Hms & Hlist).
    simpl in Hms, Hlist.
    destruct Hmir as [(_ & -> & Hvt')|(virtuals & vt' & Hinst & Hvt')].
    + exists vt. split; [done|]. intros i Hi.
      destruct (Hidx i Hi) as (m & am & Hm & Ham & Hindex). exists m, am.
      rewrite decide_True by (rewrite <- Hlen; by eapply lookup_lt_Some).
      rewrite Hms. split_and!; [done|by apply lookup_app_l_Some|done].
    + exists vt'. split; [done|]. rewrite Hlist in Hinst.
      apply install_mirandas_slots in Hinst as (Hl & Hstore & Hold & Hnew);
        [|rewrite CopyOf_length, length_seq; lia].
      rewrite CopyOf_length, length_seq in Hl.
      intros i Hi. destruct (decide (i < length vt)%nat) as [Hlt|Hge].
      * destruct (Hidx i Hlt) as (m & am & Hm & Ham & Hindex). exists m, am.
        assert (m < length ms1)%nat by by eapply lookup_lt_Some.
        rewrite decide_True by lia.
        rewrite Hold, CopyOf_lookup_lt by lia. rewrite Hstore, Hms by done.
        split_and!; [done|by apply lookup_app_l_Some|done].
      * destruct (Hnew (i - length vt)%nat) as (am & Hm & Ham & Hindex); [lia|].
        replace (length vt + 0 + (i - length vt))%nat with i in * by lia.
        exists (length ms1 + (i - length vt))%nat, am.
        rewrite decide_False by lia. done.
Qed.

(** *** The interface method table *)

Lemma search_vtable_backward_extend methods extra interface_mh slots :
  forallb (in_store methods) slots = true →
  search_vtable_backward (methods ++ extra) interface_mh slots
  = search_vtable_backward methods interface_mh slots.
Proof.
  induction slots as [|entry rest IH]; intros H; [done|].
  apply andb_prop in H as [(m & am & -> & Hm)%in_store_lookup Hrest].
  simpl. unfold deref_method. rewrite (lookup_app_l_Some _ _ _ _ Hm), Hm. simpl.
  by rewrite IH.
Qed.

Lemma forallb_reverse {A} (f : A → bool) (l : list A) :
  forallb f l = true → forallb f (reverse l) = true.
Proof.
  rewrite !forallb_forall. intros H x Hx. apply H.
  apply list_elem_of_In. apply list_elem_of_In in Hx. by apply elem_of_reverse.
Qed.

Lemma writes_to_app slot ws1 ws2 :
  writes_to slot (ws1 ++ ws2) = writes_to slot ws1 ++ writes_to slot ws2.
Proof. unfold writes_to. apply filter_app. Qed.

Lemma writes_to_hit slot (vm : Addr) : writes_to slot [(slot, vm)] = [(slot, vm)].
Proof. unfold writes_to. by rewrite filter_cons_True. Qed.

Lemma writes_to_miss slot slot' (vm : Addr) : slot ≠ slot' → writes_to slot [(slot', vm)] = [].
Proof. intros. unfold writes_to. by rewrite filter_cons_False by (simpl; congruence). Qed.

(** A write keeps the table what the writes so far say, and the first
    write finds its slot empty. *)
Lemma imt_install_holds ws imtable slot vm imtable' was_empty :
  imt_holds ws imtable →
  imt_install imtable slot vm = Ok (imtable', was_empty) →
  imt_holds (ws ++ [(slot, vm)]) imtable' ∧ (ws = [] → was_empty = true).
Proof.
  intros [Hlen Hslots] H. unfold MethodTables.imt_install in H.
  destruct (imtable !! slot) as [e|] eqn:Hslot; [|done].
  assert (Hlt : (slot < kImtSize)%nat) by (rewrite <- Hlen; by eapply lookup_lt_Some).
  pose proof (Hslots slot Hlt) as Hduring. rewrite Hslot in Hduring.
  assert (Hother : ∀ s x, (s < kImtSize)%nat → s ≠ slot →
            <[slot := x]> imtable !! s
            = Some (imt_slot_during (ws ++ [(slot, vm)]) s)).
  { intros s x Hs Hne. rewrite list_lookup_insert_ne by done.
    rewrite Hslots by done. unfold MethodTables.imt_slot_during.
    by rewrite writes_to_app, writes_to_miss, app_nil_r. }
  unfold MethodTables.imt_slot_during in Hduring.
  destruct e as [occupant|]; simplify_eq.
  - split; [|intros ->; by rewrite ?Hduring in *].
    split; [by rewrite length_insert|].
    intros s Hs. destruct (decide (s = slot)) as [->|Hne]; [|by apply Hother].
    rewrite list_lookup_insert_eq by lia.
    unfold MethodTables.imt_slot_during. rewrite writes_to_app, writes_to_hit.
    by destruct (writes_to slot ws) as [|w1 [|w2 l]].
  - split; [|done].
    split; [by rewrite length_insert|].
    intros s Hs. destruct (decide (s = slot)) as [->|Hne]; [|by apply Hother].
    rewrite list_lookup_insert_eq by lia.
    unfold MethodTables.imt_slot_during. rewrite writes_to_app, writes_to_hit.
    by destruct (writes_to slot ws) as [|w1 [|w2 l]].
Qed.

Lemma link_interface_method_writes methods0 vt im j arr st arr' st' ws :
  link_interface_method vt im j arr st = Ok (arr', st') →
  forallb (in_store methods0) vt = true →
  (im < length methods0)%nat →
  (∃ extra, methods_ st = methods0 ++ extra) →
  imt_holds ws (imtable_ st) →
  imtable_changed st = bool_decide (ws ≠ []) →
  imt_holds (ws ++ option_list (implementation_of methods0 vt im)) (imtable_ st')
  ∧ imtable_changed st'
    = bool_decide (ws ++ option_list (implementation_of methods0 vt im) ≠ []).
Proof.
  intros H Hvt Him [extra Hext] Hholds Hchanged.
  unfold MethodTables.link_interface_method in H. rewrite Hext in H.
  destruct (lookup_lt_is_Some_2 methods0 im Him) as [imh Himh].
  unfold deref_method in H at 1. rewrite (lookup_app_l_Some _ _ _ _ Himh) in H. simpl in H.
  rewrite search_vtable_backward_extend in H by by apply forallb_reverse.
  unfold MethodTables.implementation_of. rewrite Himh.
  destruct (search_vtable_backward methods0 imh (reverse vt)) as [[vm|]| |];
    simpl in H; [| |done|done].
  - apply outcome_bind_Ok in H as ([t e] & Hinstall & H). simplify_eq. simpl.
    destruct (imt_install_holds _ _ _ _ _ _ Hholds Hinstall) as [Hholds' Hfirst].
    split; [done|]. rewrite Hchanged.
    rewrite (bool_decide_eq_true_2 (ws ++ _ ≠ [])) by by destruct ws.
    destruct ws; [by rewrite Hfirst|by rewrite orb_true_r].
  - rewrite app_nil_r.
    apply outcome_bind_Ok in H as ([mir|] & _ & H); by simplify_eq.
Qed.

Lemma link_interface_writes methods0 vt ims j arr st arr' st' ws :
  link_interface vt ims j arr st = Ok (arr', st') →
  forallb (in_store methods0) vt = true →
  forallb (λ m, bool_decide (m < length methods0)%nat) ims = true →
  (∃ extra, methods_ st = methods0 ++ extra) →
  imt_holds ws (imtable_ st) →
  imtable_changed st = bool_decide (ws ≠ []) →
  (∃ extra, methods_ st' = methods0 ++ extra)
  ∧ imt_holds (ws ++ (ims ≫= λ im, option_list (implementation_of methods0 vt im)))
      (imtable_ st')
  ∧ imtable_changed st'
    = bool_decide
        (ws ++ (ims ≫= λ im, option_list (implementation_of methods0 vt im)) ≠ []).
Proof.
  revert j arr st ws.
  induction ims as [|im ims IH]; intros j arr st ws H Hvt Hims Hext Hholds Hchanged.
  - simpl in H. simplify_eq. simpl. by rewrite app_nil_r.
  - simpl in H. apply outcome_bind_Ok in H as ([arr1 st1] & H1 & H).
    apply andb_prop in Hims as [Him%bool_decide_eq_true Hims].
    destruct (link_interface_method_writes _ _ _ _ _ _ _ _ _ H1 Hvt Him Hext Hholds
                Hchanged) as [Hholds1 Hchanged1].
    assert (Hext1 : ∃ extra, methods_ st1 = methods0 ++ extra).
    { destruct Hext as [e0 He0].
      apply link_interface_method_allocates in H1 as (e1 & He1 & _).
      exists (e0 ++ e1). by rewrite He1, He0, app_assoc. }
    rewrite bind_cons, app_assoc. by eapply IH.
Qed.

Lemma link_iftable_writes classes methods0 vt rows st rows' st' ws :
  link_iftable classes (Some vt) rows st = Ok (rows', st') →
  forallb (in_store methods0) vt = true →
  interface_methods_in_store classes methods0 rows = true →
  (∃ extra, methods_ st = methods0 ++ extra) →
  imt_holds ws (imtable_ st) →
  imtable_changed st = bool_decide (ws ≠ []) →
  interface <$> rows' = interface <$> rows
  ∧ imt_holds (ws ++ imt_writes classes methods0 vt rows) (imtable_ st')
  ∧ imtable_changed st' = bool_decide (ws ++ imt_writes classes methods0 vt rows ≠ []).
Proof.
  revert st rows' st' ws.
  induction rows as [|row rows IH];
    intros st rows' st' ws H Hvt Hrows Hext Hholds Hchanged.
  - simpl in H. simplify_eq. unfold MethodTables.imt_writes. simpl.
    by rewrite app_nil_r.
  - simpl in H. apply outcome_bind_Ok in H as (ic & Hic & H).
    unfold interface_methods_in_store in Hrows. simpl in Hrows.
    apply andb_prop in Hrows as [Hrow Hrows].
    assert (Hic' : interface row ≫= (classes !!.) = Some ic).
    { destruct (interface row) as [i|]; [|done]. simpl. unfold deref_class in Hic.
      destruct (classes !! i); by simplify_eq. }
    rewrite Hic' in Hrow.
    assert (Hw : imt_writes classes methods0 vt (row :: rows)
                 = (virtual_methods ic
                      ≫= λ im, option_list (implementation_of methods0 vt im))
                   ++ imt_writes classes methods0 vt rows).
    { unfold MethodTables.imt_writes. rewrite bind_cons, Hic'. simpl.
      by rewrite app_nil_r. }
    rewrite Hw, app_assoc.
    destruct (0 <? length (virtual_methods ic))%nat eqn:Hnum.
    + simpl in H. apply outcome_bind_Ok in H as ([arr st1] & H1 & H).
      apply outcome_bind_Ok in H as ([rest st2] & H2 & H). simplify_eq.
      destruct (link_interface_writes _ _ _ _ _ _ _ _ _ H1 Hvt Hrow Hext Hholds
                  Hchanged) as (Hext1 & Hholds1 & Hchanged1).
      destruct (IH _ _ _ _ H2 Hvt Hrows Hext1 Hholds1 Hchanged1) as (Hi & ? & ?).
      split_and!; [|done|done]. by rewrite !fmap_cons, Hi.
    + apply Nat.ltb_ge in Hnum.
      destruct (virtual_methods ic); [|simpl in Hnum; lia].
      simpl. rewrite app_nil_r.
      apply outcome_bind_Ok in H as ([rest st2] & H2 & H). simplify_eq.
      destruct (IH _ _ _ _ H2 Hvt Hrows Hext Hholds Hchanged) as (Hi & ? & ?).
      split_and!; [|done|done]. by rewrite !fmap_cons, Hi.
Qed.

(** The writes and the check of the interface methods read the interfaces
    of the rows only. *)
Lemma imt_writes_interfaces classes methods vt rows rows' :
  interface <$> rows' = interface <$> rows →
  imt_writes classes methods vt rows' = imt_writes classes methods vt rows.
Proof.
  revert rows'. induction rows as [|row rows IH]; intros [|row' rows'] H;
    try done.
  simpl in H. injection H as Hrow Hrest.
  unfold MethodTables.imt_writes. rewrite !bind_cons, Hrow. f_equal. by apply IH.
Qed.

Lemma interface_methods_in_store_interfaces classes methods rows rows' :
  interface <$> rows' = interface <$> rows →
  interface_methods_in_store classes methods rows'
  = interface_methods_in_store classes methods rows.
Proof.
  revert rows'. induction rows as [|row rows IH]; intros [|row' rows'] H;
    try done.
  simpl in H. injection H as Hrow Hrest.
  unfold interface_methods_in_store. simpl. rewrite Hrow. f_equal. by apply IH.
Qed.

(** Rows without method arrays, in a linked class, are rows of interfaces
    without methods: they make no writes. *)
Lemma imt_writes_markers classes methods vt rows :
  rows_have_method_arrays classes rows = true →
  existsb (λ e, (0 <? GetMethodArrayCount e)%nat) rows = false →
  imt_writes classes methods vt rows = [].
Proof.
  induction rows as [|row rows IH]; intros Hlinked Hmarkers; [done|].
  unfold rows_have_method_arrays in Hlinked. simpl in Hlinked, Hmarkers.
  apply andb_prop in Hlinked as [Hrow Hlinked].
  apply orb_false_elim in Hmarkers as [Hcount Hmarkers].
  unfold MethodTables.imt_writes. rewrite bind_cons.
  fold (imt_writes classes methods vt rows). rewrite IH, app_nil_r by done.
  destruct (interface row ≫= (classes !!.)) as [ic|]; [|done]. simpl.
  rewrite Hcount, orb_false_r in Hrow. apply bool_decide_eq_true in Hrow.
  by rewrite Hrow.
Qed.

Lemma fill_imt_lookup (imtable : list (option Addr)) slot e :
  imtable !! slot = Some e →
  fill_imt imtable !! slot = Some (Some (default imt_conflict_method e)).
Proof.
  intros H. unfold MethodTables.fill_imt. rewrite list_lookup_fmap, H. by destruct e.
Qed.

Lemma imt_entry_during ws slot :
  default imt_conflict_method (imt_slot_during ws slot) = imt_entry ws slot.
Proof.
  unfold MethodTables.imt_slot_during, MethodTables.imt_entry.
  by destruct (writes_to slot ws) as [|w1 [|w2 l]].
Qed.

Lemma imt_holds_initial methods :
  imt_holds [] (imtable_ (initial_link_state methods)).
Proof.
  split; [apply length_replicate|]. intros slot Hslot. simpl.
  by rewrite lookup_replicate_2.
Qed.

Lemma link_iftable_interfaces classes vto rows st rows' st' :
  link_iftable classes vto rows st = Ok (rows', st') →
  interface <$> rows' = interface <$> rows.
Proof.
  revert st rows' st'. induction rows as [|row rows IH]; intros st rows' st' H.
  - simpl in H. by simplify_eq.
  - simpl in H. apply outcome_bind_Ok in H as (ic & _ & H).
    destruct (0 <? length (virtual_methods ic))%nat.
    + apply outcome_bind_Ok in H as (vt & _ & H).
      apply outcome_bind_Ok in H as ([arr st1] & _ & H).
      apply outcome_bind_Ok in H as ([rest st2] & H2 & H). simplify_eq.
      rewrite !fmap_cons. f_equal. by eapply IH.
    + apply outcome_bind_Ok in H as ([rest st2] & H2 & H). simplify_eq.
      rewrite !fmap_cons. f_equal. by eapply IH.
Qed.

End interface_methods.
(** *** The two worlds *)

(** C1, as the specification has it, does not hold: the slots 0 ([A.foo])
    and 1 ([B.foo]) of the vtable that [C] inherits both hold a method with
    the name and signature of [C.foo] that [C] may access; a scan from the end
    meets slot 1 first, but [LinkVirtualMethods] puts [C.foo] into slot 0,
    gives it the method index 0 and leaves [B.foo] in slot 1. *)
Lemma LinkVirtualMethods_scans_from_slot_0 :
  vtable class_B = Some [Some A_foo; Some B_foo]
  ∧ (∀ local_mh, example_methods !! C_foo = Some local_mh →
       permitted_match example_access example_methods addr_C local_mh (Some A_foo) = true
       ∧ permitted_match example_access example_methods addr_C local_mh (Some B_foo) = true
       ∧ override_slot_from_end example_access example_methods addr_C local_mh
           [Some A_foo; Some B_foo] = Some 1%nat)
  ∧ ∃ klass' methods',
      LinkVirtualMethods example_access 0%nat example_classes example_methods
        addr_C class_C = Ok (klass', methods')
      ∧ vtable klass' = Some [Some C_foo; Some B_foo; Some C_bar]
      ∧ method_index <$> methods' !! C_foo = Some 0.
Proof.
  split; [done|]. split.
  - intros local_mh [= <-]. by vm_compute.
  - eexists _, _. split; [by vm_compute|]. by vm_compute.
Qed.

Lemma LinkVirtualMethods_first_permitted_match_witness :
  link_virtual_methods example_access addr_C ([] ++ [C_foo])
    (CopyOf [Some A_foo; Some B_foo]
       (length (virtual_methods class_C) + length [Some A_foo; Some B_foo]))
    (length [Some A_foo; Some B_foo]) example_methods
  = Ok (<[0%nat := Some C_foo]> [Some A_foo; Some B_foo; None; None], 2%nat,
        SetMethodIndex example_methods C_foo 0)
  ∧ <[0%nat := Some C_foo]> [Some A_foo; Some B_foo; None; None] !! 0%nat
    = Some (Some C_foo)
  ∧ method_index <$> SetMethodIndex example_methods C_foo 0 !! C_foo = Some 0.
Proof.
  destruct (LinkVirtualMethods_first_permitted_match example_access 0%nat
              example_classes example_methods addr_C class_C addr_B class_B
              [Some A_foo; Some B_foo] [] C_foo [C_bar]
              [Some A_foo; Some B_foo; None; None] 2%nat example_methods
              (mkArtMethod "foo" "()V" addr_C kAccPublic 0 12)
              eq_refl eq_refl eq_refl eq_refl eq_refl eq_refl eq_refl)
    as [Hoverride _].
  apply (Hoverride 0%nat A_foo (mkArtMethod "foo" "()V" addr_A 0 0 10)).
  - lia.
  - reflexivity.
  - reflexivity.
  - reflexivity.
  - intros i e Hi. lia.
Defined.

(** How [B] came to the two slots: [B] is not in the package of [A], may not
    access the package-private [A.foo], and so its [foo] is appended. *)
Example package_private_method_is_not_overridden :
  ∃ klass' methods',
    LinkVirtualMethods example_access 0%nat example_classes example_methods addr_B
      (mkClass false (Some addr_A) [] [B_foo] None None [])
    = Ok (klass', methods')
    ∧ vtable klass' = Some [Some A_foo; Some B_foo].
Proof. eexists _, _. split; by vm_compute. Qed.

(** Scenario 1 of the specification: [Base] has [foo] in slot 3, [Sub]
    overrides it; slot 3 of the vtable of [Sub] holds [Sub.foo], and the
    table has no new slot. *)
Example override_keeps_the_slot :
  ∃ klass' methods',
    LinkVirtualMethods example_access 0%nat scenario_1_classes scenario_1_methods
      addr_Sub class_Sub = Ok (klass', methods')
    ∧ vtable klass' = Some [Some 0%nat; Some 1%nat; Some 2%nat; Some Sub_foo]
    ∧ method_index <$> methods' !! Sub_foo = Some 3.
Proof. eexists _, _. split; by vm_compute. Qed.

(** The same with a final [Base.foo]: linking [Sub] fails. *)
Example override_of_final_method_fails :
  LinkVirtualMethods example_access 0%nat scenario_1_classes
    (SetAccessFlags scenario_1_methods Base_foo (Z.lor kAccPublic kAccFinal))
    addr_Sub class_Sub
  = Throws "Ljava/lang/LinkageError;".
Proof. by vm_compute. Qed.

(** The whole table of [K]: [run] and [close] met in slot 0, [stop] is alone in
    slot 2, the slots 1 and 3 were never written. *)
Example imt_of_K :
  ∃ klass' methods',
    LinkInterfaceMethods example_kImtSize example_kAccMiranda all_conflicts
      conflict_method interface_world_classes interface_world_methods class_K_virtual
      None = Ok (klass', methods')
    ∧ imt_writes example_kImtSize interface_world_classes interface_world_methods
        [Some K_run; Some K_stop; Some K_close] (default [] (iftable klass'))
      = [(0%nat, K_run); (2%nat, K_stop); (0%nat, K_close)]
    ∧ imtable klass'
      = [Some conflict_method; Some conflict_method; Some K_stop; Some conflict_method].
Proof. eexists _, _. split; [by vm_compute|]. by vm_compute. Qed.

Lemma LinkMethods_slot_is_method_index_witness :
  ∃ klass' methods',
    LinkMethods example_access 0%nat example_kImtSize example_kAccMiranda all_conflicts
      conflict_method interface_world_classes interface_world_methods addr_K class_K
      None = Ok (klass', methods')
    ∧ ∃ vt, vtable klass' = Some vt
            ∧ ∀ i, (i < length vt)%nat →
                ∃ m am, vt !! i = Some (Some m) ∧ methods' !! m = Some am
                        ∧ method_index am
                          = if decide (m < length interface_world_methods)%nat
                            then Z.of_nat i else Z.land 0xFFFF (Z.of_nat i).
Proof.
  destruct (LinkMethods example_access 0%nat example_kImtSize example_kAccMiranda
              all_conflicts conflict_method interface_world_classes
              interface_world_methods addr_K class_K None)
    as [[klass' methods']| |] eqn:Hrun;
    [|by vm_compute in Hrun|by vm_compute in Hrun].
  exists klass', methods'. split; [done|].
  apply (LinkMethods_slot_is_method_index example_access 0%nat example_kImtSize
           example_kAccMiranda all_conflicts conflict_method interface_world_classes
           interface_world_methods addr_K class_K None klass' methods').
  - reflexivity.
  - apply (bool_decide_unpack _). reflexivity.
  - reflexivity.
  - exact Hrun.
Defined.

(** Scenario 3 of the specification, in small: the method [size] that [K]
    leaves out becomes a miranda method in a new slot, the last one of the
    vtable and of the list of virtual methods. *)
Example miranda_method_of_K :
  ∃ klass' methods',
    LinkMethods example_access 0%nat example_kImtSize example_kAccMiranda all_conflicts
      conflict_method interface_world_classes interface_world_methods addr_K class_K
      None = Ok (klass', methods')
    ∧ vtable klass' = Some [Some K_run; Some K_stop; Some K_close; Some 8%nat]
    ∧ virtual_methods klass' = [K_run; K_stop; K_close; 8%nat]
    ∧ methods' !! 8%nat
      = Some (mkArtMethod "size" "()I" addr_I
                (Z.lor (Z.lor kAccPublic kAccAbstract) example_kAccMiranda) 3 7).
Proof. eexists _, _. split; [by vm_compute|]. by vm_compute. Qed.

End MethodTablesProofs.

(** ** More about the field layout *)

Module FieldRangesProofs.
Import FieldLayout FieldLayoutProofs FieldRanges.

(** *** The comparator *)

Lemma string_compare_irrefl (s : string) : String.compare s s ≠ Lt.
Proof.
  intros H. pose proof (String.compare_antisym s s) as Ha.
  rewrite H in Ha. done.
Qed.

Lemma comp_lt_iff f g :
  LinkFieldsComparator f g = true
  ↔ order_of f < order_of g
    ∨ (order_of f = order_of g ∧ String.compare (field_name f) (field_name g) = Lt).
Proof.
  pose proof (comp_le_iff g f) as H. unfold comp_le, name_le in H.
  destruct (LinkFieldsComparator f g).
  - split; [intros _|done].
    destruct (decide (order_of f < order_of g)) as [?|Hge]; [by left|right].
    assert (Hn : ¬ (order_of g < order_of f
                   ∨ order_of g = order_of f
                     ∧ (strcmp (field_name f) (field_name g) <? 0) = false)).
    { intros Hc. by apply H in Hc. }
    assert (order_of f = order_of g) as Heq.
    { destruct (Z.lt_trichotomy (order_of f) (order_of g)) as [?|[?|?]]; [lia|done|].
      exfalso. apply Hn. by left. }
    split; [done|]. apply strcmp_lt_iff.
    destruct (strcmp (field_name f) (field_name g) <? 0) eqn:E; [done|].
    exfalso. apply Hn. right. by split.
  - split; [done|]. intros Hlt. exfalso.
    destruct (proj1 H eq_refl) as [?|[? Hs]]; destruct Hlt as [?|[? Hc]]; try lia.
    apply strcmp_lt_iff in Hc. congruence.
Qed.

Lemma incomparable_iff f g : incomparable f g ↔ sort_key f = sort_key g.
Proof.
  unfold incomparable. split.
  - intros [H1 H2]. by apply comp_le_antisym_key.
  - unfold sort_key. fold (order_of f) (order_of g). intros [= Ho Hn].
    split; apply not_true_is_false; rewrite comp_lt_iff; rewrite Ho, Hn;
      intros [?|[_ Hc]]; try lia; by apply string_compare_irrefl in Hc.
Qed.

(** X1: [LinkFieldsComparator] is a strict weak ordering, as [std::sort]
    asks of its comparator: no field comes before itself, coming before is
    transitive, and so is being put in neither order. *)
Theorem LinkFieldsComparator_strict_weak_ordering :
  (∀ f, LinkFieldsComparator f f = false)
  ∧ (∀ f g h, LinkFieldsComparator f g = true → LinkFieldsComparator g h = true →
              LinkFieldsComparator f h = true)
  ∧ (∀ f g h, incomparable f g → incomparable g h → incomparable f h).
Proof.
  split_and!.
  - intros f. apply not_true_is_false. rewrite comp_lt_iff. intros [?|[_ Hc]]; [lia|].
    by apply string_compare_irrefl in Hc.
  - intros f g h. rewrite !comp_lt_iff.
    intros [?|[? Hfg]] [?|[? Hgh]]; try (left; lia).
    right. split; [lia|]. by eapply string_compare_lt_trans.
  - intros f g h. rewrite !incomparable_iff. congruence.
Qed.

(** *** The shape of a layout *)

Lemma assign_offsets_lookup off (l : list ArtField) i :
  assign_offsets off l !! i
  = (λ f, SetOffset f (off + total_size (take i l))) <$> l !! i.
Proof.
  revert off i. induction l as [|f l IH]; intros off i; [by destruct i|].
  destruct i as [|i]; simpl.
  - by rewrite Z.add_0_r.
  - rewrite IH. destruct (l !! i); [|done]. simpl. do 2 f_equal. lia.
Qed.

Lemma total_size_nonneg (l : list ArtField) : 0 ≤ total_size l.
Proof.
  induction l as [|f l IH]; simpl; [lia|]. unfold field_size.
  destruct (is64bit_type _); lia.
Qed.

Lemma total_size_mod4 (l : list ArtField) : total_size l mod 4 = 0.
Proof.
  induction l as [|f l IH]; simpl; [done|].
  rewrite Z.add_mod, IH by lia. unfold field_size. by destruct (is64bit_type _).
Qed.

Lemma total_size_take_le (l : list ArtField) i : total_size (take i l) ≤ total_size l.
Proof.
  rewrite <- (take_drop i l) at 2. rewrite total_size_app.
  pose proof (total_size_nonneg (drop i l)). lia.
Qed.

Lemma total_size_take_S (l : list ArtField) i f :
  l !! i = Some f → total_size (take (S i) l) = total_size (take i l) + field_size f.
Proof.
  intros Hi. rewrite (take_S_r _ _ _ Hi), total_size_app. simpl. lia.
Qed.

Lemma total_size_Permutation (l1 l2 : list ArtField) :
  l1 ≡ₚ l2 → total_size l1 = total_size l2.
Proof. induction 1; simpl; lia. Qed.

(** Every field is of one kind. *)
Lemma kind_cases f :
  (is_reference f = true ∧ is_wide f = false ∧ is_narrow f = false)
  ∨ (is_reference f = false ∧ is_wide f = true ∧ is_narrow f = false)
  ∨ (is_reference f = false ∧ is_wide f = false ∧ is_narrow f = true).
Proof.
  unfold is_wide, is_narrow. destruct (is_reference f); [by left|].
  destruct (is64bit_type _); simpl; auto.
Qed.

Lemma total_size_by_kind (l : list ArtField) :
  total_size l
  = 4 * Z.of_nat (length (filter (λ f, is_reference f = true) l))
    + 8 * Z.of_nat (length (filter (λ f, is_wide f = true) l))
    + 4 * Z.of_nat (length (filter (λ f, is_narrow f = true) l)).
Proof.
  induction l as [|f l IH]; [done|]. simpl total_size. rewrite !filter_cons.
  destruct (kind_cases f) as [(Hr & Hw & Hn)|[(Hr & Hw & Hn)|(Hr & Hw & Hn)]];
    rewrite Hr, Hw, Hn; simpl.
  - rewrite (field_size_reference f Hr). lia.
  - rewrite (field_size_wide f Hw). lia.
  - rewrite (field_size_narrow f Hn). lia.
Qed.

(** The layout is the references from the base and, after a gap of no or
    one word, the primitives one after the other. *)
Lemma spec_layout_shape base (refs w64 w32 : list ArtField) :
  Forall (λ f, is_wide f = true) w64 →
  Forall (λ f, is_narrow f = true) w32 →
  let off := base + 4 * Z.of_nat (length refs) in
  ∃ gap prims,
    (spec_layout base refs w64 w32).1
    = assign_offsets base refs ++ assign_offsets (off + gap) prims
    ∧ (spec_layout base refs w64 w32).2 = off + gap + total_size prims
    ∧ (gap = 0 ∧ prims = w64 ++ w32 ∧ (w64 ++ w32 = [] ∨ off mod 8 = 0)
       ∨ gap = 0 ∧ off mod 8 ≠ 0
         ∧ (∃ pad w32', w32 = pad :: w32' ∧ prims = pad :: w64 ++ w32')
       ∨ gap = 4 ∧ off mod 8 ≠ 0 ∧ w32 = [] ∧ prims = w64 ∧ w64 ≠ []).
Proof.
  intros H64 H32 off. unfold spec_layout. fold off.
  pose proof (total_size_const is_wide 8 w64 field_size_wide H64) as Hw.
  destruct (bool_decide (w64 ++ w32 = [])) eqn:Hnil; simpl.
  - apply bool_decide_eq_true in Hnil. apply app_eq_nil in Hnil as [-> ->].
    exists 0, []. simpl. rewrite Z.add_0_r. split_and!; [done|lia|]. left. auto.
  - destruct (Z.eqb_spec (off mod 8) 0) as [Hal|Hal]; simpl.
    + exists 0, (w64 ++ w32). rewrite Z.add_0_r. split_and!; [done| |left; auto].
      rewrite total_size_app, Hw,
        (total_size_const is_narrow 4 w32 field_size_narrow H32). lia.
    + destruct w32 as [|pad w32'].
      * exists 4, w64. rewrite app_nil_r. split_and!; [done|simpl; lia|].
        right; right. split_and!; try done. intros ->.
        by rewrite bool_decide_eq_true_2 in Hnil.
      * apply Forall_cons in H32 as [Hpad H32].
        exists 0, (pad :: w64 ++ w32'). rewrite Z.add_0_r. split_and!.
        -- simpl. do 3 f_equal. by rewrite (field_size_narrow _ Hpad).
        -- simpl. rewrite total_size_app, Hw, (field_size_narrow _ Hpad),
             (total_size_const is_narrow 4 w32' field_size_narrow H32). lia.
        -- right. left. split_and!; [done|done|]. by exists pad, w32'.
Qed.

(** What a successful run leaves in the class object. *)
Lemma LinkFields_result FieldsOffset sort klass is_static klass' :
  std_sort_contract sort →
  LinkFields FieldsOffset sort klass is_static = Some klass' →
  let sorted := sort (fields_of klass is_static) in
  let refs := filter (λ f, is_reference f = true) sorted in
  let w64 := filter (λ f, is_wide f = true) sorted in
  let w32 := filter (λ f, is_narrow f = true) sorted in
  let base := base_offset FieldsOffset klass is_static in
  fields_of klass' is_static = (spec_layout base refs w64 w32).1
  ∧ (is_static || negb (is_variable_size klass) = true →
     size_of klass' is_static = wrap32 (spec_layout base refs w64 w32).2)
  ∧ (is_static = true ∨ descriptor klass ≠ "Ljava/lang/ref/Reference;"%string →
     num_reference_fields_of klass' is_static = Z.of_nat (length refs)).
Proof.
  intros Hsort Hrun sorted refs w64 w32 base.
  rewrite (LinkFields_run FieldsOffset sort Hsort klass is_static) in Hrun.
  cbv zeta in Hrun. fold sorted refs w64 w32 base in Hrun.
  destruct (LinkFields_finish_Some _ _ _ _ _ _ _ Hrun) as [Hfields Hsize].
  split; [done|]. split; [done|]. intros Hplain.
  destruct (initial_field_offset FieldsOffset klass is_static); [|done].
  simpl in Hrun. unfold lie_about_referent in Hrun.
  assert (negb is_static
          && bool_decide (descriptor klass = "Ljava/lang/ref/Reference;"%string)
          = false) as Hlie.
  { destruct Hplain as [->|Hd]; [done|].
    by rewrite (bool_decide_eq_false_2 _ Hd), andb_false_r. }
  rewrite Hlie in Hrun. simpl in Hrun. unfold update_klass in Hrun.
  destruct is_static; simpl in *.
  - by inversion Hrun.
  - destruct (is_variable_size klass); simpl in *; [by inversion Hrun|].
    destruct (negb _ && negb _); [done|]. by inversion Hrun.
Qed.

Lemma buckets_of_sorted sort (l : list ArtField) :
  Forall (λ f, is_wide f = true) (filter (λ f, is_wide f = true) (sort l))
  ∧ Forall (λ f, is_narrow f = true) (filter (λ f, is_narrow f = true) (sort l))
  ∧ Forall (λ f, is_reference f = true)
      (filter (λ f, is_reference f = true) (sort l)).
Proof. split_and!; apply Forall_filter_self. Qed.

(** X2: in the array [LinkFields] leaves, the reference fields come first:
    the field at index [i] is a reference exactly when [i] is below the
    reference count recorded in the class, which is the number of reference
    fields of the class (for every class but [java.lang.ref.Reference], whose
    count is lowered by one).  These are the properties the debug build
    checks after the layout. *)
Theorem LinkFields_references_first
    FieldsOffset sort klass is_static klass' :
  std_sort_contract sort →
  LinkFields FieldsOffset sort klass is_static = Some klass' →
  is_static = true ∨ descriptor klass ≠ "Ljava/lang/ref/Reference;"%string →
  num_reference_fields_of klass' is_static = num_references (fields_of klass is_static)
  ∧ ∀ i f, fields_of klass' is_static !! i = Some f →
      (is_reference f = true ↔ Z.of_nat i < num_reference_fields_of klass' is_static).
Proof.
  intros Hsort Hrun Hplain.
  destruct (LinkFields_result _ _ _ _ _ Hsort Hrun) as (Hfields & _ & Hnum).
  specialize (Hnum Hplain).
  destruct (buckets_of_sorted sort (fields_of klass is_static)) as (H64 & H32 & Href).
  set (refs := filter (λ f, is_reference f = true) (sort (fields_of klass is_static)))
    in *.
  set (w64 := filter (λ f, is_wide f = true) (sort (fields_of klass is_static))) in *.
  set (w32 := filter (λ f, is_narrow f = true) (sort (fields_of klass is_static))) in *.
  destruct (spec_layout_shape (base_offset FieldsOffset klass is_static) refs w64 w32
              H64 H32) as (gap & prims & Hshape & _ & Hcases).
  rewrite Hshape in Hfields. clear Hshape.
  split.
  { rewrite Hnum. unfold num_references, refs.
    by rewrite (filter_length_sort sort _ _ Hsort). }
  assert (Hprims : Forall (λ f, is_reference f = false) prims).
  { assert (Forall (λ f, is_reference f = false) (w64 ++ w32)) as Hall.
    { apply Forall_app. split; (eapply Forall_impl; [eassumption|]);
        auto using wide_not_reference, narrow_not_reference. }
    destruct Hcases as [(_ & -> & _)|[(_ & _ & pad & w32' & Hw & ->)|(_ & _ & Hw & -> & _)]].
    - done.
    - rewrite Hw in Hall. apply Forall_app in Hall as [Ha Hb].
      apply Forall_cons in Hb as [Hp Hb]. apply Forall_cons. split; [done|].
      apply Forall_app. by split.
    - by apply Forall_app in Hall as [Ha _]. }
  intros i f Hi. rewrite Hnum, Hfields in *.
  destruct (decide (i < length refs)%nat) as [Hlt|Hge].
  - rewrite lookup_app_l in Hi by (rewrite assign_offsets_length; lia).
    rewrite assign_offsets_lookup in Hi.
    destruct (refs !! i) as [g|] eqn:Hg; [|done]. simpl in Hi. simplify_eq.
    split; [lia|]. intros _.
    by apply (proj1 (Forall_lookup _ _) Href i g).
  - rewrite lookup_app_r in Hi by (rewrite assign_offsets_length; lia).
    rewrite assign_offsets_lookup in Hi.
    destruct (prims !! _) as [g|] eqn:Hg; [|done]. simpl in Hi. simplify_eq.
    split; [|lia]. intros Hr.
    pose proof (proj1 (Forall_lookup _ _) Hprims _ g Hg) as Hn.
    change (is_reference (SetOffset g _)) with (is_reference g) in Hr. congruence.
Qed.

Lemma filter_nil_sort sort (P : ArtField → Prop) `{∀ f, Decision (P f)} l :
  std_sort_contract sort → filter P (sort l) = [] ↔ filter P l = [].
Proof.
  intros Hsort. pose proof (filter_length_sort sort P l Hsort) as Hlen.
  split; intros H0; rewrite H0 in Hlen; simpl in Hlen.
  - by apply nil_length_inv.
  - by apply nil_length_inv.
Qed.

Lemma wide_not_narrow f : is_narrow f = true → is_wide f = false.
Proof. destruct (kind_cases f) as [(?&?&?)|[(?&?&?)|(?&?&?)]]; congruence. Qed.

(** A 64-bit field among [w64 ++ w32] is one of [w64], with 64-bit fields
    only before it. *)
Lemma wide_lookup (w64 w32 : list ArtField) i f :
  Forall (λ f, is_wide f = true) w64 →
  Forall (λ f, is_narrow f = true) w32 →
  (w64 ++ w32) !! i = Some f → is_wide f = true →
  total_size (take i (w64 ++ w32)) = 8 * Z.of_nat i.
Proof.
  intros H64 H32 Hi Hw.
  assert (i < length w64)%nat as Hlt.
  { destruct (decide (i < length w64)%nat) as [?|Hge]; [done|].
    rewrite lookup_app_r in Hi by lia.
    pose proof (proj1 (Forall_lookup _ _) H32 _ f Hi) as Hn.
    apply wide_not_narrow in Hn. congruence. }
  rewrite take_app_le by lia.
  rewrite (total_size_const is_wide 8 (take i w64) field_size_wide)
    by by apply Forall_take.
  rewrite length_take. lia.
Qed.

Lemma aligned_after_word off k :
  off mod 4 = 0 → off mod 8 ≠ 0 → (off + 4 + 8 * k) mod 8 = 0.
Proof. intros H4 H8. Z.div_mod_to_equations. lia. Qed.

Lemma aligned_stays off k : off mod 8 = 0 → (off + 8 * k) mod 8 = 0.
Proof. intros H8. Z.div_mod_to_equations. lia. Qed.

(** A successful run, in one piece. *)
Lemma LinkFields_shape FieldsOffset sort klass is_static klass' :
  std_sort_contract sort →
  LinkFields FieldsOffset sort klass is_static = Some klass' →
  let base := base_offset FieldsOffset klass is_static in
  ∃ refs prims gap,
    let off := base + 4 * Z.of_nat (length refs) + gap in
    fields_of klass' is_static = assign_offsets base refs ++ assign_offsets off prims
    ∧ Forall (λ f, is_reference f = true) refs
    ∧ Forall (λ f, is_reference f = false) prims
    ∧ refs ++ prims ≡ₚ fields_of klass is_static
    ∧ (gap = 0 ∨ gap = 4)
    ∧ (gap = 4 ↔ needs_pad_word base (fields_of klass is_static) = true)
    ∧ (is_static || negb (is_variable_size klass) = true →
       size_of klass' is_static = wrap32 (off + total_size prims))
    ∧ (base mod 4 = 0 →
       ∀ i f, prims !! i = Some f → is_wide f = true →
              (off + total_size (take i prims)) mod 8 = 0).
Proof.
  intros Hsort Hrun base.
  destruct (LinkFields_result _ _ _ _ _ Hsort Hrun) as (Hfields & Hsize & _).
  destruct (buckets_of_sorted sort (fields_of klass is_static)) as (H64 & H32 & Href).
  pose proof (sorted_buckets _ (proj2 (Hsort (fields_of klass is_static)))) as Hsorted.
  pose proof (proj1 (Hsort (fields_of klass is_static))) as Hperm.
  pose proof (filter_nil_sort sort (λ f, is_wide f = true) (fields_of klass is_static)
                Hsort) as Hnil64.
  pose proof (filter_nil_sort sort (λ f, is_narrow f = true) (fields_of klass is_static)
                Hsort) as Hnil32.
  pose proof (filter_length_sort sort (λ f, is_reference f = true)
                (fields_of klass is_static) Hsort) as Hnrefs.
  set (refs := filter (λ f, is_reference f = true) (sort (fields_of klass is_static)))
    in *.
  set (w64 := filter (λ f, is_wide f = true) (sort (fields_of klass is_static))) in *.
  set (w32 := filter (λ f, is_narrow f = true) (sort (fields_of klass is_static))) in *.
  fold base in Hfields, Hsize.
  destruct (spec_layout_shape base refs w64 w32 H64 H32)
    as (gap & prims & Hshape & Hend & Hcases).
  rewrite Hshape in Hfields. rewrite Hend in Hsize.
  assert (Hall : Forall (λ f, is_reference f = false) (w64 ++ w32)).
  { apply Forall_app. split; (eapply Forall_impl; [eassumption|]);
      auto using wide_not_reference, narrow_not_reference. }
  assert (Hpad : ∀ b, needs_pad_word base (fields_of klass is_static) = b
            ↔ negb (bool_decide (w64 = [])) && bool_decide (w32 = [])
              && negb ((base + 4 * Z.of_nat (length refs)) mod 8 =? 0) = b).
  { intros b. unfold needs_pad_word, num_references. rewrite <- Hnrefs.
    rewrite (bool_decide_ext _ _ Hnil64), (bool_decide_ext _ _ Hnil32). done. }
  assert (H4 : base mod 4 = 0 → (base + 4 * Z.of_nat (length refs)) mod 4 = 0).
  { intros Hbase. rewrite Z.add_mod, Hbase by lia. by rewrite Z.mul_comm, Z.mod_mul. }
  exists refs, prims, gap. cbv zeta.
  split; [done|]. split; [done|].
  destruct Hcases as [(-> & -> & Hal)|[(-> & Hal & pad & w32' & Hw & ->)
                                      |(-> & Hal & Hw & -> & Hne)]].
  - rewrite ?Z.add_0_r in *.
    split; [done|]. split; [by rewrite <- Hsorted|]. split; [by left|].
    split; [|split; [done|]].
    + split; [lia|]. intros Hp%Hpad. exfalso. destruct Hal as [Hal|Hal].
      * apply app_eq_nil in Hal as [Hal _]. by rewrite Hal in Hp.
      * rewrite Hal in Hp. by rewrite andb_false_r in Hp.
    + intros Hbase i f Hi Hwide. rewrite (wide_lookup _ _ _ _ H64 H32 Hi Hwide).
      destruct Hal as [Hal|Hal]; [by rewrite Hal in Hi|].
      by apply aligned_stays.
  - rewrite ?Z.add_0_r in *.
    assert (Hperm' : pad :: w64 ++ w32' ≡ₚ w64 ++ w32).
    { rewrite Hw. by rewrite Permutation_middle. }
    split; [by rewrite Hperm'|]. split; [by rewrite Hperm', <- Hsorted|].
    split; [by left|]. split; [|split; [done|]].
    + split; [lia|]. intros Hp%Hpad. exfalso.
      by rewrite Hw, andb_false_r in Hp.
    + intros Hbase i f Hi Hwide. rewrite Hw in H32.
      apply Forall_cons in H32 as [Hpadn H32].
      destruct i as [|i]; simpl in Hi.
      { simplify_eq. apply wide_not_narrow in Hpadn. congruence. }
      simpl. rewrite (wide_lookup _ _ _ _ H64 H32 Hi Hwide),
        (field_size_narrow _ Hpadn).
      rewrite Z.add_assoc. apply aligned_after_word; auto.
  - rewrite Hw, app_nil_r in *.
    split; [done|]. split; [by rewrite <- Hsorted|]. split; [by right|].
    split; [|split; [done|]].
    + split; [|done]. intros _. apply Hpad.
      rewrite (bool_decide_eq_false_2 _ Hne), bool_decide_eq_true_2 by done. simpl.
      by apply negb_true_iff, Z.eqb_neq.
    + intros Hbase i f Hi Hwide.
      rewrite (total_size_const is_wide 8 (take i w64) field_size_wide)
        by by apply Forall_take.
      apply aligned_after_word; auto.
Qed.

Lemma wrap32_mod4 x : wrap32 x mod 4 = x mod 4.
Proof. unfold wrap32. apply Z.mod_mod_divide. exists 1073741824. lia. Qed.

(** X3: when the layout starts on a 4-byte boundary, [LinkFields] gives
    every field an offset that is a multiple of 4, and every 64-bit field an
    offset that is a multiple of 8. *)
Theorem LinkFields_offsets_aligned
    FieldsOffset sort klass is_static klass' :
  std_sort_contract sort →
  LinkFields FieldsOffset sort klass is_static = Some klass' →
  base_offset FieldsOffset klass is_static mod 4 = 0 →
  ∀ f, f ∈ fields_of klass' is_static →
    offset f mod 4 = 0 ∧ (is_wide f = true → offset f mod 8 = 0).
Proof.
  intros Hsort Hrun Hbase f Hf.
  destruct (LinkFields_shape _ _ _ _ _ Hsort Hrun)
    as (refs & prims & gap & Hfields & Hrefs & Hprims & _ & Hgap & _ & _ & Hwide).
  specialize (Hwide Hbase).
  set (base := base_offset FieldsOffset klass is_static) in *.
  apply list_elem_of_lookup in Hf as [i Hi]. rewrite Hfields in Hi.
  destruct (decide (i < length refs)%nat) as [Hlt|Hge].
  - rewrite lookup_app_l in Hi by (rewrite assign_offsets_length; lia).
    rewrite assign_offsets_lookup in Hi.
    destruct (refs !! i) as [g|] eqn:Hg; [|done]. simpl in Hi. simplify_eq.
    simpl. unfold Uint32Value. split.
    + rewrite wrap32_mod4, Z.add_mod, Hbase, total_size_mod4 by lia. done.
    + change (is_wide (SetOffset g _)) with (is_wide g). intros Hw.
      pose proof (proj1 (Forall_lookup _ _) Hrefs _ g Hg) as Hr.
      apply wide_not_reference in Hw. congruence.
  - rewrite lookup_app_r in Hi by (rewrite assign_offsets_length; lia).
    rewrite assign_offsets_lookup, assign_offsets_length in Hi.
    destruct (prims !! _) as [g|] eqn:Hg; [|done]. simpl in Hi. simplify_eq.
    simpl. unfold Uint32Value. split.
    + rewrite wrap32_mod4.
      rewrite Z.add_mod, total_size_mod4, Z.add_0_r, Z.mod_mod by lia.
      rewrite Z.add_mod, (Z.add_mod base), Hbase by lia.
      rewrite (Z.mul_comm 4), Z.mod_mul by lia.
      destruct Hgap as [->| ->]; done.
    + change (is_wide (SetOffset g _)) with (is_wide g). intros Hw.
      rewrite wrap32_mod8. by eapply Hwide.
Qed.

(** *** The bytes of the fields *)

Lemma total_size_take_mono (l : list ArtField) i j :
  (i ≤ j)%nat → total_size (take i l) ≤ total_size (take j l).
Proof.
  intros Hij. replace i with (i `min` j)%nat by lia.
  rewrite <- take_take. apply total_size_take_le.
Qed.

Lemma wrap32_small x : 0 ≤ x < 2 ^ 32 → wrap32 x = x.
Proof. intros. unfold wrap32. by apply Z.mod_small. Qed.

(** Where the field at index [i] of a layout starts. *)
Lemma layout_lookup base off (refs prims : list ArtField) i f :
  (assign_offsets base refs ++ assign_offsets off prims) !! i = Some f →
  ∃ g, (refs ++ prims) !! i = Some g ∧ field_size f = field_size g
       ∧ offset f
         = wrap32 (if decide (i < length refs)%nat
                   then base + total_size (take i refs)
                   else off + total_size (take (i - length refs) prims)).
Proof.
  intros Hi. destruct (decide (i < length refs)%nat) as [Hlt|Hge].
  - rewrite lookup_app_l in Hi by (rewrite assign_offsets_length; lia).
    rewrite assign_offsets_lookup in Hi.
    destruct (refs !! i) as [g|] eqn:Hg; [|done]. simpl in Hi. simplify_eq.
    exists g. by rewrite lookup_app_l, Hg by lia.
  - rewrite lookup_app_r in Hi by (rewrite assign_offsets_length; lia).
    rewrite assign_offsets_lookup, assign_offsets_length in Hi.
    destruct (prims !! _) as [g|] eqn:Hg; [|done]. simpl in Hi. simplify_eq.
    exists g. by rewrite lookup_app_r, Hg by lia.
Qed.

(** X4: as long as the layout stays below 2^32, the fields [LinkFields]
    lays out do not overlap: in the order of the array, each field ends
    before the next one begins; all of them lie at or after the base offset,
    and within the size recorded for the class. *)
Theorem LinkFields_fields_do_not_overlap
    FieldsOffset sort klass is_static klass' :
  std_sort_contract sort →
  LinkFields FieldsOffset sort klass is_static = Some klass' →
  let base := base_offset FieldsOffset klass is_static in
  0 ≤ base →
  base + total_size (fields_of klass is_static) + 4 < 2 ^ 32 →
  (∀ i j f g, (i < j)%nat →
     fields_of klass' is_static !! i = Some f →
     fields_of klass' is_static !! j = Some g →
     field_end f ≤ offset g ∧ fields_disjoint f g)
  ∧ ∀ f, f ∈ fields_of klass' is_static →
      base ≤ offset f
      ∧ (is_static || negb (is_variable_size klass) = true →
         field_end f ≤ size_of klass' is_static).
Proof.
  intros Hsort Hrun base Hbase Hsmall.
  destruct (LinkFields_shape _ _ _ _ _ Hsort Hrun)
    as (refs & prims & gap & Hfields & Hrefs & Hprims & Hperm & Hgap & _ & Hsize & _).
  fold base in Hfields, Hsize.
  pose proof (total_size_Permutation _ _ Hperm) as Htotal.
  rewrite total_size_app in Htotal.
  pose proof (total_size_const is_reference 4 refs field_size_reference Hrefs) as H4r.
  set (off := base + 4 * Z.of_nat (length refs) + gap) in *.
  set (start := λ i : nat,
         if decide (i < length refs)%nat then base + total_size (take i refs)
         else off + total_size (take (i - length refs) prims)).
  assert (Hbound : ∀ i, base ≤ start i ≤ off + total_size prims).
  { intros i. unfold start. case_decide.
    - pose proof (total_size_nonneg (take i refs)).
      pose proof (total_size_take_le refs i).
      pose proof (total_size_nonneg prims). unfold off. lia.
    - pose proof (total_size_nonneg (take (i - length refs) prims)).
      pose proof (total_size_take_le prims (i - length refs)). unfold off. lia. }
  assert (Hmono : ∀ i j, (i ≤ j)%nat → start i ≤ start j).
  { intros i j Hij. unfold start. repeat case_decide; try lia.
    - by apply Z.add_le_mono_l, total_size_take_mono.
    - pose proof (total_size_take_le refs i).
      pose proof (total_size_nonneg (take (j - length refs) prims)). unfold off. lia.
    - apply Z.add_le_mono_l, total_size_take_mono. lia. }
  assert (Hat : ∀ i f, fields_of klass' is_static !! i = Some f →
            offset f = start i ∧ start i + field_size f ≤ start (S i)
            ∧ start (S i) ≤ off + total_size prims).
  { intros i f Hi. rewrite Hfields in Hi.
    destruct (layout_lookup _ _ _ _ _ _ Hi) as (g & Hg & Hsz & Hoff).
    fold (start i) in Hoff. rewrite wrap32_small in Hoff
      by (pose proof (Hbound i); destruct Hgap; unfold off in *; lia).
    split; [done|]. split; [|apply Hbound]. rewrite Hsz. unfold start.
    destruct (decide (i < length refs)%nat) as [Hlt|Hge].
    - rewrite lookup_app_l in Hg by done.
      destruct (decide (S i < length refs)%nat) as [Hlt'|Hge'].
      + rewrite (total_size_take_S _ _ _ Hg). lia.
      + assert (S i = length refs) as Hlast by lia.
        rewrite Hlast, Nat.sub_diag. simpl.
        pose proof (total_size_take_S _ _ _ Hg) as HS.
        rewrite Hlast, firstn_all in HS. unfold off. destruct Hgap; lia.
    - rewrite lookup_app_r in Hg by lia.
      rewrite decide_False by lia.
      replace (S i - length refs)%nat with (S (i - length refs)) by lia.
      rewrite (total_size_take_S _ _ _ Hg). lia. }
  split.
  - intros i j f g Hij Hi Hj.
    destruct (Hat i f Hi) as (Hfo & Hfe & _). destruct (Hat j g Hj) as (Hgo & _).
    pose proof (Hmono (S i) j ltac:(lia)).
    assert (field_end f ≤ offset g) by (unfold field_end; lia).
    split; [done|by left].
  - intros f [i Hi]%list_elem_of_lookup.
    destruct (Hat i f Hi) as (Hfo & Hfe & Hend). pose proof (Hbound i).
    split; [lia|]. intros Hfixed. rewrite (Hsize Hfixed).
    rewrite wrap32_small by (destruct Hgap; unfold off in *; lia).
    unfold field_end. lia.
Qed.

(** X5: the size [LinkFields] records is the base offset plus the sizes of
    the fields, plus one word of padding exactly when the class has 64-bit
    fields, no 32-bit field to put before them, and its references end off
    an 8-byte boundary. *)
Theorem LinkFields_size_and_padding
    FieldsOffset sort klass is_static klass' :
  std_sort_contract sort →
  LinkFields FieldsOffset sort klass is_static = Some klass' →
  is_static || negb (is_variable_size klass) = true →
  let base := base_offset FieldsOffset klass is_static in
  size_of klass' is_static
  = wrap32 (base + total_size (fields_of klass is_static)
            + if needs_pad_word base (fields_of klass is_static) then 4 else 0).
Proof.
  intros Hsort Hrun Hfixed base.
  destruct (LinkFields_shape _ _ _ _ _ Hsort Hrun)
    as (refs & prims & gap & _ & Hrefs & _ & Hperm & Hgap & Hpad & Hsize & _).
  fold base in Hsize, Hpad. rewrite (Hsize Hfixed).
  rewrite <- (total_size_Permutation _ _ Hperm), total_size_app.
  rewrite (total_size_const is_reference 4 refs field_size_reference Hrefs).
  f_equal. destruct (needs_pad_word base (fields_of klass is_static)).
  - rewrite (proj2 Hpad eq_refl). lia.
  - destruct Hgap as [->|Hg4]; [lia|]. by apply Hpad in Hg4.
Qed.

(** *** The precomputed class size *)

Lemma counts_as_reference_test e :
  bool_decide (first_char (field_id_type e) = "L"%char)
  || bool_decide (first_char (field_id_type e) = "["%char)
  = bool_decide (counts_as_reference e).
Proof. unfold counts_as_reference. repeat case_bool_decide; simpl; tauto. Qed.

Lemma counts_as_wide_test e :
  bool_decide (first_char (field_id_type e) = "J"%char)
  || bool_decide (first_char (field_id_type e) = "D"%char)
  = bool_decide (counts_as_wide e).
Proof. unfold counts_as_wide. repeat case_bool_decide; simpl; tauto. Qed.

Lemma count_static_fields_counts it num_ref num_32 num_64 :
  count_static_fields it num_ref num_32 num_64
  = (num_ref + Z.of_nat (length (filter counts_as_reference it)),
     num_32 + Z.of_nat (length (filter (λ e, ¬ counts_as_reference e
                                            ∧ ¬ counts_as_wide e) it)),
     num_64 + Z.of_nat (length (filter (λ e, ¬ counts_as_reference e
                                            ∧ counts_as_wide e) it))).
Proof.
  revert num_ref num_32 num_64.
  induction it as [|e it IH]; intros num_ref num_32 num_64.
  - simpl. by rewrite !Z.add_0_r.
  - cbn [count_static_fields]. rewrite !filter_cons.
    rewrite counts_as_reference_test, counts_as_wide_test.
    destruct (decide (counts_as_reference e)) as [Hr|Hr].
    + rewrite bool_decide_eq_true_2 by done.
      rewrite !decide_False by tauto.
      rewrite IH. simpl. rewrite ?Zpos_P_of_succ_nat.
      repeat apply (f_equal2 pair); lia.
    + rewrite bool_decide_eq_false_2 by done.
      destruct (decide (counts_as_wide e)) as [Hw|Hw].
      * rewrite bool_decide_eq_true_2 by done.
        rewrite decide_False by tauto. rewrite decide_True by tauto.
        rewrite IH. simpl. rewrite ?Zpos_P_of_succ_nat.
        repeat apply (f_equal2 pair); lia.
      * rewrite bool_decide_eq_false_2 by done.
        rewrite decide_True by tauto. rewrite decide_False by tauto.
        rewrite IH. simpl. rewrite ?Zpos_P_of_succ_nat.
        repeat apply (f_equal2 pair); lia.
Qed.

(** X6: [SizeOfClass] looks at the kinds of the static fields only: the
    order in which the class data lists them, and the instance fields, make
    no difference to the size. *)
Theorem SizeOfClass_order_independent sizeof_Class (data1 data2 : ClassData) :
  static_fields data1 ≡ₚ static_fields data2 →
  SizeOfClass sizeof_Class (Some data1) = SizeOfClass sizeof_Class (Some data2).
Proof.
  intros Hperm.
  assert (Hlen : ∀ (P : EncodedField → Prop) `{∀ e, Decision (P e)},
            length (filter P (static_fields data1))
            = length (filter P (static_fields data2))).
  { intros P ?. by rewrite Hperm. }
  unfold SizeOfClass.
  rewrite !(count_static_fields_counts _ 0 0 0). by rewrite !Hlen.
Qed.

(** *** The small classes, again *)

Lemma LinkFields_references_first_witness :
  ∃ klass',
    LinkFields 132 merge_sort_fields four_fields_class false = Some klass'
    ∧ num_reference_fields_of klass' false
      = num_references (fields_of four_fields_class false)
    ∧ ∀ i f, fields_of klass' false !! i = Some f →
        (is_reference f = true ↔ Z.of_nat i < num_reference_fields_of klass' false).
Proof.
  destruct (LinkFields 132 merge_sort_fields four_fields_class false)
    as [klass'|] eqn:Hrun; [|by vm_compute in Hrun].
  exists klass'. split; [done|].
  apply (LinkFields_references_first 132 merge_sort_fields four_fields_class false
           klass' merge_sort_fields_contract Hrun).
  right. discriminate.
Defined.

Lemma LinkFields_offsets_aligned_witness :
  ∃ klass',
    LinkFields 132 merge_sort_fields four_fields_class true = Some klass'
    ∧ ∀ f, f ∈ fields_of klass' true →
        offset f mod 4 = 0 ∧ (is_wide f = true → offset f mod 8 = 0).
Proof.
  destruct (LinkFields 132 merge_sort_fields four_fields_class true)
    as [klass'|] eqn:Hrun; [|by vm_compute in Hrun].
  exists klass'. split; [done|].
  apply (LinkFields_offsets_aligned 132 merge_sort_fields four_fields_class true
           klass' merge_sort_fields_contract Hrun).
  reflexivity.
Defined.

Lemma LinkFields_fields_do_not_overlap_witness :
  ∃ klass',
    LinkFields 132 merge_sort_fields four_fields_class false = Some klass'
    ∧ (∀ i j f g, (i < j)%nat →
         fields_of klass' false !! i = Some f →
         fields_of klass' false !! j = Some g →
         field_end f ≤ offset g ∧ fields_disjoint f g)
    ∧ ∀ f, f ∈ fields_of klass' false →
        base_offset 132 four_fields_class false ≤ offset f
        ∧ (false || negb (is_variable_size four_fields_class) = true →
           field_end f ≤ size_of klass' false).
Proof.
  destruct (LinkFields 132 merge_sort_fields four_fields_class false)
    as [klass'|] eqn:Hrun; [|by vm_compute in Hrun].
  exists klass'. split; [done|].
  apply (LinkFields_fields_do_not_overlap 132 merge_sort_fields four_fields_class false
           klass' merge_sort_fields_contract Hrun).
  - vm_compute. discriminate.
  - vm_compute. reflexivity.
Defined.

Lemma LinkFields_size_and_padding_witness :
  ∃ klass',
    LinkFields 132 merge_sort_fields one_long_class false = Some klass'
    ∧ size_of klass' false
      = wrap32 (base_offset 132 one_long_class false
                + total_size (fields_of one_long_class false)
                + if needs_pad_word (base_offset 132 one_long_class false)
                       (fields_of one_long_class false)
                  then 4 else 0).
Proof.
  destruct (LinkFields 132 merge_sort_fields one_long_class false)
    as [klass'|] eqn:Hrun; [|by vm_compute in Hrun].
  exists klass'. split; [done|].
  apply (LinkFields_size_and_padding 132 merge_sort_fields one_long_class false
           klass' merge_sort_fields_contract Hrun).
  reflexivity.
Defined.

(** The one reference of the class ends at offset 12, and there is no
    32-bit field: a word is left empty before the 64-bit field. *)
Example one_long_is_padded :
  (λ k, (ifields k, object_size k))
    <$> LinkFields 132 merge_sort_fields one_long_class false
  = Some ([mkArtField 1 "refField" "Ljava/lang/Object;" 8;
           mkArtField 2 "longField" "J" 16], 24)
  ∧ needs_pad_word (base_offset 132 one_long_class false)
      (fields_of one_long_class false) = true.
Proof. split; vm_compute; reflexivity. Qed.

Lemma SizeOfClass_order_independent_witness :
  SizeOfClass 132
    (Some (mkClassData
             [mkEncodedField 2 "longField" "J";
              mkEncodedField 1 "refField" "Ljava/lang/Object;";
              mkEncodedField 3 "intField" "I";
              mkEncodedField 4 "refField2" "[I"] []))
  = SizeOfClass 132 (Some four_fields_data).
Proof.
  apply SizeOfClass_order_independent. simpl. apply perm_swap.
Defined.

End FieldRangesProofs.

(** ** More about the class table *)

Module TableMaintenanceProofs.
Import Resolution ResolutionProofs TableMaintenance.


Lemma no_entry_matches_nil (heap : Heap) d cl : no_entry_matches heap d cl [].
Proof. intros k Hk. by apply elem_of_nil in Hk. Qed.

(** *** Insert, then look up *)

(** X7: a class that [InsertClass] has put into the table is what
    [LookupClass] answers for its descriptor and loader from then on, from
    the table itself, which the lookup leaves as it is. *)
Theorem InsertClass_then_LookupClass
    (kIsDebugBuild : bool) (heap : Heap) (linker : ClassLinker)
    (descriptor_ : string) (klass : Addr) (c : Class) :
  heap !! klass = Some c →
  matches c descriptor_ (class_loader c) = true →
  no_entry_matches heap descriptor_ (class_loader c)
    (equal_range (class_table_ linker) (Hash descriptor_)) →
  image_check_passes kIsDebugBuild linker descriptor_ c klass →
  ∃ linker',
    InsertClass kIsDebugBuild heap linker descriptor_ klass (Hash descriptor_)
    = Done (None, linker')
    ∧ LookupClass kIsDebugBuild heap linker' descriptor_ (class_loader c)
      = Done (Some klass, linker').
Proof.
  intros Hc Hm Hno Himg. eexists. split.
  - by apply (InsertClass_miss _ _ _ _ _ _ c).
  - eapply (LookupClass_hit _ _ _ _ _ _ klass []).
    + apply equal_range_insert.
    + done.
    + by exists c.
    + apply no_entry_matches_nil.
Qed.

(** *** [RemoveClass] *)

Lemma erase_first_match_miss (heap : Heap) range d cl :
  no_entry_matches heap d cl range →
  erase_first_match heap range d cl = Done None.
Proof.
  induction range as [|k range IH]; intros Hno; [done|]. simpl.
  destruct (Hno k) as (c & Hc & Hm); [by left|].
  rewrite (deref_Some _ _ _ Hc). simpl. rewrite Hm.
  rewrite IH; [done|]. intros k' Hk'. apply Hno. by right.
Qed.

Lemma erase_first_match_hit (heap : Heap) before existing after d cl :
  no_entry_matches heap d cl before →
  entry_matches heap d cl existing →
  erase_first_match heap (before ++ existing :: after) d cl
  = Done (Some (before ++ after)).
Proof.
  intros Hb (c & Hc & Hm).
  induction before as [|k before IH]; simpl.
  - rewrite (deref_Some _ _ _ Hc). simpl. by rewrite Hm.
  - destruct (Hb k) as (ck & Hck & Hmk); [by left|].
    rewrite (deref_Some _ _ _ Hck). simpl. rewrite Hmk.
    rewrite IH; [done|]. intros k' Hk'. apply Hb. by right.
Qed.

Lemma equal_range_erase table hash range :
  equal_range (multimap_erase table hash range) hash = range.
Proof.
  unfold multimap_erase, equal_range. destruct range.
  - by rewrite lookup_delete_eq.
  - by rewrite lookup_insert_eq.
Qed.

Lemma equal_range_erase_ne table hash hash' range :
  hash ≠ hash' →
  equal_range (multimap_erase table hash range) hash' = equal_range table hash'.
Proof.
  intros Hne. unfold multimap_erase, equal_range. destruct range.
  - by rewrite lookup_delete_ne.
  - by rewrite lookup_insert_ne.
Qed.

(** X9: [RemoveClass] takes the first entry for the descriptor and the
    loader out of the table and answers true; the entries before and after
    it stay in their order, the entries of other hashes and the list of new
    roots stay as they are.  Without such an entry it answers false and
    changes nothing. *)
Theorem RemoveClass_erases_first_match
    (heap : Heap) (linker : ClassLinker) (descriptor_ : string)
    (class_loader_ : option Addr) :
  let range := equal_range (class_table_ linker) (Hash descriptor_) in
  (no_entry_matches heap descriptor_ class_loader_ range →
   RemoveClass heap linker descriptor_ class_loader_ = Done (false, linker))
  ∧ (∀ before existing after,
       range = before ++ existing :: after →
       no_entry_matches heap descriptor_ class_loader_ before →
       entry_matches heap descriptor_ class_loader_ existing →
       ∃ linker',
         RemoveClass heap linker descriptor_ class_loader_ = Done (true, linker')
         ∧ equal_range (class_table_ linker') (Hash descriptor_) = before ++ after
         ∧ (∀ hash, hash ≠ Hash descriptor_ →
              equal_range (class_table_ linker') hash
              = equal_range (class_table_ linker) hash)
         ∧ new_class_roots_ linker' = new_class_roots_ linker
         ∧ dex_cache_image_class_lookup_required_ linker'
           = dex_cache_image_class_lookup_required_ linker).
Proof.
  intros range. split.
  - intros Hno. unfold RemoveClass. fold range.
    by rewrite (erase_first_match_miss _ _ _ _ Hno).
  - intros before existing after Hrange Hb He. eexists. split_and!.
    + unfold RemoveClass. fold range.
      by rewrite Hrange, (erase_first_match_hit _ _ _ _ _ _ Hb He).
    + apply equal_range_erase.
    + intros hash Hne. simpl. by apply equal_range_erase_ne.
    + done.
    + done.
Qed.

(** X8: [RemoveClass] undoes an [InsertClass]: after the two, every hash of
    the table has the entries it had before, and a lookup in the table no
    longer finds the class.  The root logged for the insertion is not taken
    back. *)
Theorem InsertClass_then_RemoveClass
    (kIsDebugBuild : bool) (heap : Heap) (linker : ClassLinker)
    (descriptor_ : string) (klass : Addr) (c : Class) :
  heap !! klass = Some c →
  matches c descriptor_ (class_loader c) = true →
  no_entry_matches heap descriptor_ (class_loader c)
    (equal_range (class_table_ linker) (Hash descriptor_)) →
  image_check_passes kIsDebugBuild linker descriptor_ c klass →
  ∃ inserted removed,
    InsertClass kIsDebugBuild heap linker descriptor_ klass (Hash descriptor_)
    = Done (None, inserted)
    ∧ RemoveClass heap inserted descriptor_ (class_loader c) = Done (true, removed)
    ∧ (∀ hash, equal_range (class_table_ removed) hash
               = equal_range (class_table_ linker) hash)
    ∧ LookupClassFromTableLocked kIsDebugBuild heap removed descriptor_
        (class_loader c) (Hash descriptor_) = Done None
    ∧ new_class_roots_ removed = new_class_roots_ inserted.
Proof.
  intros Hc Hm Hno Himg.
  exists (table_insert linker (Hash descriptor_) klass). eexists. split_and!.
  - by apply (InsertClass_miss _ _ _ _ _ _ c).
  - unfold RemoveClass. rewrite equal_range_insert.
    rewrite (erase_first_match_hit _ _ _ _ _ _ Hno); [done|by exists c].
  - intros hash. simpl. rewrite app_nil_r.
    destruct (decide (Hash descriptor_ = hash)) as [<-|Hne].
    + apply equal_range_erase.
    + rewrite equal_range_erase_ne by done.
      unfold equal_range, multimap_insert. by rewrite lookup_insert_ne.
  - unfold LookupClassFromTableLocked. simpl.
    rewrite equal_range_erase, app_nil_r. by apply lookup_in_range_miss.
  - done.
Qed.

(** *** [LookupClasses] *)



(** *** The class table of one class *)

Lemma empty_linker_no_entry d cl :
  no_entry_matches (heap_X kStatusResolved) d cl
    (equal_range (class_table_ empty_linker) (Hash d)).
Proof. simpl. rewrite equal_range_empty. apply no_entry_matches_nil. Qed.

Lemma linker_of_X_range :
  equal_range (class_table_ (table_insert empty_linker (Hash "LX;") 1%N)) (Hash "LX;")
  = [] ++ 1%N :: [].
Proof.
  simpl. unfold multimap_insert. rewrite equal_range_empty.
  unfold equal_range. by rewrite lookup_insert_eq.
Qed.

Lemma InsertClass_then_LookupClass_witness :
  ∃ linker',
    InsertClass false (heap_X kStatusResolved) empty_linker "LX;" 1%N (Hash "LX;")
    = Done (None, linker')
    ∧ LookupClass false (heap_X kStatusResolved) linker' "LX;" None
      = Done (Some 1%N, linker').
Proof.
  apply (InsertClass_then_LookupClass false (heap_X kStatusResolved) empty_linker
           "LX;" 1%N (class_X kStatusResolved)).
  - apply heap_X_lookup.
  - reflexivity.
  - apply empty_linker_no_entry.
  - intros Hdebug. discriminate Hdebug.
Defined.

Lemma RemoveClass_erases_first_match_witness :
  ∃ linker',
    RemoveClass (heap_X kStatusResolved) (table_insert empty_linker (Hash "LX;") 1%N)
      "LX;" None = Done (true, linker')
    ∧ equal_range (class_table_ linker') (Hash "LX;") = [].
Proof.
  destruct (RemoveClass_erases_first_match (heap_X kStatusResolved)
              (table_insert empty_linker (Hash "LX;") 1%N) "LX;" None) as [_ Hhit].
  destruct (Hhit [] 1%N []) as (linker' & Hremove & Hrange & _).
  - apply linker_of_X_range.
  - apply no_entry_matches_nil.
  - exists (class_X kStatusResolved). split; [apply heap_X_lookup|reflexivity].
  - exists linker'. by split.
Defined.

Lemma InsertClass_then_RemoveClass_witness :
  ∃ inserted removed,
    InsertClass false (heap_X kStatusResolved) empty_linker "LX;" 1%N (Hash "LX;")
    = Done (None, inserted)
    ∧ RemoveClass (heap_X kStatusResolved) inserted "LX;" None = Done (true, removed)
    ∧ equal_range (class_table_ removed) (Hash "LX;") = [].
Proof.
  destruct (InsertClass_then_RemoveClass false (heap_X kStatusResolved) empty_linker
              "LX;" 1%N (class_X kStatusResolved))
    as (inserted & removed & Hinsert & Hremove & Hsame & _).
  - apply heap_X_lookup.
  - reflexivity.
  - apply empty_linker_no_entry.
  - intros Hdebug. discriminate Hdebug.
  - exists inserted, removed. split_and!; [done|done|].
    rewrite Hsame. apply equal_range_empty.
Defined.


End TableMaintenanceProofs.

(** ** More about resolution and initialization *)

Module LifecycleProofs.
Import Resolution ResolutionProofs TableMaintenance.

Lemma bind_Done {A B} (m : Exec A) (k : A → Exec B) (b : B) :
  exec_bind m k = Done b → ∃ a, m = Done a ∧ k a = Done b.
Proof. destruct m; simpl; [eauto|done|done]. Qed.

Lemma SetStatus_SetStatus c s1 s2 : SetStatus (SetStatus c s1) s2 = SetStatus c s2.
Proof. done. Qed.

Lemma SetStatus_same c : SetStatus c (status c) = c.
Proof. by destruct c. Qed.

(** *** [EnsureResolved]: a class that waits for itself *)

(** X11: when the calling thread asks for a class that it is itself still
    loading (unresolved, not erroneous, and owned by the thread),
    [EnsureResolved] does not wait: it returns null with a fresh
    [ClassCircularityError] pending and leaves the class in status Error,
    whatever wakeups would come.  From then on every call for the class, by
    any thread, is answered with null and the exception of an earlier
    failure, and the heap stays as it is. *)
Theorem EnsureResolved_circularity
    (PrettyDescriptor : string → string) (heap : Heap) (self : Thread)
    (klass : Addr) (c : Class) (wakeups : list Status) :
  heap !! klass = Some c →
  IsResolved c = false →
  IsErroneous c = false →
  clinit_thread_id c = tid self →
  exception_ self = None →
  let heap' := store heap klass (SetStatus c kStatusError) in
  EnsureResolved PrettyDescriptor heap self klass wakeups
  = Done (None, heap',
          SetException self
            (Some {| exception_class := "Ljava/lang/ClassCircularityError;";
                     detail_message := Some (PrettyDescriptor (descriptor c));
                     cause := None |}))
  ∧ ∀ (other : Thread) (later : list Status) (exc_class : string),
      exception_ other = None →
      earlier_failure_class heap' (SetStatus c kStatusError) = Some exc_class →
      EnsureResolved PrettyDescriptor heap' other klass later
      = Done (None, heap',
              SetException other
                (Some {| exception_class := exc_class;
                         detail_message := Some (PrettyDescriptor (descriptor c));
                         cause := None |})).
Proof.
  intros Hc Hres Herr Hown Hexc heap'. split.
  - unfold EnsureResolved. rewrite (deref_Some _ _ _ Hc). cbn [exec_bind].
    rewrite Hres, Herr, Hown, Z.eqb_refl. cbn [negb andb].
    unfold ThrowClassCircularityError. rewrite ThrowNewException_fresh by done.
    done.
  - intros other later exc_class Hother Hcls.
    assert (Hc' : heap' !! klass = Some (SetStatus c kStatusError))
      by apply lookup_store_eq.
    unfold EnsureResolved. rewrite (deref_Some _ _ _ Hc'). cbn [exec_bind].
    change (IsErroneous (SetStatus c kStatusError)) with true.
    change (IsResolved (SetStatus c kStatusError)) with false.
    cbn [negb andb exec_bind]. rewrite (deref_Some _ _ _ Hc'). cbn [exec_bind].
    change (IsErroneous (SetStatus c kStatusError)) with true. cbv iota.
    by rewrite (ThrowEarlierClassFailure_fresh PrettyDescriptor heap' other klass
                  (SetStatus c kStatusError) exc_class).
Qed.

(** *** [DefineClass]: the class that could not be loaded or linked *)

Lemma failed_class_is_found (kIsDebugBuild : bool) (heap heap' : Heap) linker d klass c c' :
  heap !! klass = Some c →
  matches c d (class_loader c) = true →
  no_entry_matches heap d (class_loader c) (equal_range (class_table_ linker) (Hash d)) →
  same_identity heap heap' →
  heap' !! klass = Some c' →
  let final := store heap' klass (SetStatus c' kStatusError) in
  LookupClass kIsDebugBuild final (table_insert linker (Hash d) klass) d (class_loader c)
  = Done (Some klass, table_insert linker (Hash d) klass).
Proof.
  intros Hc Hm Hno Hsame Hc' final.
  assert (Hfinal : same_identity heap final).
  { eapply same_identity_trans; [exact Hsame|]. by eapply same_identity_store. }
  eapply (LookupClass_hit _ _ _ _ _ _ klass []).
  - apply equal_range_insert.
  - by eapply no_entry_matches_same_identity.
  - eapply entry_matches_same_identity; [exact Hfinal|]. by exists c.
  - intros k Hk. by apply elem_of_nil in Hk.
Qed.

(** X12: a class whose definition fails stays behind as an erroneous entry of
    the class table.  When [DefineClass] has put its class into the table and
    then the loading of the superclass and interfaces, or the linking, says
    no, it returns null, the class is left in status Error, and it is not
    taken out of the table: a later [LookupClass] for the descriptor and the
    loader answers this class. *)
Theorem DefineClass_failure_stays_in_table
    (kIsDebugBuild : bool) (PrettyDescriptor : string → string)
    (LoadSuperAndInterfaces LinkClass : Heap → Thread → Addr → bool * Heap * Thread)
    (heap : Heap) (linker : ClassLinker) (self : Thread) (descriptor_ : string)
    (klass : Addr) (c : Class) (wakeups : list Status) :
  heap !! klass = Some c →
  matches c descriptor_ (class_loader c) = true →
  IsLoaded c = false →
  exception_ self = None →
  no_entry_matches heap descriptor_ (class_loader c)
    (equal_range (class_table_ linker) (Hash descriptor_)) →
  image_check_passes kIsDebugBuild linker descriptor_ c klass →
  let heap1 := store heap klass (SetClinitThreadId c (tid self)) in
  let linker1 := table_insert linker (Hash descriptor_) klass in
  let failed (heap' : Heap) (self' : Thread) :=
    ∃ c', heap' !! klass = Some c'
      ∧ DefineClass kIsDebugBuild PrettyDescriptor LoadSuperAndInterfaces LinkClass
          heap linker self descriptor_ klass wakeups
        = Done (None, store heap' klass (SetStatus c' kStatusError), linker1, self')
      ∧ LookupClass kIsDebugBuild (store heap' klass (SetStatus c' kStatusError)) linker1
          descriptor_ (class_loader c)
        = Done (Some klass, linker1)
      (* the class as the call leaves it: status Error, in the table *)
      ∧ (∃ c'', store heap' klass (SetStatus c' kStatusError) !! klass = Some c''
                ∧ status c'' = kStatusError
                ∧ descriptor c'' = descriptor c ∧ class_loader c'' = class_loader c)
      ∧ (∀ other, other ≠ klass →
           store heap' klass (SetStatus c' kStatusError) !! other = heap' !! other)
      ∧ klass ∈ equal_range (class_table_ linker1) (Hash descriptor_) in
  (* the superclass or an interface cannot be loaded *)
  (∀ heap2 self2,
     LoadSuperAndInterfaces heap1 self klass = (false, heap2, self2) →
     same_identity heap1 heap2 →
     failed heap2 self2)
  (* the class cannot be linked *)
  ∧ (∀ heap2 self2 heap3 self3,
       LoadSuperAndInterfaces heap1 self klass = (true, heap2, self2) →
       same_identity heap1 heap2 →
       (∀ c2, heap2 !! klass = Some c2 → IsLoaded c2 = true ∧ IsResolved c2 = false) →
       LinkClass heap2 self2 klass = (false, heap3, self3) →
       same_identity heap2 heap3 →
       failed heap3 self3).
Proof.
  intros Hc Hm Hload Hexc Hno Himg heap1 linker1 failed.
  assert (Hc1 : heap1 !! klass = Some (SetClinitThreadId c (tid self)))
    by apply lookup_store_eq.
  assert (H01 : same_identity heap heap1) by by eapply same_identity_store.
  assert (Hinsert : InsertClass kIsDebugBuild heap1 linker descriptor_ klass
                      (Hash descriptor_) = Done (None, linker1)).
  { apply (InsertClass_miss _ _ _ _ _ _ (SetClinitThreadId c (tid self))); [done| |done].
    by eapply no_entry_matches_same_identity. }
  split.
  - intros heap2 self2 Hlsi H12.
    destruct (H12 klass _ Hc1) as (c2 & Hc2 & Hd2 & Hl2).
    exists c2. split_and!; [done| | | | |].
    + unfold DefineClass. rewrite (deref_Some _ _ _ Hc). cbn [exec_bind].
      rewrite (IsExceptionPending_None _ Hexc). fold heap1. rewrite Hinsert.
      cbn [exec_bind]. change (IsLoaded (SetClinitThreadId c (tid self))) with (IsLoaded c).
      rewrite Hload. cbn [negb CHECK exec_bind]. rewrite Hlsi.
      rewrite (deref_Some _ _ _ Hc2). done.
    + apply (failed_class_is_found kIsDebugBuild heap heap2 linker descriptor_ klass c c2);
        [done|done|done| |done].
      by eapply same_identity_trans.
    + exists (SetStatus c2 kStatusError). split; [apply lookup_store_eq|].
      split; [done|]. by split.
    + intros other Hne. by apply lookup_store_ne.
    + unfold linker1. rewrite equal_range_insert. apply elem_of_app. right. by left.
  - intros heap2 self2 heap3 self3 Hlsi H12 Hc2ok Hlink H23.
    destruct (H12 klass _ Hc1) as (c2 & Hc2 & Hd2 & Hl2).
    destruct (H23 klass _ Hc2) as (c3 & Hc3 & Hd3 & Hl3).
    destruct (Hc2ok c2 Hc2) as [Hloaded2 Hres2].
    exists c3. split_and!; [done| | | | |].
    + unfold DefineClass. rewrite (deref_Some _ _ _ Hc). cbn [exec_bind].
      rewrite (IsExceptionPending_None _ Hexc). fold heap1. rewrite Hinsert.
      cbn [exec_bind]. change (IsLoaded (SetClinitThreadId c (tid self))) with (IsLoaded c).
      rewrite Hload. cbn [negb CHECK exec_bind]. rewrite Hlsi.
      rewrite (deref_Some _ _ _ Hc2). cbn [negb exec_bind].
      rewrite Hloaded2, Hres2. cbn [negb CHECK exec_bind]. rewrite Hlink.
      rewrite (deref_Some _ _ _ Hc3). done.
    + apply (failed_class_is_found kIsDebugBuild heap heap3 linker descriptor_ klass c c3);
        [done|done|done| |done].
      eapply same_identity_trans; [exact H01|]. by eapply same_identity_trans.
    + exists (SetStatus c3 kStatusError). split; [apply lookup_store_eq|].
      split; [done|]. split; simpl; [by rewrite Hd3, Hd2|by rewrite Hl3, Hl2].
    + intros other Hne. by apply lookup_store_ne.
    + unfold linker1. rewrite equal_range_insert. apply elem_of_app. right. by left.
Qed.

(** *** [EnsureInitialized] and [InitializeClass] *)

Section initialization.
Context (IsCompiler : bool) (PrettyDescriptor : string → string)
  (IsInstanceOf_java_lang_Error : Throwable → bool)
  (VerifyClass : Heap → Thread → Addr → Heap * Thread)
  (ValidateSuperClassDescriptors : Heap → Thread → Addr → bool * Thread)
  (ReadStaticValues Invoke_clinit : Heap → Thread → Addr → Heap * Thread).

Local Abbreviation InitializeClass :=
  (InitializeClass IsCompiler PrettyDescriptor IsInstanceOf_java_lang_Error
     VerifyClass ValidateSuperClassDescriptors ReadStaticValues Invoke_clinit).
Local Abbreviation EnsureInitialized :=
  (EnsureInitialized IsCompiler PrettyDescriptor IsInstanceOf_java_lang_Error
     VerifyClass ValidateSuperClassDescriptors ReadStaticValues Invoke_clinit).
Local Abbreviation WaitForInitializeClass :=
  (WaitForInitializeClass IsCompiler PrettyDescriptor IsInstanceOf_java_lang_Error).

Lemma IsInitialized_status c : IsInitialized c = true ↔ status c = kStatusInitialized.
Proof. unfold IsInitialized, status_IsInitialized. apply bool_decide_eq_true. Qed.

(** A waiter that is told yes has seen the class initialized. *)
Lemma WaitForInitializeClass_true (heap : Heap) self klass wakeups heap' self' :
  WaitForInitializeClass heap self klass wakeups = Done (true, heap', self') →
  ∃ c', heap' !! klass = Some c' ∧ status c' = kStatusInitialized.
Proof.
  revert heap. induction wakeups as [|seen wakeups IH]; intros heap H.
  - cbn [Resolution.WaitForInitializeClass] in H. apply bind_Done in H as (? & _ & H).
    apply bind_Done in H as (? & _ & H). by apply bind_Done in H as (? & _ & H).
  - cbn [Resolution.WaitForInitializeClass] in H. apply bind_Done in H as (? & _ & H).
    apply bind_Done in H as (c & _ & H). apply bind_Done in H as (? & _ & H).
    destruct (IsExceptionPending self).
    { by apply bind_Done in H as (? & _ & H). }
    case_bool_decide as Hst; [by apply IH in H|].
    destruct (bool_decide (status (SetStatus c seen) = kStatusVerified) && IsCompiler);
      [done|].
    destruct (IsErroneous (SetStatus c seen)).
    { by apply bind_Done in H as (? & _ & H). }
    destruct (IsInitialized (SetStatus c seen)) eqn:Hini; [|done].
    simplify_eq. exists (SetStatus c seen). split; [apply lookup_store_eq|].
    by apply IsInitialized_status.
Qed.

Lemma InitializeClass_true depth (heap : Heap) self klass fields parents wakeups heap' self' :
  InitializeClass depth heap self klass fields parents wakeups = Done (true, heap', self') →
  initialized_for heap' self' klass.
Proof.
  destruct depth as [|depth]; [done|]. intros H. cbn [Resolution.InitializeClass] in H.
  apply bind_Done in H as (c & Hc & H).
  unfold deref in Hc. destruct (heap !! klass) as [c0|] eqn:Hk; simplify_eq.
  destruct (IsInitialized c) eqn:Hini.
  { simplify_eq. exists c. split; [done|]. left. by apply IsInitialized_status. }
  apply bind_Done in H as (can & _ & H). destruct can; [|done]. cbn [negb] in H.
  destruct (IsErroneous c).
  { by apply bind_Done in H as (? & _ & H). }
  apply bind_Done in H as (? & _ & H).
  apply bind_Done in H as ([[h1 s1]|[h1 s1]] & _ & H); [done|].
  apply bind_Done in H as (c1 & Hc1 & H).
  unfold deref in Hc1. destruct (h1 !! klass) as [c1'|] eqn:Hk1; simplify_eq.
  case_bool_decide as Hst.
  { destruct (clinit_thread_id c1 =? tid s1) eqn:Hown.
    - simplify_eq. exists c1. split; [done|]. right. split; [done|]. by apply Z.eqb_eq.
    - destruct (WaitForInitializeClass_true _ _ _ _ _ _ H) as (c' & Hc' & Hst').
      exists c'. split; [done|by left]. }
  destruct (ValidateSuperClassDescriptors h1 s1 klass) as [valid s2].
  destruct valid; [|done]. cbn [negb] in H.
  apply bind_Done in H as (? & _ & H).
  apply bind_Done in H as ([[h3 s3]|[h3 s3]] & _ & H); [done|].
  apply bind_Done in H as ([h4 s4] & _ & H).
  unfold finish_initialization in H. apply bind_Done in H as (c4 & _ & H).
  destruct (IsExceptionPending s4).
  { by apply bind_Done in H as (? & _ & H). }
  simplify_eq. exists (SetStatus c4 kStatusInitialized).
  split; [apply lookup_store_eq|by left].
Qed.

(** X13: what the verdict of [EnsureInitialized] means.  When it answers
    true, the class is initialized in the heap it leaves, or is being
    initialized by the calling thread itself; when it answers false to a
    caller that allowed the static initializers and the parents to run, an
    exception is pending in the thread: it never says no without a reason. *)
Theorem EnsureInitialized_verdict
    (depth : nat) (heap : Heap) (self : Thread) (klass : Addr)
    (can_init_fields can_init_parents : bool) (wakeups : Addr → list Status)
    (success : bool) (heap' : Heap) (self' : Thread) :
  EnsureInitialized depth heap self klass can_init_fields can_init_parents wakeups
  = Done (success, heap', self') →
  (success = true → initialized_for heap' self' klass)
  ∧ (success = false → can_init_fields = true → can_init_parents = true →
     exception_ self' ≠ None).
Proof.
  intros H. unfold TableMaintenance.EnsureInitialized in H.
  apply bind_Done in H as (c & Hc & H).
  unfold deref in Hc. destruct (heap !! klass) as [c0|] eqn:Hk; simplify_eq.
  destruct (IsInitialized c) eqn:Hini.
  { simplify_eq. split; [|done]. intros _. exists c. split; [done|].
    left. by apply IsInitialized_status. }
  apply bind_Done in H as ([[ok h1] s1] & Hinit & H).
  apply bind_Done in H as (? & Hcheck & H). simplify_eq. split.
  - intros ->. by eapply InitializeClass_true.
  - intros -> -> ->. cbn [negb andb] in Hcheck. unfold CHECK in Hcheck.
    destruct (IsExceptionPending self') eqn:Hpending; [|done].
    unfold IsExceptionPending in Hpending. by apply bool_decide_eq_true in Hpending.
Qed.

(** The class is in the hands of an initializing thread: the steps of
    [InitializeClass] up to the question whose hands they are. *)
Lemma InitializeClass_initializing depth (heap : Heap) self klass c wakeups :
  heap !! klass = Some c →
  status c = kStatusInitializing →
  InitializeClass (S depth) heap self klass true true wakeups
  = if clinit_thread_id c =? tid self then Done (true, heap, self)
    else WaitForInitializeClass heap self klass (wakeups klass).
Proof.
  intros Hc Hst. cbn [Resolution.InitializeClass].
  rewrite (deref_Some _ _ _ Hc). cbn [exec_bind].
  unfold IsInitialized, IsErroneous, IsResolved, IsVerified. rewrite Hst.
  cbn [CanWeInitializeClass andb exec_bind negb].
  change (status_IsInitialized kStatusInitializing) with false.
  change (status_IsErroneous kStatusInitializing) with false.
  change (status_IsResolved kStatusInitializing) with true.
  change (status_IsVerified kStatusInitializing) with true.
  cbn [CHECK exec_bind negb]. rewrite (deref_Some _ _ _ Hc). cbn [exec_bind].
  by rewrite Hst, bool_decide_eq_true_2.
Qed.

Lemma EnsureInitialized_initializing depth (heap : Heap) self klass c wakeups :
  heap !! klass = Some c →
  status c = kStatusInitializing →
  EnsureInitialized (S depth) heap self klass true true wakeups
  = let! (success, heap, self) :=
      (if clinit_thread_id c =? tid self then Done (true, heap, self)
       else WaitForInitializeClass heap self klass (wakeups klass)) in
    let! _ := (if negb success then CHECK (IsExceptionPending self) else Done ()) in
    Done (success, heap, self).
Proof.
  intros Hc Hst. unfold TableMaintenance.EnsureInitialized.
  rewrite (deref_Some _ _ _ Hc). cbn [exec_bind].
  unfold IsInitialized. rewrite Hst.
  change (status_IsInitialized kStatusInitializing) with false. cbv iota.
  rewrite (InitializeClass_initializing _ _ _ _ c) by done.
  destruct (if clinit_thread_id c =? tid self then _ else _) as [[[ok h] s]| |]; [|done|done].
  cbn [exec_bind]. by rewrite andb_true_r.
Qed.

(** X14: a request that comes from the thread that is initializing the
    class (the class initializer, or the code it calls, touching its own
    class) is answered with true at once: nothing is verified or run, the
    heap and the thread stay as they are, and the thread does not wait for
    itself. *)
Theorem EnsureInitialized_reentrant
    (depth : nat) (heap : Heap) (self : Thread) (klass : Addr) (c : Class)
    (wakeups : Addr → list Status) :
  heap !! klass = Some c →
  status c = kStatusInitializing →
  clinit_thread_id c = tid self →
  EnsureInitialized (S depth) heap self klass true true wakeups = Done (true, heap, self).
Proof.
  intros Hc Hst Hown. rewrite (EnsureInitialized_initializing _ _ _ _ c) by done.
  by rewrite Hown, Z.eqb_refl.
Qed.

Lemma store_same (heap : Heap) klass c : heap !! klass = Some c → store heap klass c = heap.
Proof. intros Hc. unfold store. by apply insert_id. Qed.

(** Woken up with the class still being initialized, the waiter waits on. *)
Lemma WaitForInitializeClass_spurious (heap : Heap) self klass c n ws :
  heap !! klass = Some c →
  status c = kStatusInitializing →
  exception_ self = None →
  WaitForInitializeClass heap self klass (replicate n kStatusInitializing ++ ws)
  = WaitForInitializeClass heap self klass ws.
Proof.
  intros Hc Hst Hexc. induction n as [|n IH]; [done|].
  cbn [replicate app Resolution.WaitForInitializeClass].
  unfold AssertNoPendingException. rewrite (IsExceptionPending_None _ Hexc).
  cbn [negb CHECK exec_bind]. rewrite (deref_Some _ _ _ Hc). cbn [exec_bind].
  unfold IsInitialized. rewrite Hst.
  change (status_IsInitialized kStatusInitializing) with false.
  cbn [negb CHECK exec_bind]. rewrite <- Hst, SetStatus_same, Hst.
  rewrite store_same by done. by rewrite bool_decide_eq_true_2.
Qed.

Lemma WaitForInitializeClass_woken (heap : Heap) self klass c seen ws :
  heap !! klass = Some c →
  status c = kStatusInitializing →
  exception_ self = None →
  WaitForInitializeClass heap self klass (seen :: ws)
  = let heap' := store heap klass (SetStatus c seen) in
    if bool_decide (seen = kStatusInitializing) then
      WaitForInitializeClass heap' self klass ws
    else if bool_decide (seen = kStatusVerified) && IsCompiler then Done (false, heap', self)
    else if status_IsErroneous seen then
      let! self :=
        ThrowNoClassDefFoundError self
          ("<clinit> failed for class " +:+ PrettyDescriptor (descriptor c)
             +:+ "; see exception in other thread") in
      Done (false, heap', self)
    else if status_IsInitialized seen then Done (true, heap', self)
    else Fatal.
Proof.
  intros Hc Hst Hexc. cbn [Resolution.WaitForInitializeClass].
  unfold AssertNoPendingException. rewrite (IsExceptionPending_None _ Hexc).
  cbn [negb CHECK exec_bind]. rewrite (deref_Some _ _ _ Hc). cbn [exec_bind].
  unfold IsInitialized at 1. rewrite Hst.
  change (status_IsInitialized kStatusInitializing) with false.
  cbn [negb CHECK exec_bind]. done.
Qed.

(** X15: a thread that finds the class in the hands of another thread
    waits.  Wakeups that show the class still being initialized send it back
    to waiting; when the other thread has finished, the waiter answers true
    and the class is initialized; when the other thread has failed, the
    waiter answers false with a [NoClassDefFoundError] of its own pending;
    and as long as the class stays in status Initializing the call does not
    return. *)
Theorem EnsureInitialized_waits_for_the_initializing_thread
    (depth : nat) (heap : Heap) (self : Thread) (klass : Addr) (c : Class)
    (wakeups : Addr → list Status) (n : nat) (rest : list Status) :
  heap !! klass = Some c →
  status c = kStatusInitializing →
  clinit_thread_id c ≠ tid self →
  exception_ self = None →
  (wakeups klass = replicate n kStatusInitializing ++ kStatusInitialized :: rest →
   EnsureInitialized (S depth) heap self klass true true wakeups
   = Done (true, store heap klass (SetStatus c kStatusInitialized), self))
  ∧ (wakeups klass = replicate n kStatusInitializing ++ kStatusError :: rest →
     EnsureInitialized (S depth) heap self klass true true wakeups
     = Done (false, store heap klass (SetStatus c kStatusError),
             SetException self
               (Some {| exception_class := "Ljava/lang/NoClassDefFoundError;";
                        detail_message :=
                          Some ("<clinit> failed for class "
                                  +:+ PrettyDescriptor (descriptor c)
                                  +:+ "; see exception in other thread");
                        cause := None |})))
  ∧ (wakeups klass = replicate n kStatusInitializing →
     EnsureInitialized (S depth) heap self klass true true wakeups = Stuck).
Proof.
  intros Hc Hst Hother Hexc.
  assert (Hne : (clinit_thread_id c =? tid self) = false) by by apply Z.eqb_neq.
  rewrite (EnsureInitialized_initializing _ _ _ _ c), Hne by done.
  split_and!; intros ->.
  - rewrite (WaitForInitializeClass_spurious _ _ _ c), (WaitForInitializeClass_woken _ _ _ c)
      by done.
    done.
  - rewrite (WaitForInitializeClass_spurious _ _ _ c), (WaitForInitializeClass_woken _ _ _ c)
      by done.
    cbv zeta.
    change (bool_decide (kStatusError = kStatusInitializing)) with false.
    change (bool_decide (kStatusError = kStatusVerified)) with false.
    change (status_IsErroneous kStatusError) with true. cbv iota. cbn [andb].
    unfold ThrowNoClassDefFoundError. rewrite ThrowNewException_fresh by done.
    done.
  - rewrite <- (app_nil_r (replicate n _)).
    rewrite (WaitForInitializeClass_spurious _ _ _ c) by done.
    cbn [Resolution.WaitForInitializeClass].
    unfold AssertNoPendingException. rewrite (IsExceptionPending_None _ Hexc).
    cbn [negb CHECK exec_bind]. rewrite (deref_Some _ _ _ Hc). cbn [exec_bind].
    unfold IsInitialized. by rewrite Hst.
Qed.

(** *** The permissions of the caller *)

Lemma CanWeInitializeClass_more_statics depth (heap : Heap) klass :
  CanWeInitializeClass depth heap klass false false = Done true →
  CanWeInitializeClass depth heap klass true false = Done true.
Proof.
  revert klass. induction depth as [|depth IH]; intros klass H.
  - cbn [CanWeInitializeClass andb negb] in H |- *.
    apply bind_Done in H as (c & Hc & H). rewrite Hc. cbn [exec_bind].
    destruct (has_class_initializer c); [done|].
    destruct (negb (num_static_fields c =? 0) && negb (static_values_off_ c =? 0));
      [done|].
    destruct (negb (is_interface c)); [|done].
    destruct (super_class c) as [super|]; [|done].
    apply bind_Done in H as (sc & Hsc & H). rewrite Hsc. cbn [exec_bind].
    by destruct (negb (IsInitialized sc)).
  - cbn [CanWeInitializeClass andb negb] in H |- *.
    apply bind_Done in H as (c & Hc & H). rewrite Hc. cbn [exec_bind].
    destruct (has_class_initializer c); [done|].
    destruct (negb (num_static_fields c =? 0) && negb (static_values_off_ c =? 0));
      [done|].
    destruct (negb (is_interface c)); [|done].
    destruct (super_class c) as [super|]; [|done].
    apply bind_Done in H as (sc & Hsc & H). rewrite Hsc. cbn [exec_bind].
    destruct (negb (IsInitialized sc)); [done|].
    apply bind_Done in H as (can & Hcan & H). destruct can; [|done].
    by rewrite (IH _ Hcan).
Qed.

Lemma CanWeInitializeClass_more_parents depth (heap : Heap) klass :
  CanWeInitializeClass depth heap klass false false = Done true →
  CanWeInitializeClass depth heap klass false true = Done true.
Proof.
  revert klass. induction depth as [|depth IH]; intros klass H.
  - cbn [CanWeInitializeClass andb negb] in H |- *.
    apply bind_Done in H as (c & Hc & H). rewrite Hc. cbn [exec_bind].
    destruct (has_class_initializer c); [done|].
    destruct (negb (num_static_fields c =? 0) && negb (static_values_off_ c =? 0));
      [done|].
    destruct (negb (is_interface c)); [|done].
    destruct (super_class c) as [super|]; [|done].
    apply bind_Done in H as (sc & Hsc & H). rewrite Hsc. cbn [exec_bind].
    by destruct (negb (IsInitialized sc)).
  - cbn [CanWeInitializeClass andb negb] in H |- *.
    apply bind_Done in H as (c & Hc & H). rewrite Hc. cbn [exec_bind].
    destruct (has_class_initializer c); [done|].
    destruct (negb (num_static_fields c =? 0) && negb (static_values_off_ c =? 0));
      [done|].
    destruct (negb (is_interface c)); [|done].
    destruct (super_class c) as [super|]; [|done].
    apply bind_Done in H as (sc & Hsc & H). rewrite Hsc. cbn [exec_bind].
    destruct (negb (IsInitialized sc)); [done|].
    apply bind_Done in H as (can & Hcan & H). destruct can; [|done].
    by rewrite (IH _ Hcan).
Qed.

(** X28: granting more never turns the yes of [CanWeInitializeClass] into a
    no: a class that may be initialized without running static initializers,
    or without initializing parents, may be initialized with them. *)
Theorem CanWeInitializeClass_monotone
    (depth : nat) (heap : Heap) (klass : Addr)
    (can_init_statics can_init_parents more_statics more_parents : bool) :
  CanWeInitializeClass depth heap klass can_init_statics can_init_parents = Done true →
  (can_init_statics = true → more_statics = true) →
  (can_init_parents = true → more_parents = true) →
  CanWeInitializeClass depth heap klass more_statics more_parents = Done true.
Proof.
  intros H Hs Hp.
  destruct more_statics, more_parents.
  - by destruct depth.
  - destruct can_init_parents; [by specialize (Hp eq_refl)|].
    destruct can_init_statics; [done|]. by apply CanWeInitializeClass_more_statics.
  - destruct can_init_statics; [by specialize (Hs eq_refl)|].
    destruct can_init_parents; [done|]. by apply CanWeInitializeClass_more_parents.
  - destruct can_init_statics; [by specialize (Hs eq_refl)|].
    destruct can_init_parents; [by specialize (Hp eq_refl)|]. done.
Qed.

Lemma exec_bind_ext {A B} (m1 m2 : Exec A) (k1 k2 : A → Exec B) :
  m1 = m2 → (∀ a, k1 a = k2 a) → exec_bind m1 k1 = exec_bind m2 k2.
Proof. intros -> Hk. destruct m2; simpl; [apply Hk|done|done]. Qed.

(** X29: [InitializeClass] runs no static initializer that the caller did
    not allow.  With [can_init_statics] false, the call ends the same way
    whatever the encoded static values and the class initializers of the
    class and of its superclasses would do: that code is not reached. *)
Theorem InitializeClass_runs_no_forbidden_initializer
    (ReadStaticValues' Invoke_clinit' : Heap → Thread → Addr → Heap * Thread)
    (depth : nat) (heap : Heap) (self : Thread) (klass : Addr)
    (can_init_parents : bool) (wakeups : Addr → list Status) :
  InitializeClass depth heap self klass false can_init_parents wakeups
  = Resolution.InitializeClass IsCompiler PrettyDescriptor IsInstanceOf_java_lang_Error
      VerifyClass ValidateSuperClassDescriptors ReadStaticValues' Invoke_clinit'
      depth heap self klass false can_init_parents wakeups.
Proof.
  revert heap self klass can_init_parents.
  induction depth as [|depth IH]; intros heap self klass can_init_parents;
    [reflexivity|].
  cbn [Resolution.InitializeClass].
  destruct (deref heap klass) as [c| |]; cbn [exec_bind]; [|reflexivity|reflexivity].
  destruct (IsInitialized c); [reflexivity|].
  destruct (CanWeInitializeClass (S depth) heap klass false can_init_parents)
    as [can| |]; cbn [exec_bind]; [|reflexivity|reflexivity].
  destruct (negb can); [reflexivity|].
  destruct (IsErroneous c); [reflexivity|].
  destruct (CHECK (IsResolved c)) as [[]| |]; cbn [exec_bind];
    [|reflexivity|reflexivity].
  lazymatch goal with
  | |- exec_bind ?m _ = _ => destruct m as [[[h s]|[h s]]| |]
  end; cbn [exec_bind]; [reflexivity| |reflexivity|reflexivity].
  destruct (deref h klass) as [c1| |]; cbn [exec_bind]; [|reflexivity|reflexivity].
  destruct (bool_decide (status c1 = kStatusInitializing)); [reflexivity|].
  destruct (ValidateSuperClassDescriptors h s klass) as [valid s1].
  destruct (negb valid); [reflexivity|].
  destruct (CHECK (bool_decide (status c1 = kStatusVerified))) as [[]| |];
    cbn [exec_bind]; [|reflexivity|reflexivity].
  apply exec_bind_ext.
  - (* the superclass *)
    destruct (negb (is_interface _)); [|reflexivity].
    destruct (super_class _) as [super|]; [|reflexivity].
    lazymatch goal with
    | |- exec_bind ?m _ = _ => destruct m as [sc| |]
    end; cbn [exec_bind]; [|reflexivity|reflexivity].
    destruct (negb (IsInitialized sc)); [|reflexivity].
    destruct (CHECK (negb (is_interface sc))) as [[]| |]; cbn [exec_bind];
      [|reflexivity|reflexivity].
    destruct (CHECK can_init_parents) as [[]| |]; cbn [exec_bind];
      [|reflexivity|reflexivity].
    by rewrite <- (IH _ _ super true).
  - (* the class itself: an initializer is behind a check of the permission *)
    intros [[h3 s3]|[h3 s3]]; [reflexivity|].
    apply exec_bind_ext; [|reflexivity].
    unfold run_static_initializers.
    destruct (deref h3 klass) as [c3| |]; cbn [exec_bind]; [|reflexivity|reflexivity].
    destruct ((0 <? num_static_fields c3) && has_encoded_static_values c3);
      cbn [CHECK exec_bind]; [reflexivity|].
    destruct (has_class_initializer c3); cbn [CHECK exec_bind]; reflexivity.
Qed.

End initialization.

(** *** The theorems at work *)

Lemma heap_Y_lookup owner : heap_Y owner !! 5%N = Some (class_Y owner).
Proof. unfold heap_Y. apply lookup_singleton_eq. Qed.

Lemma EnsureResolved_circularity_witness :
  EnsureResolved id (heap_X kStatusLoaded) {| tid := 0; exception_ := None |} 1%N []
  = Done (None, store (heap_X kStatusLoaded) 1%N (class_X kStatusError),
          {| tid := 0;
             exception_ :=
               Some {| exception_class := "Ljava/lang/ClassCircularityError;";
                       detail_message := Some "LX;"%string; cause := None |} |}).
Proof.
  destruct (EnsureResolved_circularity id (heap_X kStatusLoaded)
              {| tid := 0; exception_ := None |} 1%N (class_X kStatusLoaded) [])
    as [Hfirst _].
  - apply heap_X_lookup.
  - reflexivity.
  - reflexivity.
  - reflexivity.
  - reflexivity.
  - exact Hfirst.
Defined.

Lemma DefineClass_failure_stays_in_table_witness :
  ∃ c',
    store (heap_X kStatusIdx) 1%N (SetClinitThreadId (class_X kStatusIdx) 7) !! 1%N = Some c'
    ∧ DefineClass false id loading_fails collaborator_succeeds
        (heap_X kStatusIdx) empty_linker main_thread "LX;" 1%N []
      = Done (None,
              store (store (heap_X kStatusIdx) 1%N
                       (SetClinitThreadId (class_X kStatusIdx) 7))
                1%N (SetStatus c' kStatusError),
              table_insert empty_linker (Hash "LX;") 1%N, main_thread)
    ∧ LookupClass false
        (store (store (heap_X kStatusIdx) 1%N
                  (SetClinitThreadId (class_X kStatusIdx) 7))
           1%N (SetStatus c' kStatusError))
        (table_insert empty_linker (Hash "LX;") 1%N) "LX;" None
      = Done (Some 1%N, table_insert empty_linker (Hash "LX;") 1%N)
    ∧ (∃ c'', store (store (heap_X kStatusIdx) 1%N
                       (SetClinitThreadId (class_X kStatusIdx) 7))
                1%N (SetStatus c' kStatusError) !! 1%N = Some c''
              ∧ status c'' = kStatusError
              ∧ descriptor c'' = descriptor (class_X kStatusIdx)
              ∧ class_loader c'' = class_loader (class_X kStatusIdx))
    ∧ (∀ other, other ≠ 1%N →
         store (store (heap_X kStatusIdx) 1%N
                  (SetClinitThreadId (class_X kStatusIdx) 7))
           1%N (SetStatus c' kStatusError) !! other
         = store (heap_X kStatusIdx) 1%N
             (SetClinitThreadId (class_X kStatusIdx) 7) !! other)
    ∧ 1%N ∈ equal_range (class_table_ (table_insert empty_linker (Hash "LX;") 1%N))
              (Hash "LX;").
Proof.
  destruct (DefineClass_failure_stays_in_table false id loading_fails collaborator_succeeds
              (heap_X kStatusIdx) empty_linker main_thread "LX;" 1%N (class_X kStatusIdx) [])
    as [Hload _].
  - apply heap_X_lookup.
  - reflexivity.
  - reflexivity.
  - reflexivity.
  - simpl. rewrite equal_range_empty. intros k Hk. by apply elem_of_nil in Hk.
  - intros Hdebug. discriminate Hdebug.
  - apply (Hload _ main_thread eq_refl). apply same_identity_refl.
Defined.

Lemma EnsureInitialized_verdict_witness :
  initialized_for (heap_Y 7) main_thread 5%N.
Proof.
  destruct (EnsureInitialized_verdict false id is_error no_verifier signatures_valid
              no_values no_values 1 (heap_Y 7) main_thread 5%N true true (λ _, [])
              true (heap_Y 7) main_thread) as [Hyes _].
  - rewrite (EnsureInitialized_initializing _ _ _ _ _ _ _ _ _ _ _ (class_Y 7)).
    + reflexivity.
    + apply heap_Y_lookup.
    + reflexivity.
  - exact (Hyes eq_refl).
Defined.

Lemma EnsureInitialized_reentrant_witness :
  EnsureInitialized false id is_error no_verifier signatures_valid no_values no_values
    1 (heap_Y 7) main_thread 5%N true true (λ _, [])
  = Done (true, heap_Y 7, main_thread).
Proof.
  apply (EnsureInitialized_reentrant false id is_error no_verifier signatures_valid
           no_values no_values 0 (heap_Y 7) main_thread 5%N (class_Y 7)).
  - apply heap_Y_lookup.
  - reflexivity.
  - reflexivity.
Defined.

Lemma EnsureInitialized_waits_for_the_initializing_thread_witness :
  EnsureInitialized false id is_error no_verifier signatures_valid no_values no_values
    1 (heap_Y 9) main_thread 5%N true true
    (λ _, [kStatusInitializing; kStatusInitializing; kStatusInitialized])
  = Done (true, store (heap_Y 9) 5%N (SetStatus (class_Y 9) kStatusInitialized), main_thread).
Proof.
  destruct (EnsureInitialized_waits_for_the_initializing_thread false id is_error
              no_verifier signatures_valid no_values no_values 0 (heap_Y 9) main_thread
              5%N (class_Y 9)
              (λ _, [kStatusInitializing; kStatusInitializing; kStatusInitialized])
              2 []) as [Hdone _].
  - apply heap_Y_lookup.
  - reflexivity.
  - simpl. lia.
  - reflexivity.
  - apply Hdone. reflexivity.
Defined.

Lemma CanWeInitializeClass_monotone_witness :
  CanWeInitializeClass 1 heap_boot 3%N true false = Done true.
Proof.
  apply (CanWeInitializeClass_monotone 1 heap_boot 3%N false false true false).
  - cbn [CanWeInitializeClass andb]. unfold heap_boot.
    rewrite (deref_Some _ _ _ (lookup_singleton_eq _ _)). reflexivity.
  - intros Hno. discriminate Hno.
  - intros Hno. discriminate Hno.
Defined.

End LifecycleProofs.

(** ** More about the method tables *)

Module DispatchProofs.
Import MethodTables MethodTablesProofs Dispatch.

Lemma HasSameNameAndSignature_iff (am bm : ArtMethod) :
  HasSameNameAndSignature am bm = true
  ↔ (name am, signature am) = (name bm, signature bm).
Proof.
  unfold HasSameNameAndSignature. rewrite andb_true_iff, !bool_decide_eq_true.
  split; [by intros [-> ->]|by intros [= -> ->]].
Qed.

Lemma method_signature_Some methods m am :
  methods !! m = Some am → method_signature methods m = Some (name am, signature am).
Proof. unfold method_signature. by intros ->. Qed.

Section vtable.
Context (CanAccessMember : Addr → Addr → Z → bool) (java_lang_Object : Addr).

Local Abbreviation scan_vtable := (scan_vtable CanAccessMember).
Local Abbreviation link_virtual_method := (link_virtual_method CanAccessMember).
Local Abbreviation link_virtual_methods := (link_virtual_methods CanAccessMember).
Local Abbreviation LinkVirtualMethods := (LinkVirtualMethods CanAccessMember java_lang_Object).

(** The slot the scan answers holds a method with the name and signature
    looked for. *)
Lemma scan_vtable_found methods klass local_mh slots j0 j :
  scan_vtable methods klass local_mh slots j0 = Ok (Some j) →
  ∃ e em, (j0 ≤ j)%nat ∧ slots !! (j - j0)%nat = Some (Some e) ∧ methods !! e = Some em
          ∧ HasSameNameAndSignature local_mh em = true.
Proof.
  revert j0. induction slots as [|entry rest IH]; intros j0 H; [done|].
  simpl in H. apply outcome_bind_Ok in H as (sm & Hsm & H).
  assert (Hrest : scan_vtable methods klass local_mh rest (S j0) = Ok (Some j) →
    ∃ e em, (j0 ≤ j)%nat ∧ (entry :: rest) !! (j - j0)%nat = Some (Some e)
            ∧ methods !! e = Some em ∧ HasSameNameAndSignature local_mh em = true).
  { intros (e & em & Hj & He & Hem & Hs)%IH. exists e, em.
    split_and!; [lia| |done|done].
    replace (j - j0)%nat with (S (j - S j0)) by lia. done. }
  destruct (HasSameNameAndSignature local_mh sm) eqn:Hsame; [|by apply Hrest].
  destruct (CanAccessMember klass (declaring_class sm) (access_flags sm));
    [|by apply Hrest].
  destruct (IsFinal sm); simplify_eq.
  destruct entry as [e|]; [|done]. unfold deref_entry, deref_method in Hsm.
  destruct (methods !! e) as [em|] eqn:He; simplify_eq.
  exists e, sm. rewrite Nat.sub_diag. done.
Qed.

(** What the loop over the declared methods keeps true: [seen] are the
    methods it has dealt with, [vt] and [n] the table and its count, [ms] the
    store. *)
Record table_grown (methods : Methods) (super_vtable : list (option Addr))
    (seen : list Addr) (vt : list (option Addr)) (n : nat) (ms : Methods) : Prop := {
  grown_length : length ms = length methods;
  grown_fields : ∀ a am, methods !! a = Some am →
                   ∃ idx, ms !! a = Some (SetMethodIndex_ idx am);
  grown_others : ∀ a, a ∉ seen → ms !! a = methods !! a;
  grown_count : (length super_vtable ≤ n ≤ length super_vtable + length seen)%nat;
  grown_inherited : ∀ i s, super_vtable !! i = Some (Some s) →
                      ∃ m, vt !! i = Some (Some m) ∧ (m = s ∨ m ∈ seen)
                           ∧ method_signature methods m = method_signature methods s;
  grown_appended : ∀ i, (length super_vtable ≤ i < n)%nat →
                     ∃ m, vt !! i = Some (Some m) ∧ m ∈ seen;
  grown_placed : NoDup (method_signature methods <$> seen) →
                 ∀ m, m ∈ seen → ∃ i, (i < n)%nat ∧ vt !! i = Some (Some m)
}.

Lemma grown_signature methods super_vtable seen vt n ms a :
  table_grown methods super_vtable seen vt n ms →
  method_signature ms a = method_signature methods a.
Proof.
  intros G. unfold method_signature.
  destruct (methods !! a) as [am|] eqn:Ha.
  - destruct (grown_fields _ _ _ _ _ _ G a am Ha) as (idx & ->). done.
  - apply lookup_ge_None in Ha. rewrite <- (grown_length _ _ _ _ _ _ G) in Ha.
    apply lookup_ge_None in Ha. by rewrite Ha.
Qed.

Lemma link_virtual_method_grown methods super_vtable seen klass m vt n ms vt' n' ms' :
  link_virtual_method klass m vt n ms = Ok (vt', n', ms') →
  (n < length vt)%nat →
  table_grown methods super_vtable seen vt n ms →
  table_grown methods super_vtable (seen ++ [m]) vt' n' ms'.
Proof.
  intros H Hlen G. unfold MethodTables.link_virtual_method in H.
  apply outcome_bind_Ok in H as (lm & Hlm & H).
  unfold deref_method in Hlm. destruct (ms !! m) as [lm'|] eqn:Hm; simplify_eq.
  apply outcome_bind_Ok in H as (found & Hscan & H).
  assert (Hm0 : ∃ am, methods !! m = Some am).
  { apply lookup_lt_is_Some. rewrite <- (grown_length _ _ _ _ _ _ G).
    apply lookup_lt_is_Some. by eexists. }
  destruct Hm0 as (am & Ham).
  (* the store, whatever the slot *)
  assert (Hstore : ∀ j,
    length (SetMethodIndex ms m j) = length methods
    ∧ (∀ a am, methods !! a = Some am →
         ∃ idx, SetMethodIndex ms m j !! a = Some (SetMethodIndex_ idx am))
    ∧ (∀ a, a ∉ seen ++ [m] → SetMethodIndex ms m j !! a = methods !! a)).
  { intros j. split_and!.
    - rewrite SetMethodIndex_length. apply (grown_length _ _ _ _ _ _ G).
    - intros a aa Ha. destruct (decide (a = m)) as [->|Hne].
      + destruct (grown_fields _ _ _ _ _ _ G m aa Ha) as (idx & Hidx).
        exists j. rewrite (SetMethodIndex_eq _ _ _ _ Hidx). done.
      + rewrite SetMethodIndex_ne by done. by apply (grown_fields _ _ _ _ _ _ G).
    - intros a Ha. rewrite SetMethodIndex_ne.
      + apply (grown_others _ _ _ _ _ _ G). intros Hin. apply Ha.
        apply elem_of_app. by left.
      + intros ->. apply Ha. apply elem_of_app. right. by left. }
  destruct found as [j|]; injection H as <- <- <-.
  - (* the method overrides slot j *)
    apply scan_vtable_found in Hscan as (e & em & _ & He & Hem & Hsame).
    rewrite Nat.sub_0_r in He.
    assert (Hj : (j < n)%nat).
    { apply lookup_lt_Some in He. rewrite length_take in He. lia. }
    rewrite lookup_take_lt in He by done.
    assert (Hsig : method_signature methods m = method_signature methods e).
    { rewrite <- !(grown_signature _ _ _ _ _ _ _ G).
      rewrite (method_signature_Some _ _ _ Hm), (method_signature_Some _ _ _ Hem).
      f_equal. by apply HasSameNameAndSignature_iff. }
    destruct (Hstore (Z.of_nat j)) as (S1 & S2 & S3).
    constructor; [done|done|done| | | |].
    + pose proof (grown_count _ _ _ _ _ _ G). rewrite length_app. simpl. lia.
    + intros i s Hs. destruct (grown_inherited _ _ _ _ _ _ G i s Hs) as (m0 & Hm0 & Hor & Hs0).
      destruct (decide (i = j)) as [->|Hne].
      * exists m. rewrite list_lookup_insert_eq by lia.
        split_and!; [done|right; apply elem_of_app; right; by left|].
        rewrite Hsig. by simplify_eq.
      * exists m0. rewrite list_lookup_insert_ne by done.
        split_and!; [done| |done].
        destruct Hor; [by left|right; apply elem_of_app; by left].
    + intros i Hi. destruct (decide (i = j)) as [->|Hne].
      * exists m. rewrite list_lookup_insert_eq by lia.
        split; [done|apply elem_of_app; right; by left].
      * destruct (grown_appended _ _ _ _ _ _ G i Hi) as (m0 & Hm0 & Hin).
        exists m0. rewrite list_lookup_insert_ne by done.
        split; [done|apply elem_of_app; by left].
    + intros Hnodup m1 Hm1. rewrite fmap_app in Hnodup.
      apply NoDup_app in Hnodup as (Hnd & Hfresh & _).
      apply elem_of_app in Hm1 as [Hm1|Hm1%list_elem_of_singleton].
      * destruct (grown_placed _ _ _ _ _ _ G Hnd m1 Hm1) as (i & Hi & Hslot).
        exists i. split; [done|]. rewrite list_lookup_insert_ne; [done|].
        intros <-. simplify_eq.
        apply (Hfresh (method_signature methods e)).
        -- apply list_elem_of_fmap. by exists e.
        -- rewrite <- Hsig. simpl. by left.
      * subst m1. exists j. split; [done|]. by rewrite list_lookup_insert_eq by lia.
  - (* the method is appended *)
    destruct (Hstore (Z.of_nat n)) as (S1 & S2 & S3).
    pose proof (grown_count _ _ _ _ _ _ G) as Hn.
    constructor; [done|done|done| | | |].
    + rewrite length_app. simpl. lia.
    + intros i s Hs. destruct (grown_inherited _ _ _ _ _ _ G i s Hs) as (m0 & Hm0 & Hor & Hs0).
      apply lookup_lt_Some in Hs.
      exists m0. rewrite list_lookup_insert_ne by lia. split_and!; [done| |done].
      destruct Hor; [by left|right; apply elem_of_app; by left].
    + intros i Hi. destruct (decide (i = n)) as [->|Hne].
      * exists m. rewrite list_lookup_insert_eq by lia.
        split; [done|apply elem_of_app; right; by left].
      * destruct (grown_appended _ _ _ _ _ _ G i) as (m0 & Hm0 & Hin); [lia|].
        exists m0. rewrite list_lookup_insert_ne by done.
        split; [done|apply elem_of_app; by left].
    + intros Hnodup m1 Hm1. rewrite fmap_app in Hnodup.
      apply NoDup_app in Hnodup as (Hnd & _ & _).
      apply elem_of_app in Hm1 as [Hm1|Hm1%list_elem_of_singleton].
      * destruct (grown_placed _ _ _ _ _ _ G Hnd m1 Hm1) as (i & Hi & Hslot).
        exists i. split; [lia|]. by rewrite list_lookup_insert_ne by lia.
      * subst m1. exists n. split; [lia|]. by rewrite list_lookup_insert_eq by lia.
Qed.

Lemma link_virtual_methods_grown methods super_vtable seen klass locals vt n ms vt' n' ms' :
  link_virtual_methods klass locals vt n ms = Ok (vt', n', ms') →
  (n + length locals ≤ length vt)%nat →
  table_grown methods super_vtable seen vt n ms →
  table_grown methods super_vtable (seen ++ locals) vt' n' ms'.
Proof.
  revert seen vt n ms. induction locals as [|m locals IH]; intros seen vt n ms H Hlen G.
  - simpl in H. simplify_eq. by rewrite app_nil_r.
  - simpl in H. apply outcome_bind_Ok in H as ([[vt1 n1] ms1] & H1 & H). simpl in Hlen.
    pose proof (link_virtual_method_frame _ _ _ _ _ _ _ _ _ H1) as (Hl1 & _ & Hn1).
    apply (link_virtual_method_grown methods super_vtable seen) in H1; [|lia|done].
    rewrite (assoc_L (++) seen [m] locals : seen ++ m :: locals = (seen ++ [m]) ++ locals).
    apply (IH _ _ _ _ H); [lia|done].
Qed.

Lemma SetMethodIndex__same (am : ArtMethod) : SetMethodIndex_ (method_index am) am = am.
Proof. by destruct am. Qed.

(** The loop starts from the copy of the inherited table. *)
Lemma table_grown_initial methods (super_vtable : list (option Addr)) max_count :
  (length super_vtable ≤ max_count)%nat →
  table_grown methods super_vtable [] (CopyOf super_vtable max_count)
    (length super_vtable) methods.
Proof.
  intros Hmax. constructor; [done| |done|simpl; lia| | |].
  - intros a am Ha. exists (method_index am). by rewrite SetMethodIndex__same.
  - intros i s Hs. exists s. apply lookup_lt_Some in Hs as Hi.
    rewrite CopyOf_lookup_lt by lia. by split_and!; [|left|].
  - intros i Hi. lia.
  - intros _ m Hm. by apply elem_of_nil in Hm.
Qed.

(** X16: the vtable [LinkVirtualMethods] gives a class with a superclass
    extends the superclass's vtable slot by slot.  It is at least as long as
    the inherited table and at most longer by the number of declared
    methods, and shorter than 2^16; every inherited slot holds the inherited
    method or a declared method with the same name and signature in its
    place, so that a call through the slot of the superclass reaches a
    method of that name and signature; the slots after the inherited ones
    hold declared methods; and when the declared methods differ in name or
    signature, each of them is in the table. *)
Theorem LinkVirtualMethods_extends_the_super_vtable
    (classes : Classes) (methods : Methods) (klass_addr : Addr) (klass : Class)
    (super : Addr) (super_c : Class) (super_vtable : list (option Addr))
    (klass' : Class) (methods' : Methods) :
  super_class klass = Some super →
  classes !! super = Some super_c →
  vtable super_c = Some super_vtable →
  LinkVirtualMethods classes methods klass_addr klass = Ok (klass', methods') →
  ∃ vt,
    klass' = SetVTable klass vt
    ∧ (length super_vtable ≤ length vt
       ≤ length super_vtable + length (virtual_methods klass))%nat
    ∧ Z.of_nat (length vt) < 2 ^ 16
    ∧ (∀ i s, super_vtable !! i = Some (Some s) →
         ∃ m, vt !! i = Some (Some m)
              ∧ (m = s ∨ m ∈ virtual_methods klass)
              ∧ method_signature methods' m = method_signature methods s)
    ∧ (∀ i, (length super_vtable ≤ i < length vt)%nat →
         ∃ m, vt !! i = Some (Some m) ∧ m ∈ virtual_methods klass)
    ∧ (NoDup (method_signature methods <$> virtual_methods klass) →
       ∀ m, m ∈ virtual_methods klass → Some m ∈ vt).
Proof.
  intros Hsuper Hc Hv H. unfold MethodTables.LinkVirtualMethods in H.
  rewrite Hsuper in H. unfold deref_class in H. rewrite Hc in H.
  cbn [outcome_bind] in H. rewrite Hv in H. cbn [outcome_bind] in H.
  apply outcome_bind_Ok in H as ([] & _ & H).
  apply outcome_bind_Ok in H as ([[vt n] ms] & Hlink & H).
  destruct (IsUint 16 (Z.of_nat n)) eqn:Huint; [|done]. cbn [negb] in H.
  apply outcome_bind_Ok in H as ([] & _ & H).
  pose proof (link_virtual_methods_frame _ _ _ _ _ _ _ _ _ Hlink) as (Hlen & Hms & Hn).
  rewrite CopyOf_length in Hlen. apply IsUint_16_lt in Huint.
  assert (Htake : (if (n <? length (virtual_methods klass) + length super_vtable)%nat
                   then CopyOf vt n else vt) = take n vt).
  { destruct (n <? _)%nat eqn:Hlt.
    - apply CopyOf_shrink. lia.
    - apply Nat.ltb_ge in Hlt. rewrite take_ge; [done|lia]. }
  rewrite Htake in H. injection H as <- <-.
  apply (link_virtual_methods_grown methods super_vtable []) in Hlink;
    [|rewrite CopyOf_length; lia|].
  - rewrite app_nil_l in Hlink. exists (take n vt).
    pose proof (grown_count _ _ _ _ _ _ Hlink) as Hcount.
    assert (Hlt : length (take n vt) = n) by (rewrite length_take; lia).
    rewrite Hlt. split_and!; [done|lia|lia|lia| | |].
    + intros i s Hs.
      destruct (grown_inherited _ _ _ _ _ _ Hlink i s Hs) as (m & Hm & Hor & Hsig).
      exists m. apply lookup_lt_Some in Hs. rewrite lookup_take_lt by lia.
      split_and!; [done|done|]. by rewrite (grown_signature _ _ _ _ _ _ _ Hlink).
    + intros i Hi. destruct (grown_appended _ _ _ _ _ _ Hlink i Hi) as (m & Hm & Hin).
      exists m. by rewrite lookup_take_lt by lia.
    + intros Hnodup m Hm.
      destruct (grown_placed _ _ _ _ _ _ Hlink Hnodup m Hm) as (i & Hi & Hslot).
      apply list_elem_of_lookup. exists i. by rewrite lookup_take_lt by lia.
  - apply table_grown_initial. lia.
Qed.

End vtable.

Section tables.
Context (CanAccessMember : Addr → Addr → Z → bool) (java_lang_Object : Addr).
Context (kImtSize : nat) (kAccMiranda : Z).
Context (default_imt : list (option Addr)) (imt_conflict_method : Addr).

Local Abbreviation link_iftable := (link_iftable kImtSize imt_conflict_method).
Local Abbreviation link_interface := (link_interface kImtSize imt_conflict_method).
Local Abbreviation link_interface_method :=
  (link_interface_method kImtSize imt_conflict_method).
Local Abbreviation install_mirandas := (install_mirandas kAccMiranda).
Local Abbreviation LinkVirtualMethods := (LinkVirtualMethods CanAccessMember java_lang_Object).
Local Abbreviation LinkInterfaceMethods :=
  (LinkInterfaceMethods kImtSize kAccMiranda default_imt imt_conflict_method).
Local Abbreviation LinkMethods :=
  (LinkMethods CanAccessMember java_lang_Object kImtSize kAccMiranda default_imt
     imt_conflict_method).
Local Abbreviation initial_link_state := (initial_link_state kImtSize).

(** *** What linking leaves alone *)

Lemma indices_only_refl methods locals : indices_only methods locals methods.
Proof.
  split_and!; [done| |done]. intros a am Ha. exists (method_index am).
  by rewrite SetMethodIndex__same.
Qed.

Lemma indices_only_step methods locals ms m idx :
  indices_only methods locals ms → m ∈ locals →
  indices_only methods locals (SetMethodIndex ms m idx).
Proof.
  intros (Hl & Hf & Ho) Hm. split_and!.
  - by rewrite SetMethodIndex_length.
  - intros a am Ha. destruct (Hf a am Ha) as (i & Hi).
    destruct (decide (a = m)) as [->|Hne].
    + exists idx. by rewrite (SetMethodIndex_eq _ _ _ _ Hi).
    + exists i. by rewrite SetMethodIndex_ne.
  - intros a Ha. rewrite SetMethodIndex_ne; [by apply Ho|]. by intros ->.
Qed.

Lemma link_root_methods_indices_only methods locals rest i vt ms vt' ms' :
  link_root_methods rest i vt ms = Ok (vt', ms') →
  rest ⊆ locals →
  indices_only methods locals ms → indices_only methods locals ms'.
Proof.
  revert i vt ms. induction rest as [|m rest IH]; intros i vt ms H Hsub Hinv.
  - simpl in H. by simplify_eq.
  - simpl in H. apply outcome_bind_Ok in H as (? & _ & H).
    apply IH in H; [done|set_solver|]. apply indices_only_step; [done|set_solver].
Qed.

Lemma index_interface_methods_indices_only methods locals rest i ms ms' :
  index_interface_methods rest i ms = Ok ms' →
  rest ⊆ locals →
  indices_only methods locals ms → indices_only methods locals ms'.
Proof.
  revert i ms. induction rest as [|m rest IH]; intros i ms H Hsub Hinv.
  - simpl in H. by simplify_eq.
  - simpl in H. apply outcome_bind_Ok in H as (? & _ & H).
    apply IH in H; [done|set_solver|]. apply indices_only_step; [done|set_solver].
Qed.

Lemma LinkVirtualMethods_indices_only classes methods klass_addr klass klass' methods' :
  LinkVirtualMethods classes methods klass_addr klass = Ok (klass', methods') →
  indices_only methods (virtual_methods klass) methods'
  ∧ ∃ vt, klass' = SetVTable klass vt.
Proof.
  intros H. unfold MethodTables.LinkVirtualMethods in H.
  destruct (super_class klass) as [super|].
  - apply outcome_bind_Ok in H as (super_c & _ & H).
    apply outcome_bind_Ok in H as (svt & _ & H).
    apply outcome_bind_Ok in H as ([] & _ & H).
    apply outcome_bind_Ok in H as ([[vt n] ms] & Hlink & H).
    destruct (IsUint 16 (Z.of_nat n)); [|done]. cbn [negb] in H.
    apply outcome_bind_Ok in H as ([] & _ & H). injection H as <- <-.
    split; [|by eexists].
    apply (link_virtual_methods_grown CanAccessMember methods svt []) in Hlink.
    + rewrite app_nil_l in Hlink.
      split_and!; [apply (grown_length _ _ _ _ _ _ Hlink)
                  |apply (grown_fields _ _ _ _ _ _ Hlink)
                  |apply (grown_others _ _ _ _ _ _ Hlink)].
    + rewrite CopyOf_length. lia.
    + apply table_grown_initial. lia.
  - apply outcome_bind_Ok in H as ([] & _ & H).
    destruct (IsUint 16 _); [|done]. cbn [negb] in H.
    apply outcome_bind_Ok in H as ([vt ms] & Hlink & H). injection H as <- <-.
    split; [|by eexists].
    eapply link_root_methods_indices_only; [done|done|apply indices_only_refl].
Qed.

(** The methods that were in the store when [LinkInterfaceMethods] began are
    as they were when it ends. *)
Lemma LinkInterfaceMethods_old_methods classes methods klass interfaces klass' methods' :
  LinkInterfaceMethods classes methods klass interfaces = Ok (klass', methods') →
  (length methods ≤ length methods')%nat
  ∧ ∀ a, (a < length methods)%nat → methods' !! a = methods !! a.
Proof.
  intros H. destruct (is_interface klass) eqn:Hi.
  - unfold MethodTables.LinkInterfaceMethods in H.
    apply outcome_bind_Ok in H as (super_c & _ & H).
    apply outcome_bind_Ok in H as (inherited & _ & H).
    destruct (_ =? 0)%nat; [by simplify_eq|].
    destruct (_ && _); [by simplify_eq|].
    apply outcome_bind_Ok in H as ([rows idx] & _ & H).
    apply outcome_bind_Ok in H as ([] & _ & H).
    cbn [is_interface SetIfTable SetImTable] in H. rewrite Hi in H. by simplify_eq.
  - apply LinkInterfaceMethods_inv in H; [|done].
    destruct H as [(-> & _)|(rows & rows' & st & vt & Hvt & Hlink & _ & _ & Hmir)]; [done|].
    apply link_iftable_allocates in Hlink as (extra & Hms & Hlist). simpl in Hms, Hlist.
    destruct Hmir as [(_ & -> & _)|(virtuals & vt' & Hinst & _)].
    + rewrite Hms, length_app. split; [lia|]. intros a Ha. by rewrite lookup_app_l.
    + rewrite Hlist in Hinst.
      apply install_mirandas_slots in Hinst as (_ & Hold & _ & Hnew).
      * split.
        -- destruct extra as [|e extra]; [|].
           ++ rewrite Hms, app_nil_r in Hold.
              apply Nat.nlt_ge. intros Hlt.
              destruct (lookup_lt_is_Some_2 methods (length methods') Hlt) as [x Hx].
              rewrite <- Hold in Hx by done. apply lookup_lt_Some in Hx. lia.
           ++ destruct (Hnew 0%nat) as (am & _ & Ham & _); [simpl; lia|].
              apply lookup_lt_Some in Ham. lia.
        -- intros a Ha. rewrite Hold by done. rewrite Hms. by rewrite lookup_app_l.
      * rewrite CopyOf_length, length_seq. lia.
Qed.

(** X17: [LinkMethods] writes to no method object it did not have to.  Of
    the methods in the store before the call, each keeps its name,
    signature, declaring class, access flags and dex method index, only the
    method index may differ; a method that is not one of the class's own
    virtual methods (a method of the superclass or of an interface) is
    exactly what it was; and the store never shrinks. *)
Theorem LinkMethods_touches_only_own_method_indices
    (classes : Classes) (methods : Methods) (klass_addr : Addr) (klass : Class)
    (interfaces : option (list Addr)) (klass' : Class) (methods' : Methods) :
  LinkMethods classes methods klass_addr klass interfaces = Ok (klass', methods') →
  (length methods ≤ length methods')%nat
  ∧ (∀ a am, methods !! a = Some am →
       ∃ idx, methods' !! a = Some (SetMethodIndex_ idx am))
  ∧ (∀ a am, methods !! a = Some am → a ∉ virtual_methods klass →
       methods' !! a = Some am).
Proof.
  intros H. unfold MethodTables.LinkMethods in H.
  assert (Hgen : ∀ ms k1,
    indices_only methods (virtual_methods klass) ms →
    LinkInterfaceMethods classes ms k1 interfaces = Ok (klass', methods') →
    (length methods ≤ length methods')%nat
    ∧ (∀ a am, methods !! a = Some am →
         ∃ idx, methods' !! a = Some (SetMethodIndex_ idx am))
    ∧ (∀ a am, methods !! a = Some am → a ∉ virtual_methods klass →
         methods' !! a = Some am)).
  { intros ms k1 (Hl & Hf & Ho) [Hlen Hold]%LinkInterfaceMethods_old_methods.
    split_and!; [lia| |].
    - intros a am Ha. destruct (Hf a am Ha) as (idx & Hidx). exists idx.
      rewrite Hold; [done|]. rewrite Hl. by apply lookup_lt_Some in Ha.
    - intros a am Ha Hni. rewrite Hold, Ho; [done|done|].
      rewrite Hl. by apply lookup_lt_Some in Ha. }
  destruct (is_interface klass).
  - destruct (IsUint 16 _); [|done]. cbn [negb] in H.
    apply outcome_bind_Ok in H as (ms & Hindex & H).
    apply (Hgen ms klass); [|done].
    eapply index_interface_methods_indices_only; [done|done|apply indices_only_refl].
  - apply outcome_bind_Ok in H as ([k1 ms] & Hlvm & H).
    apply LinkVirtualMethods_indices_only in Hlvm as [Hinv _].
    by apply (Hgen ms k1).
Qed.

End tables.

(** *** The iftable: the interfaces of a class, flattened *)

Section iftable.

(** The interfaces of the first [idx] rows. *)
Local Abbreviation filled t idx := (interface <$> take idx t).

Lemma SetInterface_length t i x : length (SetInterface t i x) = length t.
Proof. unfold SetInterface. by rewrite length_alter. Qed.

Lemma filled_SetInterface_S t idx x :
  (idx < length t)%nat →
  filled (SetInterface t idx x) (S idx) = filled t idx ++ [x].
Proof.
  intros Hlt. destruct (lookup_lt_is_Some_2 t idx Hlt) as [e He].
  unfold SetInterface.
  rewrite (take_S_r _ _ {| interface := x; method_array := method_array e |}).
  - rewrite take_alter_ge by lia. by rewrite fmap_app.
  - rewrite list_lookup_alter, decide_True by done. by rewrite He.
Qed.

Lemma already_in_iftable_spec t idx x :
  already_in_iftable t idx x = true ↔ x ∈ filled t idx.
Proof.
  unfold already_in_iftable. rewrite existsb_exists, list_elem_of_fmap. split.
  - intros (e & Hin & He). exists e. apply bool_decide_eq_true in He.
    split; [done|]. by apply list_elem_of_In.
  - intros (e & -> & Hin). exists e. split; [by apply list_elem_of_In|].
    by apply bool_decide_eq_true.
Qed.

Lemma add_super_interfaces_spec supers t idx t' idx' :
  add_super_interfaces supers t idx = (t', idx') →
  (idx + length supers ≤ length t)%nat →
  length t' = length t
  ∧ (idx' ≤ idx + length supers)%nat
  ∧ ∃ added, filled t' idx' = filled t idx ++ added
             ∧ NoDup added
             ∧ (∀ x, x ∈ added → (x ∉ filled t idx) ∧ x ∈ interface <$> supers)
             ∧ (∀ x, x ∈ interface <$> supers → x ∈ filled t' idx').
Proof.
  revert t idx. induction supers as [|e supers IH]; intros t idx H Hlen.
  - simpl in H. simplify_eq. split_and!; [done|lia|]. exists [].
    rewrite app_nil_r. split_and!; [done|constructor|set_solver|set_solver].
  - simpl in H, Hlen. destruct (already_in_iftable t idx (interface e)) eqn:Hin.
    + apply already_in_iftable_spec in Hin.
      apply IH in H as (Hl & Hi & added & Hfill & Hnd & Hnew & Hall); [|lia].
      split_and!; [done|simpl; lia|]. exists added. split_and!; [done|done| |].
      * intros x Hx. destruct (Hnew x Hx). split; [done|]. rewrite fmap_cons. by right.
      * intros x Hx. rewrite fmap_cons in Hx. apply elem_of_cons in Hx as [->|Hx].
        -- rewrite Hfill. apply elem_of_app. by left.
        -- by apply Hall.
    + assert (Hni : interface e ∉ filled t idx).
      { intros Hy%already_in_iftable_spec. by rewrite Hy in Hin. }
      apply IH in H as (Hl & Hi & added & Hfill & Hnd & Hnew & Hall);
        [|rewrite SetInterface_length; lia].
      rewrite SetInterface_length in Hl.
      rewrite filled_SetInterface_S in Hfill by lia.
      rewrite filled_SetInterface_S in Hnew by lia.
      split_and!; [done|simpl; lia|]. exists (interface e :: added).
      split_and!.
      * by rewrite Hfill, <- app_assoc.
      * constructor; [|done]. intros Hx. destruct (Hnew _ Hx) as [Hn _].
        apply Hn. apply elem_of_app. right. by left.
      * intros x Hx. apply elem_of_cons in Hx as [->|Hx].
        -- split; [done|]. rewrite fmap_cons. by left.
        -- destruct (Hnew x Hx) as [Hn Hs]. split.
           ++ intros Hy. apply Hn. apply elem_of_app. by left.
           ++ rewrite fmap_cons. by right.
      * intros x Hx. rewrite fmap_cons in Hx. apply elem_of_cons in Hx as [->|Hx].
        -- rewrite Hfill. apply elem_of_app. left. apply elem_of_app. right. by left.
        -- by apply Hall.
Qed.

Lemma flatten_interfaces_spec classes interfaces t idx t' idx' inherited :
  flatten_interfaces classes interfaces t idx = Ok (t', idx') →
  count_super_interfaces classes interfaces = Ok inherited →
  (idx + length interfaces + inherited ≤ length t)%nat →
  length t' = length t
  ∧ (idx' ≤ idx + length interfaces + inherited)%nat
  ∧ (∀ i, i ∈ interfaces → ∃ ic, classes !! i = Some ic ∧ is_interface ic = true)
  ∧ (∀ i, i ∈ interfaces → Some i ∈ filled t' idx')
  ∧ (closed_under_super_interfaces classes (filled t idx) →
     (∀ i ic, i ∈ interfaces → classes !! i = Some ic →
              closed_under_super_interfaces classes (interfaces_of ic)) →
     closed_under_super_interfaces classes (filled t' idx'))
  ∧ ∃ added, filled t' idx' = filled t idx ++ added
             ∧ NoDup added
             ∧ (∀ x, x ∈ added →
                     (x ∉ filled t idx)
                     ∧ ∃ i, i ∈ interfaces ∧ x ∈ brought_by classes i).
Proof.
  revert t idx inherited.
  induction interfaces as [|i interfaces IH]; intros t idx inherited H Hcount Hlen.
  - simpl in H. simplify_eq. split_and!; [done|lia|set_solver|set_solver|done|].
    exists []. rewrite app_nil_r. split_and!; [done|constructor|set_solver].
  - simpl in H, Hcount, Hlen.
    apply outcome_bind_Ok in H as (ic & Hic & H).
    unfold deref_class in Hic. destruct (classes !! i) as [ic'|] eqn:Hi; simplify_eq.
    unfold deref_class in Hcount. rewrite Hi in Hcount. cbn [outcome_bind] in Hcount.
    apply outcome_bind_Ok in Hcount as (n & Hcn & Hcount). simplify_eq.
    destruct (is_interface ic) eqn:Hitf; [|done]. cbn [negb] in H.
    assert (Hbrought : brought_by classes i = Some i :: interfaces_of ic).
    { unfold brought_by. by rewrite Hi. }
    assert (Hrows : length (default [] (iftable ic)) = GetIfTableCount ic).
    { unfold GetIfTableCount. by destruct (iftable ic). }
    assert (Hclasses :
      (∀ j, j ∈ interfaces → ∃ jc, classes !! j = Some jc ∧ is_interface jc = true) →
      ∀ j, j ∈ i :: interfaces → ∃ jc, classes !! j = Some jc ∧ is_interface jc = true).
    { intros Hrest j Hj. apply elem_of_cons in Hj as [->|Hj]; [by exists ic|by apply Hrest]. }
    destruct (already_in_iftable t idx (Some i)) eqn:Hin.
    + (* the interface is in the table already *)
      apply already_in_iftable_spec in Hin.
      destruct (IH _ _ n H Hcn)
        as (Hl & Hidx & Hcls & Hdirect & Hclosed & added & Hfill & Hnd & Hnew); [lia|].
      split_and!; [done|simpl; lia|by apply Hclasses| | |].
      * intros j Hj. apply elem_of_cons in Hj as [->|Hj]; [|by apply Hdirect].
        rewrite Hfill. apply elem_of_app. by left.
      * intros Hc Hci. apply Hclosed; [done|]. intros j jc Hj. apply Hci. by right.
      * exists added. split_and!; [done|done|].
        intros x Hx. destruct (Hnew x Hx) as (Hn & j & Hj & Hb).
        split; [done|]. exists j. split; [by right|done].
    + (* the interface takes the next row, its super-interfaces the rows after it *)
      assert (Hni : Some i ∉ filled t idx).
      { intros Hy%already_in_iftable_spec. by rewrite Hy in Hin. }
      destruct (add_super_interfaces (default [] (iftable ic))
                  (SetInterface t idx (Some i)) (S idx)) as [t1 idx1] eqn:Hadd.
      apply add_super_interfaces_spec in Hadd
        as (Hl1 & Hidx1 & added1 & Hfill1 & Hnd1 & Hnew1 & Hall1);
        [|rewrite SetInterface_length; lia].
      rewrite SetInterface_length in Hl1.
      rewrite filled_SetInterface_S in Hfill1 by lia.
      assert (Hnew1' : ∀ x, x ∈ added1 →
                (x ∉ filled t idx) ∧ x ≠ Some i ∧ x ∈ interfaces_of ic).
      { intros x Hx. destruct (Hnew1 x Hx) as [Hn Hs].
        rewrite filled_SetInterface_S in Hn by lia. split_and!; [| |done].
        - intros Hy. apply Hn. apply elem_of_app. by left.
        - intros ->. apply Hn. apply elem_of_app. right. by left. }
      destruct (IH _ _ n H Hcn)
        as (Hl & Hidx & Hcls & Hdirect & Hclosed & added & Hfill & Hnd & Hnew); [lia|].
      split_and!; [congruence|simpl; lia|by apply Hclasses| | |].
      * intros j Hj. apply elem_of_cons in Hj as [->|Hj]; [|by apply Hdirect].
        rewrite Hfill, Hfill1. apply elem_of_app. left. apply elem_of_app. left.
        apply elem_of_app. right. by left.
      * intros Hc Hci. apply Hclosed; [|intros j jc Hj; apply Hci; by right].
        intros j jc x Hj Hjc Hx. rewrite Hfill1 in Hj.
        apply elem_of_app in Hj as [Hj|Hj].
        -- apply elem_of_app in Hj as [Hj|Hj%list_elem_of_singleton].
           ++ rewrite Hfill1. apply elem_of_app. left. apply elem_of_app. left.
              by apply (Hc j jc).
           ++ simplify_eq. by apply Hall1.
        -- apply Hall1. destruct (Hnew1' _ Hj) as (_ & _ & Hs).
           by apply (Hci i ic (list_elem_of_here _ _) Hi j jc).
      * exists (Some i :: added1 ++ added). split_and!.
        -- rewrite Hfill, Hfill1. by rewrite <- !app_assoc.
        -- constructor.
           ++ intros Hx. apply elem_of_app in Hx as [Hx|Hx].
              ** by destruct (Hnew1' _ Hx) as (_ & ? & _).
              ** destruct (Hnew _ Hx) as [Hn _]. apply Hn. rewrite Hfill1.
                 apply elem_of_app. left. apply elem_of_app. right. by left.
           ++ apply NoDup_app. split_and!; [done| |done].
              intros x Hx1 Hx. destruct (Hnew _ Hx) as [Hn _]. apply Hn.
              rewrite Hfill1. apply elem_of_app. by right.
        -- intros x Hx. apply elem_of_cons in Hx as [->|Hx].
           ++ split; [done|]. exists i. split; [by left|]. rewrite Hbrought. by left.
           ++ apply elem_of_app in Hx as [Hx|Hx].
              ** destruct (Hnew1' _ Hx) as (Hn & _ & Hs). split; [done|].
                 exists i. split; [by left|]. rewrite Hbrought. by right.
              ** destruct (Hnew _ Hx) as (Hn & j & Hj & Hb). split.
                 --- intros Hy. apply Hn. rewrite Hfill1.
                     apply elem_of_app. left. apply elem_of_app. by left.
                 --- exists j. split; [by right|done].
Qed.

(** "Copy the interfaces of the superclass": the first rows of the new
    table. *)
Lemma copy_super_rows (super_iftable : list IfTableEntry) (ifcount : nat) :
  (length super_iftable ≤ ifcount)%nat →
  let t := foldl (λ t '(i, e), SetInterface t i (interface e))
             (replicate ifcount (mkIfTableEntry None None))
             (imap (λ i e, (i, e)) super_iftable) in
  length t = ifcount ∧ filled t (length super_iftable) = interface <$> super_iftable.
Proof.
  induction super_iftable as [|e l IH] using rev_ind; intros Hlen.
  - simpl. by rewrite length_replicate.
  - rewrite length_app in Hlen. simpl in Hlen.
    destruct IH as [Hl Hfill]; [lia|].
    rewrite imap_app, foldl_app. simpl. rewrite Nat.add_0_r.
    split; [by rewrite SetInterface_length|].
    rewrite length_app. simpl. rewrite Nat.add_1_r.
    rewrite filled_SetInterface_S by (rewrite Hl; lia).
    by rewrite Hfill, fmap_app.
Qed.

(** X18: the iftable [LinkInterfaceMethods] gives a class lists the
    interfaces of the superclass first, in their order, and after them,
    without repetition, what the direct interfaces bring along: each direct
    interface (which must be an interface, or linking fails) and the rows of
    the iftable of that interface, as far as they are not in the table
    already.  Every direct interface is in the table, and when the tables of
    the superclass and of the direct interfaces hold, with each interface,
    its super-interfaces, then so does the table of the class. *)
Theorem LinkInterfaceMethods_flattens_the_interfaces
    (kImtSize : nat) (kAccMiranda : Z) (default_imt : list (option Addr))
    (imt_conflict_method : Addr)
    (classes : Classes) (methods : Methods) (klass : Class)
    (interfaces : option (list Addr)) (klass' : Class) (methods' : Methods) :
  iftable klass = None →
  LinkInterfaceMethods kImtSize kAccMiranda default_imt imt_conflict_method
    classes methods klass interfaces = Ok (klass', methods') →
  let supers := from_option interfaces_of [] (super_class klass ≫= (classes !!.)) in
  let direct := default (direct_interfaces klass) interfaces in
  (∀ i, i ∈ direct →
     (∃ ic, classes !! i = Some ic ∧ is_interface ic = true)
     ∧ Some i ∈ interfaces_of klass')
  ∧ (∃ added,
       interfaces_of klass' = supers ++ added
       ∧ NoDup added
       ∧ ∀ x, x ∈ added → (x ∉ supers) ∧ ∃ i, i ∈ direct ∧ x ∈ brought_by classes i)
  ∧ (closed_under_super_interfaces classes supers →
     (∀ i ic, i ∈ direct → classes !! i = Some ic →
              closed_under_super_interfaces classes (interfaces_of ic)) →
     closed_under_super_interfaces classes (interfaces_of klass')).
Proof.
  intros Hfresh H supers direct. unfold MethodTables.LinkInterfaceMethods in H.
  apply outcome_bind_Ok in H as (super_c & Hsc & H).
  assert (Hsuper : super_c = super_class klass ≫= (classes !!.)).
  { cbn [super_class SetImTable] in Hsc.
    destruct (super_class klass) as [super|]; simpl in *; [|by simplify_eq].
    apply outcome_bind_Ok in Hsc as (c & Hc & Hsc). unfold deref_class in Hc.
    destruct (classes !! super); by simplify_eq. }
  assert (Hsupers : supers = interface <$> default [] (super_c ≫= iftable)).
  { unfold supers. rewrite <- Hsuper. by destruct super_c. }
  cbn [direct_interfaces SetImTable] in H. fold direct in H.
  apply outcome_bind_Ok in H as (inherited & Hcount & H).
  set (rows := default [] (super_c ≫= iftable)) in *.
  destruct (_ =? 0)%nat eqn:Hzero.
  { (* no interface at all *)
    apply Nat.eqb_eq in Hzero. injection H as <- <-.
    assert (direct = []) as Hd by (apply nil_length_inv; lia).
    assert (rows = []) as Hr by (apply nil_length_inv; lia).
    assert (interfaces_of (SetImTable klass default_imt) = []) as Hno.
    { unfold interfaces_of. cbn [iftable SetImTable]. by rewrite Hfresh. }
    rewrite Hno, Hsupers, Hr, Hd. split_and!.
    - intros i Hi. by apply elem_of_nil in Hi.
    - exists []. split_and!; [done|constructor|]. intros x Hx. by apply elem_of_nil in Hx.
    - done. }
  destruct (_ && _) eqn:Hmarker.
  { (* the table of the superclass is taken over *)
    apply andb_prop in Hmarker as [Hsame%Nat.eqb_eq _]. injection H as <- <-.
    assert (direct = []) as Hd by (apply nil_length_inv; lia).
    assert (interfaces_of (SetIfTable (SetImTable klass default_imt) (super_c ≫= iftable))
            = supers) as Hi.
    { unfold interfaces_of. cbn [iftable SetIfTable]. by rewrite Hsupers. }
    rewrite Hi, Hd. split_and!.
    - intros i Hin. by apply elem_of_nil in Hin.
    - exists []. rewrite app_nil_r. split_and!; [done|constructor|].
      intros x Hx. by apply elem_of_nil in Hx.
    - done. }
  apply outcome_bind_Ok in H as ([t idx] & Hflat & H).
  apply outcome_bind_Ok in H as ([] & _ & H).
  destruct (copy_super_rows rows (length rows + length direct + inherited)) as [Hl0 Hfill0];
    [lia|].
  destruct (flatten_interfaces_spec _ _ _ _ _ _ _ Hflat Hcount)
    as (Hl & Hidx & Hcls & Hdirect & Hclosed & added & Hfill & Hnd & Hnew);
    [rewrite Hl0; lia|].
  rewrite Hfill0, <- Hsupers in Hfill, Hnew, Hclosed.
  assert (Hresult : interfaces_of klass' = interface <$> take idx t).
  { cbn [is_interface SetIfTable SetImTable] in H.
    destruct (is_interface klass).
    - injection H as <- <-. done.
    - apply outcome_bind_Ok in H as ([rows' st] & Hlink & H).
      apply link_iftable_interfaces in Hlink.
      apply outcome_bind_Ok in H as ([k1 m1] & Hmir & H).
      apply outcome_bind_Ok in H as (vt & _ & H).
      apply outcome_bind_Ok in H as ([] & _ & H). injection H as <- <-.
      rewrite <- Hlink. destruct (miranda_list st).
      + injection Hmir as <- <-. by destruct (imtable_changed st).
      + apply outcome_bind_Ok in Hmir as (vt1 & _ & Hmir).
        apply outcome_bind_Ok in Hmir as ([[virtuals vt2] ms2] & _ & Hmir).
        injection Hmir as <- <-. by destruct (imtable_changed st). }
  rewrite Hresult. split_and!.
  - intros i Hi. split; [by apply Hcls|by apply Hdirect].
  - exists added. by rewrite Hfill.
  - done.
Qed.

End iftable.

(** *** The miranda methods *)

Section mirandas.
Context (kImtSize : nat) (kAccMiranda : Z).
Context (default_imt : list (option Addr)) (imt_conflict_method : Addr).

Local Abbreviation link_iftable := (link_iftable kImtSize imt_conflict_method).
Local Abbreviation link_interface := (link_interface kImtSize imt_conflict_method).
Local Abbreviation link_interface_method :=
  (link_interface_method kImtSize imt_conflict_method).
Local Abbreviation install_mirandas := (install_mirandas kAccMiranda).
Local Abbreviation LinkInterfaceMethods :=
  (LinkInterfaceMethods kImtSize kAccMiranda default_imt imt_conflict_method).
Local Abbreviation initial_link_state := (initial_link_state kImtSize).

Lemma search_vtable_backward_None methods imh slots :
  search_vtable_backward methods imh slots = Ok None →
  ∀ e, e ∈ slots →
    ∃ a am, e = Some a ∧ methods !! a = Some am ∧ HasSameNameAndSignature imh am = false.
Proof.
  induction slots as [|entry rest IH]; intros H e He; [by apply elem_of_nil in He|].
  simpl in H. apply outcome_bind_Ok in H as (vm & Hvm & H).
  destruct entry as [a|]; [|done]. unfold deref_entry, deref_method in Hvm.
  destruct (methods !! a) as [am|] eqn:Ha; simplify_eq.
  destruct (HasSameNameAndSignature imh vm) eqn:Hs.
  { by destruct (negb (IsAbstract vm) && negb (IsPublic vm)). }
  apply elem_of_cons in He as [->|He]; [by exists a, vm|by apply IH].
Qed.

Lemma search_vtable_backward_Some methods imh slots m :
  search_vtable_backward methods imh slots = Ok (Some m) →
  Some m ∈ slots
  ∧ ∃ am, methods !! m = Some am ∧ HasSameNameAndSignature imh am = true
          ∧ (IsAbstract am || IsPublic am = true).
Proof.
  induction slots as [|entry rest IH]; intros H; [done|].
  simpl in H. apply outcome_bind_Ok in H as (vm & Hvm & H).
  destruct entry as [a|]; [|done]. unfold deref_entry, deref_method in Hvm.
  destruct (methods !! a) as [am|] eqn:Ha; simplify_eq.
  destruct (HasSameNameAndSignature imh vm) eqn:Hs.
  - destruct (negb (IsAbstract vm) && negb (IsPublic vm)) eqn:Hacc; simplify_eq.
    split; [by left|]. exists vm. split_and!; [done|done|].
    destruct (IsAbstract vm), (IsPublic vm); done.
  - destruct (IH H) as [Hin Hrest]. split; [by right|done].
Qed.

Lemma find_miranda_None methods imh l :
  find_miranda methods imh l = Ok None →
  ∀ m, m ∈ l → ∃ mm, methods !! m = Some mm ∧ HasSameNameAndSignature imh mm = false.
Proof.
  induction l as [|x l IH]; intros H m Hm; [by apply elem_of_nil in Hm|].
  simpl in H. apply outcome_bind_Ok in H as (vm & Hvm & H).
  unfold deref_method in Hvm. destruct (methods !! x) as [xm|] eqn:Hx; simplify_eq.
  destruct (HasSameNameAndSignature imh vm) eqn:Hs; [done|].
  apply elem_of_cons in Hm as [->|Hm]; [by exists vm|by apply IH].
Qed.

Lemma find_miranda_Some methods imh l m :
  find_miranda methods imh l = Ok (Some m) →
  m ∈ l ∧ ∃ mm, methods !! m = Some mm ∧ HasSameNameAndSignature imh mm = true.
Proof.
  induction l as [|x l IH]; intros H; [done|].
  simpl in H. apply outcome_bind_Ok in H as (vm & Hvm & H).
  unfold deref_method in Hvm. destruct (methods !! x) as [xm|] eqn:Hx; simplify_eq.
  destruct (HasSameNameAndSignature imh vm) eqn:Hs.
  - simplify_eq. split; [by left|by exists vm].
  - destruct (IH H) as [Hin Hrest]. split; [by right|done].
Qed.

Lemma HasSameNameAndSignature_false (am bm : ArtMethod) :
  HasSameNameAndSignature am bm = false →
  (name am, signature am) ≠ (name bm, signature bm).
Proof. intros H Heq. apply HasSameNameAndSignature_iff in Heq. by rewrite Heq in H. Qed.

Lemma method_signature_app methods extra a :
  (a < length methods)%nat →
  method_signature (methods ++ extra) a = method_signature methods a.
Proof. intros Ha. unfold method_signature. by rewrite lookup_app_l. Qed.

(** What the loops over the iftable keep true of the clones: [srcs] are the
    interface methods dealt with so far. *)
Record clones_grown (methods0 : Methods) (vt : list (option Addr)) (srcs : list Addr)
    (st : LinkState) : Prop := {
  clones_alloc : ∃ extra, methods_ st = methods0 ++ extra
                          ∧ miranda_list st = seq (length methods0) (length extra);
  clones_nodup : NoDup (method_signature (methods_ st) <$> miranda_list st);
  clones_fresh : ∀ m e, m ∈ miranda_list st → Some e ∈ vt →
                   method_signature (methods_ st) e ≠ method_signature (methods_ st) m;
  clones_source : ∀ m, m ∈ miranda_list st →
                    ∃ a, a ∈ srcs ∧ (a < length (methods_ st))%nat
                         ∧ method_signature (methods_ st) a
                           = method_signature (methods_ st) m
}.

Lemma clones_grown_more methods0 vt srcs srcs' st :
  clones_grown methods0 vt srcs st → srcs ⊆ srcs' → clones_grown methods0 vt srcs' st.
Proof.
  intros [H1 H2 H3 H4] Hsub. constructor; [done|done|done|].
  intros m Hm. destruct (H4 m Hm) as (a & Ha & Hrest). exists a. split; [|done].
  by apply Hsub.
Qed.

Lemma miranda_in_store methods0 vt srcs st m :
  clones_grown methods0 vt srcs st → m ∈ miranda_list st → (m < length (methods_ st))%nat.
Proof.
  intros [(extra & Hms & Hl) _ _ _] Hm. rewrite Hl in Hm.
  apply elem_of_seq in Hm. rewrite Hms, length_app. lia.
Qed.

Lemma link_interface_method_clones methods0 vt srcs im j arr st arr' st' :
  link_interface_method vt im j arr st = Ok (arr', st') →
  forallb (in_store methods0) vt = true →
  clones_grown methods0 vt srcs st →
  clones_grown methods0 vt (srcs ++ [im]) st'.
Proof.
  intros H Hvt G.
  assert (Hkeep : clones_grown methods0 vt (srcs ++ [im]) st).
  { eapply clones_grown_more; [done|]. intros x Hx. apply elem_of_app. by left. }
  unfold MethodTables.link_interface_method in H.
  apply outcome_bind_Ok in H as (imh & Himh & H).
  unfold deref_method in Himh.
  destruct (methods_ st !! im) as [imh'|] eqn:Him; simplify_eq.
  apply outcome_bind_Ok in H as ([vm|] & Hsearch & H).
  { apply outcome_bind_Ok in H as ([t e] & _ & H). simplify_eq.
    destruct Hkeep as [H1 H2 H3 H4]. by constructor. }
  apply outcome_bind_Ok in H as ([mir|] & Hfind & H); simplify_eq; [done|].
  destruct G as [(extra & Hms & Hl) Hnd Hfr Hsrc]. simpl in *.
  assert (Hold : ∀ a, (a < length (methods_ st))%nat →
            method_signature (methods_ st ++ [imh]) a = method_signature (methods_ st) a).
  { intros a Ha. by apply method_signature_app. }
  assert (Hnew : method_signature (methods_ st ++ [imh]) (length (methods_ st))
                 = Some (name imh, signature imh)).
  { unfold method_signature. rewrite lookup_app_r by lia. by rewrite Nat.sub_diag. }
  assert (Hmir : ∀ m, m ∈ miranda_list st → (m < length (methods_ st))%nat).
  { intros m Hm. rewrite Hl in Hm. apply elem_of_seq in Hm.
    rewrite Hms, length_app. lia. }
  assert (Hentry : ∀ e, Some e ∈ vt → (e < length (methods_ st))%nat).
  { intros e He. apply list_elem_of_lookup in He as [i Hi].
    apply (forallb_lookup _ _ _ _ Hvt) in Hi. unfold in_store in Hi.
    apply bool_decide_eq_true in Hi. rewrite Hms, length_app. lia. }
  constructor; simpl.
  - exists (extra ++ [imh]). rewrite Hms, <- app_assoc. split; [done|].
    rewrite Hl, (length_app extra [imh]), seq_app. simpl. by rewrite length_app.
  - rewrite fmap_app. apply NoDup_app. split_and!.
    + erewrite list_fmap_ext; [exact Hnd|]. intros i m Hi. simpl.
      apply Hold, Hmir. by eapply list_elem_of_lookup_2.
    + intros s Hs Hs'. apply list_elem_of_fmap in Hs as (m & -> & Hm).
      apply list_elem_of_singleton in Hs'. rewrite Hnew in Hs'.
      rewrite Hold in Hs' by by apply Hmir.
      destruct (find_miranda_None _ _ _ Hfind m Hm) as (mm & Hmm & Hdiff).
      rewrite (method_signature_Some _ _ _ Hmm) in Hs'.
      apply HasSameNameAndSignature_false in Hdiff. by simplify_eq.
    + simpl. apply NoDup_singleton.
  - intros m e Hm He. rewrite Hold by by apply Hentry.
    apply elem_of_app in Hm as [Hm|Hm%list_elem_of_singleton].
    + rewrite Hold by by apply Hmir. by apply Hfr.
    + subst m. rewrite Hnew.
      destruct (search_vtable_backward_None _ _ _ Hsearch (Some e))
        as (a & am & Ha & Ham & Hdiff); [by apply elem_of_reverse|].
      simplify_eq. rewrite (method_signature_Some _ _ _ Ham).
      apply HasSameNameAndSignature_false in Hdiff. intros Heq. by simplify_eq.
  - intros m Hm. rewrite length_app. simpl.
    apply elem_of_app in Hm as [Hm|Hm%list_elem_of_singleton].
    + destruct (Hsrc m Hm) as (a & Ha & Hlt & Hsig). exists a.
      split_and!; [apply elem_of_app; by left|lia|].
      rewrite !Hold; [done|by apply Hmir|done].
    + subst m. exists im. apply lookup_lt_Some in Him as Hlt.
      split_and!; [apply elem_of_app; right; by left|lia|].
      rewrite Hnew, Hold by done. by apply method_signature_Some.
Qed.

Lemma link_interface_clones methods0 vt srcs ims j arr st arr' st' :
  link_interface vt ims j arr st = Ok (arr', st') →
  forallb (in_store methods0) vt = true →
  clones_grown methods0 vt srcs st →
  clones_grown methods0 vt (srcs ++ ims) st'.
Proof.
  revert srcs j arr st. induction ims as [|im ims IH]; intros srcs j arr st H Hvt G.
  - simpl in H. simplify_eq. by rewrite app_nil_r.
  - simpl in H. apply outcome_bind_Ok in H as ([arr1 st1] & H1 & H).
    rewrite (assoc_L (++) srcs [im] ims : srcs ++ im :: ims = (srcs ++ [im]) ++ ims).
    eapply IH; [done|done|]. by eapply link_interface_method_clones.
Qed.

Lemma link_iftable_clones classes methods0 vt srcs rows st rows' st' :
  link_iftable classes (Some vt) rows st = Ok (rows', st') →
  forallb (in_store methods0) vt = true →
  clones_grown methods0 vt srcs st →
  clones_grown methods0 vt (srcs ++ interface_methods_of classes rows) st'.
Proof.
  revert srcs st rows' st'. induction rows as [|row rows IH]; intros srcs st rows' st' H Hvt G.
  - simpl in H. simplify_eq. unfold interface_methods_of. simpl. by rewrite app_nil_r.
  - simpl in H. apply outcome_bind_Ok in H as (ic & Hic & H).
    assert (Hrow : interface_methods_of classes (row :: rows)
                   = virtual_methods ic ++ interface_methods_of classes rows).
    { unfold interface_methods_of. rewrite bind_cons. f_equal.
      destruct (interface row) as [i|]; [|done]. unfold deref_class in Hic. simpl.
      destruct (classes !! i); simplify_eq. simpl. by rewrite app_nil_r. }
    rewrite Hrow, (assoc_L (++)).
    destruct (0 <? length (virtual_methods ic))%nat eqn:Hnum.
    + cbn [outcome_bind] in H.
      apply outcome_bind_Ok in H as ([arr st1] & H1 & H).
      apply outcome_bind_Ok in H as ([rest st2] & H2 & H). simplify_eq.
      eapply IH; [done|done|]. by eapply link_interface_clones.
    + apply outcome_bind_Ok in H as ([rest st2] & H2 & H). simplify_eq.
      apply Nat.ltb_ge in Hnum.
      assert (virtual_methods ic = []) as -> by (apply nil_length_inv; lia).
      rewrite app_nil_r. by eapply IH.
Qed.

Lemma method_signature_SetMethodIndex methods m idx a :
  method_signature (SetMethodIndex methods m idx) a = method_signature methods a.
Proof.
  unfold method_signature, SetMethodIndex. destruct (decide (a = m)) as [->|Hne].
  - rewrite list_lookup_alter, decide_True by done. by destruct (methods !! m).
  - by rewrite list_lookup_alter, decide_False by done.
Qed.

Lemma method_signature_SetAccessFlags methods m flags a :
  method_signature (SetAccessFlags methods m flags) a = method_signature methods a.
Proof.
  unfold method_signature, SetAccessFlags. destruct (decide (a = m)) as [->|Hne].
  - rewrite list_lookup_alter, decide_True by done. by destruct (methods !! m).
  - by rewrite list_lookup_alter, decide_False by done.
Qed.

Lemma install_mirandas_spec mirandas i old virtuals vt ms virtuals' vt' ms' :
  install_mirandas mirandas i old virtuals vt ms = Ok (virtuals', vt', ms') →
  NoDup mirandas →
  virtuals' = virtuals ++ mirandas
  ∧ length ms' = length ms
  ∧ (∀ a, method_signature ms' a = method_signature ms a)
  ∧ (∀ m mm, m ∈ mirandas → ms !! m = Some mm →
       ∃ mm', ms' !! m = Some mm'
              ∧ access_flags mm' = Z.lor (access_flags mm) kAccMiranda).
Proof.
  revert i virtuals vt ms.
  induction mirandas as [|m rest IH]; intros i virtuals vt ms H Hnd.
  - simpl in H. simplify_eq. rewrite app_nil_r. split_and!; [done|done|done|].
    intros m mm Hm. by apply elem_of_nil in Hm.
  - simpl in H. apply outcome_bind_Ok in H as (mm & Hmm & H).
    unfold deref_method in Hmm. destruct (ms !! m) as [mm'|] eqn:Hm; simplify_eq.
    apply NoDup_cons in Hnd as [Hfresh Hnd].
    assert (Hothers : ∀ rest i virtuals vt ms virtuals' vt' ms',
      install_mirandas rest i old virtuals vt ms = Ok (virtuals', vt', ms') →
      ∀ a, a ∉ rest → ms' !! a = ms !! a).
    { clear. induction rest as [|x rest IH]; intros i virtuals vt ms virtuals' vt' ms' H a Ha.
      - simpl in H. by simplify_eq.
      - simpl in H. apply outcome_bind_Ok in H as (xm & _ & H).
        apply not_elem_of_cons in Ha as [Hne Ha].
        rewrite (IH _ _ _ _ _ _ _ H a Ha).
        by rewrite SetMethodIndex_ne, SetAccessFlags_ne. }
    pose proof (Hothers _ _ _ _ _ _ _ _ H m Hfresh) as Hm'.
    apply IH in H as (Hv & Hl & Hsig & Hflags); [|done].
    split_and!.
    + by rewrite Hv, <- app_assoc.
    + by rewrite Hl, SetMethodIndex_length, SetAccessFlags_length.
    + intros a. by rewrite Hsig, method_signature_SetMethodIndex,
        method_signature_SetAccessFlags.
    + intros x xm Hx Hxm. apply elem_of_cons in Hx as [->|Hx].
      * simplify_eq. rewrite Hm'.
        erewrite SetMethodIndex_eq; [|by apply SetAccessFlags_eq].
        eexists. split; [done|done].
      * apply (Hflags x xm Hx).
        rewrite SetMethodIndex_ne, SetAccessFlags_ne; [done| |]; by intros ->.
Qed.

Lemma land_lor_absorb (a b : Z) : Z.land (Z.lor a b) b = b.
Proof.
  apply Z.bits_inj'. intros n Hn. rewrite Z.land_spec, Z.lor_spec.
  by destruct (Z.testbit a n), (Z.testbit b n).
Qed.

Lemma interface_methods_of_interfaces classes rows rows' :
  interface <$> rows' = interface <$> rows →
  interface_methods_of classes rows' = interface_methods_of classes rows.
Proof.
  revert rows'. induction rows as [|row rows IH]; intros [|row' rows'] H; try done.
  rewrite !fmap_cons in H. injection H as Hrow Hrows.
  unfold interface_methods_of. rewrite !bind_cons. f_equal; [by rewrite Hrow|].
  by apply IH.
Qed.

Lemma clones_grown_initial methods vt : clones_grown methods vt [] (initial_link_state methods).
Proof.
  constructor; simpl.
  - exists []. by rewrite app_nil_r.
  - constructor.
  - intros m e Hm. by apply elem_of_nil in Hm.
  - intros m Hm. by apply elem_of_nil in Hm.
Qed.

(** The two ways through [LinkInterfaceMethods] for a class that is no
    interface: it ends early and nothing but the two tables of interfaces is
    touched, or it runs the loops over a new iftable and then appends the
    miranda methods. *)
Lemma LinkInterfaceMethods_paths classes methods klass interfaces klass' methods' vt :
  LinkInterfaceMethods classes methods klass interfaces = Ok (klass', methods') →
  is_interface klass = false →
  vtable klass = Some vt →
  (methods' = methods ∧ virtual_methods klass' = virtual_methods klass
   ∧ vtable klass' = Some vt
   ∧ (iftable klass' = iftable klass
      ∨ iftable klass' = (super_class klass ≫= (classes !!.)) ≫= iftable
        ∧ existsb (λ e, (0 <? GetMethodArrayCount e)%nat) (default [] (iftable klass'))
          = false))
  ∨ ∃ rows rows' st,
      link_iftable classes (Some vt) rows (initial_link_state methods) = Ok (rows', st)
      ∧ iftable klass' = Some rows'
      ∧ virtual_methods klass' = virtual_methods klass ++ miranda_list st
      ∧ vtable klass' = Some (vt ++ (Some <$> miranda_list st))
      ∧ length methods' = length (methods_ st)
      ∧ (∀ a, method_signature methods' a = method_signature (methods_ st) a)
      ∧ (∀ m mm, m ∈ miranda_list st → methods_ st !! m = Some mm →
           ∃ mm', methods' !! m = Some mm'
                  ∧ access_flags mm' = Z.lor (access_flags mm) kAccMiranda).
Proof.
  intros H Hni Hvt. unfold MethodTables.LinkInterfaceMethods in H.
  apply outcome_bind_Ok in H as (super_c & Hsc & H).
  assert (Hsuper : super_c = super_class klass ≫= (classes !!.)).
  { cbn [super_class SetImTable] in Hsc.
    destruct (super_class klass) as [super|]; simpl in *; [|by simplify_eq].
    apply outcome_bind_Ok in Hsc as (c & Hc & Hsc). unfold deref_class in Hc.
    destruct (classes !! super); by simplify_eq. }
  apply outcome_bind_Ok in H as (inherited & _ & H).
  destruct (_ =? 0)%nat.
  { injection H as <- <-. left. split_and!; [done|done|done|by left]. }
  destruct (_ && _) eqn:Hmarker.
  { injection H as <- <-. left. split_and!; [done|done|done|]. right.
    apply andb_prop in Hmarker as [_ Hmarker]. apply negb_true_iff in Hmarker.
    rewrite <- Hsuper. by split. }
  apply outcome_bind_Ok in H as ([t idx] & _ & H).
  apply outcome_bind_Ok in H as ([] & _ & H).
  cbn [is_interface vtable SetIfTable SetImTable] in H. rewrite Hni, Hvt in H.
  apply outcome_bind_Ok in H as ([rows' st] & Hlink & H).
  apply outcome_bind_Ok in H as ([k1 m1] & Hmir & H).
  apply outcome_bind_Ok in H as (vt1 & _ & H).
  apply outcome_bind_Ok in H as ([] & _ & H). injection H as <- <-.
  right. exists (take idx t), rows', st. split; [done|].
  pose proof (link_iftable_allocates _ _ _ _ _ _ _ _ Hlink) as (extra & Hms & Hlist).
  simpl in Hms, Hlist.
  set (k0 := if imtable_changed st
             then SetImTable (SetIfTable (SetIfTable (SetImTable klass default_imt)
                                            (Some (take idx t))) (Some rows'))
                    (fill_imt imt_conflict_method (imtable_ st))
             else SetIfTable (SetIfTable (SetImTable klass default_imt)
                                (Some (take idx t))) (Some rows')) in *.
  assert (Hk0 : virtual_methods k0 = virtual_methods klass ∧ vtable k0 = Some vt
                ∧ iftable k0 = Some rows').
  { unfold k0. by destruct (imtable_changed st). }
  destruct Hk0 as (Hk0v & Hk0t & Hk0i).
  destruct (miranda_list st) as [|mir mirs] eqn:Hmirs.
  - injection Hmir as <- <-. simpl. rewrite !app_nil_r.
    split_and!; [done|done|done|done|done|].
    intros m mm Hm. by apply elem_of_nil in Hm.
  - rewrite Hk0t in Hmir. cbn [outcome_bind] in Hmir.
    apply outcome_bind_Ok in Hmir as ([[virtuals vt2] ms2] & Hinst & Hmir).
    injection Hmir as <- <-. rewrite <- Hmirs in *.
    assert (Hnodup : NoDup (miranda_list st)) by (rewrite Hlist; apply NoDup_seq).
    pose proof (install_mirandas_spec _ _ _ _ _ _ _ _ _ Hinst Hnodup)
      as (Hv & Hl & Hsig & Hflags).
    rewrite Hlist in Hinst.
    apply install_mirandas_slots in Hinst as (Hlen2 & _ & Hold & Hnew);
      [|rewrite CopyOf_length, length_seq; lia].
    rewrite CopyOf_length, length_seq in Hlen2.
    cbn [virtual_methods vtable iftable SetVTable SetVirtualMethods].
    split_and!; [done|by rewrite Hv, Hk0v| |done|done|done].
    f_equal. apply list_eq. intros p. rewrite Hlist.
    destruct (decide (p < length vt)%nat) as [Hp|Hp].
    + rewrite Hold by lia. rewrite CopyOf_lookup_lt by (rewrite ?length_seq; lia).
      by rewrite lookup_app_l.
    + rewrite lookup_app_r by lia.
      destruct (decide (p - length vt < length extra)%nat) as [Hq|Hq].
      * destruct (Hnew (p - length vt)%nat Hq) as (am & Hslot & _).
        rewrite Nat.add_0_r in Hslot.
        replace (length vt + (p - length vt))%nat with p in Hslot by lia.
        rewrite Hslot, list_lookup_fmap, lookup_seq_lt by done. done.
      * rewrite (lookup_ge_None_2 vt2) by (rewrite Hlen2; lia).
        rewrite lookup_ge_None_2; [done|]. rewrite length_fmap, length_seq. lia.
Qed.

(** X20: [LinkInterfaceMethods] leaves the vtable of a class as it found
    it and only appends to it: one slot for every miranda method.  The
    miranda methods are new objects at the end of the store, they are the
    virtual methods added to the class, each carries the miranda flag and
    has the name and signature of a method of one of the interfaces of the
    class, no two of them share name and signature, and none has the name
    and signature of a method that was in the vtable. *)
Theorem LinkInterfaceMethods_appends_the_mirandas
    (classes : Classes) (methods : Methods) (klass : Class)
    (interfaces : option (list Addr)) (klass' : Class) (methods' : Methods)
    (vt : list (option Addr)) :
  is_interface klass = false →
  vtable klass = Some vt →
  forallb (in_store methods) vt = true →
  LinkInterfaceMethods classes methods klass interfaces = Ok (klass', methods') →
  ∃ mirandas,
    mirandas = seq (length methods) (length mirandas)
    ∧ length methods' = (length methods + length mirandas)%nat
    ∧ virtual_methods klass' = virtual_methods klass ++ mirandas
    ∧ vtable klass' = Some (vt ++ (Some <$> mirandas))
    ∧ NoDup (method_signature methods' <$> mirandas)
    ∧ ∀ m, m ∈ mirandas →
        (∃ mm, methods' !! m = Some mm
               ∧ Z.land (access_flags mm) kAccMiranda = kAccMiranda)
        ∧ (∃ a, a ∈ interface_methods_of classes (default [] (iftable klass'))
                ∧ method_signature methods' a = method_signature methods' m)
        ∧ (∀ e, Some e ∈ vt →
                method_signature methods' e ≠ method_signature methods' m).
Proof.
  intros Hni Hvt Hstore H.
  destruct (LinkInterfaceMethods_paths _ _ _ _ _ _ _ H Hni Hvt)
    as [(-> & Hv & Ht & _)
       |(rows & rows' & st & Hlink & Hi1 & Hv1 & Ht1 & Hl1 & Hsig1 & Hflags1)].
  { exists []. simpl. rewrite !app_nil_r.
    split_and!; [done|lia|done|done|constructor|].
    intros m Hm. by apply elem_of_nil in Hm. }
  pose proof (link_iftable_interfaces _ _ _ _ _ _ _ _ Hlink) as Hrows.
  apply (link_iftable_clones classes methods vt []) in Hlink as G;
    [|done|apply clones_grown_initial].
  rewrite app_nil_l in G.
  rewrite <- (interface_methods_of_interfaces _ _ _ Hrows) in G.
  destruct G as [(extra & Hms & Hlist) Hnd Hfresh Hsrc].
  exists (miranda_list st).
  assert (Hmirlt : ∀ m, m ∈ miranda_list st → (m < length (methods_ st))%nat).
  { intros m Hm. rewrite Hlist in Hm. apply elem_of_seq in Hm.
    rewrite Hms, length_app. lia. }
  split_and!.
  - by rewrite Hlist, length_seq.
  - by rewrite Hl1, Hms, length_app, Hlist, length_seq.
  - done.
  - done.
  - erewrite list_fmap_ext; [exact Hnd|]. intros i m Hi. apply Hsig1.
  - intros m Hm. split_and!.
    + destruct (lookup_lt_is_Some_2 _ _ (Hmirlt m Hm)) as [mm Hmm].
      destruct (Hflags1 m mm Hm Hmm) as (mm' & Hmm' & Hfl).
      exists mm'. split; [done|]. rewrite Hfl. apply land_lor_absorb.
    + destruct (Hsrc m Hm) as (a & Ha & _ & Hsig). exists a.
      rewrite Hi1. simpl. split; [done|]. by rewrite !Hsig1.
    + intros e He. rewrite !Hsig1. by apply Hfresh.
Qed.

(** *** The method arrays of the iftable *)

Lemma stands_in_later vt (st st' : LinkState) m im :
  (∃ extra, methods_ st' = methods_ st ++ extra
            ∧ miranda_list st'
              = miranda_list st ++ seq (length (methods_ st)) (length extra)) →
  stands_in vt st m im → stands_in vt st' m im.
Proof.
  intros (extra & Hms & Hl) (Hin & Hm & Him & Hsig). unfold stands_in.
  rewrite Hms, Hl, length_app, !method_signature_app by done.
  split_and!; [|lia|lia|done].
  destruct Hin; [by left|right; apply elem_of_app; by left].
Qed.

Lemma link_interface_method_stands_in vt im j arr st arr' st' :
  link_interface_method vt im j arr st = Ok (arr', st') →
  arr' = <[j := arr' !!! j]> arr
  ∧ ((j < length arr)%nat → ∃ m, arr' !! j = Some (Some m) ∧ stands_in vt st' m im).
Proof.
  intros H. unfold MethodTables.link_interface_method in H.
  apply outcome_bind_Ok in H as (imh & Himh & H).
  unfold deref_method in Himh.
  destruct (methods_ st !! im) as [imh'|] eqn:Him; simplify_eq.
  apply lookup_lt_Some in Him as Hlt.
  assert (Hins : ∀ (x : option Addr), <[j := x]> arr = <[j := <[j := x]> arr !!! j]> arr).
  { intros x. destruct (decide (j < length arr)%nat).
    - by rewrite list_lookup_total_insert_eq.
    - by rewrite !list_insert_ge by lia. }
  apply outcome_bind_Ok in H as ([vm|] & Hsearch & H).
  - apply outcome_bind_Ok in H as ([t e] & _ & H). simplify_eq. split; [apply Hins|].
    intros Hj. exists vm. rewrite list_lookup_insert_eq by done. split; [done|].
    apply search_vtable_backward_Some in Hsearch as (Hin & am & Ham & Hsame & _).
    rewrite elem_of_reverse in Hin. apply lookup_lt_Some in Ham as Hvm.
    unfold stands_in. simpl. split_and!; [by left|done|done|].
    rewrite (method_signature_Some _ _ _ Ham), (method_signature_Some _ _ _ Him).
    f_equal. symmetry. by apply HasSameNameAndSignature_iff.
  - apply outcome_bind_Ok in H as ([mir|] & Hfind & H); simplify_eq.
    + split; [apply Hins|].
      intros Hj. exists mir. rewrite list_lookup_insert_eq by done. split; [done|].
      apply find_miranda_Some in Hfind as (Hin & mm & Hmm & Hsame).
      apply lookup_lt_Some in Hmm as Hmir.
      unfold stands_in. split_and!; [by right|done|done|].
      rewrite (method_signature_Some _ _ _ Hmm), (method_signature_Some _ _ _ Him).
      f_equal. symmetry. by apply HasSameNameAndSignature_iff.
    + split; [apply Hins|].
      intros Hj. exists (length (methods_ st)).
      rewrite list_lookup_insert_eq by done. split; [done|]. unfold stands_in. simpl.
      rewrite length_app. simpl.
      split_and!; [right; apply elem_of_app; right; by left|lia|lia|].
      rewrite (method_signature_app _ _ im) by done.
      rewrite (method_signature_Some _ _ _ Him).
      unfold method_signature. rewrite lookup_app_r by lia. by rewrite Nat.sub_diag.
Qed.

Lemma link_interface_stands_in vt ims j arr st arr' st' :
  link_interface vt ims j arr st = Ok (arr', st') →
  (j + length ims ≤ length arr)%nat →
  length arr' = length arr
  ∧ (∀ p, (p < j)%nat → arr' !! p = arr !! p)
  ∧ ∀ k im, ims !! k = Some im →
      ∃ m, arr' !! (j + k)%nat = Some (Some m) ∧ stands_in vt st' m im.
Proof.
  revert j arr st. induction ims as [|im ims IH]; intros j arr st H Hlen.
  - simpl in H. simplify_eq. split_and!; [done|done|]. intros k im Hk. done.
  - simpl in H, Hlen. apply outcome_bind_Ok in H as ([arr1 st1] & H1 & H).
    pose proof (link_interface_allocates _ _ _ _ _ _ _ _ _ H) as Halloc.
    apply link_interface_method_stands_in in H1 as [Harr1 Hm1].
    assert (Hl1 : length arr1 = length arr) by (rewrite Harr1; apply length_insert).
    apply IH in H as (Hl & Hbefore & Hrest); [|lia].
    split_and!; [congruence| |].
    + intros p Hp. rewrite Hbefore by lia. rewrite Harr1.
      by rewrite list_lookup_insert_ne by lia.
    + intros [|k] x Hx; simpl in Hx.
      * simplify_eq. destruct Hm1 as (m & Hm & Hok); [lia|].
        exists m. rewrite Nat.add_0_r, Hbefore by lia. split; [done|].
        by eapply stands_in_later.
      * destruct (Hrest k x Hx) as (m & Hm & Hok). exists m.
        by replace (j + S k)%nat with (S j + k)%nat by lia.
Qed.

Lemma link_iftable_filled classes vt rows st rows' st' :
  link_iftable classes (Some vt) rows st = Ok (rows', st') →
  Forall (row_filled classes vt st') rows'.
Proof.
  revert st rows' st'. induction rows as [|row rows IH]; intros st rows' st' H.
  - simpl in H. simplify_eq. constructor.
  - simpl in H. apply outcome_bind_Ok in H as (ic & Hic & H).
    destruct (interface row) as [i|] eqn:Hi; [|done].
    unfold deref_class in Hic. destruct (classes !! i) as [ic'|] eqn:Hci; simplify_eq.
    destruct (0 <? length (virtual_methods ic))%nat eqn:Hnum.
    + cbn [outcome_bind] in H.
      apply outcome_bind_Ok in H as ([arr st1] & H1 & H).
      apply outcome_bind_Ok in H as ([rest st2] & H2 & H). simplify_eq.
      pose proof (link_iftable_allocates _ _ _ _ _ _ _ _ H2) as Halloc.
      constructor; [|by eapply IH].
      apply link_interface_stands_in in H1 as (Hl & _ & Hall);
        [|rewrite length_replicate; lia].
      rewrite length_replicate in Hl.
      intros i' ic' Hi' Hci'. simpl in Hi'. simplify_eq.
      exists arr. split_and!; [done|done|].
      intros j im Him. destruct (Hall j im Him) as (m & Hm & Hok).
      exists m. split; [done|]. by eapply stands_in_later.
    + apply outcome_bind_Ok in H as ([rest st2] & H2 & H). simplify_eq.
      constructor; [|by eapply IH].
      intros i' ic' Hi' Hci'. simplify_eq. apply Nat.ltb_ge in Hnum.
      assert (virtual_methods ic = []) as Hnone by (apply nil_length_inv; lia).
      exists []. rewrite Hnone. split_and!; [done|done|]. intros j im Him. done.
Qed.

(** X19: when [LinkInterfaceMethods] has linked a class that is no
    interface, the iftable of the class answers for every method of every
    interface in it: the row of the interface has a method array as long as
    the interface has methods, and its entry for the [j]-th method of the
    interface is a method with the name and signature of that method which
    is in the vtable of the class, in the inherited or declared part or as a
    miranda method at its end. *)
Theorem LinkInterfaceMethods_fills_the_method_arrays
    (classes : Classes) (methods : Methods) (klass : Class)
    (interfaces : option (list Addr)) (klass' : Class) (methods' : Methods)
    (vt : list (option Addr)) :
  is_interface klass = false →
  iftable klass = None →
  vtable klass = Some vt →
  super_iftable_linked classes klass = true →
  LinkInterfaceMethods classes methods klass interfaces = Ok (klass', methods') →
  ∀ row i ic j im,
    row ∈ default [] (iftable klass') →
    interface row = Some i → classes !! i = Some ic →
    virtual_methods ic !! j = Some im →
    ∃ arr m,
      method_array row = Some arr
      ∧ length arr = length (virtual_methods ic)
      ∧ arr !! j = Some (Some m)
      ∧ Some m ∈ default [] (vtable klass')
      ∧ method_signature methods' m = method_signature methods' im.
Proof.
  intros Hni Hfresh Hvt Hsuper H row i ic j im Hrow Hi Hic Him.
  destruct (LinkInterfaceMethods_paths _ _ _ _ _ _ _ H Hni Hvt)
    as [(-> & Hv & Ht & [Hif|[Hif Hmarker]])
       |(rows & rows' & st & Hlink & Hi1 & Hv1 & Ht1 & Hl1 & Hsig1 & Hflags1)].
  - rewrite Hif, Hfresh in Hrow. by apply elem_of_nil in Hrow.
  - (* the table of the superclass: none of its interfaces has a method *)
    exfalso. unfold super_iftable_linked in Hsuper. rewrite <- Hif in Hsuper.
    destruct (iftable klass') as [rows|]; [|by apply elem_of_nil in Hrow].
    simpl in Hrow, Hmarker. apply list_elem_of_lookup in Hrow as [r Hr].
    unfold rows_have_method_arrays in Hsuper.
    apply (forallb_lookup _ _ _ _ Hsuper) in Hr as Hok.
    rewrite Hi in Hok. simpl in Hok. rewrite Hic in Hok.
    apply orb_prop in Hok as [Hok|Hok].
    + apply bool_decide_eq_true in Hok. by rewrite Hok in Him.
    + assert (existsb (λ e, (0 <? GetMethodArrayCount e)%nat) rows = true) as Hex.
      { apply existsb_exists. exists row. split; [|done].
        apply list_elem_of_In. by eapply list_elem_of_lookup_2. }
      by rewrite Hex in Hmarker.
  - rewrite Hi1 in Hrow. simpl in Hrow.
    apply link_iftable_filled in Hlink.
    rewrite Forall_forall in Hlink.
    destruct (Hlink row Hrow i ic Hi Hic) as (arr & Harr & Hlen & Hall).
    assert (Hne : virtual_methods ic ≠ []) by (intros Hn; by rewrite Hn in Him).
    destruct (Hall j im Him) as (m & Hm & Hin & Hmlt & Himlt & Hsig).
    exists arr, m. split_and!; [by apply Harr|by apply Hlen|done| |].
    + rewrite Ht1. simpl. apply elem_of_app. destruct Hin as [Hin|Hin]; [by left|].
      right. apply list_elem_of_fmap. by exists m.
    + by rewrite !Hsig1.
Qed.

End mirandas.

(** *** The theorems at work *)

Lemma LinkVirtualMethods_extends_the_super_vtable_witness :
  ∃ klass' methods',
    LinkVirtualMethods example_access 0%nat scenario_1_classes scenario_1_methods
      addr_Sub class_Sub = Ok (klass', methods')
    ∧ ∃ vt, klass' = SetVTable class_Sub vt
            ∧ (4 ≤ length vt ≤ 5)%nat
            ∧ ∃ m, vt !! 3%nat = Some (Some m)
                   ∧ (m = Base_foo ∨ m ∈ virtual_methods class_Sub)
                   ∧ method_signature methods' m
                     = method_signature scenario_1_methods Base_foo.
Proof.
  destruct (LinkVirtualMethods example_access 0%nat scenario_1_classes scenario_1_methods
              addr_Sub class_Sub) as [[klass' methods']| |] eqn:Hrun;
    [|by vm_compute in Hrun|by vm_compute in Hrun].
  exists klass', methods'. split; [done|].
  destruct (LinkVirtualMethods_extends_the_super_vtable example_access 0%nat
              scenario_1_classes scenario_1_methods addr_Sub class_Sub addr_Base class_Base
              [Some 0%nat; Some 1%nat; Some 2%nat; Some Base_foo] klass' methods'
              eq_refl eq_refl eq_refl Hrun)
    as (vt & Hk & Hlen & _ & Hslots & _).
  exists vt. split; [done|]. split; [exact Hlen|].
  exact (Hslots 3%nat Base_foo eq_refl).
Defined.

Lemma LinkMethods_touches_only_own_method_indices_witness :
  ∃ klass' methods',
    LinkMethods example_access 0%nat example_kImtSize example_kAccMiranda all_conflicts
      conflict_method interface_world_classes interface_world_methods addr_K class_K
      None = Ok (klass', methods')
    ∧ (length interface_world_methods ≤ length methods')%nat
    ∧ methods' !! I_size
      = Some (mkArtMethod "size" "()I" addr_I (Z.lor kAccPublic kAccAbstract) 2 7).
Proof.
  destruct (LinkMethods example_access 0%nat example_kImtSize example_kAccMiranda
              all_conflicts conflict_method interface_world_classes
              interface_world_methods addr_K class_K None)
    as [[klass' methods']| |] eqn:Hrun;
    [|by vm_compute in Hrun|by vm_compute in Hrun].
  exists klass', methods'. split; [done|].
  destruct (LinkMethods_touches_only_own_method_indices example_access 0%nat
              example_kImtSize example_kAccMiranda all_conflicts conflict_method
              interface_world_classes interface_world_methods addr_K class_K None
              klass' methods' Hrun) as (Hlen & _ & Hothers).
  split; [exact Hlen|]. apply Hothers; [reflexivity|].
  apply (bool_decide_unpack _). reflexivity.
Defined.

Lemma LinkInterfaceMethods_flattens_the_interfaces_witness :
  ∃ klass' methods',
    LinkInterfaceMethods example_kImtSize example_kAccMiranda all_conflicts
      conflict_method interface_world_classes interface_world_methods class_K_virtual
      None = Ok (klass', methods')
    ∧ Some addr_I ∈ interfaces_of klass'.
Proof.
  destruct (LinkInterfaceMethods example_kImtSize example_kAccMiranda all_conflicts
              conflict_method interface_world_classes interface_world_methods
              class_K_virtual None) as [[klass' methods']| |] eqn:Hrun;
    [|by vm_compute in Hrun|by vm_compute in Hrun].
  exists klass', methods'. split; [done|].
  destruct (LinkInterfaceMethods_flattens_the_interfaces example_kImtSize
              example_kAccMiranda all_conflicts conflict_method interface_world_classes
              interface_world_methods class_K_virtual None klass' methods'
              eq_refl Hrun) as (Hdirect & _).
  apply (Hdirect addr_I). simpl. apply list_elem_of_here.
Defined.

Lemma LinkInterfaceMethods_fills_the_method_arrays_witness :
  ∃ klass' methods',
    LinkInterfaceMethods example_kImtSize example_kAccMiranda all_conflicts
      conflict_method interface_world_classes interface_world_methods class_K_virtual
      None = Ok (klass', methods')
    ∧ ∀ row, row ∈ default [] (iftable klass') → interface row = Some addr_I →
        ∃ arr m, method_array row = Some arr
                 ∧ length arr = 4%nat
                 ∧ arr !! 2%nat = Some (Some m)
                 ∧ Some m ∈ default [] (vtable klass')
                 ∧ method_signature methods' m = method_signature methods' I_size.
Proof.
  destruct (LinkInterfaceMethods example_kImtSize example_kAccMiranda all_conflicts
              conflict_method interface_world_classes interface_world_methods
              class_K_virtual None) as [[klass' methods']| |] eqn:Hrun;
    [|by vm_compute in Hrun|by vm_compute in Hrun].
  exists klass', methods'. split; [done|].
  intros row Hrow Hi.
  exact (LinkInterfaceMethods_fills_the_method_arrays example_kImtSize
           example_kAccMiranda all_conflicts conflict_method interface_world_classes
           interface_world_methods class_K_virtual None klass' methods'
           [Some K_run; Some K_stop; Some K_close]
           eq_refl eq_refl eq_refl eq_refl Hrun row addr_I class_I 2%nat I_size
           Hrow Hi eq_refl eq_refl).
Defined.

Lemma LinkInterfaceMethods_appends_the_mirandas_witness :
  ∃ klass' methods' mirandas,
    LinkInterfaceMethods example_kImtSize example_kAccMiranda all_conflicts
      conflict_method interface_world_classes interface_world_methods class_K_virtual
      None = Ok (klass', methods')
    ∧ mirandas = seq (length interface_world_methods) (length mirandas)
    ∧ virtual_methods klass' = [K_run; K_stop; K_close] ++ mirandas
    ∧ vtable klass' = Some ([Some K_run; Some K_stop; Some K_close] ++ (Some <$> mirandas)).
Proof.
  destruct (LinkInterfaceMethods example_kImtSize example_kAccMiranda all_conflicts
              conflict_method interface_world_classes interface_world_methods
              class_K_virtual None) as [[klass' methods']| |] eqn:Hrun;
    [|by vm_compute in Hrun|by vm_compute in Hrun].
  destruct (LinkInterfaceMethods_appends_the_mirandas example_kImtSize
              example_kAccMiranda all_conflicts conflict_method interface_world_classes
              interface_world_methods class_K_virtual None klass' methods'
              [Some K_run; Some K_stop; Some K_close]
              eq_refl eq_refl eq_refl Hrun)
    as (mirandas & Hseq & _ & Hvirtuals & Hvt & _).
  exists klass', methods', mirandas. split_and!; [done|exact Hseq|exact Hvirtuals|exact Hvt].
Defined.

End DispatchProofs.

(** ** The interface method table *)

Module InterfaceMethodTableProofs.
Import MethodTables Dispatch MethodTablesProofs DispatchProofs.

(** *** The rows of the iftable, exactly *)

Section iftable_exact.
Local Abbreviation filled t idx := (interface <$> take idx t).

Lemma add_super_interfaces_exact supers t idx t' idx' :
  add_super_interfaces supers t idx = (t', idx') →
  (idx + length supers ≤ length t)%nat →
  filled t' idx' = foldl add_interface (filled t idx) (interface <$> supers).
Proof.
  revert t idx. induction supers as [|e supers IH]; intros t idx H Hlen.
  - simpl in H. by simplify_eq.
  - simpl in H, Hlen. rewrite fmap_cons. cbn [foldl]. unfold add_interface at 2.
    destruct (already_in_iftable t idx (interface e)) eqn:Hin.
    + apply already_in_iftable_spec in Hin. rewrite decide_True by done.
      apply IH; [done|lia].
    + rewrite decide_False
        by (intros Hy%already_in_iftable_spec; by rewrite Hy in Hin).
      rewrite <- filled_SetInterface_S by lia.
      apply IH; [done|]. rewrite SetInterface_length. lia.
Qed.

Lemma flatten_interfaces_exact classes interfaces t idx t' idx' inherited :
  flatten_interfaces classes interfaces t idx = Ok (t', idx') →
  count_super_interfaces classes interfaces = Ok inherited →
  (idx + length interfaces + inherited ≤ length t)%nat →
  filled t' idx' = flattened_interfaces classes (filled t idx) interfaces.
Proof.
  unfold flattened_interfaces. revert t idx inherited.
  induction interfaces as [|i interfaces IH]; intros t idx inherited H Hcount Hlen.
  - simpl in H. by simplify_eq.
  - simpl in H, Hcount, Hlen.
    apply outcome_bind_Ok in H as (ic & Hic & H).
    unfold deref_class in Hic. destruct (classes !! i) as [ic'|] eqn:Hi; simplify_eq.
    unfold deref_class in Hcount. rewrite Hi in Hcount. cbn [outcome_bind] in Hcount.
    apply outcome_bind_Ok in Hcount as (n & Hcn & Hcount). simplify_eq.
    destruct (is_interface ic) eqn:Hitf; [|done]. cbn [negb] in H.
    assert (Hrows : length (default [] (iftable ic)) = GetIfTableCount ic).
    { unfold GetIfTableCount. by destruct (iftable ic). }
    cbn [foldl]. unfold add_direct_interface at 2. rewrite Hi. cbn [from_option].
    destruct (already_in_iftable t idx (Some i)) eqn:Hin.
    + apply already_in_iftable_spec in Hin. rewrite decide_True by done.
      apply (IH _ _ n H Hcn). lia.
    + rewrite decide_False
        by (intros Hy%already_in_iftable_spec; by rewrite Hy in Hin).
      destruct (add_super_interfaces (default [] (iftable ic))
                  (SetInterface t idx (Some i)) (S idx)) as [t1 idx1] eqn:Hadd.
      pose proof Hadd as Hexact.
      apply add_super_interfaces_exact in Hexact; [|rewrite SetInterface_length; lia].
      apply add_super_interfaces_spec in Hadd as (Hl1 & Hidx1 & _);
        [|rewrite SetInterface_length; lia].
      rewrite SetInterface_length in Hl1.
      rewrite filled_SetInterface_S in Hexact by lia.
      unfold interfaces_of. rewrite <- Hexact.
      apply (IH _ _ n H Hcn). lia.
Qed.

End iftable_exact.

(** *** The writes to the interface method table *)

Section imt.
Context (kImtSize : nat) (kAccMiranda : Z).
Context (default_imt : list (option Addr)) (imt_conflict_method : Addr).

(** The rows the loops over the iftable run through, and what they leave in
    the class. *)
Lemma LinkInterfaceMethods_rows classes methods klass interfaces klass' methods' :
  LinkInterfaceMethods kImtSize kAccMiranda default_imt imt_conflict_method
    classes methods klass interfaces = Ok (klass', methods') →
  is_interface klass = false →
  iftable klass = None →
  let super_rows := default [] ((super_class klass ≫= (classes !!.)) ≫= iftable) in
  let supers := from_option interfaces_of [] (super_class klass ≫= (classes !!.)) in
  let direct := default (direct_interfaces klass) interfaces in
  interfaces_of klass' = flattened_interfaces classes supers direct
  ∧ ((imtable klass' = default_imt ∧ direct = []
      ∧ existsb (λ e, (0 <? GetMethodArrayCount e)%nat) super_rows = false)
     ∨ ∃ rows rows' st vt,
         vtable klass = Some vt
         ∧ interface <$> rows = flattened_interfaces classes supers direct
         ∧ link_iftable kImtSize imt_conflict_method classes (Some vt) rows
             (initial_link_state kImtSize methods) = Ok (rows', st)
         ∧ imtable klass'
           = (if imtable_changed st then fill_imt imt_conflict_method (imtable_ st)
              else default_imt)).
Proof.
  intros H Hni Hfresh super_rows supers direct.
  unfold MethodTables.LinkInterfaceMethods in H.
  apply outcome_bind_Ok in H as (super_c & Hsc & H).
  assert (Hsuper : super_c = super_class klass ≫= (classes !!.)).
  { cbn [super_class SetImTable] in Hsc.
    destruct (super_class klass) as [super|]; simpl in *; [|by simplify_eq].
    apply outcome_bind_Ok in Hsc as (c & Hc & Hsc). unfold deref_class in Hc.
    destruct (classes !! super); by simplify_eq. }
  assert (Hrows : super_rows = default [] (super_c ≫= iftable))
    by (unfold super_rows; by rewrite Hsuper).
  assert (Hsupers : supers = interface <$> super_rows).
  { unfold supers, super_rows. by destruct (super_class klass ≫= (classes !!.)). }
  cbn [direct_interfaces SetImTable] in H. fold direct in H.
  rewrite <- Hrows in H.
  apply outcome_bind_Ok in H as (inherited & Hcount & H).
  destruct (_ =? 0)%nat eqn:Hzero.
  { apply Nat.eqb_eq in Hzero. injection H as <- <-.
    assert (direct = []) as Hd by (apply nil_length_inv; lia).
    assert (super_rows = []) as Hr by (apply nil_length_inv; lia).
    split.
    - unfold interfaces_of. cbn [iftable SetImTable]. by rewrite Hfresh, Hsupers, Hr, Hd.
    - left. by rewrite Hr. }
  destruct (_ && _) eqn:Hmarker.
  { apply andb_prop in Hmarker as [Hsame%Nat.eqb_eq Hnone%negb_true_iff].
    injection H as <- <-.
    assert (direct = []) as Hd by (apply nil_length_inv; lia).
    split.
    - unfold interfaces_of. cbn [iftable SetIfTable]. by rewrite <- Hrows, Hsupers, Hd.
    - left. done. }
  apply outcome_bind_Ok in H as ([t idx] & Hflat & H).
  apply outcome_bind_Ok in H as ([] & _ & H).
  destruct (copy_super_rows super_rows (length super_rows + length direct + inherited))
    as [Hl0 Hfill0]; [lia|].
  pose proof (flatten_interfaces_exact _ _ _ _ _ _ _ Hflat Hcount) as Hexact.
  rewrite Hfill0, <- Hsupers in Hexact. specialize (Hexact ltac:(rewrite Hl0; lia)).
  cbn [is_interface SetIfTable SetImTable] in H. rewrite Hni in H.
  apply outcome_bind_Ok in H as ([rows' st] & Hlink & H).
  pose proof (link_iftable_interfaces _ _ _ _ _ _ _ _ Hlink) as Hsame.
  apply outcome_bind_Ok in H as ([k1 m1] & Hmir & H).
  apply outcome_bind_Ok in H as (vt' & Hvt' & H).
  apply outcome_bind_Ok in H as ([] & _ & H). injection H as <- <-.
  assert (Hk1 : interfaces_of k1 = interface <$> rows'
                ∧ imtable k1 = (if imtable_changed st
                                then fill_imt imt_conflict_method (imtable_ st)
                                else default_imt)
                ∧ (vtable k1 = None → vtable klass = None)).
  { destruct (miranda_list st).
    - injection Hmir as <- <-. by destruct (imtable_changed st).
    - apply outcome_bind_Ok in Hmir as (vt1 & Hvt1 & Hmir).
      apply outcome_bind_Ok in Hmir as ([[virtuals vt2] ms2] & _ & Hmir).
      injection Hmir as <- <-. by destruct (imtable_changed st). }
  destruct Hk1 as (Hi1 & Himt1 & _).
  split; [by rewrite Hi1, Hsame|].
  right. exists (take idx t), rows', st.
  cbn [vtable SetIfTable SetImTable] in Hlink.
  destruct (vtable klass) as [vt|] eqn:Hvt.
  - exists vt. split_and!; [done|done|exact Hlink|done].
  - exfalso. clear -Hmir Hvt' Hvt.
    destruct (miranda_list st).
    + injection Hmir as <- <-.
      destruct (imtable_changed st); simpl in Hvt'; rewrite Hvt in Hvt'; done.
    + apply outcome_bind_Ok in Hmir as (vt1 & Hvt1 & Hmir).
      destruct (imtable_changed st); simpl in Hvt1; rewrite Hvt in Hvt1; done.
Qed.

Lemma rows_of_interfaces (interfaces : list (option Addr)) :
  interface <$> rows_of interfaces = interfaces.
Proof.
  unfold rows_of. rewrite <- list_fmap_compose. by rewrite list_fmap_id.
Qed.

(** C3: [LinkInterfaceMethods], on a class that is no interface, goes through
    the rows of the iftable it has built (the interfaces of the superclass,
    then what the direct interfaces add) and, row by row and method by method,
    makes one write to the interface method table for every interface method
    for which the backward walk of the vtable finds an implementation, at the
    slot [GetDexMethodIndex() % kImtSize] of the interface method.  A write to
    an empty slot puts the implementation there; a write to an occupied slot
    puts the conflict method there.  So in the table the class ends with, a
    slot written once holds the implementation, a slot written more than once
    holds the conflict method and not the first implementation, and a slot
    never written holds the conflict method too; with no write at all the
    class keeps the default table. *)
Theorem LinkInterfaceMethods_imt_first_writer_then_conflict
    classes methods klass interfaces klass' methods' vt :
  is_interface klass = false →
  iftable klass = None →
  vtable klass = Some vt →
  forallb (in_store methods) vt = true →
  super_iftable_linked classes klass = true →
  let supers := from_option interfaces_of [] (super_class klass ≫= (classes !!.)) in
  let direct := default (direct_interfaces klass) interfaces in
  let rows := rows_of (flattened_interfaces classes supers direct) in
  interface_methods_in_store classes methods rows = true →
  LinkInterfaceMethods kImtSize kAccMiranda default_imt imt_conflict_method
    classes methods klass interfaces = Ok (klass', methods') →
  let writes := imt_writes kImtSize classes methods vt rows in
  (* the rows of the iftable, which the writes follow *)
  interfaces_of klass' = flattened_interfaces classes supers direct
  (* the table of the class *)
  ∧ (writes = [] → imtable klass' = default_imt)
  ∧ (writes ≠ [] →
     length (imtable klass') = kImtSize
     ∧ (∀ slot, (slot < kImtSize)%nat →
          imtable klass' !! slot
          = Some (Some (imt_entry imt_conflict_method writes slot)))
     (* a slot written once holds the implementation *)
     ∧ (∀ slot vtable_method, (slot < kImtSize)%nat →
          writes_to slot writes = [(slot, vtable_method)] →
          imtable klass' !! slot = Some (Some vtable_method))
     (* a slot written twice or more holds the conflict method *)
     ∧ (∀ slot first second later, (slot < kImtSize)%nat →
          writes_to slot writes = first :: second :: later →
          imtable klass' !! slot = Some (Some imt_conflict_method))
     (* a slot never written holds the conflict method *)
     ∧ (∀ slot, (slot < kImtSize)%nat →
          writes_to slot writes = [] →
          imtable klass' !! slot = Some (Some imt_conflict_method))).
Proof.
  intros Hni Hfresh Hvt Hstore Hsuper supers direct rows Hims H writes.
  apply LinkInterfaceMethods_rows in H
    as [Hifaces [(Himt & Hdirect & Hmarkers)
                |(rows0 & rows' & st & vt' & Hvt' & Hrows0 & Hlink & Himt)]];
    [| |done|done].
  - split; [done|].
    assert (Hnone : writes = []).
    { unfold writes, rows. fold supers direct in Hdirect. rewrite Hdirect.
      unfold flattened_interfaces. cbn [foldl].
      unfold super_iftable_linked in Hsuper.
      rewrite (imt_writes_interfaces _ _ _ _
                 (default [] ((super_class klass ≫= (classes !!.)) ≫= iftable))).
      - apply imt_writes_markers; [|done].
        by destruct ((super_class klass ≫= (classes !!.)) ≫= iftable).
      - rewrite rows_of_interfaces. unfold supers, interfaces_of.
        by destruct (super_class klass ≫= (classes !!.)). }
    split; [done|]. by intros [].
  - split; [done|].
    rewrite Hvt in Hvt'. simplify_eq.
    assert (Hsame : interface <$> rows0 = interface <$> rows).
    { unfold rows. by rewrite rows_of_interfaces. }
    rewrite <- (interface_methods_in_store_interfaces _ _ _ _ Hsame) in Hims.
    destruct (link_iftable_writes _ _ _ _ _ _ _ _ _ [] Hlink Hstore Hims)
      as (_ & [Hlen Hslots] & Hchanged);
      [exists []; simpl; by rewrite app_nil_r|apply imt_holds_initial|done|].
    simpl in Hlen, Hslots, Hchanged.
    rewrite (imt_writes_interfaces _ _ _ _ _ _ Hsame) in Hslots, Hchanged.
    fold writes in Hslots, Hchanged.
    rewrite Himt, Hchanged. split.
    + intros Hw. by rewrite bool_decide_eq_false_2 by by intros [].
    + intros Hw. rewrite bool_decide_eq_true_2 by done.
      assert (Hentry : ∀ slot, (slot < kImtSize)%nat →
                fill_imt imt_conflict_method (imtable_ st) !! slot
                = Some (Some (imt_entry imt_conflict_method writes slot))).
      { intros slot Hslot. erewrite fill_imt_lookup by by apply Hslots.
        by rewrite imt_entry_during. }
      split_and!.
      * unfold MethodTables.fill_imt. by rewrite length_fmap.
      * exact Hentry.
      * intros slot vm Hslot Hw1. rewrite (Hentry slot Hslot).
        unfold imt_entry. by rewrite Hw1.
      * intros slot w1 w2 ws Hslot Hw2. rewrite (Hentry slot Hslot).
        unfold imt_entry. by rewrite Hw2.
      * intros slot Hslot Hw0. rewrite (Hentry slot Hslot).
        unfold imt_entry. by rewrite Hw0.
Qed.

End imt.

Lemma LinkInterfaceMethods_imt_first_writer_then_conflict_witness :
  ∃ klass' methods',
    LinkInterfaceMethods example_kImtSize example_kAccMiranda all_conflicts
      conflict_method interface_world_classes interface_world_methods class_K_virtual
      None = Ok (klass', methods')
    ∧ interfaces_of klass' = [Some addr_I]
    ∧ imtable klass' !! 0%nat = Some (Some conflict_method)
    ∧ imtable klass' !! 2%nat = Some (Some K_stop)
    ∧ imtable klass' !! 3%nat = Some (Some conflict_method).
Proof.
  destruct (LinkInterfaceMethods example_kImtSize example_kAccMiranda all_conflicts
              conflict_method interface_world_classes interface_world_methods
              class_K_virtual None) as [[klass' methods']| |] eqn:Hrun;
    [|by vm_compute in Hrun|by vm_compute in Hrun].
  exists klass', methods'. split; [done|].
  destruct (LinkInterfaceMethods_imt_first_writer_then_conflict example_kImtSize
              example_kAccMiranda all_conflicts conflict_method interface_world_classes
              interface_world_methods class_K_virtual None klass' methods'
              [Some K_run; Some K_stop; Some K_close]
              eq_refl eq_refl eq_refl eq_refl eq_refl eq_refl Hrun)
    as (Hifaces & _ & Hwrites).
  split; [exact Hifaces|].
  destruct Hwrites as (_ & _ & Honce & Htwice & Hnever); [by vm_compute|].
  split; [|split].
  - apply (Htwice 0%nat (0%nat, K_run) (0%nat, K_close) []).
    + unfold example_kImtSize. lia.
    + reflexivity.
  - apply (Honce 2%nat K_stop).
    + unfold example_kImtSize. lia.
    + reflexivity.
  - apply (Hnever 3%nat).
    + unfold example_kImtSize. lia.
    + reflexivity.
Defined.

(** C3, as the specification has it, does not hold.  The slot is taken from
    the dex method index of the interface method, not from its method index:
    [stop] (method index 1, dex method index 6) has its implementation in slot
    2 of a table of four slots, not in slot 1.  And the first writer does not
    keep its slot: [run] and [close] meet in slot 0, which then holds the
    conflict method, and [K.run], written there first, is nowhere in the
    table. *)
Lemma LinkInterfaceMethods_conflict_replaces_first_writer :
  (* the interface methods [run], [stop] and [close] of [I], as [K]
     implements them, with the slot each is written to *)
  implementation_of example_kImtSize interface_world_methods
    [Some K_run; Some K_stop; Some K_close] I_run = Some (0%nat, K_run)
  ∧ implementation_of example_kImtSize interface_world_methods
      [Some K_run; Some K_stop; Some K_close] I_stop = Some (2%nat, K_stop)
  ∧ implementation_of example_kImtSize interface_world_methods
      [Some K_run; Some K_stop; Some K_close] I_close = Some (0%nat, K_close)
  (* [stop] has the method index 1 and the dex method index 6 *)
  ∧ (λ m, (method_index m, dex_method_index m)) <$> interface_world_methods !! I_stop
    = Some (1, 6)
  ∧ ∃ klass' methods',
      LinkInterfaceMethods example_kImtSize example_kAccMiranda all_conflicts
        conflict_method interface_world_classes interface_world_methods class_K_virtual
        None = Ok (klass', methods')
      (* the implementation of [stop] is in slot 6 mod 4, not in slot 1 mod 4 *)
      ∧ imtable klass' !! Z.to_nat (6 `mod` 4) = Some (Some K_stop)
      ∧ imtable klass' !! Z.to_nat (1 `mod` 4) = Some (Some conflict_method)
      (* [K.run], the first writer of slot 0, has not kept the slot: it is
         nowhere in the table *)
      ∧ imtable klass' !! 0%nat = Some (Some conflict_method)
      ∧ Some K_run ∉ imtable klass'.
Proof.
  split; [by vm_compute|]. split; [by vm_compute|]. split; [by vm_compute|].
  split; [by vm_compute|].
  eexists _, _. split; [by vm_compute|].
  split; [by vm_compute|]. split; [by vm_compute|]. split; [by vm_compute|].
  apply (bool_decide_unpack _). by vm_compute.
Qed.

End InterfaceMethodTableProofs.

(** ** The registry of dex files *)

Module DexRegistryProofs.
Import Resolution DexRegistry.

Lemma dex_bind_Done {A B} (m : Exec A) (k : A → Exec B) (b : B) :
  exec_bind m k = Done b → ∃ a, m = Done a ∧ k a = Done b.
Proof. destruct m; simpl; [eauto|done|done]. Qed.

(** *** The map *)

Lemma map_find_elem_of (m : DexCacheMap) key value :
  map_find m key = Some value → (key, value) ∈ m.
Proof.
  induction m as [|[k v] m IH]; [done|]. simpl. case_bool_decide as Hk.
  - intros [= <-]. subst k. by left.
  - intros H. right. by apply IH.
Qed.

Lemma map_find_None (m : DexCacheMap) key :
  map_find m key = None ↔ key ∉ (fst <$> m).
Proof.
  induction m as [|[k v] m IH]; simpl.
  - split; [intros _ H; by apply elem_of_nil in H|done].
  - case_bool_decide as Hk.
    + split; [done|]. intros H. exfalso. apply H. subst k. by left.
    + rewrite IH. split.
      * intros Hn H. apply elem_of_cons in H as [H|H]; [by subst|done].
      * intros Hn H. apply Hn. by right.
Qed.

Lemma map_find_insert_ne (m : DexCacheMap) key value other :
  other ≠ key → map_find (map_insert m key value) other = map_find m other.
Proof.
  intros Hne. induction m as [|[k v] m IH]; simpl.
  - by rewrite bool_decide_eq_false_2.
  - case_bool_decide as Hk; [done|]. destruct (key <? k)%N; simpl.
    + by rewrite (bool_decide_eq_false_2 (key = other)).
    + by rewrite IH.
Qed.

Lemma map_find_insert_eq (m : DexCacheMap) key value :
  keys_ascending m →
  map_find (map_insert m key value) key = Some (default value (map_find m key)).
Proof.
  unfold keys_ascending. induction m as [|[k v] m IH]; simpl; intros Hs.
  - by rewrite bool_decide_eq_true_2.
  - apply StronglySorted_inv in Hs as [Hs Hall].
    case_bool_decide as Hk.
    + simpl. by rewrite bool_decide_eq_true_2.
    + destruct (key <? k)%N eqn:Hlt; simpl.
      * rewrite bool_decide_eq_true_2 by done.
        assert (map_find m key = None) as ->; [|done].
        apply map_find_None. intros Hin. rewrite Forall_forall in Hall.
        apply Hall in Hin. apply N.ltb_lt in Hlt. lia.
      * rewrite bool_decide_eq_false_2 by done. by apply IH.
Qed.

Lemma map_insert_elem_of (m : DexCacheMap) key value k v :
  (k, v) ∈ map_insert m key value → (k, v) ∈ m ∨ (k = key ∧ v = value).
Proof.
  induction m as [|[k0 v0] m IH]; simpl.
  - intros H%list_elem_of_singleton. right. by simplify_eq.
  - case_bool_decide as Hk; [by left|]. destruct (key <? k0)%N.
    + intros H. apply elem_of_cons in H as [H|H]; [right; by simplify_eq|by left].
    + intros H. apply elem_of_cons in H as [H|H]; [left; rewrite H; by left|].
      destruct (IH H) as [Hin|Heq]; [left; by right|by right].
Qed.

Lemma map_insert_keys (m : DexCacheMap) key value k :
  k ∈ (fst <$> map_insert m key value) → k = key ∨ k ∈ (fst <$> m).
Proof.
  intros ([k' v] & -> & Hin)%list_elem_of_fmap. simpl.
  destruct (map_insert_elem_of _ _ _ _ _ Hin) as [H|[-> _]]; [|by left].
  right. apply list_elem_of_fmap. by exists (k', v).
Qed.

Lemma map_insert_ascending (m : DexCacheMap) key value :
  keys_ascending m → keys_ascending (map_insert m key value).
Proof.
  unfold keys_ascending. induction m as [|[k v] m IH]; simpl; intros Hs.
  - repeat constructor.
  - case_bool_decide as Hk; [done|].
    pose proof Hs as Hs0. apply StronglySorted_inv in Hs as [Hs Hall].
    destruct (key <? k)%N eqn:Hlt; simpl.
    + apply N.ltb_lt in Hlt. constructor; [done|]. constructor; [done|].
      rewrite Forall_forall in Hall |- *. intros x Hx. apply Hall in Hx. lia.
    + apply N.ltb_ge in Hlt. constructor; [by apply IH|].
      rewrite Forall_forall in Hall |- *. intros x Hx.
      destruct (map_insert_keys _ _ _ _ Hx) as [->|Hin]; [lia|by apply Hall].
Qed.

(** *** Registering, then finding *)

Lemma RegisterDexFileLocked_run (r : Registry) dex_file cache f c :
  dex_files r !! dex_file = Some f →
  dex_cache_objects r !! cache = Some c →
  location c = dex_location f →
  RegisterDexFileLocked r dex_file (Some cache)
  = Done {| dex_files := dex_files r;
            dex_cache_objects := <[cache := SetDexFile c dex_file]> (dex_cache_objects r);
            dex_caches_ := map_insert (dex_caches_ r) dex_file cache;
            new_dex_cache_roots_ :=
              if log_new_dex_caches_roots_ r
              then new_dex_cache_roots_ r ++ [dex_file]
              else new_dex_cache_roots_ r;
            log_new_dex_caches_roots_ := log_new_dex_caches_roots_ r |}.
Proof.
  intros Hf Hc Hloc. unfold RegisterDexFileLocked, deref_dex_file, deref_dex_cache.
  rewrite Hf. simpl. rewrite Hc. simpl. by rewrite bool_decide_eq_true_2.
Qed.

(** X21: a dex file registered with [RegisterDexFile(dex_file, dex_cache)]
    is registered from then on, and [FindDexCache] answers for it the cache
    the map holds under the file: the cache just given when the file was
    new to the registry, and otherwise the cache of the earlier registration,
    which a later one does not replace.  The entries of the other files
    stay, the cache given points to the file, and the registry stays in
    order: the keys ascending, every registered cache pointing to a dex
    file. *)
Theorem RegisterDexFile_then_FindDexCache
    (r : Registry) (dex_file cache : Addr) (f : DexFile) (c : DexCache) :
  keys_ascending (dex_caches_ r) →
  dex_files r !! dex_file = Some f →
  dex_cache_objects r !! cache = Some c →
  location c = dex_location f →
  ∃ r',
    RegisterDexFile_with r dex_file (Some cache) = Done r'
    ∧ IsDexFileRegistered r' dex_file = true
    ∧ FindDexCache r' dex_file
      = Done (default cache (map_find (dex_caches_ r) dex_file))
    ∧ (∀ other, other ≠ dex_file →
         map_find (dex_caches_ r') other = map_find (dex_caches_ r) other)
    ∧ dex_cache_objects r' !! cache = Some (SetDexFile c dex_file)
    ∧ keys_ascending (dex_caches_ r')
    ∧ (caches_valid r → caches_valid r').
Proof.
  intros Hs Hf Hc Hloc. eexists. split.
  { unfold RegisterDexFile_with. by apply (RegisterDexFileLocked_run _ _ _ f c). }
  split_and!.
  - unfold IsDexFileRegistered, IsDexFileRegisteredLocked. simpl.
    rewrite map_find_insert_eq by done. by apply bool_decide_eq_true_2.
  - unfold FindDexCache. simpl. by rewrite map_find_insert_eq.
  - intros other Hne. simpl. by apply map_find_insert_ne.
  - simpl. apply lookup_insert_eq.
  - simpl. by apply map_insert_ascending.
  - intros Hvalid k cache' Hin. simpl in Hin |- *.
    destruct (decide (cache' = cache)) as [->|Hne].
    + exists (SetDexFile c dex_file), dex_file, f.
      by rewrite lookup_insert_eq.
    + rewrite lookup_insert_ne by done.
      destruct (map_insert_elem_of _ _ _ _ _ Hin) as [Hold|[_ ->]]; [|done].
      by apply (Hvalid k).
Qed.

(** X22: [RegisterDexFile(dex_file)] registers a dex file once.  Once it
    has returned, the file is registered, and a further call changes
    nothing and allocates nothing; it is then the identity. *)
Theorem RegisterDexFile_registers_once
    (AllocDexCache : Registry → Addr → option Addr * Registry)
    (r : Registry) (dex_file : Addr) (r' : Registry) :
  keys_ascending (dex_caches_ r) →
  (∀ r0 f0, dex_caches_ (AllocDexCache r0 f0).2 = dex_caches_ r0) →
  RegisterDexFile AllocDexCache r dex_file = Done r' →
  IsDexFileRegistered r' dex_file = true
  ∧ RegisterDexFile AllocDexCache r' dex_file = Done r'
  ∧ (IsDexFileRegistered r dex_file = true → r' = r).
Proof.
  intros Hs Halloc H.
  assert (Hreg : IsDexFileRegistered r' dex_file = true).
  { unfold RegisterDexFile in H.
    destruct (IsDexFileRegisteredLocked r dex_file) eqn:Hr; [by simplify_eq|].
    pose proof (Halloc r dex_file) as Hsame.
    destruct (AllocDexCache r dex_file) as [dex_cache r1]. simpl in Hsame.
    apply dex_bind_Done in H as ([] & _ & H).
    destruct (IsDexFileRegisteredLocked r1 dex_file) eqn:Hr1; [by simplify_eq|].
    unfold RegisterDexFileLocked in H. destruct dex_cache as [cache|]; [|done].
    apply dex_bind_Done in H as (f & _ & H).
    apply dex_bind_Done in H as (c & _ & H).
    apply dex_bind_Done in H as ([] & _ & H). simplify_eq.
    unfold IsDexFileRegistered, IsDexFileRegisteredLocked. simpl.
    rewrite map_find_insert_eq by by rewrite Hsame.
    by apply bool_decide_eq_true_2. }
  split_and!; [done| |].
  - unfold RegisterDexFile. unfold IsDexFileRegistered in Hreg. by rewrite Hreg.
  - intros Hr. unfold RegisterDexFile in H. unfold IsDexFileRegistered in Hr.
    rewrite Hr in H. by simplify_eq.
Qed.

(** *** Finding by location *)

Lemma find_by_location_spec (r : Registry) (entries : DexCacheMap) location_ :
  (∀ k cache, (k, cache) ∈ entries →
     ∃ c f file, dex_cache_objects r !! cache = Some c ∧ dex_file_ c = Some f
                 ∧ dex_files r !! f = Some file) →
  (∃ k cache c f file,
     find_by_location r entries location_ = Done (Some cache)
     ∧ (k, cache) ∈ entries
     ∧ dex_cache_objects r !! cache = Some c ∧ dex_file_ c = Some f
     ∧ dex_files r !! f = Some file ∧ dex_location file = location_)
  ∨ (find_by_location r entries location_ = Done None
     ∧ ∀ k cache c f file,
         (k, cache) ∈ entries → dex_cache_objects r !! cache = Some c →
         dex_file_ c = Some f → dex_files r !! f = Some file →
         dex_location file ≠ location_).
Proof.
  induction entries as [|[k cache] entries IH]; intros Hvalid.
  - right. split; [done|]. intros k cache c f file Hin. by apply elem_of_nil in Hin.
  - destruct (Hvalid k cache) as (c & f & file & Hc & Hf & Hfile); [by left|].
    simpl. unfold deref_dex_cache, deref_dex_file. simpl. rewrite Hc. simpl.
    rewrite Hf, Hfile. simpl. case_bool_decide as Hloc.
    + left. exists k, cache, c, f, file. split_and!; [done|by left|done|done|done|done].
    + destruct IH as [(k' & cache' & c' & f' & file' & Hrun & Hin & Hrest)
                     |[Hrun Hnone]].
      * intros k' cache' Hin. apply (Hvalid k'). by right.
      * left. exists k', cache', c', f', file'. split_and!; [done|by right|apply Hrest..].
      * right. split; [done|]. intros k' cache' c' f' file' Hin Hc' Hf' Hfile'.
        apply elem_of_cons in Hin as [Heq|Hin].
        -- simplify_eq. done.
        -- by eapply Hnone.
Qed.

(** X23: for a dex file that is not registered itself, [FindDexCache]
    falls back on the location: it answers a registered cache whose dex file
    has the location of the file asked for, if there is one, and brings the
    process down if there is none. *)
Theorem FindDexCache_by_location
    (r : Registry) (dex_file : Addr) (f : DexFile) :
  caches_valid r →
  dex_files r !! dex_file = Some f →
  IsDexFileRegistered r dex_file = false →
  (∀ cache, FindDexCache r dex_file = Done cache →
            registered_at r (dex_location f) cache)
  ∧ ((∃ cache, registered_at r (dex_location f) cache) →
     ∃ cache, FindDexCache r dex_file = Done cache)
  ∧ ((∀ cache, ¬ registered_at r (dex_location f) cache) →
     FindDexCache r dex_file = Fatal).
Proof.
  intros Hvalid Hf Hreg.
  assert (Hfind : map_find (dex_caches_ r) dex_file = None).
  { unfold IsDexFileRegistered, IsDexFileRegisteredLocked in Hreg.
    apply bool_decide_eq_false in Hreg.
    destruct (map_find (dex_caches_ r) dex_file); [|done]. exfalso. apply Hreg. by eexists. }
  assert (Hrun : FindDexCache r dex_file
                 = let! found := find_by_location r (dex_caches_ r) (dex_location f) in
                   match found with Some cache => Done cache | None => Fatal end).
  { unfold FindDexCache, deref_dex_file. by rewrite Hfind, Hf. }
  rewrite Hrun.
  destruct (find_by_location_spec r (dex_caches_ r) (dex_location f) Hvalid)
    as [(k & cache & c & f' & file & -> & Hin & Hc & Hf' & Hfile & Hloc)|[-> Hnone]];
    simpl.
  - split_and!.
    + intros ? [= <-]. by exists k, c, f', file.
    + intros _. by exists cache.
    + intros Hno. exfalso. apply (Hno cache). by exists k, c, f', file.
  - split_and!; [done| |done].
    intros (cache & k & c & f' & file & Hin & Hc & Hf' & Hfile & Hloc).
    exfalso. by apply (Hnone k cache c f' file).
Qed.

(** *** The theorems at work *)

Lemma small_registry_file_10 : dex_files small_registry !! 10%N = Some core_jar.
Proof. simpl. apply lookup_insert_eq. Qed.

Lemma small_registry_cache_20 :
  dex_cache_objects small_registry !! 20%N
  = Some {| location := "/system/framework/core.jar"; dex_file_ := None |}.
Proof. simpl. apply lookup_insert_eq. Qed.

Lemma RegisterDexFile_then_FindDexCache_witness :
  ∃ r', RegisterDexFile_with small_registry 10%N (Some 20%N) = Done r'
        ∧ IsDexFileRegistered r' 10%N = true
        ∧ FindDexCache r' 10%N = Done 20%N.
Proof.
  destruct (RegisterDexFile_then_FindDexCache small_registry 10%N 20%N core_jar
              {| location := "/system/framework/core.jar"; dex_file_ := None |})
    as (r' & Hrun & Hreg & Hfind & _).
  - constructor.
  - apply small_registry_file_10.
  - apply small_registry_cache_20.
  - reflexivity.
  - exists r'. split_and!; [exact Hrun|exact Hreg|exact Hfind].
Defined.

Lemma RegisterDexFile_registers_once_witness :
  RegisterDexFile alloc_fails core_registered 10%N = Done core_registered
  ∧ IsDexFileRegistered core_registered 10%N = true.
Proof.
  destruct (RegisterDexFile_registers_once alloc_fails core_registered 10%N core_registered)
    as (Hreg & Hagain & _).
  - repeat constructor.
  - reflexivity.
  - reflexivity.
  - split; [exact Hagain|exact Hreg].
Defined.

Lemma core_registered_valid : caches_valid core_registered.
Proof.
  intros k cache Hin. simpl in Hin. apply list_elem_of_singleton in Hin.
  injection Hin as -> ->.
  exists {| location := "/system/framework/core.jar"; dex_file_ := Some 10%N |},
    10%N, core_jar.
  split_and!; [apply lookup_insert_eq|done|apply lookup_insert_eq].
Qed.

Lemma core_registered_file_12 : dex_files core_registered !! 12%N = Some core_jar.
Proof.
  simpl. rewrite lookup_insert_ne by done. rewrite lookup_insert_ne by done.
  apply lookup_singleton_eq.
Qed.

Lemma FindDexCache_by_location_witness :
  ∃ cache, FindDexCache core_registered 12%N = Done cache.
Proof.
  destruct (FindDexCache_by_location core_registered 12%N core_jar) as (_ & Hfound & _).
  - apply core_registered_valid.
  - apply core_registered_file_12.
  - reflexivity.
  - apply Hfound. exists 20%N, 10%N,
      {| location := "/system/framework/core.jar"; dex_file_ := Some 10%N |},
      10%N, core_jar.
    split_and!; [apply list_elem_of_here|apply lookup_insert_eq|done
                |apply lookup_insert_eq|done].
Defined.

Lemma deref_dex_file_Some (r : Registry) (k : Addr) f :
  dex_files r !! k = Some f → deref_dex_file r k = Done f.
Proof. unfold deref_dex_file. by intros ->. Qed.

Lemma deref_dex_cache_Some (r : Registry) (k : Addr) c :
  dex_cache_objects r !! k = Some c → deref_dex_cache r (Some k) = Done c.
Proof. unfold deref_dex_cache. simpl. by intros ->. Qed.

(** The second dex file object of [core.jar] is answered with the cache of
    the first. *)
Example core_jar_found_by_location : FindDexCache core_registered 12%N = Done 20%N.
Proof.
  unfold FindDexCache. simpl map_find. cbv iota.
  rewrite (deref_dex_file_Some _ _ _ core_registered_file_12).
  cbn [exec_bind dex_caches_ core_registered find_by_location].
  rewrite (deref_dex_cache_Some _ 20%N
             {| location := "/system/framework/core.jar"; dex_file_ := Some 10%N |})
    by apply lookup_insert_eq.
  cbn [exec_bind dex_file_].
  rewrite (deref_dex_file_Some _ 10%N core_jar) by apply lookup_insert_eq.
  done.
Qed.

End DexRegistryProofs.

(** ** [ResolveType] *)

Module TypeResolutionProofs.
Import Resolution ResolutionProofs TypeResolution.

Lemma debug_check_passes (kIsDebugBuild : bool) (heap : Heap) klass :
  (kIsDebugBuild = true → settled heap klass) →
  (if kIsDebugBuild then
     let! c := deref heap klass in
     CHECK (IsResolved c || IsErroneous c)
   else Done ()) = Done ().
Proof.
  intros H. destruct kIsDebugBuild; [|done].
  destruct (H eq_refl) as (c & Hc & Hok). rewrite (deref_Some _ _ _ Hc). simpl.
  by rewrite Hok.
Qed.

(** X24: [ResolveType] remembers what it has resolved.  When the slot of
    the type index is empty and [FindClass] finds the class, the class is
    returned and written to the slot; from then on [ResolveType] for the
    index answers that class from the dex cache, for any loader and without
    asking [FindClass], and changes nothing.  The other slots of the cache
    stay as they are. *)
Theorem ResolveType_memoizes
    (kIsDebugBuild : bool)
    (FindClass : Heap → Thread → string → option Addr → option Addr * Heap * Thread)
    (IsInstanceOf_ClassNotFoundException : Throwable → bool)
    (dex_cache : DexCache) (type_idx : nat) (class_loader : option Addr)
    (heap : Heap) (self : Thread) (descriptor_ : string) (klass : Addr)
    (heap' : Heap) (self' : Thread) :
  resolved_types dex_cache !! type_idx = Some None →
  type_ids dex_cache !! type_idx = Some descriptor_ →
  FindClass heap self descriptor_ class_loader = (Some klass, heap', self') →
  (kIsDebugBuild = true → settled heap' klass) →
  let dex_cache' := SetResolvedType dex_cache type_idx klass in
  ResolveType kIsDebugBuild FindClass IsInstanceOf_ClassNotFoundException
    dex_cache type_idx class_loader heap self
  = Done (Some klass, dex_cache', heap', self')
  ∧ (∀ FindClass2 loader2 heap2 self2,
       (kIsDebugBuild = true → settled heap2 klass) →
       ResolveType kIsDebugBuild FindClass2 IsInstanceOf_ClassNotFoundException
         dex_cache' type_idx loader2 heap2 self2
       = Done (Some klass, dex_cache', heap2, self2))
  ∧ (∀ other, other ≠ type_idx →
       resolved_types dex_cache' !! other = resolved_types dex_cache !! other)
  ∧ type_ids dex_cache' = type_ids dex_cache.
Proof.
  intros Hslot Hid Hfind Hdebug dex_cache'. split_and!.
  - unfold ResolveType, GetResolvedType, StringByTypeIdx. rewrite Hslot, Hid.
    cbn [exec_bind]. rewrite Hfind. cbn [exec_bind].
    by rewrite (debug_check_passes _ _ _ Hdebug).
  - intros FindClass2 loader2 heap2 self2 Hdebug2.
    unfold ResolveType, GetResolvedType. cbn [resolved_types dex_cache' SetResolvedType].
    rewrite list_lookup_insert_eq by by apply lookup_lt_Some in Hslot.
    cbn [exec_bind]. by rewrite (debug_check_passes _ _ _ Hdebug2).
  - intros other Hne. simpl. by apply list_lookup_insert_ne.
  - done.
Qed.

(** X25: a resolution that fails is not remembered.  When [FindClass]
    finds nothing, [ResolveType] returns null and leaves the dex cache as it
    was; a pending [ClassNotFoundException] is replaced by a
    [NoClassDefFoundError] ("Failed resolution of: " and the descriptor)
    that has it as its cause, any other pending exception stays; and a
    failure of [FindClass] without a pending exception brings the process
    down. *)
Theorem ResolveType_failure_is_not_cached
    (kIsDebugBuild : bool)
    (FindClass : Heap → Thread → string → option Addr → option Addr * Heap * Thread)
    (IsInstanceOf_ClassNotFoundException : Throwable → bool)
    (dex_cache : DexCache) (type_idx : nat) (class_loader : option Addr)
    (heap : Heap) (self : Thread) (descriptor_ : string)
    (heap' : Heap) (self' : Thread) :
  resolved_types dex_cache !! type_idx = Some None →
  type_ids dex_cache !! type_idx = Some descriptor_ →
  FindClass heap self descriptor_ class_loader = (None, heap', self') →
  (exception_ self' = None →
   ResolveType kIsDebugBuild FindClass IsInstanceOf_ClassNotFoundException
     dex_cache type_idx class_loader heap self = Fatal)
  ∧ ∀ e, exception_ self' = Some e →
      ResolveType kIsDebugBuild FindClass IsInstanceOf_ClassNotFoundException
        dex_cache type_idx class_loader heap self
      = Done (None, dex_cache, heap',
              if IsInstanceOf_ClassNotFoundException e
              then SetException self'
                     (Some {| exception_class := "Ljava/lang/NoClassDefFoundError;";
                              detail_message :=
                                Some ("Failed resolution of: " +:+ descriptor_);
                              cause := Some e |})
              else self').
Proof.
  intros Hslot Hid Hfind.
  assert (Hrun : ResolveType kIsDebugBuild FindClass IsInstanceOf_ClassNotFoundException
                   dex_cache type_idx class_loader heap self
                 = let! r :=
                     (let! _ := CHECK (IsExceptionPending self') in
                      match exception_ self' with
                      | Some cause_ =>
                          if IsInstanceOf_ClassNotFoundException cause_ then
                            let self := SetException self' None in
                            let! self :=
                              ThrowNoClassDefFoundError self
                                ("Failed resolution of: " +:+ descriptor_) in
                            Done (None, dex_cache, heap', SetCause self cause_)
                          else Done (None, dex_cache, heap', self')
                      | None => Fatal
                      end) in
                   let '(resolved, dex_cache, heap, self) := r in
                   let! _ :=
                     (if kIsDebugBuild then
                        match resolved with
                        | Some resolved =>
                            let! c := deref heap resolved in
                            CHECK (IsResolved c || IsErroneous c)
                        | None => Done ()
                        end
                      else Done ()) in
                   Done (resolved, dex_cache, heap, self)).
  { unfold ResolveType, GetResolvedType, StringByTypeIdx. rewrite Hslot, Hid.
    cbn [exec_bind]. by rewrite Hfind. }
  rewrite Hrun. split.
  - intros Hnone. by rewrite (IsExceptionPending_None _ Hnone).
  - intros e He. rewrite (IsExceptionPending_Some _ _ He), He. cbn [CHECK exec_bind].
    destruct (IsInstanceOf_ClassNotFoundException e).
    + unfold ThrowNoClassDefFoundError. rewrite ThrowNewException_fresh by done.
      cbn [exec_bind]. by destruct kIsDebugBuild.
    + cbn [exec_bind]. by destruct kIsDebugBuild.
Qed.

(** *** The theorems at work *)

Lemma ResolveType_memoizes_witness :
  ResolveType false finds_X is_class_not_found cold_cache 0 None (heap_X kStatusResolved)
    main_thread
  = Done (Some 1%N, SetResolvedType cold_cache 0 1%N, heap_X kStatusResolved, main_thread)
  ∧ ResolveType false (λ heap self _ _, (None, heap, self)) is_class_not_found
      (SetResolvedType cold_cache 0 1%N) 0 None (heap_X kStatusResolved) main_thread
    = Done (Some 1%N, SetResolvedType cold_cache 0 1%N, heap_X kStatusResolved,
            main_thread).
Proof.
  destruct (ResolveType_memoizes false finds_X is_class_not_found cold_cache 0 None
              (heap_X kStatusResolved) main_thread "LX;" 1%N (heap_X kStatusResolved)
              main_thread) as (Hfirst & Hagain & _).
  - reflexivity.
  - reflexivity.
  - reflexivity.
  - intros Hdebug. discriminate Hdebug.
  - split; [exact Hfirst|]. apply Hagain. intros Hdebug. discriminate Hdebug.
Defined.

Lemma ResolveType_failure_is_not_cached_witness :
  ResolveType false finds_X is_class_not_found cold_cache 1 None (heap_X kStatusResolved)
    main_thread
  = Done (None, cold_cache, heap_X kStatusResolved,
          SetException main_thread
            (Some {| exception_class := "Ljava/lang/NoClassDefFoundError;";
                     detail_message := Some "Failed resolution of: LMissing;"%string;
                     cause :=
                       Some {| exception_class := "Ljava/lang/ClassNotFoundException;";
                               detail_message := Some "LMissing;"%string;
                               cause := None |} |})).
Proof.
  destruct (ResolveType_failure_is_not_cached false finds_X is_class_not_found cold_cache
              1 None (heap_X kStatusResolved) main_thread "LMissing;"
              (heap_X kStatusResolved)
              (SetException main_thread
                 (Some {| exception_class := "Ljava/lang/ClassNotFoundException;";
                          detail_message := Some "LMissing;"%string; cause := None |})))
    as [_ Hthrown].
  - reflexivity.
  - reflexivity.
  - reflexivity.
  - exact (Hthrown _ eq_refl).
Defined.

End TypeResolutionProofs.

(** ** [VerifyClass] *)

Module VerificationProofs.
Import Resolution ResolutionProofs TypeResolution Verification.

Lemma verify_bind_Done {A B} (m : Exec A) (k : A → Exec B) (b : B) :
  exec_bind m k = Done b → ∃ a, m = Done a ∧ k a = Done b.
Proof. destruct m; simpl; [eauto|done|done]. Qed.

Lemma set_status_Done (heap : Heap) klass st heap' :
  set_status heap klass st = Done heap' →
  ∃ c, heap !! klass = Some c ∧ heap' = store heap klass (SetStatus c st).
Proof.
  unfold set_status. intros (c & Hc & H)%verify_bind_Done.
  unfold deref in Hc. destruct (heap !! klass) as [c'|] eqn:Hk; simplify_eq.
  by exists c.
Qed.

Lemma set_status_status (heap : Heap) klass st heap' :
  set_status heap klass st = Done heap' →
  ∃ c', heap' !! klass = Some c' ∧ status c' = st.
Proof.
  intros (c & Hc & ->)%set_status_Done. exists (SetStatus c st).
  split; [apply lookup_store_eq|done].
Qed.

Lemma ThrowVerifyError_pending self msg self' :
  ThrowVerifyError self msg = Done self' → IsExceptionPending self' = true.
Proof.
  unfold ThrowVerifyError, ThrowNewException.
  intros (? & _ & H)%verify_bind_Done. simplify_eq. done.
Qed.

Lemma SetCause_pending self e :
  IsExceptionPending self = true → IsExceptionPending (SetCause self e) = true.
Proof.
  unfold IsExceptionPending, SetCause. simpl.
  intros H%bool_decide_eq_true. apply bool_decide_eq_true.
  by destruct (exception_ self).
Qed.

Lemma ThrowEarlierClassFailure_pending PrettyDescriptor (heap : Heap) self klass self' :
  ThrowEarlierClassFailure PrettyDescriptor heap self klass = Done self' →
  IsExceptionPending self' = true.
Proof.
  unfold ThrowEarlierClassFailure. intros (c & _ & H)%verify_bind_Done.
  apply verify_bind_Done in H as (? & _ & H).
  destruct (verify_error_class c).
  - apply verify_bind_Done in H as (? & _ & H). unfold ThrowNewException in H.
    apply verify_bind_Done in H as (? & _ & H). by simplify_eq.
  - unfold ThrowNewException in H.
    apply verify_bind_Done in H as (? & _ & H). by simplify_eq.
Qed.

Section runtime.
Context (IsVerificationEnabled : bool) (PrettyDescriptor : string → string)
  (VerifyClassUsingOatFile : Heap → Addr → bool * Status)
  (MethodVerifier_VerifyClass : Heap → Addr → bool → FailureKind * string)
  (ResolveClassExceptionHandlerTypes : Heap → Thread → Addr → Heap * Thread).

Local Abbreviation VerifyClass_at_runtime :=
  (VerifyClass false IsVerificationEnabled PrettyDescriptor VerifyClassUsingOatFile
     MethodVerifier_VerifyClass ResolveClassExceptionHandlerTypes).

Lemma verified_status (c : Class) :
  IsCompileTimeVerified c = true → IsVerified c = true ∨ status c = kStatusError →
  IsVerified c = true.
Proof.
  intros Hct [Hv| Herr]; [done|]. unfold IsCompileTimeVerified in Hct.
  by rewrite Herr in Hct.
Qed.

(** X26: when it is not the compiler that runs, [VerifyClass] leaves the
    class verified, or erroneous with an exception pending: it never returns
    with the class in one of the states in between, and so the checks that
    [InitializeClass] makes after the call hold.  (The resolution of the
    types of the catch blocks is taken to leave the status of every class
    as it is.) *)
Theorem VerifyClass_verified_or_failed
    (depth : nat) (heap : Heap) (self : Thread) (klass : Addr) (log : list Event)
    (heap' : Heap) (self' : Thread) (log' : list Event) :
  keeps_statuses ResolveClassExceptionHandlerTypes →
  VerifyClass_at_runtime depth heap self klass log = Done (heap', self', log') →
  verified_or_failed heap' self' klass.
Proof.
  intros Hkeeps. revert heap self klass log heap' self' log'.
  induction depth as [|depth IH]; intros heap self klass log heap' self' log' H; [done|].
  cbn [VerifyClass] in H.
  apply verify_bind_Done in H as (c & Hc & H).
  unfold deref in Hc. destruct (heap !! klass) as [c0|] eqn:Hk; simplify_eq.
  rewrite andb_false_r, orb_false_r in H.
  destruct (IsVerified c) eqn:Hver.
  { simplify_eq. exists c. split; [done|by left]. }
  destruct (IsErroneous c) eqn:Herr.
  { apply verify_bind_Done in H as (s1 & Hthrow & H). simplify_eq.
    exists c. split; [done|]. right. split.
    - unfold IsErroneous, status_IsErroneous in Herr. by apply bool_decide_eq_true in Herr.
    - by eapply ThrowEarlierClassFailure_pending. }
  apply verify_bind_Done in H as (heap1 & _ & H).
  destruct IsVerificationEnabled.
  2:{ cbn [negb] in H. apply verify_bind_Done in H as (heap2 & Hset & H). simplify_eq.
      apply set_status_status in Hset as (c' & Hc' & Hst).
      exists c'. split; [done|]. left. unfold IsVerified. by rewrite Hst. }
  cbn [negb] in H.
  apply verify_bind_Done in H as (c1 & _ & H).
  apply verify_bind_Done in H as (checked & Hchecked & H).
  (* the superclass is verified when the check lets the class through *)
  assert (Hsuper : match checked with
                   | inl (h, s, l) => verified_or_failed h s klass
                   | inr (h, s, l) =>
                       ∀ super, super_class c1 = Some super →
                         ∃ sc, h !! super = Some sc ∧ IsVerified sc = true
                   end).
  { destruct (super_class c1) as [super|]; [|by simplify_eq].
    apply verify_bind_Done in Hchecked as (sc0 & Hsc0 & Hchecked).
    apply verify_bind_Done in Hchecked as ([[h2 s2] l2] & Hrec & Hchecked).
    apply verify_bind_Done in Hchecked as (sc & Hsc & Hchecked).
    unfold deref in Hsc. destruct (h2 !! super) as [sc'|] eqn:Hs2; simplify_eq.
    assert (Hsc_ok : IsVerified sc = true ∨ status sc = kStatusError).
    { destruct (negb (IsVerified sc0) && negb (IsErroneous sc0)) eqn:Hneed.
      - apply IH in Hrec as (sc2 & Hsc2 & Hok). simplify_eq.
        destruct Hok as [Hok|[Hok _]]; [by left|by right].
      - simplify_eq. unfold deref in Hsc0. rewrite Hs2 in Hsc0. simplify_eq.
        destruct (IsVerified sc0); [by left|]. destruct (IsErroneous sc0) eqn:He; [|done].
        right. unfold IsErroneous, status_IsErroneous in He.
        by apply bool_decide_eq_true in He. }
    destruct (IsCompileTimeVerified sc) eqn:Hct; cbn [negb] in Hchecked.
    - simplify_eq. intros super' [= <-]. exists sc. split; [done|].
      by apply verified_status.
    - apply verify_bind_Done in Hchecked as (c2 & _ & Hchecked).
      apply verify_bind_Done in Hchecked as (s3 & Hthrow & Hchecked).
      apply verify_bind_Done in Hchecked as (h3 & Hset & Hchecked). simplify_eq.
      apply set_status_status in Hset as (c' & Hc' & Hst).
      exists c'. split; [done|]. right. split; [done|].
      apply ThrowVerifyError_pending in Hthrow.
      destruct (exception_ s2); [by apply SetCause_pending|done]. }
  destruct checked as [[[h s] l]|[[h s] l]]; [by simplify_eq|].
  destruct (VerifyClassUsingOatFile h klass) as [preverified oat_status].
  case_bool_decide as Hoat.
  { apply verify_bind_Done in H as (c2 & _ & H).
    apply verify_bind_Done in H as (s3 & Hthrow & H).
    apply verify_bind_Done in H as (h3 & Hset & H). simplify_eq.
    apply set_status_status in Hset as (c' & Hc' & Hst).
    exists c'. split; [done|]. right. split; [done|].
    by eapply ThrowVerifyError_pending. }
  destruct (if negb preverified then MethodVerifier_VerifyClass h klass false
            else (kNoFailure, EmptyString)) as [failure error_msg].
  apply verify_bind_Done in H as ([[h4 s4] f4] & Hmain & H). simplify_eq.
  destruct (preverified || negb (bool_decide (failure = kHardFailure))).
  - apply verify_bind_Done in Hmain as (? & _ & Hmain).
    pose proof (Hkeeps h s klass) as Hkept.
    destruct (ResolveClassExceptionHandlerTypes h s klass) as [h5 s5]. simpl in Hkept.
    case_bool_decide as Hno.
    + apply verify_bind_Done in Hmain as (super_verified & Hsv & Hmain).
      assert (super_verified = true) as ->.
      { destruct (super_class c1) as [super|]; [|by simplify_eq].
        destruct (Hsuper super eq_refl) as (sc & Hsc & Hv).
        destruct (Hkept super sc Hsc) as (sc' & Hsc' & Hst).
        rewrite (deref_Some _ _ _ Hsc') in Hsv. cbn [exec_bind] in Hsv.
        unfold IsVerified in Hsv, Hv. rewrite Hst, Hv in Hsv. by simplify_eq. }
      apply verify_bind_Done in Hmain as (h6 & Hset & Hmain). simplify_eq.
      apply set_status_status in Hset as (c' & Hc' & Hst).
      exists c'. split; [done|]. left. unfold IsVerified. by rewrite Hst.
    + apply verify_bind_Done in Hmain as (? & _ & Hmain).
      apply verify_bind_Done in Hmain as (h6 & Hset & Hmain). simplify_eq.
      apply set_status_status in Hset as (c' & Hc' & Hst).
      exists c'. split; [done|]. left. unfold IsVerified. by rewrite Hst.
  - apply verify_bind_Done in Hmain as (? & _ & Hmain).
    apply verify_bind_Done in Hmain as (s5 & Hthrow & Hmain).
    apply verify_bind_Done in Hmain as (h6 & Hset & Hmain). simplify_eq.
    apply set_status_status in Hset as (c' & Hc' & Hst).
    exists c'. split; [done|]. right. split; [done|].
    by eapply ThrowVerifyError_pending.
Qed.

End runtime.


(** *** The theorems at work *)

Lemma VerifyClass_verified_or_failed_witness :
  verified_or_failed
    (store (store (heap_X kStatusResolved) 1%N (class_X kStatusVerifying)) 1%N
       (class_X kStatusVerified))
    main_thread 1%N.
Proof.
  apply (VerifyClass_verified_or_failed false id oat_knows_nothing verifier_passes
           no_values 1 (heap_X kStatusResolved) main_thread 1%N [] _ _ []).
  - intros heap self klass a c Hc. by exists c.
  - cbn [VerifyClass]. rewrite (deref_Some _ _ _ (heap_X_lookup _)). cbn [exec_bind].
    change (IsVerified (class_X kStatusResolved)) with false.
    change (IsErroneous (class_X kStatusResolved)) with false.
    cbn [orb andb negb]. cbv iota.
    change (bool_decide (status (class_X kStatusResolved) = kStatusResolved)) with true.
    cbv iota. unfold set_status at 1.
    rewrite (deref_Some _ _ _ (heap_X_lookup _)). cbn [exec_bind].
    unfold set_status. rewrite (deref_Some _ _ _ (lookup_store_eq _ _ _)).
    reflexivity.
Defined.




End VerificationProofs.
